(** * StxTyper: the alignment-interpretation and operon-assembly engine

    A shallow embedding of [stxtyper.cpp].  The C++ objects become records,
    [size_t] becomes [Z] with the wrap-around of 64-bit arithmetic written
    out, [double] becomes the kernel's binary64 floats, [std::string] becomes
    [string], and the hits that the program reaches through pointers live in
    a heap indexed by address.  Code that can throw ([QC_ASSERT], [ASSERT],
    a string longer than a string can be) runs in an error monad.  The
    globals that the code reads are arguments: [qc_on], the switch of the
    checks; [logPtr], whether the program was given a log stream; and
    [input_name]. *)

From Stdlib Require Import ZArith List String Ascii Bool Lia.
From Stdlib Require Import Floats.PrimFloat Numbers.Cyclic.Int63.Uint63.
From Stdlib Require Import Floats.SpecFloat Floats.FloatOps Floats.FloatAxioms.
From Stdlib Require Import Sorting.Sorted Sorting.Permutation.
From Stdlib Require Import Structures.OrderedTypeEx.
Import ListNotations.

Set Warnings "-inexact-float".
Local Open Scope string_scope.
Local Open Scope Z_scope.

(** ** Machine data *)

(** [size_t] on the 64-bit targets the program is built for. *)
Definition size_t_bits : Z := 64.
Definition wrap (z : Z) : Z := z mod 2 ^ size_t_bits.
Definition size_add (a b : Z) : Z := wrap (a + b).
Definition size_sub (a b : Z) : Z := wrap (a - b).
Definition size_mul (a b : Z) : Z := wrap (a * b).

(** [(int) x] for a [size_t] [x]: the low 32 bits, read as two's complement. *)
Definition to_int (z : Z) : Z :=
  let r := z mod 2 ^ 32 in if r <? 2 ^ 31 then r else r - 2 ^ 32.

(** [(double) x] for a [size_t] [x].  The kernel converts 63-bit integers;
    a value with the top bit set is halved with a sticky low bit and doubled
    back, which rounds the same way. *)
Definition to_double (z : Z) : float :=
  if z <? 2 ^ 63 then PrimFloat.of_uint63 (Uint63.of_Z z)
  else PrimFloat.mul 2%float
         (PrimFloat.of_uint63 (Uint63.of_Z (Z.lor (Z.shiftr z 1) (Z.land z 1)))).

(** [char] is signed on the supported platforms; [operator<] on two [char]s
    compares the signed values. *)
Definition char_value (c : ascii) : Z :=
  let n := Z.of_N (N_of_ascii c) in if n <? 128 then n else n - 256.
Definition char_lt (a b : ascii) : bool := char_value a <? char_value b.

(** [false < true] on [bool]. *)
Definition bool_lt (a b : bool) : bool := negb a && b.

(** [s [i]] on a [const std::string]: the character, the terminating NUL at
    [i = size ()], and undefined beyond, rendered as [None]. *)
Definition at_ (s : string) (i : nat) : option ascii :=
  match String.get i s with
  | Some c => Some c
  | None => if Nat.eqb i (String.length s) then Some Ascii.zero else None
  end.

(** [string (n, c)]. *)
Fixpoint string_of_count (n : nat) (c : ascii) : string :=
  match n with
  | O => EmptyString
  | S n' => String c (string_of_count n' c)
  end.

(** What [TsvOut] receives through [operator<<], one cell at a time. *)
Inductive cell : Type :=
| Str (s : string)
| Num (n : Z)
| Dbl (x : float)
| Chr (c : ascii).

Definition Row : Type := list cell.

(** ** Failure *)

Inductive error : Type :=
| QC_ASSERT_failed (what : string)
| ASSERT_failed (what : string)
| out_of_range (what : string)
| length_error (what : string).

Inductive result (A : Type) : Type :=
| OK (a : A)
| Err (e : error).
Arguments OK {A} a.
Arguments Err {A} e.

Definition bind {A B : Type} (r : result A) (k : A -> result B) : result B :=
  match r with
  | OK a => k a
  | Err e => Err e
  end.

Definition QC_ASSERT (what : string) (b : bool) : result unit :=
  if b then OK tt else Err (QC_ASSERT_failed what).
Definition ASSERT (what : string) (b : bool) : result unit :=
  if b then OK tt else Err (ASSERT_failed what).

Declare Scope result_scope.
Delimit Scope result_scope with result.
Notation "x <- r ;; k" := (bind r (fun x => k))
  (at level 61, r at next level, right associativity) : result_scope.
Notation "r ;;; k" := (bind r (fun _ => k))
  (at level 61, right associativity) : result_scope.
Local Open Scope result_scope.

(** The largest size of a [std::string] on the 64-bit targets,
    [max_size ()].  A longer string is never built: the constructor and
    [operator+=] throw [std::length_error] instead. *)
Definition string_max_size : Z := 2 ^ 62 - 1.

(** [string (n, c)] for a [size_t] [n]. *)
Definition string_of_size (n : Z) (c : ascii) : result string :=
  if n <=? string_max_size then OK (string_of_count (Z.to_nat n) c)
  else Err (length_error "basic_string::_M_create").

(** [s += t]. *)
Definition string_append (s t : string) : result string :=
  if Z.of_nat (String.length s + String.length t) <=? string_max_size
  then OK (s ++ t)%string
  else Err (length_error "basic_string::append").

(** ** Parameters of the program *)

Definition intergenic_max : Z := 36.
Definition slack : Z := 30.
Definition stxS : string := "stx".
Definition noString : string := "".

(** The table [stxClass2identity] as [shellBody] fills it.  [operator[]] on a
    class that is absent yields a fresh [0.0]. *)
Definition stxClass2identity_table : list (string * float) :=
  [ ("1a", 0.983%float); ("1c", 0.983%float); ("1d", 0.983%float);
    ("1e", 0.983%float); ("2", 0.98%float); ("2b", 0.98%float);
    ("2e", 0.98%float); ("2f", 0.98%float); ("2g", 0.98%float);
    ("2h", 0.98%float); ("2i", 0.98%float); ("2j", 0.98%float);
    ("2k", 0.985%float); ("2l", 0.985%float); ("2m", 0.98%float);
    ("2n", 0.98%float); ("2o", 0.98%float) ].

Definition contains_class (c : string) : bool :=
  existsb (fun kv => String.eqb (fst kv) c) stxClass2identity_table.

Definition stxClass2identity (c : string) : float :=
  match find (fun kv => String.eqb (fst kv) c) stxClass2identity_table with
  | Some kv => snd kv
  | None => 0%float
  end.

(** ** Helpers of [common.hpp] *)

(** Modelled from the spec: [rfindSplit] of [common.hpp] is not among the
    sources.  The subject id is split at the last delimiter: the part after
    it is returned and the part before it is what remains; a string without
    the delimiter is returned whole and nothing remains. *)
Fixpoint rfindSplit (s : string) (c : ascii) : string * string :=
  match s with
  | EmptyString => (EmptyString, EmptyString)
  | String a s' =>
      let (after, before) := rfindSplit s' c in
      if existsb (Ascii.eqb c) (list_ascii_of_string s')
      then (after, String a before)
      else if Ascii.eqb a c then (s', EmptyString)
      else (s, EmptyString)
  end.

(** Modelled from the spec: [isLeft] of [common.hpp] is not among the
    sources; the family code must begin with the toxin prefix. *)
Definition isLeft (s left : string) : bool := String.prefix left s.

(** [LESS_PART (a, b, f)] of [common.hpp]: decide on the field when it
    differs, fall through to the next part when it ties. *)
Definition LESS_PART {K : Type} (lt : K -> K -> bool) (x y : K) (next : bool)
  : bool :=
  if lt x y then true else if lt y x then false else next.

(** ** Alignment hits *)

(** What [iss >> targetName >> sseqid >> ... >> refSeq] leaves in its ten
    operands.  The numbers are [size_t] values; when an extraction fails the
    operands after it, [targetSeq] among them, stay empty. *)
Record Line : Type := mkLine {
  l_targetName : string;
  l_sseqid : string;
  l_targetStart : Z;
  l_targetEnd : Z;
  l_targetLen : Z;
  l_refStart : Z;
  l_refEnd : Z;
  l_refLen : Z;
  l_targetSeq : string;
  l_refSeq : string
}.

Module BlastAlignment.

Record t : Type := mk {
  length : Z;
  nident : Z;
  refStart : Z;
  refEnd : Z;
  refLen : Z;
  targetStart : Z;
  targetEnd : Z;
  targetLen : Z;
  stopCodon : bool;
  frameshift : bool;
  targetName : string;
  targetSeq : string;
  targetStrand : bool;
  refAccession : string;
  refSeq : string;
  stxType : string;
  stxClass : string;
  stxSuperClass : string;
  subunit : ascii;
  reported : bool
}.

Definition size (s : string) : Z := Z.of_nat (String.length s).

(** The loop that counts the columns where both sequences agree. *)
Fixpoint count_identical (targetSeq refSeq : string) : Z :=
  match targetSeq, refSeq with
  | String a ts, String b rs =>
      (if Ascii.eqb a b then 1 else 0) + count_identical ts rs
  | _, _ => 0
  end.

(** [targetSeq. find ('*')]. *)
Definition find_char (s : string) (c : ascii) : option nat :=
  String.index 0 (String c EmptyString) s.

(** The constructor [BlastAlignment (const string &line)], from the
    operands of the extraction on. *)
Definition of_line (line : Line) : result t :=
  let targetSeq := l_targetSeq line in
  let refSeq := l_refSeq line in
  QC_ASSERT "! targetSeq. empty ()" (negb (String.eqb targetSeq "")) ;;;
  let (famId, sseqid1) := rfindSplit (l_sseqid line) "|"%char in
  let (refAccession, _) := rfindSplit sseqid1 "|"%char in
  QC_ASSERT "famId. size () == 6" (size famId =? 6) ;;;
  QC_ASSERT "isLeft (famId, stxS)" (isLeft famId stxS) ;;;
  subunit <- match at_ famId 3 with
             | Some c => OK c
             | None => Err (out_of_range "famId [3]")
             end ;;
  let stxType := String.substring 4 (String.length famId - 4) famId in
  ASSERT "stxType. size () == 2" (size stxType =? 2) ;;;
  let length := size targetSeq in
  QC_ASSERT "targetSeq. size () == refSeq. size ()"
            (size targetSeq =? size refSeq) ;;;
  let nident := count_identical targetSeq refSeq in
  let stxClass :=
    if String.eqb stxType "2a" || String.eqb stxType "2c"
       || String.eqb stxType "2d"
    then "2" else stxType in
  let stxSuperClass := String.substring 0 1 stxClass in
  let refStart := l_refStart line in
  let refEnd := l_refEnd line in
  QC_ASSERT "refStart < refEnd" (refStart <? refEnd) ;;;
  QC_ASSERT "targetStart != targetEnd"
            (negb (l_targetStart line =? l_targetEnd line)) ;;;
  let targetStrand := l_targetStart line <? l_targetEnd line in
  let targetStart :=
    if targetStrand then l_targetStart line else l_targetEnd line in
  let targetEnd :=
    if targetStrand then l_targetEnd line else l_targetStart line in
  QC_ASSERT "refStart >= 1" (1 <=? refStart) ;;;
  QC_ASSERT "targetStart >= 1" (1 <=? targetStart) ;;;
  let refStart := size_sub refStart 1 in
  let targetStart := size_sub targetStart 1 in
  let stopCodon :=
    match find_char targetSeq "*"%char with
    | Some stopCodonPos =>
        size_add (Z.of_nat stopCodonPos) 1 <? size targetSeq
    | None => false
    end in
  OK {| length := length; nident := nident;
        refStart := refStart; refEnd := refEnd; refLen := l_refLen line;
        targetStart := targetStart; targetEnd := targetEnd;
        targetLen := l_targetLen line;
        stopCodon := stopCodon; frameshift := false;
        targetName := l_targetName line; targetSeq := targetSeq;
        targetStrand := targetStrand;
        refAccession := refAccession; refSeq := refSeq;
        stxType := stxType; stxClass := stxClass;
        stxSuperClass := stxSuperClass;
        subunit := subunit; reported := false |}.

Definition getFrame (al : t) : Z := size_add (targetStart al mod 3) 1.
Definition getIdentity (al : t) : float :=
  PrimFloat.div (to_double (nident al)) (to_double (length al)).
Definition getAbsCoverage (al : t) : Z := size_sub (refEnd al) (refStart al).
Definition getRelCoverage (al : t) : float :=
  PrimFloat.div (to_double (getAbsCoverage al)) (to_double (refLen al)).
Definition getDiff (al : t) : Z :=
  size_add (size_add (refStart al) (size_sub (refLen al) (refEnd al)))
           (size_sub (length al) (nident al)).

Definition truncated (al : t) : bool :=
     (targetStart al <=? 3)
     && ((targetStrand al && negb (refStart al =? 0))
         || (negb (targetStrand al) && (size_add (refEnd al) 1 <? refLen al)))
  || (size_sub (targetLen al) (targetEnd al) <=? 3)
     && ((targetStrand al && (size_add (refEnd al) 1 <? refLen al))
         || (negb (targetStrand al) && negb (refStart al =? 0))).

Definition missed_max : Z := size_add intergenic_max (size_mul 3 20).

Definition otherTruncated (al : t) : bool :=
     Bool.eqb (targetStrand al) (Ascii.eqb (subunit al) "B"%char)
     && (targetStart al <=? missed_max)
  || Bool.eqb (targetStrand al) (Ascii.eqb (subunit al) "A"%char)
     && (size_sub (targetLen al) (targetEnd al) <=? missed_max).

Definition getExtended (al : t) : bool :=
  (refStart al =? 0) && (size_add (refEnd al) 1 =? refLen al).

Definition insideEq (al other : t) : bool :=
  (targetStart other <=? targetStart al) && (targetEnd al <=? targetEnd other).

(** [qc ()], under the run-wide switch [qc_on]. *)
Definition qc (qc_on : bool) (al : t) : result unit :=
  if negb qc_on then OK tt else
  QC_ASSERT "length" (negb (length al =? 0)) ;;;
  QC_ASSERT "nident" (negb (nident al =? 0)) ;;;
  QC_ASSERT "nident <= length" (nident al <=? length al) ;;;
  QC_ASSERT "targetStart < targetEnd" (targetStart al <? targetEnd al) ;;;
  QC_ASSERT "targetEnd <= targetLen" (targetEnd al <=? targetLen al) ;;;
  QC_ASSERT "refStart < refEnd" (refStart al <? refEnd al) ;;;
  QC_ASSERT "refEnd <= refLen" (refEnd al <=? refLen al) ;;;
  (if negb (frameshift al) then
     QC_ASSERT "nident <= refEnd - refStart"
               (nident al <=? size_sub (refEnd al) (refStart al)) ;;;
     QC_ASSERT "refEnd - refStart <= length"
               (size_sub (refEnd al) (refStart al) <=? length al)
   else OK tt) ;;;
  QC_ASSERT "! targetName. empty ()" (negb (String.eqb (targetName al) "")) ;;;
  QC_ASSERT "contains (stxClass2identity, stxClass)"
            (contains_class (stxClass al)) ;;;
  QC_ASSERT "isLeft (stxType, stxClass)" (isLeft (stxType al) (stxClass al)) ;;;
  QC_ASSERT "subunit == 'A' || subunit == 'B'"
            (Ascii.eqb (subunit al) "A"%char || Ascii.eqb (subunit al) "B"%char) ;;;
  QC_ASSERT "! refAccession. empty ()"
            (negb (String.eqb (refAccession al) "")) ;;;
  QC_ASSERT "! targetSeq. empty ()" (negb (String.eqb (targetSeq al) "")) ;;;
  QC_ASSERT "! refSeq. empty ()" (negb (String.eqb (refSeq al) "")) ;;;
  QC_ASSERT "targetSeq. size () == refSeq. size ()"
            (size (targetSeq al) =? size (refSeq al)) ;;;
  QC_ASSERT "length == targetSeq. size ()"
            (implb (negb (frameshift al)) (length al =? size (targetSeq al))) ;;;
  QC_ASSERT "stxType. size () == 2" (size (stxType al) =? 2).

(** [merge (prev)]: the later hit absorbs the earlier one. *)
Definition merge (al prev : t) : result t :=
  ASSERT "targetName == prev. targetName"
         (String.eqb (targetName al) (targetName prev)) ;;;
  ASSERT "refAccession == prev. refAccession"
         (String.eqb (refAccession al) (refAccession prev)) ;;;
  ASSERT "targetStrand == prev. targetStrand"
         (Bool.eqb (targetStrand al) (targetStrand prev)) ;;;
  ASSERT "targetLen == prev. targetLen" (targetLen al =? targetLen prev) ;;;
  ASSERT "refLen == prev. refLen" (refLen al =? refLen prev) ;;;
  ASSERT "targetStart > prev. targetStart"
         (targetStart prev <? targetStart al) ;;;
  OK {| length := size_add (length al) (length prev);
        nident := size_add (nident al) (nident prev);
        refStart := if targetStrand al then refStart prev else refStart al;
        refEnd := if targetStrand al then refEnd al else refEnd prev;
        refLen := refLen al;
        targetStart := targetStart prev;
        targetEnd := targetEnd al;
        targetLen := targetLen al;
        stopCodon := if stopCodon prev then true else stopCodon al;
        frameshift := true;
        targetName := targetName al; targetSeq := targetSeq al;
        targetStrand := targetStrand al;
        refAccession := refAccession al; refSeq := refSeq al;
        stxType := stxType al; stxClass := stxClass al;
        stxSuperClass := stxSuperClass al;
        subunit := subunit al; reported := reported al |}.

(** The assignment [reported = true] through [var_cast]. *)
Definition mark_reported (al : t) : t :=
  {| length := length al; nident := nident al;
     refStart := refStart al; refEnd := refEnd al; refLen := refLen al;
     targetStart := targetStart al; targetEnd := targetEnd al;
     targetLen := targetLen al;
     stopCodon := stopCodon al; frameshift := frameshift al;
     targetName := targetName al; targetSeq := targetSeq al;
     targetStrand := targetStrand al;
     refAccession := refAccession al; refSeq := refSeq al;
     stxType := stxType al; stxClass := stxClass al;
     stxSuperClass := stxSuperClass al;
     subunit := subunit al; reported := true |}.

(** The loop of [refMap]: column [i] of the target is copied wherever the
    reference has a residue.  The columns are collected here and appended
    in [refMap]. *)
Fixpoint refMap_columns (targetSeq : string) (i : nat) (refSeq_rest : string)
  : result string :=
  match refSeq_rest with
  | EmptyString => OK EmptyString
  | String r rest =>
      s <- refMap_columns targetSeq (S i) rest ;;
      if Ascii.eqb r "-"%char then OK s
      else match at_ targetSeq i with
           | Some c => OK (String c s)
           | None => Err (out_of_range "targetSeq [i]")
           end
  end.

(** [len - refEnd] is a [size_t] difference: with [refEnd] beyond [len] it
    wraps to a count that no string can hold. *)
Definition refMap (al : t) (len : Z) : result string :=
  QC_ASSERT "refLen <= len" (refLen al <=? len) ;;;
  s <- string_of_size (refStart al) "-"%char ;;
  columns <- refMap_columns (targetSeq al) 0 (refSeq al) ;;
  s <- string_append s columns ;;
  tail <- string_of_size (size_sub len (refEnd al)) "-"%char ;;
  string_append s tail.

Definition frameshiftLess (a b : t) : bool :=
  LESS_PART String.ltb (targetName a) (targetName b)
  (LESS_PART bool_lt (targetStrand a) (targetStrand b)
  (LESS_PART String.ltb (refAccession a) (refAccession b)
  (LESS_PART Z.ltb (targetStart a) (targetStart b)
  (LESS_PART Z.ltb (targetEnd a) (targetEnd b)
   false)))).

Definition sameTypeLess (a b : t) : bool :=
  LESS_PART bool_lt (reported a) (reported b)
  (LESS_PART String.ltb (targetName a) (targetName b)
  (LESS_PART bool_lt (targetStrand a) (targetStrand b)
  (LESS_PART String.ltb (stxClass a) (stxClass b)
  (LESS_PART char_lt (subunit a) (subunit b)
  (LESS_PART Z.ltb (targetStart a) (targetStart b)
  (LESS_PART Z.ltb (getDiff a) (getDiff b)
  (LESS_PART String.ltb (refAccession a) (refAccession b)
   false))))))).

Definition less (a b : t) : bool :=
  LESS_PART String.ltb (targetName a) (targetName b)
  (LESS_PART bool_lt (targetStrand a) (targetStrand b)
  (LESS_PART char_lt (subunit a) (subunit b)
  (LESS_PART Z.ltb (targetStart a) (targetStart b)
  (LESS_PART Z.ltb (getDiff a) (getDiff b)
  (LESS_PART String.ltb (refAccession a) (refAccession b)
   false))))).

Definition reportLess (a b : t) : bool :=
  LESS_PART bool_lt (reported a) (reported b)
  (LESS_PART String.ltb (targetName a) (targetName b)
  (LESS_PART bool_lt (targetStrand a) (targetStrand b)
  (LESS_PART Z.ltb (getAbsCoverage b) (getAbsCoverage a)
  (LESS_PART Z.ltb (getDiff a) (getDiff b)
  (LESS_PART Z.ltb (targetStart a) (targetStart b)
  (LESS_PART String.ltb (refAccession a) (refAccession b)
   false)))))).

(** [saveTsvOut] of a hit that is reported alone. *)
Definition status (verboseP : bool) (al : t) : string :=
  if frameshift al then "FRAMESHIFT"
  else if stopCodon al then "INTERNAL_STOP"
  else if truncated al || otherTruncated al then "PARTIAL_CONTIG_END"
  else if verboseP && PrimFloat.eqb (getRelCoverage al) 1%float
       then "COMPLETE_SUBUNIT"
  else if getExtended al then "EXTENDED"
  else "PARTIAL".

Definition saveTsvOut (input_name : string) (verboseP : bool) (al : t) : Row :=
  let type_cell :=
    (stxS ++ (if verboseP then String (subunit al) (stxType al)
              else match at_ (stxType al) 0 with
                   | Some c => String c EmptyString
                   | None => EmptyString
                   end))%string in
  ((if String.eqb input_name "" then [] else [Str input_name])
   ++ [ Str (targetName al);
        Str type_cell;
        Str (status verboseP al);
        Str noString;
        Num (size_add (targetStart al) 1);
        Num (targetEnd al);
        Chr (if targetStrand al then "+"%char else "-"%char) ]
   ++ (if Ascii.eqb (subunit al) "B"%char
       then [Str noString; Str noString; Str noString] else [])
   ++ [ Str (refAccession al);
        Dbl (PrimFloat.mul (getIdentity al) 100%float);
        Dbl (PrimFloat.mul (getRelCoverage al) 100%float) ]
   ++ (if Ascii.eqb (subunit al) "A"%char
       then [Str noString; Str noString; Str noString] else []))%list.

End BlastAlignment.

(** ** The heap of hits *)

(** [shellBody] allocates every hit once and reaches it afterwards through
    pointers held in [blastAls], [goodBlastAls] and the operons; a write
    through one pointer is seen through every other.  A pointer is an
    address and the heap maps addresses to hits. *)
Definition ptr : Type := nat.
Bind Scope nat_scope with ptr.
Definition Heap : Type := ptr -> BlastAlignment.t.

Definition store (h : Heap) (p : ptr) (al : BlastAlignment.t) : Heap :=
  fun q => if Nat.eqb q p then al else h q.

Definition set_reported (h : Heap) (p : ptr) : Heap :=
  store h p (BlastAlignment.mark_reported (h p)).

(** A vector of pointers read at an index. *)
Definition elem (v : list ptr) (i : nat) : ptr := nth i v O.

(** [while (start < i && ! cond (v [start])) start++], entered with
    [n = i - start]. *)
Fixpoint advance_start (cond : ptr -> bool) (v : list ptr) (n start : nat)
  : nat :=
  match n with
  | O => start
  | S n' =>
      if cond (elem v start) then start
      else advance_start cond v n' (S start)
  end.

(** Modelled from the spec: [Vector::sort] of [common.hpp] is not among the
    sources.  The spec asks for a stable sort by the given strict order: an
    element goes in front of the first one that is not below it. *)
Fixpoint sort_insert {A : Type} (less : A -> A -> bool) (x : A) (l : list A)
  : list A :=
  match l with
  | [] => [x]
  | y :: l' => if less y x then y :: sort_insert less x l' else x :: l
  end.

Fixpoint sort {A : Type} (less : A -> A -> bool) (l : list A) : list A :=
  match l with
  | [] => []
  | x :: l' => sort_insert less x (sort less l')
  end.

(** ** Reading the alignments *)

(** The loop of [shellBody] over the lines of the alignment file: construct,
    check, append.  The hits are allocated in the order of the lines. *)
Fixpoint read_hits (qc_on : bool) (lines : list Line)
  : result (list BlastAlignment.t) :=
  match lines with
  | [] => OK []
  | line :: rest =>
      al <- BlastAlignment.of_line line ;;
      BlastAlignment.qc qc_on al ;;;
      als <- read_hits qc_on rest ;;
      OK (al :: als)
  end.

(** An address that holds no hit of the run reads as this one. *)
Definition no_hit : BlastAlignment.t :=
  BlastAlignment.mk 0 0 0 0 0 0 0 0 false false "" "" true "" "" "" "" ""
                    Ascii.zero true.

Definition heap_of (als : list BlastAlignment.t) : Heap :=
  fun p => nth p als no_hit.

(** The pointers [blastAls] holds once the hits are read. *)
Definition pointers (als : list BlastAlignment.t) : list ptr :=
  seq 0 (List.length als).

(** ** Frame shifts *)

(** The guard of the merge in [shellBody]; [prev] is not null.  The
    difference of the two [int]s is an [int]: it wraps as the supported
    compilers make it wrap. *)
Definition frameshift_pair (h : Heap) (prev al : ptr) : bool :=
  String.eqb (BlastAlignment.targetName (h al))
             (BlastAlignment.targetName (h prev))
  && Bool.eqb (BlastAlignment.targetStrand (h al))
              (BlastAlignment.targetStrand (h prev))
  && String.eqb (BlastAlignment.refAccession (h al))
                (BlastAlignment.refAccession (h prev))
  && (BlastAlignment.targetStart (h prev) <? BlastAlignment.targetStart (h al))
  && (to_int (to_int (BlastAlignment.targetStart (h al))
              - to_int (BlastAlignment.targetEnd (h prev))) <? 10)
  && negb (BlastAlignment.getFrame (h al) =? BlastAlignment.getFrame (h prev)).

(** The three statements under the guard: merge, check, mark. *)
Definition absorb (qc_on : bool) (h : Heap) (prev al : ptr) : result Heap :=
  merged <- BlastAlignment.merge (h al) (h prev) ;;
  let h1 := store h al merged in
  BlastAlignment.qc qc_on (h1 al) ;;;
  OK (set_reported h1 prev).

(** One turn of the loop over the sorted hits. *)
Definition frameshift_step (qc_on : bool) (h : Heap) (prev : option ptr)
  (al : ptr) : result Heap :=
  match prev with
  | Some prev =>
      if frameshift_pair h prev al then absorb qc_on h prev al else OK h
  | None => OK h
  end.

Fixpoint frameshift_loop (qc_on : bool) (h : Heap) (prev : option ptr)
  (als : list ptr) : result Heap :=
  match als with
  | [] => OK h
  | al :: rest =>
      h' <- frameshift_step qc_on h prev al ;;
      frameshift_loop qc_on h' (Some al) rest
  end.

(** [frameshiftLess] asserts that neither operand is reported; sorting two
    or more hits compares every one of them. *)
Definition find_frameshifts (qc_on : bool) (h : Heap) (blastAls : list ptr)
  : result (Heap * list ptr) :=
  ASSERT "! a->reported"
         ((Nat.ltb (List.length blastAls) 2)
          || forallb (fun p => negb (BlastAlignment.reported (h p))) blastAls) ;;;
  let sorted :=
    sort (fun a b => BlastAlignment.frameshiftLess (h a) (h b)) blastAls in
  h' <- frameshift_loop qc_on h None sorted ;;
  OK (h', sorted).

(** ** Operons *)

(** Conditions that read a character are evaluated left to right and stop
    as soon as they are decided, as [&&] and [||] do. *)
Definition and_then (a b : result bool) : result bool :=
  x <- a ;; if x then b else OK false.
Definition or_else (a b : result bool) : result bool :=
  x <- a ;; if x then OK true else b.

(** [s [i] == c]. *)
Definition char_is (s : string) (i : nat) (c : ascii) : result bool :=
  match at_ s i with
  | Some x => OK (Ascii.eqb x c)
  | None => Err (out_of_range "operator[]")
  end.

Definition char_at (s : string) (i : nat) : result ascii :=
  match at_ s i with
  | Some x => OK x
  | None => Err (out_of_range "operator[]")
  end.

Module Operon.

(** [al1] is never null; [al2] is null for a hit that is reported alone. *)
Record t : Type := mk {
  al1 : ptr;
  al2 : option ptr
}.

Definition paired (p1 p2 : ptr) : t := mk p1 (Some p2).
Definition single (p1 : ptr) : t := mk p1 None.

(** The hit behind [al1], and the hit behind [al2].  The program reads
    through [al2] in paired operons only; a read through a null [al2] is
    outside the model and yields [no_hit]. *)
Definition first (h : Heap) (op : t) : BlastAlignment.t := h (al1 op).
Definition second (h : Heap) (op : t) : BlastAlignment.t :=
  match al2 op with
  | Some p => h p
  | None => no_hit
  end.

Definition getA (h : Heap) (op : t) : BlastAlignment.t :=
  if BlastAlignment.targetStrand (first h op) then first h op else second h op.
Definition getB (h : Heap) (op : t) : BlastAlignment.t :=
  if BlastAlignment.targetStrand (first h op) then second h op else first h op.

Definition hasAl2 (op : t) : bool :=
  match al2 op with Some _ => true | None => false end.

Definition getRefAccession2 (h : Heap) (op : t) : string :=
  match al2 op with
  | Some p => BlastAlignment.refAccession (h p)
  | None => noString
  end.

Definition getIdentity (h : Heap) (op : t) : float :=
  PrimFloat.div
    (to_double (size_add (BlastAlignment.nident (first h op))
                         (BlastAlignment.nident (second h op))))
    (to_double (size_add (BlastAlignment.length (first h op))
                         (BlastAlignment.length (second h op)))).

Definition getStxType (h : Heap) (verboseP : bool) (op : t) : result string :=
  match al2 op with
  | None => OK (BlastAlignment.stxType (first h op))
  | Some _ =>
      let x1 := first h op in
      let x2 := second h op in
      if negb (String.eqb (BlastAlignment.stxClass x1)
                          (BlastAlignment.stxClass x2))
      then
        if String.eqb (BlastAlignment.stxSuperClass x1)
                      (BlastAlignment.stxSuperClass x2)
        then OK (BlastAlignment.stxSuperClass x1)
        else OK noString
      else if negb (String.eqb (BlastAlignment.stxClass x1) "2")
      then OK (BlastAlignment.stxType x1)
      else
        a <- BlastAlignment.refMap (getA h op) (size_add 319 1) ;;
        b <- BlastAlignment.refMap (getB h op) (size_add 89 1) ;;
        is2a <- and_then (or_else (char_is a 312 "F") (char_is a 312 "S"))
                (and_then (or_else (char_is a 318 "K") (char_is a 318 "E"))
                          (char_is b 34 "D")) ;;
        if is2a then OK "2a" else
        is2c <- and_then (char_is a 312 "F")
                (and_then (or_else (char_is a 318 "K") (char_is a 318 "E"))
                          (char_is b 34 "N")) ;;
        if is2c then OK "2c" else
        is2d <- and_then (char_is a 312 "S")
                (and_then (char_is a 318 "E") (char_is b 34 "N")) ;;
        if is2d then OK "2d" else
        if verboseP then
          a312 <- char_at a 312 ;;
          a318 <- char_at a 318 ;;
          b34 <- char_at b 34 ;;
          OK ("2 " ++ String a312 (String a318 (String b34 EmptyString)))
        else OK "2"
  end.

Definition partial (h : Heap) (op : t) : bool :=
     PrimFloat.ltb (BlastAlignment.getRelCoverage (getA h op)) 1%float
     && negb (BlastAlignment.getExtended (getA h op))
  || PrimFloat.ltb (BlastAlignment.getRelCoverage (getB h op)) 1%float
     && negb (BlastAlignment.getExtended (getB h op)).

(** The locals [standard], [novel] and [operonType] of [saveTsvOut]. *)
Definition standard : string := "COMPLETE".

Definition novel (h : Heap) (op : t) (stxType : string) : bool :=
  negb (String.eqb (BlastAlignment.stxClass (first h op))
                   (BlastAlignment.stxClass (second h op)))
  || PrimFloat.ltb (getIdentity h op)
                   (stxClass2identity (BlastAlignment.stxClass (first h op)))
  || (BlastAlignment.size stxType <=? 1).

Definition operonType (h : Heap) (op : t) (stxType : string) : string :=
  if BlastAlignment.frameshift (getA h op)
     || BlastAlignment.frameshift (getB h op)
  then "FRAMESHIFT"
  else if BlastAlignment.stopCodon (getA h op)
          || BlastAlignment.stopCodon (getB h op)
  then "INTERNAL_STOP"
  else if BlastAlignment.truncated (getA h op)
          || BlastAlignment.truncated (getB h op)
  then "PARTIAL_CONTIG_END"
  else if partial h op then "PARTIAL"
  else if BlastAlignment.getExtended (getA h op)
          || BlastAlignment.getExtended (getB h op)
  then "EXTENDED"
  else if novel h op stxType then standard ++ "_NOVEL"
  else standard.

(** What is written in the column [stx_type] after the prefix: the resolved
    type, cut after its first character by [stxType. erase (1)]. *)
Definition reported_stxType (operonType stxType : string) : string :=
  if negb (String.eqb operonType standard) && (2 <=? BlastAlignment.size stxType)
  then String.substring 0 1 stxType
  else stxType.

Definition saveTsvOut (h : Heap) (input_name : string) (verboseP : bool)
  (op : t) : result Row :=
  match al2 op with
  | Some _ =>
      stxType <- getStxType h verboseP op ;;
      let operonType := operonType h op stxType in
      let stxType := reported_stxType operonType stxType in
      let type_cell := (stxS ++ stxType)%string in
      OK ((if String.eqb input_name "" then [] else [Str input_name])
          ++ [ Str (BlastAlignment.targetName (first h op));
               Str type_cell;
               Str operonType;
               Dbl (PrimFloat.mul (getIdentity h op) 100%float);
               Num (size_add (BlastAlignment.targetStart (first h op)) 1);
               Num (BlastAlignment.targetEnd (second h op));
               Chr (if BlastAlignment.targetStrand (first h op)
                    then "+"%char else "-"%char);
               Str (BlastAlignment.refAccession (getA h op));
               Dbl (PrimFloat.mul (BlastAlignment.getIdentity (getA h op))
                                  100%float);
               Dbl (PrimFloat.mul (BlastAlignment.getRelCoverage (getA h op))
                                  100%float);
               Str (BlastAlignment.refAccession (getB h op));
               Dbl (PrimFloat.mul (BlastAlignment.getIdentity (getB h op))
                                  100%float);
               Dbl (PrimFloat.mul (BlastAlignment.getRelCoverage (getB h op))
                                  100%float) ])%list
  | None => OK (BlastAlignment.saveTsvOut input_name verboseP (first h op))
  end.

Definition insideEq (h : Heap) (op other : t) : bool :=
  Bool.eqb (BlastAlignment.targetStrand (first h op))
           (BlastAlignment.targetStrand (first h other))
  && (BlastAlignment.targetStart (first h other)
      <=? size_add (BlastAlignment.targetStart (first h op)) slack)
  && (BlastAlignment.targetEnd (second h op)
      <=? size_add (BlastAlignment.targetEnd (second h other)) slack).

(** [operator<], the order in which the resolver visits the operons. *)
Definition lt (h : Heap) (op other : t) : bool :=
  LESS_PART String.ltb (BlastAlignment.targetName (first h op))
                       (BlastAlignment.targetName (first h other))
  (LESS_PART PrimFloat.ltb (getIdentity h other) (getIdentity h op)
  (LESS_PART bool_lt (hasAl2 op) (hasAl2 other)
  (LESS_PART String.ltb (BlastAlignment.refAccession (first h op))
                        (BlastAlignment.refAccession (first h other))
  (LESS_PART bool_lt (hasAl2 op) (hasAl2 other)
  (LESS_PART String.ltb (getRefAccession2 h op) (getRefAccession2 h other)
   false))))).

Definition reportLess (h : Heap) (a b : t) : bool :=
  LESS_PART String.ltb (BlastAlignment.targetName (first h a))
                       (BlastAlignment.targetName (first h b))
  (LESS_PART Z.ltb (BlastAlignment.targetStart (first h a))
                   (BlastAlignment.targetStart (first h b))
  (LESS_PART Z.ltb (BlastAlignment.targetEnd (first h a))
                   (BlastAlignment.targetEnd (first h b))
  (LESS_PART bool_lt (BlastAlignment.targetStrand (first h b))
                     (BlastAlignment.targetStrand (first h a))
  (LESS_PART String.ltb (BlastAlignment.refAccession (first h a))
                        (BlastAlignment.refAccession (first h b))
  (LESS_PART bool_lt (hasAl2 a) (hasAl2 b)
  (LESS_PART String.ltb (getRefAccession2 h a) (getRefAccession2 h b)
   false)))))).

(** [qc ()], under the run-wide switch [qc_on]. *)
Definition qc (qc_on : bool) (h : Heap) (op : t) : result unit :=
  if negb qc_on then OK tt else
  BlastAlignment.qc qc_on (first h op) ;;;
  QC_ASSERT "al1->reported" (BlastAlignment.reported (first h op)) ;;;
  match al2 op with
  | None => OK tt
  | Some _ =>
      BlastAlignment.qc qc_on (second h op) ;;;
      QC_ASSERT "al1->targetName == al2->targetName"
                (String.eqb (BlastAlignment.targetName (first h op))
                            (BlastAlignment.targetName (second h op))) ;;;
      QC_ASSERT "al1->targetStrand == al2->targetStrand"
                (Bool.eqb (BlastAlignment.targetStrand (first h op))
                          (BlastAlignment.targetStrand (second h op))) ;;;
      QC_ASSERT "al1->targetEnd < al2->targetStart"
                (BlastAlignment.targetEnd (first h op)
                 <? BlastAlignment.targetStart (second h op)) ;;;
      QC_ASSERT "al1->subunit != al2->subunit"
                (negb (Ascii.eqb (BlastAlignment.subunit (first h op))
                                 (BlastAlignment.subunit (second h op)))) ;;;
      QC_ASSERT "al2->reported" (BlastAlignment.reported (second h op))
  end.

End Operon.

(** ** The redundancy filter of the hits *)

(** The head of the window of earlier hits that can still hold [al]. *)
Definition overlaps_head (h : Heap) (al x : ptr) : bool :=
  String.eqb (BlastAlignment.targetName (h x))
             (BlastAlignment.targetName (h al))
  && Bool.eqb (BlastAlignment.targetStrand (h x))
              (BlastAlignment.targetStrand (h al))
  && String.eqb (BlastAlignment.stxClass (h x)) (BlastAlignment.stxClass (h al))
  && Ascii.eqb (BlastAlignment.subunit (h x)) (BlastAlignment.subunit (h al))
  && (BlastAlignment.targetStart (h al) <? BlastAlignment.targetEnd (h x)).

(** [al] lies inside [prev] and is not better than it. *)
Definition dominated (h : Heap) (al prev : ptr) : bool :=
  BlastAlignment.insideEq (h al) (h prev)
  && (BlastAlignment.getDiff (h prev) <=? BlastAlignment.getDiff (h al)).

(** [FOR_START (size_t, j, start, i)] with its assertions, entered with
    [n = i - j]; the result is the flag [suppress]. *)
Fixpoint dominated_scan (h : Heap) (v : list ptr) (al : ptr) (n j : nat)
  : result bool :=
  match n with
  | O => OK false
  | S n' =>
      let prev := elem v j in
      ASSERT "! prev->reported" (negb (BlastAlignment.reported (h prev))) ;;;
      ASSERT "al->targetName == prev->targetName"
             (String.eqb (BlastAlignment.targetName (h al))
                         (BlastAlignment.targetName (h prev))) ;;;
      ASSERT "al->targetStrand == prev->targetStrand"
             (Bool.eqb (BlastAlignment.targetStrand (h al))
                       (BlastAlignment.targetStrand (h prev))) ;;;
      ASSERT "al->stxClass == prev->stxClass"
             (String.eqb (BlastAlignment.stxClass (h al))
                         (BlastAlignment.stxClass (h prev))) ;;;
      ASSERT "al->subunit == prev->subunit"
             (Ascii.eqb (BlastAlignment.subunit (h al))
                        (BlastAlignment.subunit (h prev))) ;;;
      if dominated h al prev then OK true
      else dominated_scan h v al n' (S j)
  end.

(** [FFOR (size_t, i, blastAls. size ())], entered with [n = size - i]. *)
Fixpoint filter_loop (h : Heap) (v : list ptr) (n i start : nat)
  (goodBlastAls : list ptr) : result (list ptr) :=
  match n with
  | O => OK goodBlastAls
  | S n' =>
      let al := elem v i in
      let start' := advance_start (overlaps_head h al) v (i - start) start in
      if BlastAlignment.reported (h al) then OK goodBlastAls
      else
        suppress <- dominated_scan h v al (i - start') start' ;;
        filter_loop h v n' (S i) start'
                    (if suppress then goodBlastAls
                     else goodBlastAls ++ [al])%list
  end.

(** The block of [shellBody] that sorts [blastAls] and fills
    [goodBlastAls]. *)
Definition good_hits (h : Heap) (blastAls : list ptr) : result (list ptr) :=
  let sorted :=
    sort (fun a b => BlastAlignment.sameTypeLess (h a) (h b)) blastAls in
  filter_loop h sorted (List.length sorted) 0 0 [].

(** ** The operon assembler *)

(** An operon at the moment [goodBlasts2operons] accepts it, with the heap
    as it is just before the two hits are marked.  The program keeps no
    such record; it is here for the statements about that moment. *)
Record Acceptance : Type := mkAcceptance {
  acc_operon : Operon.t;
  acc_heap : Heap
}.

(** What one call of [goodBlasts2operons] works on: the heap, the vector
    [operons], and the acceptances of this call in the order they are made. *)
Record Assembly : Type := mkAssembly {
  st_heap : Heap;
  st_operons : list Operon.t;
  st_accepted : list Acceptance
}.

(** The head of the window of candidate A hits for the B hit [alB]. *)
Definition same_locus (sameType : bool) (h : Heap) (alB x : ptr) : bool :=
  String.eqb (BlastAlignment.targetName (h x))
             (BlastAlignment.targetName (h alB))
  && Bool.eqb (BlastAlignment.targetStrand (h x))
              (BlastAlignment.targetStrand (h alB))
  && (negb sameType
      || String.eqb (BlastAlignment.stxClass (h x))
                    (BlastAlignment.stxClass (h alB))).

(** The geometric guard: [al1] ends no later than [al2] starts, and the
    intergenic region is short enough for the pass. *)
Definition within_gap (strong : bool) (x1 x2 : BlastAlignment.t) : bool :=
  (BlastAlignment.targetEnd x1 <=? BlastAlignment.targetStart x2)
  && (size_sub (BlastAlignment.targetStart x2) (BlastAlignment.targetEnd x1)
      <=? size_mul intergenic_max (if strong then 1 else 2)).

(** The identity guard of the strong passes. *)
Definition identity_ok (h : Heap) (op : Operon.t) : bool :=
  PrimFloat.leb
    (stxClass2identity (BlastAlignment.stxClass (Operon.first h op)))
    (Operon.getIdentity h op)
  && PrimFloat.leb
       (stxClass2identity (BlastAlignment.stxClass (Operon.second h op)))
       (Operon.getIdentity h op).

(** The body of the inner loop from [al1 = alA; al2 = alB] on.  [logPtr]
    says whether the program was given a log stream: with one, the candidate
    operon is rendered for the log before its identity is tested, and with
    its row its resolved type, which can fail. *)
Definition try_pair (logPtr : bool) (input_name : string) (strong : bool)
  (alA alB : ptr) (st : Assembly) : result Assembly :=
  let h := st_heap st in
  let al1 := if BlastAlignment.targetStrand (h alA) then alA else alB in
  let al2 := if BlastAlignment.targetStrand (h alA) then alB else alA in
  if within_gap strong (h al1) (h al2) then
    let op := Operon.paired al1 al2 in
    (if logPtr then Operon.saveTsvOut h input_name true op ;;; OK tt
     else OK tt) ;;;
    if negb strong || identity_ok h op then
      OK {| st_heap := set_reported (set_reported h al1) al2;
            st_operons := st_operons st ++ [op];
            st_accepted := st_accepted st ++ [mkAcceptance op h] |}
    else OK st
  else OK st.

(** [FOR_START (size_t, j, start, i)], entered with [n = i - j]. *)
Fixpoint pair_scan (logPtr : bool) (input_name : string)
  (sameType strong : bool) (v : list ptr) (alB : ptr)
  (n j : nat) (st : Assembly) : result Assembly :=
  match n with
  | O => OK st
  | S n' =>
      let h := st_heap st in
      let alA := elem v j in
      if BlastAlignment.reported (h alA)
      then pair_scan logPtr input_name sameType strong v alB n' (S j) st
      else
        ASSERT "alA->targetName == alB->targetName"
               (String.eqb (BlastAlignment.targetName (h alA))
                           (BlastAlignment.targetName (h alB))) ;;;
        ASSERT "alA->targetStrand == alB->targetStrand"
               (Bool.eqb (BlastAlignment.targetStrand (h alA))
                         (BlastAlignment.targetStrand (h alB))) ;;;
        ASSERT "IMPLY (sameType, alA->stxClass == alB->stxClass)"
               (implb sameType
                      (String.eqb (BlastAlignment.stxClass (h alA))
                                  (BlastAlignment.stxClass (h alB)))) ;;;
        ASSERT "alA->subunit <= alB->subunit"
               (negb (char_lt (BlastAlignment.subunit (h alB))
                              (BlastAlignment.subunit (h alA)))) ;;;
        if Ascii.eqb (BlastAlignment.subunit (h alA))
                     (BlastAlignment.subunit (h alB))
        then OK st
        else
          ASSERT "alA->subunit == 'A'"
                 (Ascii.eqb (BlastAlignment.subunit (h alA)) "A") ;;;
          st' <- try_pair logPtr input_name strong alA alB st ;;
          pair_scan logPtr input_name sameType strong v alB n' (S j) st'
  end.

(** [FFOR (size_t, i, goodBlastAls. size ())], entered with
    [n = size - i]. *)
Fixpoint pair_loop (logPtr : bool) (input_name : string)
  (sameType strong : bool) (v : list ptr)
  (n i start : nat) (st : Assembly) : result Assembly :=
  match n with
  | O => OK st
  | S n' =>
      let h := st_heap st in
      let alB := elem v i in
      if BlastAlignment.reported (h alB)
      then pair_loop logPtr input_name sameType strong v n' (S i) start st
      else if negb (Ascii.eqb (BlastAlignment.subunit (h alB)) "B")
      then pair_loop logPtr input_name sameType strong v n' (S i) start st
      else
        let start' :=
          advance_start (same_locus sameType h alB) v (i - start) start in
        st' <- pair_scan logPtr input_name sameType strong v alB
                         (i - start') start' st ;;
        pair_loop logPtr input_name sameType strong v n' (S i) start' st'
  end.

(** The test of the last loop: the hit lies in the range of the operon,
    widened by [slack] on both sides. *)
Definition covered (h : Heap) (al : ptr) (op : Operon.t) : bool :=
  String.eqb (BlastAlignment.targetName (h al))
             (BlastAlignment.targetName (Operon.first h op))
  && (BlastAlignment.targetStart (Operon.first h op)
      <=? size_add (BlastAlignment.targetStart (h al)) slack)
  && (BlastAlignment.targetEnd (h al)
      <=? size_add (BlastAlignment.targetEnd (Operon.second h op)) slack)
  && Bool.eqb (BlastAlignment.targetStrand (h al))
              (BlastAlignment.targetStrand (Operon.first h op)).

Fixpoint covered_by_some (h : Heap) (al : ptr) (ops : list Operon.t)
  : result bool :=
  match ops with
  | [] => OK false
  | op :: rest =>
      ASSERT "op. al2" (Operon.hasAl2 op) ;;;
      if covered h al op then OK true else covered_by_some h al rest
  end.

Fixpoint suppress_covered (h : Heap) (ops : list Operon.t) (als : list ptr)
  : result Heap :=
  match als with
  | [] => OK h
  | al :: rest =>
      if BlastAlignment.reported (h al) then suppress_covered h ops rest
      else
        c <- covered_by_some h al ops ;;
        suppress_covered (if c then set_reported h al else h) ops rest
  end.

Definition goodBlasts2operons (logPtr : bool) (input_name : string)
  (h : Heap) (goodBlastAls : list ptr)
  (operons : list Operon.t) (sameType strong : bool) : result Assembly :=
  ASSERT "IMPLY (sameType, strong)" (implb sameType strong) ;;;
  st <- pair_loop logPtr input_name sameType strong goodBlastAls
                  (List.length goodBlastAls) 0 0
                  (mkAssembly h operons []) ;;
  h' <- suppress_covered (st_heap st) (st_operons st) goodBlastAls ;;
  OK (mkAssembly h' (st_operons st) (st_accepted st)).

(** ** The resolver, the single hits and the report *)

(** The operons that the resolver keeps, in the order it visits them.  The
    row for the log is computed for every operon, and with it the resolved
    type of the verbose rendering. *)
Fixpoint resolve (qc_on : bool) (input_name : string) (h : Heap)
  (operons goodOperons : list Operon.t) : result (list Operon.t) :=
  match operons with
  | [] => OK goodOperons
  | op :: rest =>
      Operon.saveTsvOut h input_name true op ;;;
      Operon.qc qc_on h op ;;;
      let found :=
        existsb (fun goodOp =>
                   String.eqb (BlastAlignment.targetName (Operon.first h op))
                              (BlastAlignment.targetName
                                 (Operon.first h goodOp))
                   && Operon.insideEq h op goodOp
                   && PrimFloat.leb (Operon.getIdentity h op)
                                    (Operon.getIdentity h goodOp))
                goodOperons in
      resolve qc_on input_name h rest
              (if found then goodOperons else goodOperons ++ [op])%list
  end.

(** The inner loop of the last pass over [goodBlastAls]: the hits behind
    [al1] that it covers are marked, up to the first hit of another contig
    or strand. *)
Fixpoint mark_covered (h : Heap) (al1 : ptr) (later : list ptr) : Heap :=
  match later with
  | [] => h
  | al2 :: rest =>
      if negb (String.eqb (BlastAlignment.targetName (h al2))
                          (BlastAlignment.targetName (h al1))
               && Bool.eqb (BlastAlignment.targetStrand (h al2))
                           (BlastAlignment.targetStrand (h al1)))
      then h
      else
        let h' :=
          if negb (BlastAlignment.reported (h al2))
             && BlastAlignment.insideEq (h al2) (h al1)
             && (match at_ (BlastAlignment.stxType (h al2)) 0,
                       at_ (BlastAlignment.stxType (h al1)) 0 with
                 | Some c2, Some c1 => Ascii.eqb c2 c1
                 | _, _ => false
                 end
                 || (BlastAlignment.getDiff (h al1)
                     <=? BlastAlignment.getDiff (h al2)))
          then set_reported h al2 else h in
        mark_covered h' al1 rest
  end.

Fixpoint single_hits (h : Heap) (als : list ptr) (goodOperons : list Operon.t)
  : Heap * list Operon.t :=
  match als with
  | [] => (h, goodOperons)
  | al1 :: rest =>
      if BlastAlignment.reported (h al1) then single_hits h rest goodOperons
      else single_hits (mark_covered h al1 rest) rest
                       (goodOperons ++ [Operon.single al1])%list
  end.

Fixpoint report (input_name : string) (h : Heap) (ops : list Operon.t)
  : result (list Row) :=
  match ops with
  | [] => OK []
  | op :: rest =>
      row <- Operon.saveTsvOut h input_name false op ;;
      rows <- report input_name h rest ;;
      OK (row :: rows)
  end.

(** From the lines to [goodBlastAls]: read, merge the frame shifts,
    filter. *)
Definition hit_stage (qc_on : bool) (lines : list Line)
  : result (Heap * list ptr) :=
  als <- read_hits qc_on lines ;;
  let h0 := heap_of als in
  hs <- find_frameshifts qc_on h0 (pointers als) ;;
  let (h1, blastAls) := hs in
  goodBlastAls <- good_hits h1 blastAls ;;
  OK (h1, goodBlastAls).

(** The first call of [goodBlasts2operons], on the hits of the lines. *)
Definition same_type_pass (logPtr : bool) (input_name : string)
  (qc_on : bool) (lines : list Line) : result Assembly :=
  hg <- hit_stage qc_on lines ;;
  goodBlasts2operons logPtr input_name (fst hg) (snd hg) [] true true.

(** The operons of the report, in the order of their rows. *)
Definition final_operons (logPtr qc_on : bool) (input_name : string)
  (lines : list Line) : result (Heap * list Operon.t) :=
  hg <- hit_stage qc_on lines ;;
  let (h1, goodBlastAls) := hg in
  st1 <- goodBlasts2operons logPtr input_name h1 goodBlastAls [] true true ;;
  let goodBlastAls :=
    sort (fun a b => BlastAlignment.less (st_heap st1 a) (st_heap st1 b))
         goodBlastAls in
  st2 <- goodBlasts2operons logPtr input_name (st_heap st1) goodBlastAls
                            (st_operons st1) false true ;;
  st3 <- goodBlasts2operons logPtr input_name (st_heap st2) goodBlastAls
                            (st_operons st2) false false ;;
  let h3 := st_heap st3 in
  let operons := sort (Operon.lt h3) (st_operons st3) in
  goodOperons <- resolve qc_on input_name h3 operons [] ;;
  let goodBlastAls :=
    sort (fun a b => BlastAlignment.reportLess (h3 a) (h3 b)) goodBlastAls in
  let (h4, goodOperons) := single_hits h3 goodBlastAls goodOperons in
  OK (h4, sort (Operon.reportLess h4) goodOperons).

(** The rows that [shellBody] writes after the header. *)
Definition shellBody (logPtr qc_on : bool) (input_name : string)
  (lines : list Line) : result (list Row) :=
  r <- final_operons logPtr qc_on input_name lines ;;
  report input_name (fst r) (snd r).

(** The header that [shellBody] writes in front of the rows. *)
Definition header (input_name : string) : Row :=
  ((if String.eqb input_name "" then [] else [Str "name"])
   ++ [ Str "target_contig"; Str "stx_type"; Str "operon"; Str "identity";
        Str "target_start"; Str "target_stop"; Str "target_strand";
        Str "A_reference"; Str "A_identity"; Str "A_coverage";
        Str "B_reference"; Str "B_identity"; Str "B_coverage" ])%list.

(** ** The class-2 rule, as the specification words it *)

(** The sub-type that the specification assigns to the residues at A-frame
    columns 313 and 319 and B-frame column 35. *)
Definition class2_subtype (a313 a319 b35 : ascii) : string :=
  if (Ascii.eqb a313 "F" || Ascii.eqb a313 "S")
     && (Ascii.eqb a319 "K" || Ascii.eqb a319 "E")
     && Ascii.eqb b35 "D"
  then "2a"
  else if Ascii.eqb a313 "F"
          && (Ascii.eqb a319 "K" || Ascii.eqb a319 "E")
          && Ascii.eqb b35 "N"
  then "2c"
  else if Ascii.eqb a313 "S" && Ascii.eqb a319 "E" && Ascii.eqb b35 "N"
  then "2d"
  else "2".

(** The number of columns of an aligned reference that hold a residue. *)
Fixpoint residues (refSeq : string) : nat :=
  match refSeq with
  | EmptyString => O
  | String r rest =>
      if Ascii.eqb r "-"%char then residues rest else S (residues rest)
  end.

(** ** The filter as a window over the sorted hits *)

(** The window [start .. i) of [filter_loop] as a list: the loop drops
    hits from its front until one meets the condition. *)
Fixpoint drop_until (cond : ptr -> bool) (w : list ptr) : list ptr :=
  match w with
  | [] => []
  | x :: w' => if cond x then w else drop_until cond w'
  end.

(** The five assertions of the scan hold of [prev], and [prev] does not
    dominate [al]. *)
Definition passes (h : Heap) (al prev : ptr) : bool :=
  negb (BlastAlignment.reported (h prev))
  && String.eqb (BlastAlignment.targetName (h al))
                (BlastAlignment.targetName (h prev))
  && Bool.eqb (BlastAlignment.targetStrand (h al))
              (BlastAlignment.targetStrand (h prev))
  && String.eqb (BlastAlignment.stxClass (h al))
                (BlastAlignment.stxClass (h prev))
  && Ascii.eqb (BlastAlignment.subunit (h al))
               (BlastAlignment.subunit (h prev))
  && negb (dominated h al prev).

(** The five assertions alone. *)
Definition asserts_ok (h : Heap) (al prev : ptr) : bool :=
  negb (BlastAlignment.reported (h prev))
  && String.eqb (BlastAlignment.targetName (h al))
                (BlastAlignment.targetName (h prev))
  && Bool.eqb (BlastAlignment.targetStrand (h al))
              (BlastAlignment.targetStrand (h prev))
  && String.eqb (BlastAlignment.stxClass (h al))
                (BlastAlignment.stxClass (h prev))
  && Ascii.eqb (BlastAlignment.subunit (h al))
               (BlastAlignment.subunit (h prev)).

(** [dominated_scan] over the window. *)
Fixpoint dominated_in (h : Heap) (al : ptr) (w : list ptr) : result bool :=
  match w with
  | [] => OK false
  | prev :: w' =>
      ASSERT "! prev->reported" (negb (BlastAlignment.reported (h prev))) ;;;
      ASSERT "al->targetName == prev->targetName"
             (String.eqb (BlastAlignment.targetName (h al))
                         (BlastAlignment.targetName (h prev))) ;;;
      ASSERT "al->targetStrand == prev->targetStrand"
             (Bool.eqb (BlastAlignment.targetStrand (h al))
                       (BlastAlignment.targetStrand (h prev))) ;;;
      ASSERT "al->stxClass == prev->stxClass"
             (String.eqb (BlastAlignment.stxClass (h al))
                         (BlastAlignment.stxClass (h prev))) ;;;
      ASSERT "al->subunit == prev->subunit"
             (Ascii.eqb (BlastAlignment.subunit (h al))
                        (BlastAlignment.subunit (h prev))) ;;;
      if dominated h al prev then OK true else dominated_in h al w'
  end.

(** [filter_loop] over the window [w] and the hits [rest] still to visit;
    the result is what the loop appends to [goodBlastAls]. *)
Fixpoint survivors (h : Heap) (w rest : list ptr) : result (list ptr) :=
  match rest with
  | [] => OK []
  | al :: rest' =>
      let w' := drop_until (overlaps_head h al) w in
      if BlastAlignment.reported (h al) then OK []
      else
        suppress <- dominated_in h al w' ;;
        good <- survivors h (w' ++ [al]) rest' ;;
        OK (if suppress then good else al :: good)
  end.

(** [l1] is [l2] with some elements left out. *)
Inductive sublist {A : Type} : list A -> list A -> Prop :=
| sublist_nil : sublist [] []
| sublist_skip (x : A) (l1 l2 : list A) : sublist l1 l2 -> sublist l1 (x :: l2)
| sublist_keep (x : A) (l1 l2 : list A) :
    sublist l1 l2 -> sublist (x :: l1) (x :: l2).

(** [a] may stand in front of [b] in a vector sorted by [less]. *)
Definition may_precede {A : Type} (less : A -> A -> bool) (a b : A) : Prop :=
  less b a = false.

(** The order of [blastAls] in the filter, on pointers. *)
Definition filter_order (h : Heap) (a b : ptr) : bool :=
  BlastAlignment.sameTypeLess (h a) (h b).

(* ================================================================== *)
(** * Statements *)

(** ** What the statements speak of *)

(** The family code that [of_line] decodes from the subject id. *)
Definition famId_of (line : Line) : string :=
  fst (rfindSplit (l_sseqid line) "|"%char).

(** The conditions under which the constructor throws, read off the input
    operands: the eight [QC_ASSERT]s, in program order. *)
Definition malformed (line : Line) : bool :=
  String.eqb (l_targetSeq line) ""
  || negb (Nat.eqb (String.length (famId_of line)) 6)
  || negb (String.prefix stxS (famId_of line))
  || negb (Nat.eqb (String.length (l_targetSeq line))
                   (String.length (l_refSeq line)))
  || (l_refEnd line <=? l_refStart line)
  || (l_targetStart line =? l_targetEnd line)
  || (l_refStart line <? 1)
  || (Z.min (l_targetStart line) (l_targetEnd line) <? 1).

(** The pointer to the B hit of a paired operon. *)
Definition ptrB (h : Heap) (op : Operon.t) : option ptr :=
  if BlastAlignment.targetStrand (Operon.first h op)
  then Operon.al2 op else Some (Operon.al1 op).

(** What holds of an acceptance, given the acceptances made before it in
    the same call. *)
Definition accepted_ok (earlier : list Acceptance) (e : Acceptance) : Prop :=
  let h := acc_heap e in
  let op := acc_operon e in
  Operon.hasAl2 op = true
  /\ BlastAlignment.targetName (Operon.first h op)
     = BlastAlignment.targetName (Operon.second h op)
  /\ BlastAlignment.targetStrand (Operon.first h op)
     = BlastAlignment.targetStrand (Operon.second h op)
  /\ BlastAlignment.targetEnd (Operon.first h op)
     <= BlastAlignment.targetStart (Operon.second h op)
  /\ BlastAlignment.subunit (Operon.getA h op) = "A"%char
  /\ BlastAlignment.subunit (Operon.getB h op) = "B"%char
  /\ BlastAlignment.reported (Operon.getA h op) = false
  /\ (BlastAlignment.reported (Operon.getB h op) = false
      \/ exists e', In e' earlier
                    /\ ptrB (acc_heap e') (acc_operon e') = ptrB h op).

(** The guards under which an acceptance is made in a pass. *)
Definition accepted_within (strong : bool) (e : Acceptance) : Prop :=
  let h := acc_heap e in
  let op := acc_operon e in
  within_gap strong (Operon.first h op) (Operon.second h op) = true
  /\ (strong = true -> identity_ok h op = true).

(** A property of every element of a list together with the elements in
    front of it. *)
Definition each_after {A : Type} (P : list A -> A -> Prop) (l : list A)
  : Prop :=
  forall before e after, l = (before ++ e :: after)%list -> P before e.

(** The state of a call between two turns of its loops. *)
Record assembly_inv (strong : bool) (operons0 : list Operon.t)
  (st : Assembly) : Prop := mk_assembly_inv {
  inv_ok : each_after accepted_ok (st_accepted st);
  inv_within : Forall (accepted_within strong) (st_accepted st);
  inv_operons :
    st_operons st = (operons0 ++ map acc_operon (st_accepted st))%list
}.

(** The B hit under scan is unmarked, or an acceptance of this call holds
    it already. *)
Definition scan_inv (alB : ptr) (st : Assembly) : Prop :=
  BlastAlignment.subunit (st_heap st alB) = "B"%char
  /\ (BlastAlignment.reported (st_heap st alB) = false
      \/ exists e', In e' (st_accepted st)
                    /\ ptrB (acc_heap e') (acc_operon e') = Some alB).

(** A strict total order, decided by a boolean function, as [operator<] is
    on integers, booleans, characters and strings. *)
Record strict_total {K : Type} (lt : K -> K -> bool) : Prop := {
  st_irrefl : forall x, lt x x = false;
  st_trans : forall x y z, lt x y = true -> lt y z = true -> lt x z = true;
  st_total : forall x y, lt x y = false -> lt y x = false -> x = y
}.

(** A strict weak order: what [std::sort] asks of its comparator. *)
Record strict_weak {A : Type} (less : A -> A -> bool) : Prop := {
  sw_asym : forall a b, less a b = true -> less b a = false;
  sw_le_trans :
    forall a b c, less b a = false -> less c b = false -> less c a = false
}.

(** [less] orders [a] and [b] in neither direction. *)
Definition tied {A : Type} (less : A -> A -> bool) (a b : A) : Prop :=
  less a b = false /\ less b a = false.

(** The seven parts of the key of the report. *)
Definition report_key (h : Heap) (op : Operon.t)
  : string * Z * Z * bool * string * bool * string :=
  (BlastAlignment.targetName (Operon.first h op),
   BlastAlignment.targetStart (Operon.first h op),
   BlastAlignment.targetEnd (Operon.first h op),
   BlastAlignment.targetStrand (Operon.first h op),
   BlastAlignment.refAccession (Operon.first h op),
   Operon.hasAl2 op,
   Operon.getRefAccession2 h op).

(** The assembly in which the body of the inner loop leaves [st] when it
    returns: the pair is accepted when it passes the guards of the pass. *)
Definition after_pair (strong : bool) (alA alB : ptr) (st : Assembly)
  : Assembly :=
  let h := st_heap st in
  let al1 := if BlastAlignment.targetStrand (h alA) then alA else alB in
  let al2 := if BlastAlignment.targetStrand (h alA) then alB else alA in
  if within_gap strong (h al1) (h al2) then
    let op := Operon.paired al1 al2 in
    if negb strong || identity_ok h op then
      {| st_heap := set_reported (set_reported h al1) al2;
         st_operons := st_operons st ++ [op];
         st_accepted := st_accepted st ++ [mkAcceptance op h] |}
    else st
  else st.

(** ** Inputs of the examples *)

(** A record whose reference start is zero. *)
Definition line_zero_refStart : Line :=
  mkLine "contig1" "WP_000001|stxA2a" 101 109 5000 0 3 319 "MKI" "MKC".

(** Two fragments of one reference on one contig, read from two lines: the
    first spans target columns 101 to 500, the second 201 to 300, in
    different frames. *)
Definition nested_lines : list Line :=
  [ mkLine "contig1" "WP_000001|stxA2a" 101 500 5000 1 4 319 "MKII" "MKII";
    mkLine "contig1" "WP_000001|stxA2a" 201 300 5000 3 5 319 "IIK" "IIK" ].

Definition nested_hits : list BlastAlignment.t :=
  match read_hits true nested_lines with
  | OK als => als
  | Err _ => []
  end.

(** Two hits of class 2, read from two lines: the A hit covers columns 313
    to 319 of its reference with F and K at the two ends, the B hit covers
    columns 35 and 36 with D in front. *)
Definition class2_lines : list Line :=
  [ mkLine "contig1" "WP_000004|stxA2c" 1001 1021 5000 313 319 320
           "FAAAAAK" "FAAAAAK";
    mkLine "contig1" "WP_000005|stxB2c" 1031 1036 5000 35 36 90 "DA" "DA" ].
Definition class2_hits : list BlastAlignment.t :=
  match read_hits true class2_lines with
  | OK als => als
  | Err _ => []
  end.
Definition hit_2a_A : BlastAlignment.t := nth 0 class2_hits no_hit.
Definition hit_2a_B : BlastAlignment.t := nth 1 class2_hits no_hit.

(** Two fragments of one gene in different frames, read from two lines:
    the first covers reference columns 1 to 4, the second columns 13 to 15. *)
Definition fragment_lines : list Line :=
  [ mkLine "contig1" "WP_000004|stxA2a" 1001 1012 5000 1 4 320 "MKII" "MKII";
    mkLine "contig1" "WP_000004|stxA2a" 1014 1022 5000 13 15 320 "IIK" "IIK" ].
Definition fragment_hits : list BlastAlignment.t :=
  match read_hits true fragment_lines with
  | OK als => als
  | Err _ => []
  end.

(** A hit read from a line, checked, and not frameshifted, whose aligned
    reference holds two residues although its reference span is five. *)
Definition gapped_line : Line :=
  mkLine "contig1" "WP_000001|stxA2a" 1001 1015 5000 1 5 319 "MKKKI" "M---I".

Definition heap_2a : Heap := heap_of class2_hits.

(** An A hit and a B hit of type 1a, both covering their references in
    full, read from two lines; the A hit has five mismatches in twenty
    columns, so the pair's identity is 35/40, below the 0.983 of class 1a. *)
Definition novel_lines : list Line :=
  [ mkLine "contig1" "WP_000001|stxA1a" 1001 1060 5000 1 20 20
           "MKIIIFRVLTFFFVIFSVNV" "MKIIIFRVLTAAAAAFSVNV";
    mkLine "contig1" "WP_000002|stxB1a" 1071 1130 5000 1 20 20
           "MKKTLLIAASLSFFSASALA" "MKKTLLIAASLSFFSASALA" ].

Definition novel_hits : list BlastAlignment.t :=
  match read_hits true novel_lines with
  | OK als => als
  | Err _ => []
  end.

(** An A hit and a B hit of type 1a, ten columns apart, identical to their
    references. *)
Definition complete_lines : list Line :=
  [ mkLine "contig1" "WP_000001|stxA1a" 1001 1060 5000 1 20 20
           "MKIIIFRVLTFFFVIFSVNV" "MKIIIFRVLTFFFVIFSVNV";
    mkLine "contig1" "WP_000002|stxB1a" 1071 1130 5000 1 20 20
           "MKKTLLIAASLSFFSASALA" "MKKTLLIAASLSFFSASALA" ].

(** The same pair with the B hit starting at the column where the A hit
    ends. *)
Definition abutting_lines : list Line :=
  [ mkLine "contig1" "WP_000001|stxA1a" 1001 1060 5000 1 20 20
           "MKIIIFRVLTFFFVIFSVNV" "MKIIIFRVLTFFFVIFSVNV";
    mkLine "contig1" "WP_000002|stxB1a" 1061 1120 5000 1 20 20
           "MKKTLLIAASLSFFSASALA" "MKKTLLIAASLSFFSASALA" ].

(** On the reverse strand, a B hit followed by two A hits of one reference
    that start three columns apart and end sixty columns apart. *)
Definition shared_B_lines : list Line :=
  [ mkLine "contig1" "WP_000002|stxB1a" 370 101 5000 1 20 20
           "MKKTLLIAASLSFFSASALA" "MKKTLLIAASLSFFSASALA";
    mkLine "contig1" "WP_000001|stxA1a" 1340 381 5000 1 20 20
           "MKIIIFRVLTFFFVIFSVNV" "MKIIIFRVLTFFFVIFSVNV";
    mkLine "contig1" "WP_000001|stxA1a" 1400 384 5000 1 20 20
           "MKIIIFRVLTFFFVIFSVNV" "MKIIIFRVLTFFFVIFSVNV" ].

(** The heap and the good hits of a list of lines. *)
Definition stage_heap (lines : list Line) : Heap :=
  match hit_stage true lines with
  | OK hg => fst hg
  | Err _ => heap_of []
  end.
Definition stage_hits (lines : list Line) : list ptr :=
  match hit_stage true lines with
  | OK hg => snd hg
  | Err _ => []
  end.

(** Two A hits of one class on one contig; the second lies inside the first
    and has three mismatches. *)
Definition contained_lines : list Line :=
  [ mkLine "contig1" "WP_000001|stxA1a" 1001 1060 5000 1 20 20
           "MKIIIFRVLTFFFVIFSVNV" "MKIIIFRVLTFFFVIFSVNV";
    mkLine "contig1" "WP_000003|stxA1a" 1004 1057 5000 2 19 20
           "KIIIFRVLTAAAVIFSVN" "KIIIFRVLTFFFVIFSVN" ].

Definition contained_hits : list BlastAlignment.t :=
  match read_hits true contained_lines with
  | OK als => als
  | Err _ => []
  end.

(** A B hit alone, ten columns from the start of its contig. *)
Definition lone_B_lines : list Line :=
  [ mkLine "contig1" "WP_000002|stxB1a" 11 70 5000 1 20 20
           "MKKTLLIAASLSFFSASALA" "MKKTLLIAASLSFFSASALA" ].

(** ** Tactics *)

(** One check of the constructor: split on it, close the branch that the
    hypothesis on [malformed] decides, and keep the other. *)
Ltac of_line_check c :=
  destruct c; simpl;
  try (intros; discriminate); try (intros; eexists; reflexivity).

Ltac split_asserts :=
  repeat match goal with
         | |- context [ASSERT ?what ?b] =>
             destruct b; simpl; try reflexivity
         end.

(* ================================================================== *)
(** ** What the further properties speak of *)

(** A value of type [size_t]. *)
Definition is_size_t (z : Z) : Prop := 0 <= z < 2 ^ size_t_bits.

(** The six numbers of a line are [size_t] values, as the extraction
    leaves them. *)
Definition line_in_range (line : Line) : Prop :=
  is_size_t (l_targetStart line) /\ is_size_t (l_targetEnd line)
  /\ is_size_t (l_targetLen line) /\ is_size_t (l_refStart line)
  /\ is_size_t (l_refEnd line) /\ is_size_t (l_refLen line).

(** What the constructor establishes of the hit it builds from a line. *)
Record constructed (line : Line) (al : BlastAlignment.t) : Prop := {
  c_targetStart :
    BlastAlignment.targetStart al + 1
    = Z.min (l_targetStart line) (l_targetEnd line);
  c_targetEnd :
    BlastAlignment.targetEnd al
    = Z.max (l_targetStart line) (l_targetEnd line);
  c_targetStrand :
    BlastAlignment.targetStrand al = (l_targetStart line <? l_targetEnd line);
  c_target_range :
    0 <= BlastAlignment.targetStart al < BlastAlignment.targetEnd al;
  c_refStart : BlastAlignment.refStart al + 1 = l_refStart line;
  c_refEnd : BlastAlignment.refEnd al = l_refEnd line;
  c_ref_range : 0 <= BlastAlignment.refStart al < BlastAlignment.refEnd al;
  c_targetLen : BlastAlignment.targetLen al = l_targetLen line;
  c_refLen : BlastAlignment.refLen al = l_refLen line;
  c_targetName : BlastAlignment.targetName al = l_targetName line;
  c_targetSeq : BlastAlignment.targetSeq al = l_targetSeq line;
  c_refSeq : BlastAlignment.refSeq al = l_refSeq line;
  c_length : BlastAlignment.length al = BlastAlignment.size (l_targetSeq line);
  c_same_size :
    String.length (l_targetSeq line) = String.length (l_refSeq line);
  c_length_pos : 0 < BlastAlignment.length al;
  c_nident : 0 <= BlastAlignment.nident al <= BlastAlignment.length al;
  c_nident_full :
    BlastAlignment.nident al = BlastAlignment.length al
    <-> l_targetSeq line = l_refSeq line;
  c_frameshift : BlastAlignment.frameshift al = false;
  c_reported : BlastAlignment.reported al = false;
  c_famId :
    famId_of line
    = (stxS ++ String (BlastAlignment.subunit al)
                      (BlastAlignment.stxType al))%string;
  c_stxType : String.length (BlastAlignment.stxType al) = 2%nat;
  c_stxClass :
    BlastAlignment.stxClass al
    = (if String.eqb (BlastAlignment.stxType al) "2a"
          || String.eqb (BlastAlignment.stxType al) "2c"
          || String.eqb (BlastAlignment.stxType al) "2d"
       then "2" else BlastAlignment.stxType al);
  c_isLeft :
    isLeft (BlastAlignment.stxType al) (BlastAlignment.stxClass al) = true;
  c_stxSuperClass :
    BlastAlignment.stxSuperClass al
    = String.substring 0 1 (BlastAlignment.stxClass al)
}.

(** The checks of [qc] that a hit fresh from the constructor can still
    fail. *)
Definition qc_residue (al : BlastAlignment.t) : Prop :=
  BlastAlignment.nident al <> 0
  /\ BlastAlignment.targetEnd al <= BlastAlignment.targetLen al
  /\ BlastAlignment.refEnd al <= BlastAlignment.refLen al
  /\ BlastAlignment.nident al
     <= BlastAlignment.refEnd al - BlastAlignment.refStart al
  /\ BlastAlignment.refEnd al - BlastAlignment.refStart al
     <= BlastAlignment.length al
  /\ BlastAlignment.targetName al <> ""
  /\ contains_class (BlastAlignment.stxClass al) = true
  /\ (BlastAlignment.subunit al = "A"%char
      \/ BlastAlignment.subunit al = "B"%char)
  /\ BlastAlignment.refAccession al <> "".

(** The hit of a line that the constructor accepts. *)
Definition hit_of (line : Line) : BlastAlignment.t :=
  match BlastAlignment.of_line line with
  | OK al => al
  | Err _ => no_hit
  end.


(** What the merger of the frame shifts keeps of a hit [a] when it leaves
    [b] in its place: the contig, the strand, the reference, the sequences,
    the type and the end of the range stay; the range can only grow to the
    left and the flags can only be raised. *)
Record merged_from (a b : BlastAlignment.t) : Prop := {
  m_targetName : BlastAlignment.targetName b = BlastAlignment.targetName a;
  m_targetStrand :
    BlastAlignment.targetStrand b = BlastAlignment.targetStrand a;
  m_refAccession :
    BlastAlignment.refAccession b = BlastAlignment.refAccession a;
  m_targetEnd : BlastAlignment.targetEnd b = BlastAlignment.targetEnd a;
  m_targetLen : BlastAlignment.targetLen b = BlastAlignment.targetLen a;
  m_refLen : BlastAlignment.refLen b = BlastAlignment.refLen a;
  m_targetSeq : BlastAlignment.targetSeq b = BlastAlignment.targetSeq a;
  m_refSeq : BlastAlignment.refSeq b = BlastAlignment.refSeq a;
  m_stxType : BlastAlignment.stxType b = BlastAlignment.stxType a;
  m_stxClass : BlastAlignment.stxClass b = BlastAlignment.stxClass a;
  m_stxSuperClass :
    BlastAlignment.stxSuperClass b = BlastAlignment.stxSuperClass a;
  m_subunit : BlastAlignment.subunit b = BlastAlignment.subunit a;
  m_targetStart :
    BlastAlignment.targetStart b <= BlastAlignment.targetStart a;
  m_reported :
    BlastAlignment.reported a = true -> BlastAlignment.reported b = true;
  m_frameshift :
    BlastAlignment.frameshift a = true -> BlastAlignment.frameshift b = true;
  m_stopCodon :
    BlastAlignment.stopCodon a = true -> BlastAlignment.stopCodon b = true;
  m_untouched :
    BlastAlignment.frameshift b = false ->
    b = a \/ b = BlastAlignment.mark_reported a
}.

(** The order of [blastAls] in the merger, on pointers. *)
Definition merger_order (h : Heap) (a b : ptr) : bool :=
  BlastAlignment.frameshiftLess (h a) (h b).

(** [al] and [prev] belong to one contig, strand, class and subunit, and
    [al] lies inside [prev] and differs from its reference at least as much:
    the condition under which the filter lets [prev] suppress [al]. *)
Definition dominated_by (h : Heap) (al prev : ptr) : Prop :=
  BlastAlignment.targetName (h al) = BlastAlignment.targetName (h prev)
  /\ BlastAlignment.targetStrand (h al) = BlastAlignment.targetStrand (h prev)
  /\ BlastAlignment.stxClass (h al) = BlastAlignment.stxClass (h prev)
  /\ BlastAlignment.subunit (h al) = BlastAlignment.subunit (h prev)
  /\ dominated h al prev = true.

(** [x] is kept, or a kept hit dominates it. *)
Definition kept_or_dominated (h : Heap) (kept : list ptr) (x : ptr) : Prop :=
  In x kept \/ exists q, In q kept /\ dominated_by h x q.

(** [b] is [a], with the flag [reported] raised at most. *)
Definition raised (a b : BlastAlignment.t) : Prop :=
  b = a \/ b = BlastAlignment.mark_reported a.

(** From [h] to [h'] nothing has happened to any hit but that flags
    [reported] were raised. *)
Definition evolves (h h' : Heap) : Prop := forall p, raised (h p) (h' p).

(** What a call of [goodBlasts2operons] on the vector [v], entered with the
    heap [h0], has done to the heap between two turns of its loops. *)
Record assembly_marks (h0 : Heap) (v : list ptr) (st : Assembly) : Prop := {
  am_evolves : evolves h0 (st_heap st);
  am_outside : forall p, ~ In p v -> st_heap st p = h0 p;
  am_accepted :
    Forall (fun e =>
              exists p1 p2,
                acc_operon e = Operon.paired p1 p2
                /\ In p1 v /\ In p2 v
                /\ BlastAlignment.reported (st_heap st p1) = true
                /\ BlastAlignment.reported (st_heap st p2) = true
                /\ evolves h0 (acc_heap e)
                /\ evolves (acc_heap e) (st_heap st))
           (st_accepted st)
}.

(** Every hit whose flag has been raised since [h0] is a hit of an operon
    accepted since. *)
Definition marks_explained (h0 : Heap) (st : Assembly) : Prop :=
  forall p,
    BlastAlignment.reported (h0 p) = false ->
    BlastAlignment.reported (st_heap st p) = true ->
    exists e, In e (st_accepted st)
              /\ (Operon.al1 (acc_operon e) = p
                  \/ Operon.al2 (acc_operon e) = Some p).

(** The test of the resolver: [op] lies on the contig of [goodOp], within
    its range widened by [slack], and is not more identical. *)
Definition inside_better (h : Heap) (op goodOp : Operon.t) : bool :=
  String.eqb (BlastAlignment.targetName (Operon.first h op))
             (BlastAlignment.targetName (Operon.first h goodOp))
  && Operon.insideEq h op goodOp
  && PrimFloat.leb (Operon.getIdentity h op) (Operon.getIdentity h goodOp).

(** The test of the last pass: [al2] lies on the contig and strand of
    [al1] and inside it, and is of the same class letter or not closer to
    its reference. *)
Definition single_covers (h : Heap) (al1 al2 : ptr) : bool :=
  String.eqb (BlastAlignment.targetName (h al2))
             (BlastAlignment.targetName (h al1))
  && Bool.eqb (BlastAlignment.targetStrand (h al2))
              (BlastAlignment.targetStrand (h al1))
  && BlastAlignment.insideEq (h al2) (h al1)
  && (match at_ (BlastAlignment.stxType (h al2)) 0,
            at_ (BlastAlignment.stxType (h al1)) 0 with
      | Some c2, Some c1 => Ascii.eqb c2 c1
      | _, _ => false
      end
      || (BlastAlignment.getDiff (h al1) <=? BlastAlignment.getDiff (h al2))).


(** The stages of a run of [final_operons] that ends with the heap [h4] and
    the operons [ops]. *)
Inductive stages (logPtr qc_on : bool) (input_name : string)
  (lines : list Line) (h4 : Heap) (ops : list Operon.t) : Prop :=
| mk_stages (als : list BlastAlignment.t) (h1 : Heap)
    (blastAls goodBlastAls : list ptr) (st1 st2 st3 : Assembly)
    (goodOperons goodOperons' : list Operon.t)
    (sg_read : read_hits qc_on lines = OK als)
    (sg_merge :
       find_frameshifts qc_on (heap_of als) (pointers als)
       = OK (h1, blastAls))
    (sg_filter : good_hits h1 blastAls = OK goodBlastAls)
    (sg_pass1 :
       goodBlasts2operons logPtr input_name h1 goodBlastAls [] true true
       = OK st1)
    (sg_pass2 :
       goodBlasts2operons logPtr input_name (st_heap st1)
         (sort (fun a b => BlastAlignment.less (st_heap st1 a)
                                             (st_heap st1 b)) goodBlastAls)
         (st_operons st1) false true = OK st2)
    (sg_pass3 :
       goodBlasts2operons logPtr input_name (st_heap st2)
         (sort (fun a b => BlastAlignment.less (st_heap st1 a)
                                             (st_heap st1 b)) goodBlastAls)
         (st_operons st2) false false = OK st3)
    (sg_resolve :
       resolve qc_on input_name (st_heap st3)
         (sort (Operon.lt (st_heap st3)) (st_operons st3)) []
       = OK goodOperons)
    (sg_single :
       single_hits (st_heap st3)
         (sort (fun a b => BlastAlignment.reportLess (st_heap st3 a)
                                                   (st_heap st3 b))
            (sort (fun a b => BlastAlignment.less (st_heap st1 a)
                                                (st_heap st1 b))
               goodBlastAls))
         goodOperons
       = (h4, goodOperons'))
    (sg_report : ops = sort (Operon.reportLess h4) goodOperons').

(** Both hits of a paired operon carry the flag [reported]. *)
Definition operon_reported (h : Heap) (op : Operon.t) : Prop :=
  exists p1 p2,
    op = Operon.paired p1 p2
    /\ BlastAlignment.reported (h p1) = true
    /\ BlastAlignment.reported (h p2) = true.

(** The hit as it would be found on the reverse complement of its contig:
    the range is counted from the other end and the strand is the other
    one. *)
Definition reverse_complement (al : BlastAlignment.t) : BlastAlignment.t :=
  {| BlastAlignment.length := BlastAlignment.length al;
     BlastAlignment.nident := BlastAlignment.nident al;
     BlastAlignment.refStart := BlastAlignment.refStart al;
     BlastAlignment.refEnd := BlastAlignment.refEnd al;
     BlastAlignment.refLen := BlastAlignment.refLen al;
     BlastAlignment.targetStart :=
       BlastAlignment.targetLen al - BlastAlignment.targetEnd al;
     BlastAlignment.targetEnd :=
       BlastAlignment.targetLen al - BlastAlignment.targetStart al;
     BlastAlignment.targetLen := BlastAlignment.targetLen al;
     BlastAlignment.stopCodon := BlastAlignment.stopCodon al;
     BlastAlignment.frameshift := BlastAlignment.frameshift al;
     BlastAlignment.targetName := BlastAlignment.targetName al;
     BlastAlignment.targetSeq := BlastAlignment.targetSeq al;
     BlastAlignment.targetStrand := negb (BlastAlignment.targetStrand al);
     BlastAlignment.refAccession := BlastAlignment.refAccession al;
     BlastAlignment.refSeq := BlastAlignment.refSeq al;
     BlastAlignment.stxType := BlastAlignment.stxType al;
     BlastAlignment.stxClass := BlastAlignment.stxClass al;
     BlastAlignment.stxSuperClass := BlastAlignment.stxSuperClass al;
     BlastAlignment.subunit := BlastAlignment.subunit al;
     BlastAlignment.reported := BlastAlignment.reported al |}.

(** The ways in which reading the reference frame can end: the check of
    [refMap] fails; a string would be longer than a string can be; or a
    character is read outside its string, which the program does not check
    and where the model stops. *)
Definition frame_error (e : error) : Prop :=
  e = QC_ASSERT_failed "refLen <= len"
  \/ (exists what, e = length_error what)
  \/ (exists what, e = out_of_range what).

(** A call that ends in [r] has returned, or it has failed in the log: the
    program has a log stream and could not read a reference frame for the
    row of a candidate operon. *)
Definition unfailing {A : Type} (logPtr : bool) (r : result A) : Prop :=
  match r with
  | OK _ => True
  | Err e => logPtr = true /\ frame_error e
  end.

(** The complete pair of [contig1] and a B hit alone on another contig. *)
Definition mixed_lines : list Line :=
  (complete_lines
   ++ [ mkLine "contig2" "WP_000002|stxB1a" 2011 2070 5000 1 20 20
               "MKKTLLIAASLSFFSASALA" "MKKTLLIAASLSFFSASALA" ])%list.

(** A hit with a stop codon in its third column, and one with a stop codon
    in its last column only. *)
Definition stop_line : Line :=
  mkLine "contig1" "WP_000001|stxA2a" 1001 1015 5000 1 5 319 "MK*KI" "MKAKI".
Definition stop_last_line : Line :=
  mkLine "contig1" "WP_000001|stxA2a" 1001 1015 5000 1 5 319 "MKKK*" "MKKK*".

(** Two A hits of one class on one contig that overlap, neither inside the
    other. *)
Definition overlapping_lines : list Line :=
  [ mkLine "contig1" "WP_000001|stxA1a" 1001 1060 5000 1 20 20
           "MKIIIFRVLTFFFVIFSVNV" "MKIIIFRVLTFFFVIFSVNV";
    mkLine "contig1" "WP_000003|stxA1a" 1031 1090 5000 1 20 20
           "MKIIIFRVLTFFFVIFSVNV" "MKIIIFRVLTFFFVIFSVNV" ].
Definition overlapping_hits : list BlastAlignment.t :=
  match read_hits true overlapping_lines with
  | OK als => als
  | Err _ => []
  end.

(** Two A hits of two references, three columns apart, in front of one B
    hit: the B hit pairs with both, and the second operon lies inside the
    first. *)
Definition twin_A_lines : list Line :=
  [ mkLine "contig1" "WP_000001|stxA1a" 1001 1060 5000 1 20 20
           "MKIIIFRVLTFFFVIFSVNV" "MKIIIFRVLTFFFVIFSVNV";
    mkLine "contig1" "WP_000003|stxA1a" 1004 1063 5000 1 20 20
           "MKIIIFRVLTFFFVIFSVNV" "MKIIIFRVLTFFFVIFSVNV";
    mkLine "contig1" "WP_000002|stxB1a" 1071 1130 5000 1 20 20
           "MKKTLLIAASLSFFSASALA" "MKKTLLIAASLSFFSASALA" ].

(** A pair of class 2 whose A hit has a reference of 400 residues, more
    than the 320 columns of the frame. *)
Definition long_A_lines : list Line :=
  [ mkLine "contig1" "WP_000004|stxA2c" 1001 1021 5000 313 319 400
           "FAAAAAK" "FAAAAAK";
    mkLine "contig1" "WP_000005|stxB2c" 1031 1036 5000 35 36 90 "DA" "DA" ].

(** A pair of class 2 whose A hit ends at column 330 of a reference of 320
    residues: a line that [qc] rejects, and that is read when the checks
    are off. *)
Definition beyond_lines : list Line :=
  [ mkLine "contig1" "WP_000004|stxA2c" 1001 1021 5000 313 330 320
           "FAAAAAK" "FAAAAAK";
    mkLine "contig1" "WP_000005|stxB2c" 1031 1036 5000 35 36 90 "DA" "DA" ].

(** The state in which the first pass leaves the hits of some lines, read
    with the checks on and without a log stream. *)
Definition first_pass (lines : list Line) : Assembly :=
  match same_type_pass false "" true lines with
  | OK st => st
  | Err _ => mkAssembly (heap_of []) [] []
  end.

(** The order in which a pass of the assembler expects its vector: that of
    the filter in the pass of one type, that of [less] in the others. *)
Definition pass_order (sameType : bool) (h : Heap) (a b : ptr) : bool :=
  if sameType then BlastAlignment.sameTypeLess (h a) (h b)
  else BlastAlignment.less (h a) (h b).

(** The subunit of a hit is A or B, as [qc] checks. *)
Definition subunit_AB (al : BlastAlignment.t) : Prop :=
  BlastAlignment.subunit al = "A"%char \/ BlastAlignment.subunit al = "B"%char.

(** The ways in which the stage of the hits can fail once the lines are
    read: the two length assertions of [merge], and a check of [qc] on a
    merged hit when the checks are on. *)
Definition merger_error (qc_on : bool) (e : error) : Prop :=
  e = ASSERT_failed "targetLen == prev. targetLen"
  \/ e = ASSERT_failed "refLen == prev. refLen"
  \/ (qc_on = true /\ exists what, e = QC_ASSERT_failed what).


(** The operon that the assembler builds of the A hit [a] and the B hit
    [b]: the first hit is the one that comes first on the strand. *)
Definition pair_of (h : Heap) (a b : ptr) : Operon.t :=
  if BlastAlignment.targetStrand (h a) then Operon.paired a b
  else Operon.paired b a.

(** The guards under which a pass accepts the pair of [a] and [b]. *)
Definition acceptable (strong : bool) (h : Heap) (a b : ptr) : bool :=
  within_gap strong (Operon.first h (pair_of h a b))
                    (Operon.second h (pair_of h a b))
  && (negb strong || identity_ok h (pair_of h a b)).

(** [x] and [y] lie on one contig and strand and, in the pass of one type,
    are of one class. *)
Definition locus_eq (sameType : bool) (h : Heap) (x y : ptr) : Prop :=
  BlastAlignment.targetName (h x) = BlastAlignment.targetName (h y)
  /\ BlastAlignment.targetStrand (h x) = BlastAlignment.targetStrand (h y)
  /\ (sameType = true ->
      BlastAlignment.stxClass (h x) = BlastAlignment.stxClass (h y)).

(** A paired operon as the resolver expects it: both hits pass [qc] and
    are reported, they lie on one contig and strand, and their subunits
    differ. *)
Definition sound_operon (h : Heap) (op : Operon.t) : Prop :=
  exists p1 p2,
    op = Operon.paired p1 p2
    /\ BlastAlignment.qc true (h p1) = OK tt
    /\ BlastAlignment.qc true (h p2) = OK tt
    /\ BlastAlignment.reported (h p1) = true
    /\ BlastAlignment.reported (h p2) = true
    /\ BlastAlignment.targetName (h p1) = BlastAlignment.targetName (h p2)
    /\ BlastAlignment.targetStrand (h p1) = BlastAlignment.targetStrand (h p2)
    /\ BlastAlignment.subunit (h p1) <> BlastAlignment.subunit (h p2).

(** The check of [Operon::qc] that an operon of the assembler can fail. *)
Definition abutting_error : error :=
  QC_ASSERT_failed "al1->targetEnd < al2->targetStart".

(** [e] is the failure of [qc] on a hit that the merger has made. *)
Definition merged_hit_error (e : error) : Prop :=
  exists al, BlastAlignment.frameshift al = true
             /\ BlastAlignment.qc true al = Err e.

(** The ways in which a run with the checks on can end without a report,
    once its lines are read: in the merger, by one of the two length
    assertions of [merge] or by [qc] on a merged hit; in the resolver, by
    the check of [Operon::qc] on abutting hits; and wherever the row of an
    operon is rendered, in reading a reference frame. *)
Definition run_error (e : error) : Prop :=
  e = ASSERT_failed "targetLen == prev. targetLen"
  \/ e = ASSERT_failed "refLen == prev. refLen"
  \/ merged_hit_error e
  \/ e = abutting_error
  \/ frame_error e.

(** ** Numbers of type [double] *)

(** A [double] that is a number: [x == x] holds of every value but NaN. *)
Definition is_number (x : float) : Prop := PrimFloat.eqb x x = true.

(** The place of a value that is not NaN on the line of the reals: its
    class (negative infinity, negative, zero, positive, positive infinity),
    then its exponent, then its mantissa. *)
Definition sf_key (f : spec_float) : Z * Z * Z :=
  match f with
  | S754_zero _ => (0, 0, 0)
  | S754_infinity s => (if s then -2 else 2, 0, 0)
  | S754_nan => (0, 0, 0)
  | S754_finite s m e => if s then (-1, - e, - Z.pos m) else (1, e, Z.pos m)
  end.

Definition lex_lt (a b : Z * Z * Z) : Prop :=
  fst (fst a) < fst (fst b)
  \/ (fst (fst a) = fst (fst b)
      /\ (snd (fst a) < snd (fst b)
          \/ (snd (fst a) = snd (fst b) /\ snd a < snd b))).

(** A strict weak order on the part of a type that [D] holds of. *)
Record strict_weak_within {A : Type} (D : A -> Prop) (less : A -> A -> bool)
  : Prop := {
  sww_asym : forall a b, D a -> D b -> less a b = true -> less b a = false;
  sww_le_trans :
    forall a b c, D a -> D b -> D c ->
                  less b a = false -> less c b = false -> less c a = false
}.

(** The operons whose identity is a number. *)
Definition identity_is_number (h : Heap) (op : Operon.t) : Prop :=
  is_number (Operon.getIdentity h op).

(** * Properties *)

(** ** The parser *)

Lemma size_eqb_nat (s : string) (n : nat) (z : Z) :
  z = Z.of_nat n ->
  (BlastAlignment.size s =? z) = Nat.eqb (String.length s) n.
Proof.
  intros ->. unfold BlastAlignment.size.
  destruct (Nat.eqb_spec (String.length s) n) as [E | E].
  - rewrite E. apply Z.eqb_refl.
  - apply Z.eqb_neq. lia.
Qed.

Lemma famId_shape (s : string) :
  String.length s = 6%nat ->
  (exists c, at_ s 3 = Some c)
  /\ String.length (String.substring 4 (String.length s - 4) s) = 2%nat.
Proof.
  intros H.
  destruct s as [| c0 [| c1 [| c2 [| c3 [| c4 [| c5 [| c6 s]]]]]]];
    simpl in H; try discriminate.
  split; [exists c3; reflexivity | reflexivity].
Qed.

Lemma of_line_cases (line : Line) :
  if malformed line
  then exists e, BlastAlignment.of_line line = Err e
  else exists al, BlastAlignment.of_line line = OK al.
Proof.
  unfold malformed, BlastAlignment.of_line, famId_of.
  destruct (rfindSplit (l_sseqid line) "|"%char) as [famId sseqid1].
  destruct (rfindSplit sseqid1 "|"%char) as [refAccession rest]. simpl fst.
  rewrite (size_eqb_nat famId 6 6 eq_refl).
  rewrite (size_eqb_nat (l_targetSeq line) (String.length (l_refSeq line))
             (BlastAlignment.size (l_refSeq line)) eq_refl).
  unfold isLeft.
  of_line_check (String.eqb (l_targetSeq line) "").
  destruct (Nat.eqb_spec (String.length famId) 6) as [E6 | E6]; simpl;
    [| eexists; reflexivity].
  of_line_check (String.prefix stxS famId).
  destruct (famId_shape famId E6) as [[c Hc] H2]. rewrite Hc. simpl.
  rewrite (size_eqb_nat _ 2 2 eq_refl), H2. simpl.
  of_line_check (Nat.eqb (String.length (l_targetSeq line))
                         (String.length (l_refSeq line))).
  rewrite (Z.leb_antisym (l_refStart line) (l_refEnd line)).
  of_line_check (l_refStart line <? l_refEnd line).
  of_line_check (l_targetStart line =? l_targetEnd line).
  rewrite (Z.ltb_antisym 1 (l_refStart line)).
  of_line_check (1 <=? l_refStart line).
  destruct (Z.ltb_spec (l_targetStart line) (l_targetEnd line));
    [rewrite Z.min_l by lia | rewrite Z.min_r by lia]; cbv iota;
    rewrite (Z.ltb_antisym 1);
    match goal with
    | |- context [1 <=? ?a] => of_line_check (1 <=? a)
    end.
Qed.

Lemma of_line_malformed (line : Line) :
  malformed line = true -> exists e, BlastAlignment.of_line line = Err e.
Proof. intros M. pose proof (of_line_cases line) as H. now rewrite M in H. Qed.

Lemma of_line_wellformed (line : Line) :
  malformed line = false -> exists al, BlastAlignment.of_line line = OK al.
Proof. intros M. pose proof (of_line_cases line) as H. now rewrite M in H. Qed.

(** C8 (as amended): the constructor throws exactly when one of its eight
    checks on the input operands fails -- an empty target sequence, a family
    code that is not six characters or does not begin with [stx], aligned
    sequences of different lengths, a reference start that is not below the
    reference end, a target start equal to the target end, or a start
    coordinate of zero -- and in every other case it yields a hit. *)
Theorem of_line_fails_exactly_when_malformed (line : Line) :
  ((exists e, BlastAlignment.of_line line = Err e) <-> malformed line = true)
  /\ ((exists al, BlastAlignment.of_line line = OK al)
      <-> malformed line = false).
Proof.
  split; split.
  - intros [e He]. destruct (malformed line) eqn:M; [reflexivity |].
    destruct (of_line_wellformed line M) as [al Hal]. congruence.
  - apply of_line_malformed.
  - intros [al Hal]. destruct (malformed line) eqn:M; [| reflexivity].
    destruct (of_line_malformed line M) as [e He]. congruence.
  - apply of_line_wellformed.
Qed.

(** C8 (counterexample): the family code decodes, the aligned sequences
    have the same positive length, the target start differs from the target
    end, every length and span is positive, and the constructor still
    throws: the reference start is zero. *)
Lemma of_line_fails_outside_the_listed_causes :
  let line := line_zero_refStart in
  String.length (famId_of line) = 6%nat
  /\ String.prefix stxS (famId_of line) = true
  /\ String.length (l_targetSeq line) = String.length (l_refSeq line)
  /\ (0 < String.length (l_targetSeq line))%nat
  /\ l_targetStart line <> l_targetEnd line
  /\ 0 < l_targetLen line /\ 0 < l_refLen line
  /\ 0 < l_refEnd line - l_refStart line
  /\ 0 < l_targetEnd line - l_targetStart line
  /\ BlastAlignment.of_line line = Err (QC_ASSERT_failed "refStart >= 1").
Proof. vm_compute. repeat split; try discriminate; auto. Qed.

(** ** The fixed parameters *)

(** C5 (as amended): the slack of the suppression window is 30 and the
    intergenic threshold is 36, so the slack is the smaller of the two. *)
Theorem slack_below_intergenic_max :
  slack = 30 /\ intergenic_max = 36 /\ slack < intergenic_max.
Proof. unfold slack, intergenic_max. lia. Qed.

(** C5 (counterexample): the slack is not larger than the threshold. *)
Lemma slack_not_above_intergenic_max : ~ (intergenic_max < slack).
Proof. unfold slack, intergenic_max. lia. Qed.

(** ** The frameshift merger *)

Lemma bind_OK {A B : Type} (r : result A) (k : A -> result B) (b : B) :
  bind r k = OK b -> exists a, r = OK a /\ k a = OK b.
Proof. destruct r; simpl; [eauto | discriminate]. Qed.

Lemma ASSERT_OK (what : string) (b : bool) (u : unit) :
  ASSERT what b = OK u -> b = true.
Proof. destruct b; [reflexivity | discriminate]. Qed.

Lemma QC_ASSERT_OK (what : string) (b : bool) (u : unit) :
  QC_ASSERT what b = OK u -> b = true.
Proof. destruct b; [reflexivity | discriminate]. Qed.

Lemma store_same (h : Heap) (p : ptr) (al : BlastAlignment.t) :
  store h p al p = al.
Proof. unfold store. now rewrite Nat.eqb_refl. Qed.

Lemma store_other (h : Heap) (p q : ptr) (al : BlastAlignment.t) :
  q <> p -> store h p al q = h q.
Proof. intros H. unfold store. now apply Nat.eqb_neq in H; rewrite H. Qed.

(** C7 (as amended): when the merger absorbs [prev] into [al], the target
    start of [al] becomes that of [prev] and its target end stays its own;
    on the forward strand the reference start, on the reverse strand the
    reference end, becomes that of [prev]; length and identical count are
    the [size_t] sums, which are the plain sums unless they overflow; the
    stop flag is the disjunction; [al] is frameshifted and [prev] is
    reported.  The new range is the union of the two ranges when [prev]
    ends no later than [al]. *)
Theorem absorb_post (qc_on : bool) (h h' : Heap) (prev al : ptr) :
  frameshift_pair h prev al = true ->
  frameshift_step qc_on h (Some prev) al = OK h' ->
  let a := h al in
  let p := h prev in
  let a' := h' al in
  BlastAlignment.targetStart a' = BlastAlignment.targetStart p
  /\ BlastAlignment.targetEnd a' = BlastAlignment.targetEnd a
  /\ (if BlastAlignment.targetStrand a
      then BlastAlignment.refStart a' = BlastAlignment.refStart p
           /\ BlastAlignment.refEnd a' = BlastAlignment.refEnd a
      else BlastAlignment.refEnd a' = BlastAlignment.refEnd p
           /\ BlastAlignment.refStart a' = BlastAlignment.refStart a)
  /\ BlastAlignment.length a'
     = size_add (BlastAlignment.length a) (BlastAlignment.length p)
  /\ BlastAlignment.nident a'
     = size_add (BlastAlignment.nident a) (BlastAlignment.nident p)
  /\ (0 <= BlastAlignment.length a + BlastAlignment.length p
          < 2 ^ size_t_bits ->
      BlastAlignment.length a'
      = BlastAlignment.length a + BlastAlignment.length p)
  /\ (0 <= BlastAlignment.nident a + BlastAlignment.nident p
          < 2 ^ size_t_bits ->
      BlastAlignment.nident a'
      = BlastAlignment.nident a + BlastAlignment.nident p)
  /\ BlastAlignment.stopCodon a'
     = (BlastAlignment.stopCodon a || BlastAlignment.stopCodon p)
  /\ BlastAlignment.frameshift a' = true
  /\ BlastAlignment.reported (h' prev) = true
  /\ (BlastAlignment.targetEnd p <= BlastAlignment.targetEnd a ->
      BlastAlignment.targetStart a'
      = Z.min (BlastAlignment.targetStart p) (BlastAlignment.targetStart a)
      /\ BlastAlignment.targetEnd a'
         = Z.max (BlastAlignment.targetEnd p) (BlastAlignment.targetEnd a)).
Proof.
  intros Hpair Hstep. simpl in Hstep. rewrite Hpair in Hstep.
  unfold absorb in Hstep.
  apply bind_OK in Hstep as [merged [Hmerge Hstep]].
  apply bind_OK in Hstep as [u [_ Hstep]]. injection Hstep as <-.
  unfold BlastAlignment.merge in Hmerge.
  repeat (apply bind_OK in Hmerge as [? [_ Hmerge]]).
  injection Hmerge as <-.
  assert (Hlt : BlastAlignment.targetStart (h prev)
                < BlastAlignment.targetStart (h al)).
  { unfold frameshift_pair in Hpair.
    repeat (apply andb_prop in Hpair as [Hpair ?]).
    now apply Z.ltb_lt. }
  assert (Hne : al <> prev) by (intros ->; lia).
  cbv zeta. unfold set_reported.
  rewrite (store_other _ prev al _ Hne), store_same, store_same.
  simpl. repeat split.
  - destruct (BlastAlignment.targetStrand (h al)); split; reflexivity.
  - intros Hr. unfold size_add, wrap. now apply Z.mod_small.
  - intros Hr. unfold size_add, wrap. now apply Z.mod_small.
  - destruct (BlastAlignment.stopCodon (h prev)),
             (BlastAlignment.stopCodon (h al)); reflexivity.
  - lia.
  - lia.
Qed.

Lemma absorb_post_witness :
  let h := heap_of nested_hits in
  exists h',
    frameshift_step true h (Some 0%nat) 1%nat = OK h'
    /\ BlastAlignment.targetStart (h' 1%nat) = 100
    /\ BlastAlignment.frameshift (h' 1%nat) = true
    /\ BlastAlignment.reported (h' 0%nat) = true.
Proof.
  intros h.
  destruct (frameshift_step true h (Some 0%nat) 1%nat) as [h' |] eqn:E;
    [| vm_compute in E; discriminate].
  exists h'. split; [reflexivity |].
  pose proof (absorb_post true h h' 0%nat 1%nat eq_refl E) as P.
  cbv zeta in P.
  destruct P as (P1 & _ & _ & _ & _ & _ & _ & _ & P7 & P8 & _).
  rewrite P1, P7, P8. repeat split.
Defined.

(** C7 (counterexample): the two lines are read and checked, the merger
    absorbs the first hit into the second, and the merged range, columns
    100 to 300, ends before the absorbed hit's end at column 500: it is not
    the union of the two ranges. *)
Lemma absorb_range_not_union :
  let h := heap_of nested_hits in
  List.length nested_hits = 2%nat
  /\ frameshift_pair h 0%nat 1%nat = true
  /\ match find_frameshifts true h (pointers nested_hits) with
     | OK (h', sorted) =>
         sorted = [0%nat; 1%nat]
         /\ BlastAlignment.frameshift (h' 1%nat) = true
         /\ BlastAlignment.targetStart (h' 1%nat) = 100
         /\ BlastAlignment.targetEnd (h' 1%nat) = 300
         /\ BlastAlignment.targetEnd (h 0%nat) = 500
         /\ BlastAlignment.targetEnd (h' 1%nat)
            <> Z.max (BlastAlignment.targetEnd (h 0%nat))
                     (BlastAlignment.targetEnd (h 1%nat))
     | Err _ => False
     end.
Proof. vm_compute. repeat split; discriminate. Qed.

(** ** The reference-frame projection *)

Lemma length_append (s1 s2 : string) :
  String.length (s1 ++ s2)%string = (String.length s1 + String.length s2)%nat.
Proof. induction s1 as [| c s1 IH]; simpl; [reflexivity | now rewrite IH]. Qed.

Lemma length_string_of_count (n : nat) (c : ascii) :
  String.length (string_of_count n c) = n.
Proof. induction n as [| n IH]; simpl; [reflexivity | now rewrite IH]. Qed.

Lemma get_Some_of_lt (s : string) (i : nat) :
  (i < String.length s)%nat -> exists c, String.get i s = Some c.
Proof.
  revert i. induction s as [| a s IH]; intros i H; simpl in H; [lia |].
  destruct i as [| i]; simpl; [eauto | apply IH; lia].
Qed.

Lemma at_Some_of_lt (s : string) (i : nat) :
  (i < String.length s)%nat -> exists c, at_ s i = Some c.
Proof.
  intros H. destruct (get_Some_of_lt s i H) as [c Hc].
  exists c. unfold at_. now rewrite Hc.
Qed.

Lemma refMap_columns_length (targetSeq : string) (rest : string) (i : nat) :
  (i + String.length rest <= String.length targetSeq)%nat ->
  exists s, BlastAlignment.refMap_columns targetSeq i rest = OK s
            /\ String.length s = residues rest.
Proof.
  revert i. induction rest as [| r rest IH]; intros i H; simpl in *.
  - eexists; split; reflexivity.
  - destruct (IH (S i)) as [s [Hs Hlen]]; [lia |]. rewrite Hs. simpl.
    destruct (Ascii.eqb r "-"%char).
    + eauto.
    + destruct (at_Some_of_lt targetSeq i) as [c Hc]; [lia |].
      rewrite Hc. eexists; split; [reflexivity |]. simpl. now rewrite Hlen.
Qed.

Lemma qc_facts (al : BlastAlignment.t) :
  BlastAlignment.qc true al = OK tt ->
  BlastAlignment.refStart al < BlastAlignment.refEnd al
  /\ BlastAlignment.refEnd al <= BlastAlignment.refLen al
  /\ String.length (BlastAlignment.targetSeq al)
     = String.length (BlastAlignment.refSeq al).
Proof.
  unfold BlastAlignment.qc. simpl negb. cbv iota. intros H.
  repeat match type of H with
         | bind (QC_ASSERT _ _) _ = OK _ =>
             let Hq := fresh "Hq" in
             apply bind_OK in H as [? [Hq H]]; apply QC_ASSERT_OK in Hq
         | bind _ _ = OK _ => apply bind_OK in H as [? [_ H]]
         end.
  repeat split.
  - now apply Z.ltb_lt.
  - now apply Z.leb_le.
  - match goal with
    | E : (BlastAlignment.size _ =? BlastAlignment.size _) = true |- _ =>
        apply Z.eqb_eq in E; unfold BlastAlignment.size in E; lia
    end.
Qed.

Lemma string_of_size_OK (n : Z) (c : ascii) :
  n <= string_max_size ->
  string_of_size n c = OK (string_of_count (Z.to_nat n) c).
Proof.
  intros H. unfold string_of_size.
  now destruct (Z.leb_spec n string_max_size); [| lia].
Qed.

Lemma string_append_OK (s t : string) :
  Z.of_nat (String.length s + String.length t) <= string_max_size ->
  string_append s t = OK (s ++ t)%string.
Proof.
  intros H. unfold string_append.
  now destruct (Z.leb_spec (Z.of_nat (String.length s + String.length t))
                           string_max_size); [| lia].
Qed.

(** The well-formed part of C10, for one hit and one frame width. *)
Lemma refMap_length (al : BlastAlignment.t) (len : Z) :
  BlastAlignment.qc true al = OK tt ->
  BlastAlignment.refLen al <= len ->
  len <= string_max_size ->
  0 <= BlastAlignment.refStart al ->
  Z.of_nat (residues (BlastAlignment.refSeq al))
  = BlastAlignment.refEnd al - BlastAlignment.refStart al ->
  exists s, BlastAlignment.refMap al len = OK s
            /\ BlastAlignment.size s = len.
Proof.
  intros Hqc Hlen Hmax Hstart Hres.
  destruct (qc_facts al Hqc) as (Hse & Hel & Hsz).
  unfold BlastAlignment.refMap.
  destruct (Z.leb_spec (BlastAlignment.refLen al) len); [| lia]. simpl.
  destruct (refMap_columns_length (BlastAlignment.targetSeq al)
              (BlastAlignment.refSeq al) 0) as [s [Hs Hl]]; [lia |].
  assert (Hsub : size_sub len (BlastAlignment.refEnd al)
                 = len - BlastAlignment.refEnd al).
  { unfold size_sub, wrap. apply Z.mod_small.
    unfold string_max_size in Hmax. change size_t_bits with 64. lia. }
  rewrite string_of_size_OK by lia. cbn [bind].
  rewrite Hs. cbn [bind].
  rewrite string_append_OK
    by (rewrite length_string_of_count, Hl; lia).
  cbn [bind]. rewrite Hsub, string_of_size_OK by lia. cbn [bind].
  rewrite string_append_OK
    by (rewrite !length_append, !length_string_of_count, Hl; lia).
  eexists; split; [reflexivity |].
  unfold BlastAlignment.size.
  rewrite !length_append, !length_string_of_count, Hl. lia.
Qed.

(** C10 (as amended): a hit that is not frameshifted, passes [qc], has
    [refLen <= len], and whose aligned reference holds exactly
    [refEnd - refStart] residues is projected onto a string of length [len];
    every column below [len] holds a character, among them columns 312 and
    318 of the 320-column frame and column 34 of the 90-column frame (the
    fields being [size_t] values and [len] a size that a string can have).
    A hit that the merger has produced keeps only the later fragment's
    sequences: its projection can be shorter than [len] and column 312 can
    lie outside. *)
Theorem refMap_frame_bounds :
  (forall (al : BlastAlignment.t) (len : Z),
      BlastAlignment.frameshift al = false ->
      BlastAlignment.qc true al = OK tt ->
      BlastAlignment.refLen al <= len ->
      len <= string_max_size ->
      0 <= BlastAlignment.refStart al ->
      Z.of_nat (residues (BlastAlignment.refSeq al))
      = BlastAlignment.refEnd al - BlastAlignment.refStart al ->
      exists s, BlastAlignment.refMap al len = OK s
                /\ BlastAlignment.size s = len
                /\ (forall i, Z.of_nat i < len ->
                              exists c, String.get i s = Some c)
                /\ (len = 320 -> (exists c, String.get 312 s = Some c)
                                 /\ (exists c, String.get 318 s = Some c))
                /\ (len = 90 -> exists c, String.get 34 s = Some c))
  /\ match find_frameshifts true (heap_of fragment_hits)
             (pointers fragment_hits) with
     | OK (h', _) =>
         BlastAlignment.frameshift (h' 1%nat) = true
         /\ BlastAlignment.qc true (h' 1%nat) = OK tt
         /\ BlastAlignment.refLen (h' 1%nat) <= 320
         /\ exists s, BlastAlignment.refMap (h' 1%nat) 320 = OK s
                      /\ BlastAlignment.size s < 320
                      /\ at_ s 312 = None
     | Err _ => False
     end.
Proof.
  split.
  - intros al len _ Hqc Hlen Hmax Hstart Hres.
    destruct (refMap_length al len Hqc Hlen Hmax Hstart Hres) as [s [Hs Hsz]].
    assert (Hget : forall i, Z.of_nat i < len ->
                             exists c, String.get i s = Some c).
    { intros i Hi. apply get_Some_of_lt.
      unfold BlastAlignment.size in Hsz. lia. }
    exists s. repeat split; auto.
    + apply Hget; lia.
    + apply Hget; lia.
    + intros ->. apply Hget; lia.
  - vm_compute. repeat split; try discriminate.
    eexists. repeat split.
Qed.

Lemma refMap_frame_bounds_witness :
  exists s, BlastAlignment.refMap hit_2a_A 320 = OK s
            /\ BlastAlignment.size s = 320
            /\ String.get 312 s = Some "F"%char
            /\ String.get 318 s = Some "K"%char.
Proof.
  destruct (proj1 refMap_frame_bounds hit_2a_A 320)
    as [s (Hs & Hsz & _)];
    [ reflexivity | vm_compute; reflexivity | vm_compute; discriminate
    | vm_compute; discriminate | vm_compute; discriminate
    | vm_compute; reflexivity | ].
  exists s. split; [exact Hs |]. split; [exact Hsz |].
  vm_compute in Hs. injection Hs as <-. split; reflexivity.
Defined.

(** A frame wider than a string can be long is not projected onto: the run
    of dashes behind the columns cannot be built. *)
Example refMap_frame_too_wide :
  BlastAlignment.refMap hit_2a_B (2 ^ 63)
  = Err (length_error "basic_string::_M_create").
Proof. vm_compute. reflexivity. Qed.

(** C10 (counterexample): the hit is read and passes [qc], it is not
    frameshifted and [refLen <= 320], and yet its projection onto the
    320-column frame has 317 columns, so that column 318 lies outside. *)
Lemma refMap_short_without_frameshift :
  match read_hits true [gapped_line] with
  | OK [al] =>
      BlastAlignment.frameshift al = false
      /\ BlastAlignment.qc true al = OK tt
      /\ BlastAlignment.refLen al <= 320
      /\ (exists s, BlastAlignment.refMap al 320 = OK s
                    /\ BlastAlignment.size s = 317
                    /\ at_ s 318 = None)
  | _ => False
  end.
Proof.
  vm_compute. repeat split; try discriminate.
  eexists. repeat split.
Qed.

(** ** The resolved type *)

Lemma char_is_at (s : string) (i : nat) (x c : ascii) :
  at_ s i = Some x -> char_is s i c = OK (Ascii.eqb x c).
Proof. intros H. unfold char_is. now rewrite H. Qed.

(** C2: for a paired operon whose two hits are of class "2", the type that
    the report resolves is the specification's function of the residues at
    columns 313 and 319 of the A projection and column 35 of the B
    projection (indices 312, 318 and 34), whatever else the projections
    hold. *)
Theorem getStxType_class2 (h : Heap) (op : Operon.t) (p2 : ptr)
  (a b : string) (a313 a319 b35 : ascii) :
  Operon.al2 op = Some p2 ->
  BlastAlignment.stxClass (Operon.first h op) = "2" ->
  BlastAlignment.stxClass (Operon.second h op) = "2" ->
  BlastAlignment.refMap (Operon.getA h op) 320 = OK a ->
  BlastAlignment.refMap (Operon.getB h op) 90 = OK b ->
  at_ a 312 = Some a313 ->
  at_ a 318 = Some a319 ->
  at_ b 34 = Some b35 ->
  Operon.getStxType h false op = OK (class2_subtype a313 a319 b35).
Proof.
  intros H2 Hc1 Hc2 Ha Hb H312 H318 H34.
  unfold Operon.getStxType. rewrite H2, Hc1, Hc2. simpl negb. cbv iota.
  change (size_add 319 1) with 320. change (size_add 89 1) with 90.
  rewrite Ha, Hb. simpl bind.
  rewrite !(char_is_at a 312 a313 _ H312), !(char_is_at a 318 a319 _ H318),
          !(char_is_at b 34 b35 _ H34).
  unfold class2_subtype.
  destruct (Ascii.eqb a313 "F"), (Ascii.eqb a313 "S"),
           (Ascii.eqb a319 "K"), (Ascii.eqb a319 "E"),
           (Ascii.eqb b35 "D"), (Ascii.eqb b35 "N"); reflexivity.
Qed.

Lemma getStxType_class2_witness :
  Operon.getStxType heap_2a false (Operon.paired 0 1) = OK "2a".
Proof.
  exact (getStxType_class2 heap_2a (Operon.paired 0 1) 1%nat
           _ _ "F"%char "K"%char "D"%char
           eq_refl eq_refl eq_refl
           (eq_refl : BlastAlignment.refMap hit_2a_A 320
                      = OK (string_of_count 312 "-" ++ "FAAAAAK"
                            ++ string_of_count 1 "-")%string)
           (eq_refl : BlastAlignment.refMap hit_2a_B 90
                      = OK (string_of_count 34 "-" ++ "DA"
                            ++ string_of_count 54 "-")%string)
           eq_refl eq_refl eq_refl).
Defined.

(** ** The reported type *)

Lemma length_substring_0_1 (c : ascii) (s : string) :
  String.substring 0 1 (String c s) = String c EmptyString.
Proof. simpl. now destruct s. Qed.

(** C1 (as amended): in the row of a paired operon the type written after
    the prefix [stx] is the resolved type cut to its first character exactly
    when the status is not COMPLETE and the resolved type has at least two
    characters; the status COMPLETE_NOVEL is cut like every other status
    that is not COMPLETE. *)
Theorem reported_type_truncation (h : Heap) (input_name : string)
  (verboseP : bool) (op : Operon.t) (p2 : ptr) (stxType : string) :
  Operon.al2 op = Some p2 ->
  Operon.getStxType h verboseP op = OK stxType ->
  let status := Operon.operonType h op stxType in
  let shown := Operon.reported_stxType status stxType in
  (exists rest,
      Operon.saveTsvOut h input_name verboseP op
      = OK ((if String.eqb input_name "" then [] else [Str input_name])
            ++ Str (BlastAlignment.targetName (Operon.first h op))
               :: Str (stxS ++ shown) :: Str status :: rest)%list)
  /\ (shown <> stxType
      <-> status <> "COMPLETE" /\ (2 <= String.length stxType)%nat)
  /\ (shown <> stxType -> shown = String.substring 0 1 stxType)
  /\ (status = "COMPLETE_NOVEL" -> (2 <= String.length stxType)%nat ->
      shown = String.substring 0 1 stxType /\ shown <> stxType).
Proof.
  intros H2 Hty status shown.
  assert (Hcut : status <> "COMPLETE" -> (2 <= String.length stxType)%nat ->
                 shown = String.substring 0 1 stxType /\ shown <> stxType).
  { intros Hs Hl. subst shown. unfold Operon.reported_stxType.
    apply String.eqb_neq in Hs. unfold Operon.standard. rewrite Hs.
    destruct (Z.leb_spec 2 (BlastAlignment.size stxType)) as [_ | Hlt];
      [| unfold BlastAlignment.size in Hlt; lia ].
    simpl. split; [reflexivity |].
    destruct stxType as [| c [| d s]]; simpl in Hl; try lia.
    rewrite length_substring_0_1. discriminate. }
  assert (Hkeep : ~ (status <> "COMPLETE" /\ (2 <= String.length stxType)%nat)
                  -> shown = stxType).
  { intros Hn. subst shown. unfold Operon.reported_stxType, Operon.standard.
    destruct (String.eqb_spec status "COMPLETE") as [E | E]; [reflexivity |].
    destruct (Z.leb_spec 2 (BlastAlignment.size stxType)) as [Hle | _];
      [| reflexivity ].
    exfalso. apply Hn. split; [exact E |].
    unfold BlastAlignment.size in Hle. lia. }
  split; [| split; [| split]].
  - unfold Operon.saveTsvOut. rewrite H2, Hty. simpl bind.
    eexists. reflexivity.
  - split.
    + intros Hne.
      destruct (String.eqb_spec status "COMPLETE") as [E | E].
      * exfalso. apply Hne, Hkeep. intros [Hs _]. now apply Hs.
      * destruct (le_lt_dec 2 (String.length stxType)) as [Hl | Hl];
          [now split |].
        exfalso. apply Hne, Hkeep. intros [_ Hl']. lia.
    + intros [Hs Hl]. now apply Hcut.
  - intros Hne.
    destruct (String.eqb_spec status "COMPLETE") as [E | E].
    + exfalso. apply Hne, Hkeep. intros [Hs _]. now apply Hs.
    + destruct (le_lt_dec 2 (String.length stxType)) as [Hl | Hl].
      * now apply Hcut.
      * exfalso. apply Hne, Hkeep. intros [_ Hl']. lia.
  - intros Hs Hl. apply Hcut; [| exact Hl]. rewrite Hs. discriminate.
Qed.

Lemma reported_type_truncation_witness :
  let h := heap_of novel_hits in
  exists rest,
    Operon.saveTsvOut h "" false (Operon.paired 0 1)
    = OK (Str "contig1" :: Str "stx1" :: Str "COMPLETE_NOVEL" :: rest).
Proof.
  intros h.
  destruct (reported_type_truncation h "" false (Operon.paired 0 1) 1%nat "1a"
              eq_refl eq_refl) as [[rest Hrow] _].
  exists rest. exact Hrow.
Defined.

(** C1 (counterexample): the two hits are read and checked; their operon
    resolves to type 1a and has status COMPLETE_NOVEL, and its row, which is
    the one row of the report, shows the type cut to [stx1]. *)
Lemma novel_operon_type_is_cut :
  let h := heap_of novel_hits in
  let op := Operon.paired 0 1 in
  List.length novel_hits = 2%nat
  /\ Operon.getStxType h false op = OK "1a"
  /\ Operon.operonType h op "1a" = "COMPLETE_NOVEL"
  /\ (exists rest,
         Operon.saveTsvOut h "" false op
         = OK (Str "contig1" :: Str "stx1" :: Str "COMPLETE_NOVEL" :: rest))
  /\ match shellBody false true "" novel_lines with
     | OK [Str contig :: Str type :: Str status :: _] =>
         contig = "contig1" /\ type = "stx1" /\ status = "COMPLETE_NOVEL"
     | _ => False
     end.
Proof.
  vm_compute. repeat split. eexists. reflexivity.
Qed.

(** ** The operon assembler *)

Lemma each_after_nil {A : Type} (P : list A -> A -> Prop) : each_after P [].
Proof. intros [| x before] e after H; discriminate. Qed.

Lemma each_after_snoc {A : Type} (P : list A -> A -> Prop) (l : list A)
  (x : A) :
  each_after P l -> P l x -> each_after P (l ++ [x])%list.
Proof.
  intros Hl Hx before e after H.
  destruct (exists_last (l := e :: after)) as [mid [y Hy]]; [discriminate |].
  rewrite Hy, app_assoc in H. apply app_inj_tail in H as [H1 H2].
  destruct mid as [| m mid]; simpl in Hy.
  - injection Hy as -> _. rewrite app_nil_r in H1. now subst.
  - injection Hy as -> _. now apply (Hl before m mid).
Qed.

Lemma set_reported_cases (h : Heap) (p q : ptr) :
  set_reported h p q = h q
  \/ (q = p /\ set_reported h p q = BlastAlignment.mark_reported (h q)).
Proof.
  unfold set_reported, store. destruct (Nat.eqb_spec q p) as [-> | N]; auto.
Qed.

Lemma set_reported_subunit (h : Heap) (p q : ptr) :
  BlastAlignment.subunit (set_reported h p q) = BlastAlignment.subunit (h q).
Proof.
  destruct (set_reported_cases h p q) as [-> | [_ ->]]; reflexivity.
Qed.

Lemma try_pair_OK (logPtr : bool) (input_name : string) (strong : bool)
  (alA alB : ptr) (st st' : Assembly) :
  try_pair logPtr input_name strong alA alB st = OK st' ->
  st' = after_pair strong alA alB st.
Proof.
  unfold try_pair, after_pair. cbv zeta.
  destruct (within_gap strong _ _); [| now intros H; injection H as <-].
  intros H. apply bind_OK in H as [_ [_ H]].
  destruct (negb strong || identity_ok _ _); now injection H as <-.
Qed.

Lemma try_pair_quiet (input_name : string) (strong : bool)
  (alA alB : ptr) (st : Assembly) :
  try_pair false input_name strong alA alB st
  = OK (after_pair strong alA alB st).
Proof.
  unfold try_pair, after_pair. cbv zeta.
  destruct (within_gap strong _ _); [| reflexivity]. cbn [bind].
  now destruct (negb strong || identity_ok _ _).
Qed.

(** The body of the inner loop has returned: what follows in [H] runs in
    the state that it leaves. *)
Ltac pair_returns H :=
  let s := fresh "s" in
  let Ht := fresh "Ht" in
  apply bind_OK in H as [s [Ht H]]; apply try_pair_OK in Ht; subst s.

Lemma try_pair_inv (strong : bool) (operons0 : list Operon.t)
  (alA alB : ptr) (st : Assembly) :
  BlastAlignment.reported (st_heap st alA) = false ->
  BlastAlignment.targetName (st_heap st alA)
  = BlastAlignment.targetName (st_heap st alB) ->
  BlastAlignment.targetStrand (st_heap st alA)
  = BlastAlignment.targetStrand (st_heap st alB) ->
  BlastAlignment.subunit (st_heap st alA) = "A"%char ->
  assembly_inv strong operons0 st ->
  scan_inv alB st ->
  assembly_inv strong operons0 (after_pair strong alA alB st)
  /\ scan_inv alB (after_pair strong alA alB st).
Proof.
  intros HrA Hname Hstrand HsubA Hinv Hsc.
  pose proof Hinv as [Hok Hwithin Hops]. pose proof Hsc as [HsubB HrB].
  unfold after_pair. cbv zeta.
  remember (st_heap st) as h eqn:Hh.
  remember (if BlastAlignment.targetStrand (h alA) then alA else alB)
    as al1 eqn:H1.
  remember (if BlastAlignment.targetStrand (h alA) then alB else alA)
    as al2 eqn:H2.
  destruct (within_gap strong (h al1) (h al2)) eqn:Hgap; [| now split].
  destruct (negb strong || identity_ok h (Operon.paired al1 al2)) eqn:Hid;
    [| now split].
  assert (HB : ptrB h (Operon.paired al1 al2) = Some alB).
  { unfold ptrB, Operon.first, Operon.paired. simpl. subst al1 al2.
    destruct (BlastAlignment.targetStrand (h alA)) eqn:E; simpl.
    - now rewrite E.
    - now rewrite <- Hstrand. }
  assert (Hnew : accepted_ok (st_accepted st)
                   (mkAcceptance (Operon.paired al1 al2) h)).
  { unfold accepted_ok, Operon.getA, Operon.getB, Operon.first, Operon.second.
    simpl. rewrite HB.
    unfold within_gap in Hgap. apply andb_prop in Hgap as [Hle _].
    apply Z.leb_le in Hle.
    subst al1 al2.
    destruct (BlastAlignment.targetStrand (h alA)) eqn:E.
    - rewrite E. repeat split; auto.
    - rewrite <- Hstrand. repeat split; auto. }
  split; [constructor | split]; simpl.
  - now apply each_after_snoc.
  - apply Forall_app. split; [assumption |]. constructor; [| constructor].
    split; [exact Hgap |]. simpl. intros ->. exact Hid.
  - rewrite Hops, map_app, app_assoc. reflexivity.
  - now rewrite !set_reported_subunit.
  - right. eexists. split; [apply in_or_app; right; left; reflexivity |].
    exact HB.
Qed.

Lemma pair_scan_inv {logPtr : bool} {input_name : string}
  (sameType strong : bool) (operons0 : list Operon.t)
  (v : list ptr) (alB : ptr) (n : nat) :
  forall (j : nat) (st st' : Assembly),
    pair_scan logPtr input_name sameType strong v alB n j st = OK st' ->
    assembly_inv strong operons0 st ->
    scan_inv alB st ->
    assembly_inv strong operons0 st'.
Proof.
  induction n as [| n IH]; intros j st st' Hscan Hinv Hsc; simpl in Hscan.
  - now injection Hscan as <-.
  - destruct (BlastAlignment.reported (st_heap st (elem v j))) eqn:HrA.
    + now apply (IH _ _ _ Hscan).
    + apply bind_OK in Hscan as [? [Hname Hscan]]. apply ASSERT_OK in Hname.
      apply bind_OK in Hscan as [? [Hstrand Hscan]].
      apply ASSERT_OK in Hstrand.
      apply bind_OK in Hscan as [? [_ Hscan]].
      apply bind_OK in Hscan as [? [_ Hscan]].
      destruct (Ascii.eqb (BlastAlignment.subunit (st_heap st (elem v j)))
                          (BlastAlignment.subunit (st_heap st alB))).
      * now injection Hscan as <-.
      * apply bind_OK in Hscan as [? [HsubA Hscan]]. apply ASSERT_OK in HsubA.
        pair_returns Hscan.
        apply String.eqb_eq in Hname. apply Bool.eqb_prop in Hstrand.
        apply Ascii.eqb_eq in HsubA.
        destruct (try_pair_inv strong operons0 (elem v j) alB st
                    HrA Hname Hstrand HsubA Hinv Hsc) as [Hinv' Hsc'].
        now apply (IH _ _ _ Hscan).
Qed.

Lemma pair_loop_inv {logPtr : bool} {input_name : string}
  (sameType strong : bool) (operons0 : list Operon.t)
  (v : list ptr) (n : nat) :
  forall (i start : nat) (st st' : Assembly),
    pair_loop logPtr input_name sameType strong v n i start st = OK st' ->
    assembly_inv strong operons0 st ->
    assembly_inv strong operons0 st'.
Proof.
  induction n as [| n IH]; intros i start st st' Hloop Hinv; simpl in Hloop.
  - now injection Hloop as <-.
  - destruct (BlastAlignment.reported (st_heap st (elem v i))) eqn:HrB;
      [now apply (IH _ _ _ _ Hloop) |].
    destruct (Ascii.eqb_spec (BlastAlignment.subunit (st_heap st (elem v i)))
                             "B") as [HsubB | HsubB]; simpl in Hloop;
      [| now apply (IH _ _ _ _ Hloop)].
    apply bind_OK in Hloop as [st1 [Hscan Hloop]].
    apply (IH _ _ _ _ Hloop).
    apply (pair_scan_inv _ _ _ _ _ _ _ _ _ Hscan Hinv).
    split; [exact HsubB | now left].
Qed.

Lemma goodBlasts2operons_inv {logPtr : bool} {input_name : string}
  (h : Heap) (v : list ptr)
  (operons0 : list Operon.t) (sameType strong : bool) (st : Assembly) :
  goodBlasts2operons logPtr input_name h v operons0 sameType strong = OK st ->
  assembly_inv strong operons0 st.
Proof.
  unfold goodBlasts2operons. intros H.
  apply bind_OK in H as [? [_ H]].
  apply bind_OK in H as [st1 [Hloop H]].
  apply bind_OK in H as [h' [_ H]]. injection H as <-.
  assert (Hinv : assembly_inv strong operons0 st1).
  { apply (pair_loop_inv _ _ _ _ _ _ _ _ _ Hloop).
    constructor; simpl.
    - apply each_after_nil.
    - constructor.
    - now rewrite app_nil_r. }
  destruct Hinv as [H1 H2 H3]. constructor; assumption.
Qed.

(** C3 (as amended): every operon that a call of [goodBlasts2operons]
    appends is recorded at the moment it is accepted, and at that moment its
    two hits lie on the same contig and strand, the first ends no later
    than the second starts, the strand-relative A hit has subunit A and is
    not yet reported, the B hit has subunit B, and the B hit is not yet
    reported unless an operon accepted earlier in the same call holds the
    very same B hit. *)
Theorem accepted_operon_invariant {logPtr : bool} {input_name : string}
  (h : Heap) (goodBlastAls : list ptr)
  (operons : list Operon.t) (sameType strong : bool) (st : Assembly) :
  goodBlasts2operons logPtr input_name h goodBlastAls operons sameType strong
  = OK st ->
  st_operons st = (operons ++ map acc_operon (st_accepted st))%list
  /\ forall earlier e later,
      st_accepted st = (earlier ++ e :: later)%list ->
      let hh := acc_heap e in
      let op := acc_operon e in
      Operon.hasAl2 op = true
      /\ BlastAlignment.targetName (Operon.first hh op)
         = BlastAlignment.targetName (Operon.second hh op)
      /\ BlastAlignment.targetStrand (Operon.first hh op)
         = BlastAlignment.targetStrand (Operon.second hh op)
      /\ BlastAlignment.targetEnd (Operon.first hh op)
         <= BlastAlignment.targetStart (Operon.second hh op)
      /\ BlastAlignment.subunit (Operon.getA hh op) = "A"%char
      /\ BlastAlignment.subunit (Operon.getB hh op) = "B"%char
      /\ BlastAlignment.reported (Operon.getA hh op) = false
      /\ (BlastAlignment.reported (Operon.getB hh op) = false
          \/ exists e', In e' earlier
                        /\ ptrB (acc_heap e') (acc_operon e') = ptrB hh op).
Proof.
  intros H. destruct (goodBlasts2operons_inv _ _ _ _ _ _ H) as [Hok _ Hops].
  split; [exact Hops |].
  intros earlier e later E. exact (Hok earlier e later E).
Qed.

Lemma accepted_operon_invariant_witness :
  match goodBlasts2operons false "" (stage_heap complete_lines)
          (stage_hits complete_lines) [] true true with
  | OK st =>
      List.length (st_accepted st) = 1%nat
      /\ st_operons st = ([] ++ map acc_operon (st_accepted st))%list
  | Err _ => False
  end.
Proof.
  destruct (goodBlasts2operons false "" (stage_heap complete_lines)
              (stage_hits complete_lines) [] true true) as [st | e] eqn:E.
  - split.
    + pose proof (f_equal (fun r => match r with
                                    | OK s => List.length (st_accepted s)
                                    | Err _ => O
                                    end) E) as L.
      vm_compute in L. symmetry. exact L.
    + exact (proj1 (accepted_operon_invariant _ _ _ _ _ _ E)).
  - vm_compute in E. discriminate.
Defined.

(** C3 (counterexample): in the first pass over the reverse-strand hits the
    B hit is paired with both A hits, and when the second operon is accepted
    the B hit is already reported; and in the first pass over the abutting
    pair an operon is accepted whose first hit ends exactly where the
    second starts. *)
Lemma accepted_with_reported_B_or_abutting :
  match same_type_pass false "" true shared_B_lines with
  | OK st =>
      match st_accepted st with
      | [e1; e2] =>
          ptrB (acc_heap e1) (acc_operon e1) = Some 0%nat
          /\ ptrB (acc_heap e2) (acc_operon e2) = Some 0%nat
          /\ BlastAlignment.reported
               (Operon.getB (acc_heap e2) (acc_operon e2)) = true
      | _ => False
      end
  | Err _ => False
  end
  /\ match same_type_pass false "" true abutting_lines with
     | OK st =>
         match st_accepted st with
         | [e] =>
             BlastAlignment.targetEnd
               (Operon.first (acc_heap e) (acc_operon e)) = 1060
             /\ BlastAlignment.targetStart
                  (Operon.second (acc_heap e) (acc_operon e)) = 1060
         | _ => False
         end
     | Err _ => False
     end.
Proof. vm_compute. repeat split. Qed.

Lemma gap_limit (strong : bool) :
  size_mul intergenic_max (if strong then 1 else 2)
  = intergenic_max * (if strong then 1 else 2).
Proof. destruct strong; reflexivity. Qed.

(** C4: an operon accepted in a strong pass has an intergenic region of at
    most [intergenic_max] columns and an identity that is at least the
    threshold of the class of each of its two hits; one accepted in the weak
    pass has an intergenic region of at most twice [intergenic_max]; and in
    the weak pass a candidate pair within that distance is accepted whatever
    its identity (the body of the loop can fail only with a log stream, in
    rendering the candidate for the log).  The region is the [size_t]
    difference of the second hit's start and the first hit's end, which is
    their plain difference for coordinates that are [size_t] values. *)
Theorem pass_thresholds :
  (forall (logPtr : bool) (input_name : string)
          (h : Heap) (goodBlastAls : list ptr) (operons : list Operon.t)
          (sameType strong : bool) (st : Assembly),
      goodBlasts2operons logPtr input_name h goodBlastAls operons
                         sameType strong = OK st ->
      st_operons st = (operons ++ map acc_operon (st_accepted st))%list
      /\ forall e, In e (st_accepted st) ->
           let hh := acc_heap e in
           let op := acc_operon e in
           BlastAlignment.targetEnd (Operon.first hh op)
           <= BlastAlignment.targetStart (Operon.second hh op)
           /\ size_sub (BlastAlignment.targetStart (Operon.second hh op))
                       (BlastAlignment.targetEnd (Operon.first hh op))
              <= intergenic_max * (if strong then 1 else 2)
           /\ (0 <= BlastAlignment.targetEnd (Operon.first hh op) ->
               BlastAlignment.targetStart (Operon.second hh op)
               < 2 ^ size_t_bits ->
               BlastAlignment.targetStart (Operon.second hh op)
               - BlastAlignment.targetEnd (Operon.first hh op)
               <= intergenic_max * (if strong then 1 else 2))
           /\ (strong = true ->
               PrimFloat.leb
                 (stxClass2identity
                    (BlastAlignment.stxClass (Operon.first hh op)))
                 (Operon.getIdentity hh op) = true
               /\ PrimFloat.leb
                    (stxClass2identity
                       (BlastAlignment.stxClass (Operon.second hh op)))
                    (Operon.getIdentity hh op) = true))
  /\ (forall (logPtr : bool) (input_name : string)
             (alA alB : ptr) (st : Assembly),
        let h := st_heap st in
        let al1 := if BlastAlignment.targetStrand (h alA) then alA else alB in
        let al2 := if BlastAlignment.targetStrand (h alA) then alB else alA in
        match try_pair logPtr input_name false alA alB st with
        | OK st' =>
            st_operons st'
            = (st_operons st
               ++ (if (BlastAlignment.targetEnd (h al1)
                       <=? BlastAlignment.targetStart (h al2))
                      && (size_sub (BlastAlignment.targetStart (h al2))
                                   (BlastAlignment.targetEnd (h al1))
                          <=? 2 * intergenic_max)
                   then [Operon.paired al1 al2] else []))%list
        | Err _ => logPtr = true
        end).
Proof.
  split.
  - intros logPtr input_name h v operons sameType strong st H.
    destruct (goodBlasts2operons_inv _ _ _ _ _ _ H) as [_ Hwithin Hops].
    split; [exact Hops |].
    intros e He. rewrite Forall_forall in Hwithin.
    destruct (Hwithin e He) as [Hgap Hid]. cbv zeta.
    unfold within_gap in Hgap. apply andb_prop in Hgap as [Hle Hgap].
    apply Z.leb_le in Hle. apply Z.leb_le in Hgap.
    rewrite gap_limit in Hgap.
    split; [exact Hle | split; [exact Hgap | split]].
    + intros H0 Hmax. unfold size_sub, wrap in Hgap.
      rewrite Z.mod_small in Hgap by lia. exact Hgap.
    + intros Hs. specialize (Hid Hs). unfold identity_ok in Hid.
      now apply andb_prop in Hid.
  - intros logPtr input_name alA alB st. cbv zeta.
    destruct (try_pair logPtr input_name false alA alB st) as [st' | e] eqn:E.
    + apply try_pair_OK in E. subst st'.
      unfold after_pair, within_gap. cbv zeta.
      change (size_mul intergenic_max 2) with (2 * intergenic_max).
      destruct ((_ <=? _) && (_ <=? _)); simpl.
      * reflexivity.
      * now rewrite app_nil_r.
    + destruct logPtr; [reflexivity |].
      rewrite try_pair_quiet in E. discriminate.
Qed.

Lemma pass_thresholds_witness :
  match goodBlasts2operons false "" (stage_heap complete_lines)
          (stage_hits complete_lines) [] true true with
  | OK st =>
      List.length (st_accepted st) = 1%nat
      /\ forall e, In e (st_accepted st) ->
           size_sub (BlastAlignment.targetStart
                       (Operon.second (acc_heap e) (acc_operon e)))
                    (BlastAlignment.targetEnd
                       (Operon.first (acc_heap e) (acc_operon e)))
           <= intergenic_max * 1
  | Err _ => False
  end.
Proof.
  destruct (goodBlasts2operons false "" (stage_heap complete_lines)
              (stage_hits complete_lines) [] true true) as [st | e] eqn:E.
  - split.
    + pose proof (f_equal (fun r => match r with
                                    | OK s => List.length (st_accepted s)
                                    | Err _ => O
                                    end) E) as L.
      vm_compute in L. symmetry. exact L.
    + intros e He.
      exact (proj1 (proj2 (proj2 (proj1 pass_thresholds _ _ _ _ _ _ _ _ E) e He))).
  - vm_compute in E. discriminate.
Defined.

(** ** Orders *)

Lemma strict_total_asym {K : Type} (lt : K -> K -> bool) :
  strict_total lt -> forall x y, lt x y = true -> lt y x = false.
Proof.
  intros T x y H. destruct (lt y x) eqn:E; [| reflexivity].
  rewrite <- (st_irrefl lt T x). symmetry. now apply (st_trans lt T x y x).
Qed.

Lemma strict_total_Z : strict_total Z.ltb.
Proof.
  constructor.
  - intros x. apply Z.ltb_irrefl.
  - intros x y z H1 H2. apply Z.ltb_lt in H1, H2. apply Z.ltb_lt. lia.
  - intros x y H1 H2. apply Z.ltb_ge in H1, H2. lia.
Qed.

Lemma strict_total_bool : strict_total bool_lt.
Proof.
  constructor.
  - intros []; reflexivity.
  - intros [] [] []; unfold bool_lt; simpl; intros; congruence.
  - intros [] []; unfold bool_lt; simpl; intros; congruence.
Qed.

Lemma char_value_inj (a b : ascii) : char_value a = char_value b -> a = b.
Proof.
  unfold char_value. intros H.
  pose proof (N_ascii_bounded a) as Ha. pose proof (N_ascii_bounded b) as Hb.
  rewrite <- (ascii_N_embedding a), <- (ascii_N_embedding b). f_equal.
  destruct (Z.ltb_spec (Z.of_N (N_of_ascii a)) 128),
           (Z.ltb_spec (Z.of_N (N_of_ascii b)) 128); lia.
Qed.

Lemma strict_total_char : strict_total char_lt.
Proof.
  unfold char_lt. constructor.
  - intros x. apply Z.ltb_irrefl.
  - intros x y z H1 H2. apply Z.ltb_lt in H1, H2. apply Z.ltb_lt. lia.
  - intros x y H1 H2. apply Z.ltb_ge in H1, H2. apply char_value_inj. lia.
Qed.

Lemma string_ltb_lt (s1 s2 : string) :
  String.ltb s1 s2 = true <-> String_as_OT.lt s1 s2.
Proof.
  unfold String.ltb. rewrite <- String_as_OT.cmp_lt. unfold String_as_OT.cmp.
  destruct (String.compare s1 s2); split; congruence.
Qed.

Lemma strict_total_string : strict_total String.ltb.
Proof.
  constructor.
  - intros x. unfold String.ltb.
    pose proof (String.compare_antisym x x) as H.
    destruct (String.compare x x); simpl in H; congruence.
  - intros x y z H1 H2. apply string_ltb_lt in H1, H2. apply string_ltb_lt.
    now apply (String_as_OT.lt_trans x y z).
  - intros x y H1 H2. apply String.compare_eq_iff.
    unfold String.ltb in H1, H2. rewrite (String.compare_antisym y x) in H2.
    destruct (String.compare x y); simpl in *; congruence.
Qed.

Lemma strict_total_flip {K : Type} (lt : K -> K -> bool) :
  strict_total lt -> strict_total (fun x y => lt y x).
Proof.
  intros T. constructor.
  - intros x. apply (st_irrefl lt T).
  - intros x y z H1 H2. now apply (st_trans lt T z y x).
  - intros x y H1 H2. now apply (st_total lt T).
Qed.

Lemma strict_weak_false {A : Type} : strict_weak (fun _ _ : A => false).
Proof. constructor; reflexivity. Qed.

(** What a part that answers [false] says of its two keys. *)
Lemma LESS_PART_false {K : Type} (lt : K -> K -> bool) (x y : K)
  (next : bool) :
  strict_total lt ->
  LESS_PART lt x y next = false ->
  lt x y = false /\ (lt y x = true \/ (x = y /\ next = false)).
Proof.
  intros T. unfold LESS_PART.
  destruct (lt x y) eqn:E1; [discriminate |].
  destruct (lt y x) eqn:E2; [auto |].
  intros ->. split; [reflexivity |]. right. split; [| reflexivity].
  now apply (st_total lt T).
Qed.

Lemma LESS_PART_true {K : Type} (lt : K -> K -> bool) (x y : K)
  (next : bool) :
  strict_total lt ->
  LESS_PART lt x y next = true ->
  lt x y = true \/ (x = y /\ next = true).
Proof.
  intros T. unfold LESS_PART.
  destruct (lt x y) eqn:E1; [auto |].
  destruct (lt y x) eqn:E2; [discriminate |].
  intros ->. right. split; [| reflexivity]. now apply (st_total lt T).
Qed.

Lemma LESS_PART_eq {K : Type} (lt : K -> K -> bool) (x : K) (next : bool) :
  strict_total lt -> LESS_PART lt x x next = next.
Proof. intros T. unfold LESS_PART. now rewrite (st_irrefl lt T). Qed.

Lemma LESS_PART_gt {K : Type} (lt : K -> K -> bool) (x y : K) (next : bool) :
  strict_total lt -> lt y x = true -> LESS_PART lt x y next = false.
Proof.
  intros T H. unfold LESS_PART.
  now rewrite (strict_total_asym lt T y x H), H.
Qed.

(** One more part in front of a strict weak order gives a strict weak
    order. *)
Lemma strict_weak_part {A K : Type} (lt : K -> K -> bool) (k : A -> K)
  (next : A -> A -> bool) :
  strict_total lt ->
  strict_weak next ->
  strict_weak (fun a b => LESS_PART lt (k a) (k b) (next a b)).
Proof.
  intros T W. constructor.
  - intros a b H. apply (LESS_PART_true lt _ _ _ T) in H as [H | [E H]].
    + now apply LESS_PART_gt.
    + rewrite E, LESS_PART_eq by exact T. now apply (sw_asym next W).
  - intros a b c H1 H2.
    apply (LESS_PART_false lt _ _ _ T) in H1 as [H1 H1'].
    apply (LESS_PART_false lt _ _ _ T) in H2 as [H2 H2'].
    destruct H1' as [H1' | [E1 N1]], H2' as [H2' | [E2 N2]].
    + apply LESS_PART_gt; [exact T |]. now apply (st_trans lt T _ (k b)).
    + rewrite E2. now apply LESS_PART_gt.
    + rewrite <- E1. now apply LESS_PART_gt.
    + rewrite E2, E1, LESS_PART_eq by exact T.
      now apply (sw_le_trans next W a b c).
Qed.

(** A hit that lies between two hits with one key has that key too. *)
Lemma LESS_PART_between {K : Type} (lt : K -> K -> bool) (kx ky kz : K)
  (n1 n2 : bool) :
  strict_total lt ->
  kx = kz ->
  LESS_PART lt ky kx n1 = false ->
  LESS_PART lt kz ky n2 = false ->
  ky = kx /\ n1 = false /\ n2 = false.
Proof.
  intros T E H1 H2. subst kz.
  apply (LESS_PART_false lt _ _ _ T) in H1 as [H1 H1'].
  apply (LESS_PART_false lt _ _ _ T) in H2 as [H2 H2'].
  destruct H1' as [H1' | [E1 N1]]; [congruence |].
  destruct H2' as [H2' | [E2 N2]]; [congruence |].
  auto.
Qed.

Lemma strict_weak_sameTypeLess : strict_weak BlastAlignment.sameTypeLess.
Proof.
  unfold BlastAlignment.sameTypeLess.
  repeat (apply strict_weak_part;
          [first [ exact strict_total_bool | exact strict_total_string
                 | exact strict_total_char | exact strict_total_Z ] |]).
  apply strict_weak_false.
Qed.

Lemma strict_weak_on {A B : Type} (f : A -> B) (less : B -> B -> bool) :
  strict_weak less -> strict_weak (fun a b => less (f a) (f b)).
Proof.
  intros W. constructor.
  - intros a b. apply (sw_asym less W).
  - intros a b c. apply (sw_le_trans less W).
Qed.

(** ** The sort *)

Section Sorting.

Context {A : Type} (less : A -> A -> bool).
Hypothesis less_weak : strict_weak less.

Lemma Forall_sort_insert (P : A -> Prop) (x : A) (l : list A) :
  P x -> Forall P l -> Forall P (sort_insert less x l).
Proof.
  intros Hx Hl. induction Hl as [| y l Hy Hl IH]; simpl.
  - now constructor.
  - destruct (less y x); constructor; auto.
Qed.

Lemma sort_insert_sorted (x : A) (l : list A) :
  StronglySorted (may_precede less) l ->
  StronglySorted (may_precede less) (sort_insert less x l).
Proof.
  induction 1 as [| y l Hs IH Hy]; simpl.
  - constructor; constructor.
  - destruct (less y x) eqn:E.
    + constructor; [exact IH |].
      apply Forall_sort_insert; [| exact Hy].
      now apply (sw_asym less less_weak).
    + constructor; [now constructor |].
      constructor; [exact E |].
      apply Forall_forall. intros z Hz. rewrite Forall_forall in Hy.
      exact (sw_le_trans less less_weak x y z E (Hy z Hz)).
Qed.

Lemma sort_sorted (l : list A) : StronglySorted (may_precede less) (sort less l).
Proof.
  induction l as [| x l IH]; simpl; [constructor |].
  now apply sort_insert_sorted.
Qed.

(** The sort leaves a sorted vector as it is. *)
Lemma sort_sorted_id (l : list A) :
  StronglySorted (may_precede less) l -> sort less l = l.
Proof.
  induction 1 as [| x l Hs IH Hx]; simpl; [reflexivity |].
  rewrite IH. destruct l as [| y l]; simpl; [reflexivity |].
  apply Forall_inv in Hx. unfold may_precede in Hx. now rewrite Hx.
Qed.

Lemma sort_insert_permutation (x : A) (l : list A) :
  Permutation (sort_insert less x l) (x :: l).
Proof.
  induction l as [| y l IH]; simpl; [reflexivity |].
  destruct (less y x); [| reflexivity].
  rewrite IH. apply perm_swap.
Qed.

(** The sort keeps the elements. *)
Lemma sort_permutation (l : list A) : Permutation (sort less l) l.
Proof.
  induction l as [| x l IH]; simpl; [reflexivity |].
  rewrite sort_insert_permutation. now constructor.
Qed.

End Sorting.

(** ** The filter and its window *)

Lemma elem_middle (pre : list ptr) (x : ptr) (rest : list ptr) :
  elem (pre ++ x :: rest) (List.length pre) = x.
Proof. unfold elem. apply nth_middle. Qed.

Lemma drop_until_split (cond : ptr -> bool) (w : list ptr) :
  exists dropped,
    w = (dropped ++ drop_until cond w)%list
    /\ Forall (fun y => cond y = false) dropped.
Proof.
  induction w as [| x w [d [Hd Hf]]]; simpl.
  - exists []. split; [reflexivity | constructor].
  - destruct (cond x) eqn:E.
    + exists []. split; [reflexivity | constructor].
    + exists (x :: d). split; [simpl; now f_equal | now constructor].
Qed.

Lemma advance_start_window (cond : ptr -> bool) (w : list ptr) :
  forall (pre rest v : list ptr),
    v = (pre ++ w ++ rest)%list ->
    exists dropped,
      w = (dropped ++ drop_until cond w)%list
      /\ Forall (fun y => cond y = false) dropped
      /\ advance_start cond v (List.length w) (List.length pre)
         = List.length (pre ++ dropped).
Proof.
  induction w as [| x w IH]; intros pre rest v ->; simpl.
  - exists []. split; [reflexivity |].
    split; [constructor | now rewrite app_nil_r].
  - rewrite elem_middle. destruct (cond x) eqn:E.
    + exists []. split; [reflexivity |].
      split; [constructor | now rewrite app_nil_r].
    + destruct (IH (pre ++ [x])%list rest (pre ++ x :: w ++ rest)%list)
        as [d [Hd [Hf Ha]]].
      { now rewrite <- app_assoc. }
      exists (x :: d). split; [simpl; now f_equal |].
      split; [now constructor |].
      rewrite last_length in Ha. rewrite Ha, <- app_assoc. reflexivity.
Qed.

Lemma dominated_scan_window (h : Heap) (al : ptr) (w : list ptr) :
  forall (pre rest v : list ptr),
    v = (pre ++ w ++ rest)%list ->
    dominated_scan h v al (List.length w) (List.length pre)
    = dominated_in h al w.
Proof.
  induction w as [| x w IH]; intros pre rest v ->; simpl; [reflexivity |].
  rewrite elem_middle.
  assert (Hrec : dominated_scan h (pre ++ x :: w ++ rest) al (List.length w)
                   (S (List.length pre)) = dominated_in h al w).
  { rewrite <- (last_length pre x).
    apply (IH (pre ++ [x])%list rest). now rewrite <- app_assoc. }
  rewrite Hrec. split_asserts.
Qed.

Lemma bind_ret {A : Type} (r : result A) : bind r (fun x => OK x) = r.
Proof. now destruct r. Qed.

Lemma filter_loop_window (h : Heap) (rest : list ptr) :
  forall (pre w v good : list ptr),
    v = (pre ++ w ++ rest)%list ->
    filter_loop h v (List.length rest) (List.length (pre ++ w))
                (List.length pre) good
    = bind (survivors h w rest) (fun r => OK (good ++ r)%list).
Proof.
  induction rest as [| al rest IH]; intros pre w v good Hv; simpl.
  - now rewrite app_nil_r.
  - assert (Hal : elem v (List.length (pre ++ w)) = al).
    { rewrite Hv, app_assoc. apply elem_middle. }
    rewrite Hal.
    replace (List.length (pre ++ w) - List.length pre)%nat
      with (List.length w) by (rewrite length_app; lia).
    destruct (advance_start_window (overlaps_head h al) w pre (al :: rest) v Hv)
      as [d [Hd [Hf Ha]]].
    rewrite Ha.
    destruct (BlastAlignment.reported (h al)); simpl.
    + now rewrite app_nil_r.
    + remember (drop_until (overlaps_head h al) w) as w1 eqn:Hw1.
      pose proof (f_equal (@List.length ptr) Hd) as Hlen.
      rewrite length_app in Hlen.
      replace (List.length (pre ++ w) - List.length (pre ++ d))%nat
        with (List.length w1) by (rewrite !length_app; lia).
      assert (Hv1 : v = ((pre ++ d) ++ w1 ++ al :: rest)%list).
      { rewrite Hv, Hd. now rewrite <- !app_assoc. }
      rewrite (dominated_scan_window h al w1 (pre ++ d)%list (al :: rest) v Hv1).
      destruct (dominated_in h al w1) as [suppress | e]; simpl;
        [| reflexivity].
      assert (Hv2 : v = ((pre ++ d) ++ (w1 ++ [al]) ++ rest)%list).
      { rewrite Hv1. now rewrite <- !app_assoc. }
      replace (S (List.length (pre ++ w)))
        with (List.length ((pre ++ d) ++ (w1 ++ [al]))%list)
        by (rewrite !length_app; simpl; lia).
      rewrite (IH (pre ++ d)%list (w1 ++ [al])%list v _ Hv2).
      destruct (survivors h (w1 ++ [al]) rest) as [good' | e]; simpl;
        [| reflexivity].
      destruct suppress; [reflexivity |].
      now rewrite <- app_assoc.
Qed.

(** The block of [shellBody], read through the window. *)
Lemma good_hits_survivors (h : Heap) (blastAls : list ptr) :
  good_hits h blastAls = survivors h [] (sort (filter_order h) blastAls).
Proof.
  unfold good_hits.
  etransitivity;
    [ exact (filter_loop_window h (sort (filter_order h) blastAls) [] []
               (sort (filter_order h) blastAls) [] eq_refl)
    | apply bind_ret ].
Qed.

(** ** Sublists *)

Lemma sublist_refl {A : Type} (l : list A) : sublist l l.
Proof. induction l; [constructor | now apply sublist_keep]. Qed.

Lemma sublist_nil_l {A : Type} (l : list A) : sublist [] l.
Proof. induction l; [constructor | now apply sublist_skip]. Qed.

Lemma sublist_In {A : Type} (l1 l2 : list A) (x : A) :
  sublist l1 l2 -> In x l1 -> In x l2.
Proof.
  induction 1 as [| y l1 l2 _ IH | y l1 l2 _ IH]; simpl; intuition.
Qed.

Lemma sublist_Forall {A : Type} (P : A -> Prop) (l1 l2 : list A) :
  sublist l1 l2 -> Forall P l2 -> Forall P l1.
Proof.
  intros S F. rewrite Forall_forall in *. intros x Hx.
  apply F. now apply (sublist_In l1 l2).
Qed.

Lemma sublist_trans {A : Type} (l1 l2 l3 : list A) :
  sublist l1 l2 -> sublist l2 l3 -> sublist l1 l3.
Proof.
  intros H12 H23. revert l1 H12.
  induction H23 as [| x l2 l3 _ IH | x l2 l3 _ IH]; intros l1 H12.
  - exact H12.
  - apply sublist_skip. now apply IH.
  - inversion H12; subst.
    + apply sublist_skip. now apply IH.
    + apply sublist_keep. now apply IH.
Qed.

Lemma sublist_app_inv {A : Type} (D W : list A) :
  forall Q, sublist Q (D ++ W) ->
            exists Qd Q1, Q = (Qd ++ Q1)%list /\ sublist Qd D /\ sublist Q1 W.
Proof.
  induction D as [| x D IH]; simpl; intros Q H.
  - exists [], Q. repeat split; [constructor | exact H].
  - inversion H; subst.
    + destruct (IH _ H2) as (Qd & Q1 & -> & Hd & H1).
      exists Qd, Q1. repeat split; [now apply sublist_skip | exact H1].
    + destruct (IH _ H2) as (Qd & Q1 & -> & Hd & H1).
      exists (x :: Qd), Q1. repeat split; [now apply sublist_keep | exact H1].
Qed.

Lemma sublist_app_tail {A : Type} (l1 l2 l : list A) :
  sublist l1 l2 -> sublist (l1 ++ l) (l2 ++ l).
Proof.
  induction 1; simpl;
    [apply sublist_refl | now apply sublist_skip | now apply sublist_keep].
Qed.

Lemma sublist_drop_until (cond : ptr -> bool) (w : list ptr) :
  sublist (drop_until cond w) w.
Proof.
  induction w as [| x w IH]; simpl; [constructor |].
  destruct (cond x); [apply sublist_refl | now apply sublist_skip].
Qed.

Lemma drop_until_failing (cond : ptr -> bool) (P Q : list ptr) :
  Forall (fun y => cond y = false) P ->
  drop_until cond (P ++ Q) = drop_until cond Q.
Proof.
  induction 1 as [| y P Hy _ IH]; simpl; [reflexivity |]. now rewrite Hy.
Qed.

Lemma sublist_StronglySorted {A : Type} (R : A -> A -> Prop)
  (l1 l2 : list A) :
  sublist l1 l2 -> StronglySorted R l2 -> StronglySorted R l1.
Proof.
  induction 1 as [| x l1 l2 S IH | x l1 l2 S IH]; intros H.
  - constructor.
  - apply StronglySorted_inv in H as [H _]. now apply IH.
  - apply StronglySorted_inv in H as [H F]. constructor; [now apply IH |].
    now apply (sublist_Forall _ l1 l2).
Qed.

Lemma StronglySorted_app_inv {A : Type} (R : A -> A -> Prop)
  (l1 l2 : list A) :
  StronglySorted R (l1 ++ l2) ->
  StronglySorted R l2 /\ forall x y, In x l1 -> In y l2 -> R x y.
Proof.
  induction l1 as [| a l1 IH]; simpl; intros H.
  - split; [exact H | intros x y []].
  - apply StronglySorted_inv in H as [H F]. destruct (IH H) as [H2 Hxy].
    split; [exact H2 |]. intros x y [<- | Hx] Hy.
    + rewrite Forall_forall in F. apply F. apply in_or_app. now right.
    + now apply Hxy.
Qed.

(** ** The filter run again *)

Lemma dominated_in_cons (h : Heap) (al x : ptr) (w : list ptr) :
  dominated_in h al (x :: w) = OK false
  <-> passes h al x = true /\ dominated_in h al w = OK false.
Proof.
  unfold passes. simpl.
  destruct (negb (BlastAlignment.reported (h x))),
           (String.eqb (BlastAlignment.targetName (h al))
                       (BlastAlignment.targetName (h x))),
           (Bool.eqb (BlastAlignment.targetStrand (h al))
                     (BlastAlignment.targetStrand (h x))),
           (String.eqb (BlastAlignment.stxClass (h al))
                       (BlastAlignment.stxClass (h x))),
           (Ascii.eqb (BlastAlignment.subunit (h al))
                      (BlastAlignment.subunit (h x))),
           (dominated h al x); simpl;
    split; try (intros [? ?]); intros; try discriminate; auto.
Qed.

Lemma dominated_in_sublist (h : Heap) (al : ptr) (w' w : list ptr) :
  sublist w' w ->
  dominated_in h al w = OK false -> dominated_in h al w' = OK false.
Proof.
  induction 1 as [| x w' w _ IH | x w' w _ IH]; intros H.
  - reflexivity.
  - apply dominated_in_cons in H as [_ H]. now apply IH.
  - apply dominated_in_cons in H as [Hx H]. apply dominated_in_cons.
    split; [exact Hx | now apply IH].
Qed.

Lemma survivors_sound (h : Heap) (rest : list ptr) :
  forall w good,
    survivors h w rest = OK good ->
    sublist good rest
    /\ Forall (fun a => BlastAlignment.reported (h a) = false) good.
Proof.
  induction rest as [| al rest IH]; simpl; intros w good H.
  - injection H as <-. split; constructor.
  - destruct (BlastAlignment.reported (h al)) eqn:R.
    + injection H as <-. split; [apply sublist_nil_l | constructor].
    + apply bind_OK in H as [suppress [_ H]].
      apply bind_OK in H as [good' [Hs H]]. injection H as <-.
      destruct (IH _ _ Hs) as [S F].
      destruct suppress; split; auto.
      * now apply sublist_skip.
      * now apply sublist_keep.
Qed.

(** In the sorted vector, a hit that stands between a hit and a later hit
    whose window holds that hit belongs to the same contig, strand, class
    and subunit, and starts no later than the later hit. *)
Lemma keys_between (h : Heap) (y al a : ptr) :
  may_precede (filter_order h) y al ->
  may_precede (filter_order h) al a ->
  BlastAlignment.reported (h y) = false ->
  BlastAlignment.reported (h a) = false ->
  overlaps_head h a y = true ->
  BlastAlignment.reported (h al) = false
  /\ BlastAlignment.targetName (h al) = BlastAlignment.targetName (h y)
  /\ BlastAlignment.targetStrand (h al) = BlastAlignment.targetStrand (h y)
  /\ BlastAlignment.stxClass (h al) = BlastAlignment.stxClass (h y)
  /\ BlastAlignment.subunit (h al) = BlastAlignment.subunit (h y)
  /\ BlastAlignment.targetStart (h al) <= BlastAlignment.targetStart (h a).
Proof.
  unfold may_precede, filter_order, BlastAlignment.sameTypeLess.
  intros H1 H2 Ry Ra Hh.
  unfold overlaps_head in Hh.
  apply andb_prop in Hh as [Hh Hstart]. apply andb_prop in Hh as [Hh Hsub].
  apply andb_prop in Hh as [Hh Hclass].
  apply andb_prop in Hh as [Hname Hstrand].
  apply Ascii.eqb_eq in Hsub.
  apply String.eqb_eq in Hclass, Hname. apply Bool.eqb_prop in Hstrand.
  destruct (LESS_PART_between bool_lt _ _ _ _ _ strict_total_bool
              (eq_trans Ry (eq_sym Ra)) H1 H2) as (K1 & H1a & H2a).
  destruct (LESS_PART_between String.ltb _ _ _ _ _ strict_total_string
              Hname H1a H2a) as (K2 & H1b & H2b).
  destruct (LESS_PART_between bool_lt _ _ _ _ _ strict_total_bool
              Hstrand H1b H2b) as (K3 & H1c & H2c).
  destruct (LESS_PART_between String.ltb _ _ _ _ _ strict_total_string
              Hclass H1c H2c) as (K4 & H1d & H2d).
  destruct (LESS_PART_between char_lt _ _ _ _ _ strict_total_char
              Hsub H1d H2d) as (K5 & H1e & H2e).
  apply (LESS_PART_false Z.ltb _ _ _ strict_total_Z) in H2e as [H2e _].
  apply Z.ltb_ge in H2e.
  repeat split; try assumption. now rewrite K1.
Qed.

(** A hit that has left the window of [al] stays out of the window of
    every later hit. *)
Lemma head_later (h : Heap) (y al a : ptr) :
  may_precede (filter_order h) y al ->
  may_precede (filter_order h) al a ->
  BlastAlignment.reported (h y) = false ->
  BlastAlignment.reported (h a) = false ->
  overlaps_head h a y = true ->
  overlaps_head h al y = true.
Proof.
  intros H1 H2 Ry Ra Hh.
  destruct (keys_between h y al a H1 H2 Ry Ra Hh)
    as (_ & K2 & K3 & K4 & K5 & Hle).
  unfold overlaps_head in Hh |- *.
  apply andb_prop in Hh as [_ Hstart]. apply Z.ltb_lt in Hstart.
  rewrite K2, K3, K4, K5, String.eqb_refl, Bool.eqb_reflx, String.eqb_refl,
          Ascii.eqb_refl.
  simpl. apply Z.ltb_lt. lia.
Qed.

Lemma head_later_false (h : Heap) (y al a : ptr) :
  may_precede (filter_order h) y al ->
  may_precede (filter_order h) al a ->
  BlastAlignment.reported (h y) = false ->
  BlastAlignment.reported (h a) = false ->
  overlaps_head h al y = false ->
  overlaps_head h a y = false.
Proof.
  intros H1 H2 Ry Ra Hf.
  destruct (overlaps_head h a y) eqn:E; [| reflexivity].
  now rewrite (head_later h y al a H1 H2 Ry Ra E) in Hf.
Qed.

(** The second run sees, for every surviving hit, a window that is part of
    the window of the first run. *)
Lemma survivors_rerun (h : Heap) (rest : list ptr) :
  forall (w w2 good : list ptr),
    StronglySorted (may_precede (filter_order h)) (w ++ rest) ->
    Forall (fun y => BlastAlignment.reported (h y) = false) w ->
    survivors h w rest = OK good ->
    (exists P Q,
        w2 = (P ++ Q)%list /\ sublist Q w
        /\ forall y a, In y P -> In a good -> overlaps_head h a y = false) ->
    survivors h w2 good = OK good.
Proof.
  induction rest as [| al rest IH]; intros w w2 good Hsorted Hw Hrun Hrel.
  - simpl in Hrun. now injection Hrun as <-.
  - simpl in Hrun.
    destruct (BlastAlignment.reported (h al)) eqn:Ral;
      [now injection Hrun as <- |].
    apply bind_OK in Hrun as [suppress [Hdom Hrun]].
    apply bind_OK in Hrun as [good' [Hrest Hrun]]. injection Hrun as <-.
    destruct (drop_until_split (overlaps_head h al) w) as [D [HD HDf]].
    remember (drop_until (overlaps_head h al) w) as w1 eqn:Hw1.
    destruct Hrel as (P & Q & -> & HQ & HP).
    rewrite HD in HQ. apply sublist_app_inv in HQ as (Qd & Q1 & -> & HQd & HQ1).
    destruct (StronglySorted_app_inv _ _ _ Hsorted) as [Hsr Hcross].
    pose proof (StronglySorted_inv Hsr) as [Hsr' Hal].
    rewrite Forall_forall in Hal.
    destruct (survivors_sound h rest _ _ Hrest) as [Hsub Hunrep].
    assert (Hw1s : sublist w1 w) by (subst w1; apply sublist_drop_until).
    assert (Hsorted' : StronglySorted (may_precede (filter_order h))
                         ((w1 ++ [al]) ++ rest)).
    { rewrite <- app_assoc. simpl.
      rewrite HD, <- app_assoc in Hsorted.
      now apply StronglySorted_app_inv in Hsorted as [Hsorted _]. }
    assert (Hw' : Forall (fun y => BlastAlignment.reported (h y) = false)
                         (w1 ++ [al])).
    { apply Forall_app. split.
      - now apply (sublist_Forall _ w1 w).
      - now constructor. }
    assert (HDlater : forall y a, In y Qd -> In a good' ->
                                  overlaps_head h a y = false).
    { intros y a Hy Ha.
      assert (HyD : In y D) by now apply (sublist_In Qd D).
      assert (Hyw : In y w) by (rewrite HD; apply in_or_app; now left).
      rewrite Forall_forall in HDf, Hw, Hunrep.
      apply (head_later_false h y al a).
      - apply Hcross; [exact Hyw | now left].
      - apply Hal. now apply (sublist_In good' rest).
      - now apply Hw.
      - now apply Hunrep.
      - now apply HDf. }
    destruct suppress.
    + apply (IH (w1 ++ [al])%list _ good' Hsorted' Hw' Hrest).
      exists (P ++ Qd)%list, Q1. split; [now rewrite app_assoc |].
      split.
      * apply (sublist_trans _ w1); [exact HQ1 |].
        clear. induction w1 as [| x w1 IHw]; simpl.
        -- apply sublist_skip. constructor.
        -- now apply sublist_keep.
      * intros y a Hy Ha. apply in_app_or in Hy as [Hy | Hy].
        -- now apply HP.
        -- now apply HDlater.
    + simpl. rewrite Ral.
      assert (Hfail : Forall (fun y => overlaps_head h al y = false)
                             (P ++ Qd)).
      { apply Forall_app. split.
        - apply Forall_forall. intros y Hy. apply HP; [exact Hy | now left].
        - now apply (sublist_Forall _ Qd D). }
      rewrite app_assoc, (drop_until_failing _ _ Q1 Hfail).
      assert (Hq : sublist (drop_until (overlaps_head h al) Q1) w1).
      { apply (sublist_trans _ Q1); [apply sublist_drop_until | exact HQ1]. }
      rewrite (dominated_in_sublist h al _ w1 Hq Hdom). simpl.
      rewrite (IH (w1 ++ [al])%list _ good' Hsorted' Hw' Hrest);
        [reflexivity |].
      exists [], (drop_until (overlaps_head h al) Q1 ++ [al])%list.
      split; [reflexivity |]. split; [now apply sublist_app_tail |].
      intros y a [].
Qed.

(** When the filter has produced the good hits of a set of hits, the
    filter run on those good hits produces them again. *)
Lemma good_hits_rerun (h : Heap) (blastAls goodBlastAls : list ptr) :
  good_hits h blastAls = OK goodBlastAls ->
  good_hits h goodBlastAls = OK goodBlastAls.
Proof.
  rewrite !good_hits_survivors. intros H.
  assert (W : strict_weak (filter_order h))
    by (apply (strict_weak_on h), strict_weak_sameTypeLess).
  pose proof (sort_sorted (filter_order h) W blastAls) as Hsorted.
  destruct (survivors_sound h _ _ _ H) as [Hsub _].
  rewrite (sort_sorted_id (filter_order h) goodBlastAls
             (sublist_StronglySorted _ _ _ Hsub Hsorted)).
  apply (survivors_rerun h _ [] [] goodBlastAls Hsorted (Forall_nil _) H).
  exists [], []. split; [reflexivity |]. split; [constructor |].
  intros y a [].
Qed.

(** ** The filter never fails *)

Lemma dominated_in_total (h : Heap) (al : ptr) (w : list ptr) :
  Forall (fun x => asserts_ok h al x = true) w ->
  exists suppress, dominated_in h al w = OK suppress.
Proof.
  induction 1 as [| x w Hx _ [b IH]]; simpl; [eauto |].
  unfold asserts_ok in Hx.
  apply andb_prop in Hx as [Hx H5]. apply andb_prop in Hx as [Hx H4].
  apply andb_prop in Hx as [Hx H3]. apply andb_prop in Hx as [H1 H2].
  rewrite H1, H2, H3, H4, H5. simpl.
  destruct (dominated h al x); eauto.
Qed.

Lemma drop_until_head (cond : ptr -> bool) (w : list ptr) (x : ptr)
  (tl : list ptr) :
  drop_until cond w = x :: tl -> cond x = true.
Proof.
  induction w as [| y w IH]; simpl; [discriminate |].
  destruct (cond y) eqn:E; [| exact IH].
  intros H. injection H as <- _. exact E.
Qed.

Lemma StronglySorted_app_l {A : Type} (R : A -> A -> Prop) (l1 l2 : list A) :
  StronglySorted R (l1 ++ l2) -> StronglySorted R l1.
Proof.
  induction l1 as [| a l1 IH]; simpl; intros H; [constructor |].
  apply StronglySorted_inv in H as [H F]. constructor; [now apply IH |].
  now apply Forall_app in F.
Qed.

(** The assertions of the scan hold of the whole window. *)
Lemma window_asserts (h : Heap) (al : ptr) (w : list ptr) :
  StronglySorted (may_precede (filter_order h)) (w ++ [al]) ->
  Forall (fun y => BlastAlignment.reported (h y) = false) w ->
  BlastAlignment.reported (h al) = false ->
  Forall (fun x => asserts_ok h al x = true)
         (drop_until (overlaps_head h al) w).
Proof.
  intros Hsorted Hw Ral.
  destruct (drop_until_split (overlaps_head h al) w) as [D [HD _]].
  destruct (drop_until (overlaps_head h al) w) as [| x0 tl] eqn:E;
    [constructor |].
  pose proof (drop_until_head _ _ _ _ E) as Hhead.
  assert (Hx0 : asserts_ok h al x0 = true).
  { unfold overlaps_head in Hhead. unfold asserts_ok.
    apply andb_prop in Hhead as [Hh _]. apply andb_prop in Hh as [Hh Hsub].
    apply andb_prop in Hh as [Hh Hclass].
    apply andb_prop in Hh as [Hname Hstrand].
    apply Ascii.eqb_eq in Hsub.
    apply String.eqb_eq in Hclass, Hname. apply Bool.eqb_prop in Hstrand.
    rewrite Forall_forall in Hw. rewrite (Hw x0).
    - rewrite Hname, Hstrand, Hclass, Hsub, !String.eqb_refl, Bool.eqb_reflx,
              Ascii.eqb_refl. reflexivity.
    - rewrite HD. apply in_or_app. right. now left. }
  constructor; [exact Hx0 |].
  apply Forall_forall. intros x Hx.
  assert (Hxw : In x w).
  { rewrite HD. apply in_or_app. right. now right. }
  assert (Hx0w : In x0 w).
  { rewrite HD. apply in_or_app. right. now left. }
  destruct (StronglySorted_app_inv _ _ _ Hsorted) as [_ Hcross].
  assert (H0x : may_precede (filter_order h) x0 x).
  { rewrite HD, <- app_assoc in Hsorted.
    apply StronglySorted_app_inv in Hsorted as [Hs _].
    simpl in Hs. apply StronglySorted_inv in Hs as [_ F].
    rewrite Forall_forall in F. apply F. apply in_or_app. now left. }
  rewrite Forall_forall in Hw.
  destruct (keys_between h x0 x al H0x (Hcross x al Hxw (or_introl eq_refl))
              (Hw x0 Hx0w) Ral Hhead) as (K1 & K2 & K3 & K4 & K5 & _).
  unfold asserts_ok in Hx0 |- *.
  rewrite K1, K2, K3, K4, K5. rewrite (Hw x0 Hx0w) in Hx0. exact Hx0.
Qed.

Lemma survivors_total (h : Heap) (rest : list ptr) :
  forall w,
    StronglySorted (may_precede (filter_order h)) (w ++ rest) ->
    Forall (fun y => BlastAlignment.reported (h y) = false) w ->
    exists good, survivors h w rest = OK good.
Proof.
  induction rest as [| al rest IH]; intros w Hsorted Hw; simpl; [eauto |].
  destruct (BlastAlignment.reported (h al)) eqn:Ral; [eauto |].
  assert (Hsw : StronglySorted (may_precede (filter_order h)) (w ++ [al])).
  { apply (StronglySorted_app_l _ _ rest). now rewrite <- app_assoc. }
  destruct (dominated_in_total h al _ (window_asserts h al w Hsw Hw Ral))
    as [suppress Hd].
  rewrite Hd. simpl.
  destruct (drop_until_split (overlaps_head h al) w) as [D [HD _]].
  destruct (IH (drop_until (overlaps_head h al) w ++ [al])%list)
    as [good Hg].
  - rewrite HD, <- app_assoc in Hsorted.
    apply StronglySorted_app_inv in Hsorted as [Hs _].
    now rewrite <- app_assoc.
  - apply Forall_app. split; [| now constructor].
    apply (sublist_Forall _ _ w); [apply sublist_drop_until | exact Hw].
  - rewrite Hg. simpl. eauto.
Qed.

(** C6: on every set of hits the filter produces a set of good hits, and
    the filter run on that set -- sorted again, scanned again -- produces
    the same set: nothing more is suppressed. *)
Theorem good_hits_idempotent (h : Heap) (blastAls : list ptr) :
  exists goodBlastAls,
    good_hits h blastAls = OK goodBlastAls
    /\ good_hits h goodBlastAls = OK goodBlastAls.
Proof.
  assert (W : strict_weak (filter_order h))
    by (apply (strict_weak_on h), strict_weak_sameTypeLess).
  destruct (survivors_total h (sort (filter_order h) blastAls) []
              (sort_sorted (filter_order h) W blastAls) (Forall_nil _))
    as [good Hgood].
  rewrite <- good_hits_survivors in Hgood.
  exists good. split; [exact Hgood | exact (good_hits_rerun h _ _ Hgood)].
Qed.

Example good_hits_contained :
  good_hits (heap_of contained_hits) [0; 1]%nat = OK [0%nat]
  /\ good_hits (heap_of contained_hits) [0%nat] = OK [0%nat].
Proof. split; vm_compute; reflexivity. Qed.

(** ** The order of the report *)

Lemma strict_weak_part_flip {A K : Type} (lt : K -> K -> bool) (k : A -> K)
  (next : A -> A -> bool) :
  strict_total lt ->
  strict_weak next ->
  strict_weak (fun a b => LESS_PART lt (k b) (k a) (next a b)).
Proof.
  intros T W.
  exact (strict_weak_part (fun x y => lt y x) k next
           (strict_total_flip lt T) W).
Qed.

Lemma strict_weak_reportLess (h : Heap) : strict_weak (Operon.reportLess h).
Proof.
  unfold Operon.reportLess.
  apply strict_weak_part; [exact strict_total_string |].
  apply strict_weak_part; [exact strict_total_Z |].
  apply strict_weak_part; [exact strict_total_Z |].
  apply strict_weak_part_flip; [exact strict_total_bool |].
  apply strict_weak_part; [exact strict_total_string |].
  apply strict_weak_part; [exact strict_total_bool |].
  apply strict_weak_part; [exact strict_total_string |].
  apply strict_weak_false.
Qed.

(** Two keys that a part orders in neither direction are equal. *)
Lemma LESS_PART_tie {K : Type} (lt : K -> K -> bool) (x y : K)
  (n1 n2 : bool) :
  strict_total lt ->
  LESS_PART lt x y n1 = false ->
  LESS_PART lt y x n2 = false ->
  x = y /\ n1 = false /\ n2 = false.
Proof.
  intros T H1 H2.
  apply (LESS_PART_false lt _ _ _ T) in H1 as [H1 H1'].
  apply (LESS_PART_false lt _ _ _ T) in H2 as [H2 H2'].
  destruct H1' as [H1' | [E1 N1]]; [congruence |].
  destruct H2' as [H2' | [E2 N2]]; [congruence |].
  auto.
Qed.

Lemma reportLess_tie (h : Heap) (a b : Operon.t) :
  Operon.reportLess h a b = false ->
  Operon.reportLess h b a = false ->
  report_key h a = report_key h b.
Proof.
  unfold Operon.reportLess, report_key. intros H1 H2.
  destruct (LESS_PART_tie String.ltb _ _ _ _ strict_total_string H1 H2)
    as (K1 & H1a & H2a).
  destruct (LESS_PART_tie Z.ltb _ _ _ _ strict_total_Z H1a H2a)
    as (K2 & H1b & H2b).
  destruct (LESS_PART_tie Z.ltb _ _ _ _ strict_total_Z H1b H2b)
    as (K3 & H1c & H2c).
  destruct (LESS_PART_tie bool_lt _ _ _ _ strict_total_bool H1c H2c)
    as (K4 & H1d & H2d).
  destruct (LESS_PART_tie String.ltb _ _ _ _ strict_total_string H1d H2d)
    as (K5 & H1e & H2e).
  destruct (LESS_PART_tie bool_lt _ _ _ _ strict_total_bool H1e H2e)
    as (K6 & H1f & H2f).
  destruct (LESS_PART_tie String.ltb _ _ _ _ strict_total_string H1f H2f)
    as (K7 & _ & _).
  now rewrite K1, K2, K3, K4, K5, K6, K7.
Qed.

Lemma final_operons_sorted {logPtr : bool} (qc_on : bool) (input_name : string)
  (lines : list Line) (h : Heap) (ops : list Operon.t) :
  final_operons logPtr qc_on input_name lines = OK (h, ops) ->
  StronglySorted (may_precede (Operon.reportLess h)) ops.
Proof.
  unfold final_operons. intros H.
  apply bind_OK in H as [[h1 good] [_ H]].
  apply bind_OK in H as [st1 [_ H]].
  apply bind_OK in H as [st2 [_ H]].
  apply bind_OK in H as [st3 [_ H]].
  apply bind_OK in H as [goodOperons [_ H]].
  destruct (single_hits _ _ _) as [h4 goodOperons'].
  injection H as <- <-.
  apply sort_sorted, strict_weak_reportLess.
Qed.

(** *** Arrangements that a strict weak order allows *)

Section Ties.

Context {A : Type} (less : A -> A -> bool).
Hypothesis less_weak : strict_weak less.

Lemma less_irrefl (a : A) : less a a = false.
Proof.
  destruct (less a a) eqn:E; [| reflexivity].
  now rewrite (sw_asym less less_weak a a E) in E.
Qed.

Lemma tied_refl (a : A) : tied less a a.
Proof. split; apply less_irrefl. Qed.

Lemma tied_sym (a b : A) : tied less a b -> tied less b a.
Proof. intros [H1 H2]. now split. Qed.

Lemma tied_trans (a b c : A) :
  tied less a b -> tied less b c -> tied less a c.
Proof.
  intros [Hab Hba] [Hbc Hcb]. split.
  - exact (sw_le_trans less less_weak c b a Hbc Hab).
  - exact (sw_le_trans less less_weak a b c Hba Hcb).
Qed.

Lemma Forall2_tied_refl (l : list A) : Forall2 (tied less) l l.
Proof. induction l; constructor; [apply tied_refl | assumption]. Qed.

Lemma Forall2_tied_trans (l1 l2 l3 : list A) :
  Forall2 (tied less) l1 l2 -> Forall2 (tied less) l2 l3 ->
  Forall2 (tied less) l1 l3.
Proof.
  intros H. revert l3.
  induction H as [| a b l1 l2 Hab _ IH]; intros l3 H3;
    inversion H3 as [| b' c l2' l3' Hbc H3' E1 E2]; subst; constructor.
  - exact (tied_trans a b c Hab Hbc).
  - now apply IH.
Qed.

(** An element of a sorted arrangement gives way to one that is tied with
    it. *)
Lemma sorted_replace (a b : A) (pre post : list A) :
  tied less a b ->
  StronglySorted (may_precede less) (pre ++ a :: post) ->
  StronglySorted (may_precede less) (pre ++ b :: post).
Proof.
  intros [Hab Hba]. induction pre as [| x pre IH]; simpl; intros H;
    inversion H as [| y l Hs Hx E]; subst; constructor.
  - exact Hs.
  - rewrite Forall_forall in Hx |- *. intros y Hy.
    unfold may_precede in *.
    exact (sw_le_trans less less_weak b a y Hab (Hx y Hy)).
  - now apply IH.
  - rewrite Forall_forall in Hx |- *. intros y Hy.
    apply in_app_or in Hy as [Hy | [<- | Hy]].
    + apply Hx, in_or_app. now left.
    + unfold may_precede in *.
      refine (sw_le_trans less less_weak x a b _ Hba).
      apply Hx, in_or_app. right. now left.
    + apply Hx, in_or_app. right. now right.
Qed.

(** The first elements of two sorted arrangements of the same elements
    are tied. *)
Lemma sorted_heads_tied (a b : A) (l1 l2 : list A) :
  Permutation (a :: l1) (b :: l2) ->
  StronglySorted (may_precede less) (a :: l1) ->
  StronglySorted (may_precede less) (b :: l2) ->
  tied less a b.
Proof.
  intros P S1 S2.
  apply StronglySorted_inv in S1 as [_ F1].
  apply StronglySorted_inv in S2 as [_ F2].
  rewrite Forall_forall in F1, F2. split.
  - assert (Ha : In a (b :: l2))
      by (apply (Permutation_in a P); now left).
    destruct Ha as [<- | Ha]; [apply less_irrefl | exact (F2 a Ha)].
  - assert (Hb : In b (a :: l1))
      by (apply (Permutation_in b (Permutation_sym P)); now left).
    destruct Hb as [<- | Hb]; [apply less_irrefl | exact (F1 b Hb)].
Qed.

(** Two sorted arrangements of the same elements differ only in the order
    of elements that are tied. *)
Lemma sorted_agree_up_to_ties (l1 : list A) :
  forall l2,
    Permutation l1 l2 ->
    StronglySorted (may_precede less) l1 ->
    StronglySorted (may_precede less) l2 ->
    Forall2 (tied less) l1 l2.
Proof.
  induction l1 as [| a l1 IH]; intros l2 P S1 S2.
  - apply Permutation_nil in P. subst. constructor.
  - destruct l2 as [| b l2];
      [apply Permutation_sym, Permutation_nil in P; discriminate |].
    pose proof (sorted_heads_tied a b l1 l2 P S1 S2) as T.
    constructor; [exact T |].
    assert (Ha : In a (b :: l2))
      by (apply (Permutation_in a P); now left).
    pose proof (StronglySorted_inv S1) as [S1' _].
    pose proof (StronglySorted_inv S2) as [S2' _].
    destruct Ha as [<- | Ha].
    + apply IH; [exact (Permutation_cons_inv P) | exact S1' | exact S2'].
    + destruct (in_split _ _ Ha) as (pre & post & ->).
      apply (Forall2_tied_trans _ (pre ++ b :: post)).
      * apply IH; [| exact S1' | exact (sorted_replace a b pre post T S2')].
        apply (Permutation_cons_inv (a := a)).
        etransitivity; [exact P |].
        transitivity (b :: a :: pre ++ post);
          [apply perm_skip; symmetry; apply Permutation_middle |].
        transitivity (a :: b :: pre ++ post); [apply perm_swap |].
        apply perm_skip, Permutation_middle.
      * clear - T less_weak.
        induction pre as [| x pre IHp]; simpl; constructor.
        -- exact (tied_sym a b T).
        -- apply Forall2_tied_refl.
        -- apply tied_refl.
        -- exact IHp.
Qed.

End Ties.

(** C9 (as amended): the report shows the reported operons in an order that
    the seven-part key allows: no operon of the report is followed by one
    that the key puts before it.  The key is a strict weak order and not
    more: two operons that it orders in neither direction agree on all
    seven parts, and can yet differ in their rows.  So the key fixes the
    order of the report up to the order of the operons that it ties: any
    two arrangements of the same operons that the key allows show, place
    by place, operons with the same seven parts.  The order of tied
    operons is left to the sort. *)
Theorem report_order :
  (forall h, strict_weak (Operon.reportLess h))
  /\ (forall h a b,
        Operon.reportLess h a b = false ->
        Operon.reportLess h b a = false ->
        report_key h a = report_key h b)
  /\ (forall logPtr qc_on input_name lines h ops,
        final_operons logPtr qc_on input_name lines = OK (h, ops) ->
        StronglySorted (may_precede (Operon.reportLess h)) ops
        /\ shellBody logPtr qc_on input_name lines
           = report input_name h ops)
  /\ (forall h ops ops',
        Permutation ops ops' ->
        StronglySorted (may_precede (Operon.reportLess h)) ops ->
        StronglySorted (may_precede (Operon.reportLess h)) ops' ->
        Forall2 (fun a b => report_key h a = report_key h b) ops ops').
Proof.
  split; [exact strict_weak_reportLess |].
  split; [exact reportLess_tie |].
  split.
  - intros logPtr qc_on input_name lines h ops H.
    split; [exact (final_operons_sorted _ _ _ _ _ H) |].
    unfold shellBody. now rewrite H.
  - intros h ops ops' P S S'.
    pose proof (sorted_agree_up_to_ties (Operon.reportLess h)
                  (strict_weak_reportLess h) ops ops' P S S') as T.
    clear P S S'.
    induction T as [| a b l l' [Hab Hba] _ IH]; [constructor |].
    constructor; [exact (reportLess_tie h a b Hab Hba) | exact IH].
Qed.

(** The report of the reverse-strand lines holds two operons that the key
    ties: it is sorted as it stands and as it would stand with the two
    exchanged, and both arrangements show the same keys place by place. *)
Lemma report_order_witness :
  match final_operons false true "" shared_B_lines with
  | OK (h, ops) =>
      List.length ops = 2%nat
      /\ StronglySorted (may_precede (Operon.reportLess h)) ops
      /\ Forall2 (fun a b => report_key h a = report_key h b) ops (rev ops)
  | Err _ => False
  end.
Proof.
  destruct (final_operons false true "" shared_B_lines)
    as [[h ops] | e] eqn:E; [| vm_compute in E; discriminate].
  pose proof (proj1 (proj1 (proj2 (proj2 report_order)) _ _ _ _ _ _ E)) as S.
  assert (L : List.length ops = 2%nat).
  { pose proof (f_equal (fun r => match r with
                                  | OK (_, o) => List.length o
                                  | Err _ => O
                                  end) E) as L.
    vm_compute in L. symmetry. exact L. }
  assert (T : match ops with
              | [a; b] => Operon.reportLess h a b = false
              | _ => True
              end).
  { pose proof (f_equal (fun r => match r with
                                  | OK (h', [a; b]) => Operon.reportLess h' a b
                                  | _ => false
                                  end) E) as T.
    vm_compute in T.
    destruct ops as [| a [| b [| c ops]]]; try exact I. symmetry. exact T. }
  split; [exact L |]. split; [exact S |].
  apply (proj2 (proj2 (proj2 report_order)) h ops (rev ops));
    [apply Permutation_rev | exact S |].
  destruct ops as [| a [| b [| c ops]]]; try discriminate L. simpl.
  constructor; [constructor; [constructor | constructor] |].
  constructor; [exact T | constructor].
Defined.

(** C9 (counterexample): the report of the reverse-strand lines holds two
    operons that share their first hit and the reference of their second;
    the key orders them in neither direction, and their rows differ in the
    column [target_stop]. *)
Lemma report_key_ties_distinct_rows :
  match final_operons false true "" shared_B_lines with
  | OK (h, [op1; op2]) =>
      Operon.reportLess h op1 op2 = false
      /\ Operon.reportLess h op2 op1 = false
      /\ (exists r1 r2,
             Operon.saveTsvOut h "" false op1 = OK r1
             /\ Operon.saveTsvOut h "" false op2 = OK r2
             /\ nth 5 r1 (Str "") = Num 1340
             /\ nth 5 r2 (Str "") = Num 1400)
  | _ => False
  end.
Proof.
  vm_compute. repeat split. eexists. eexists. repeat split.
Qed.

(** ** Runs of the whole program *)

(** An A hit and a B hit of type 1a ten columns apart, identical to their
    references, make one row with status COMPLETE and type [stx1a]. *)
Example report_complete_operon :
  shellBody false true "" complete_lines
  = OK [[ Str "contig1"; Str "stx1a"; Str "COMPLETE"; Dbl 100%float;
          Num 1001; Num 1130; Chr "+"%char;
          Str "WP_000001"; Dbl 100%float; Dbl 100%float;
          Str "WP_000002"; Dbl 100%float; Dbl 100%float ]].
Proof. vm_compute. reflexivity. Qed.

(** A B hit alone near the start of its contig makes one row with status
    PARTIAL_CONTIG_END, the columns of the A subunit left empty. *)
Example report_lone_B :
  shellBody false true "" lone_B_lines
  = OK [[ Str "contig1"; Str "stx1"; Str "PARTIAL_CONTIG_END"; Str "";
          Num 11; Num 70; Chr "+"%char;
          Str ""; Str ""; Str "";
          Str "WP_000002"; Dbl 100%float; Dbl 100%float ]].
Proof. vm_compute. reflexivity. Qed.

(** With the checks switched on, the abutting pair is accepted by the
    assembler and then rejected by the check of the operon. *)
Example report_abutting :
  shellBody false true "" abutting_lines
  = Err (QC_ASSERT_failed "al1->targetEnd < al2->targetStart")
  /\ exists rows, shellBody false false "" abutting_lines = OK rows.
Proof. split; [vm_compute; reflexivity | eexists; vm_compute; reflexivity]. Qed.

(** The pair of class 2 whose A reference is longer than the frame: without
    a log stream the first pass accepts it and the run fails in the
    resolver, where the row of the operon is rendered; with a log stream
    the first pass fails already, where the candidate is rendered for the
    log. *)
Example report_long_reference :
  match same_type_pass false "" true long_A_lines with
  | OK st => st_operons st = [Operon.paired 0 1]
  | Err _ => False
  end
  /\ shellBody false true "" long_A_lines
     = Err (QC_ASSERT_failed "refLen <= len")
  /\ same_type_pass true "" true long_A_lines
     = Err (QC_ASSERT_failed "refLen <= len").
Proof.
  split; [vm_compute; reflexivity |]. split; vm_compute; reflexivity.
Qed.

(** A hit that ends beyond its reference is rejected by [qc]; with the
    checks off it is read, and the projection of the pair onto the frame of
    320 columns asks for [320 - 330] dashes, a count that wraps. *)
Example report_beyond_reference :
  shellBody false true "" beyond_lines
  = Err (QC_ASSERT_failed "refEnd <= refLen")
  /\ shellBody false false "" beyond_lines
     = Err (length_error "basic_string::_M_create").
Proof. split; vm_compute; reflexivity. Qed.

(** ** Further properties *)

(** Unfold a successful run of the constructor into its checks. *)
Ltac of_line_inv H :=
  unfold BlastAlignment.of_line in H;
  let Hseq := fresh "Hseq" in
  apply bind_OK in H as [? [Hseq H]]; apply QC_ASSERT_OK in Hseq;
  let famId := fresh "famId" in
  let sseqid1 := fresh "sseqid1" in
  let Efam := fresh "Efam" in
  destruct (rfindSplit (l_sseqid _) "|"%char) as [famId sseqid1] eqn:Efam;
  let refAccession := fresh "refAccession" in
  let rest := fresh "rest" in
  destruct (rfindSplit sseqid1 "|"%char) as [refAccession rest];
  let H6 := fresh "H6" in
  apply bind_OK in H as [? [H6 H]]; apply QC_ASSERT_OK in H6;
  let Hleft := fresh "Hleft" in
  apply bind_OK in H as [? [Hleft H]]; apply QC_ASSERT_OK in Hleft;
  let Hsub := fresh "Hsub" in
  let Hc := fresh "Hc" in
  apply bind_OK in H as [? [Hsub H]];
  destruct (at_ famId 3) eqn:Hc; [| discriminate Hsub];
  injection Hsub as <-;
  let H2 := fresh "H2" in
  apply bind_OK in H as [? [H2 H]]; apply ASSERT_OK in H2;
  let Hsz := fresh "Hsz" in
  apply bind_OK in H as [? [Hsz H]]; apply QC_ASSERT_OK in Hsz;
  let Href := fresh "Href" in
  apply bind_OK in H as [? [Href H]]; apply QC_ASSERT_OK in Href;
  let Hne := fresh "Hne" in
  apply bind_OK in H as [? [Hne H]]; apply QC_ASSERT_OK in Hne;
  let Hr1 := fresh "Hr1" in
  apply bind_OK in H as [? [Hr1 H]]; apply QC_ASSERT_OK in Hr1;
  let Ht1 := fresh "Ht1" in
  apply bind_OK in H as [? [Ht1 H]]; apply QC_ASSERT_OK in Ht1;
  injection H as <-;
  apply Z.eqb_eq in H6, H2, Hsz; apply Z.ltb_lt in Href;
  apply negb_true_iff, Z.eqb_neq in Hne; apply Z.leb_le in Hr1, Ht1;
  unfold BlastAlignment.size in H6, H2, Hsz.

Lemma count_identical_bounds (t r : string) :
  0 <= BlastAlignment.count_identical t r <= BlastAlignment.size t.
Proof.
  unfold BlastAlignment.size. revert r.
  induction t as [| a t IH]; intros r; simpl String.length.
  - simpl. lia.
  - destruct r as [| b r]; simpl BlastAlignment.count_identical; [lia |].
    specialize (IH r). destruct (Ascii.eqb a b); lia.
Qed.

Lemma count_identical_full (t r : string) :
  String.length t = String.length r ->
  (BlastAlignment.count_identical t r = BlastAlignment.size t <-> t = r).
Proof.
  unfold BlastAlignment.size. revert r.
  induction t as [| a t IH]; intros [| b r] L; simpl in L; try discriminate.
  - simpl. split; reflexivity.
  - injection L as L. specialize (IH r L).
    pose proof (count_identical_bounds t r) as B.
    unfold BlastAlignment.size in B.
    simpl BlastAlignment.count_identical. simpl String.length.
    destruct (Ascii.eqb_spec a b) as [-> | N].
    + split.
      * intros H. f_equal. apply IH. lia.
      * intros H. injection H as ->. 
        assert (E : BlastAlignment.count_identical r r = Z.of_nat (String.length r))
          by now apply IH.
        lia.
    + split; [lia | congruence].
Qed.

Lemma famId_parts (famId : string) (c : ascii) :
  String.length famId = 6%nat ->
  String.prefix stxS famId = true ->
  at_ famId 3 = Some c ->
  famId = (stxS ++ String c (String.substring 4 (String.length famId - 4) famId))%string.
Proof.
  intros L P A.
  destruct famId as [| c0 [| c1 [| c2 [| c3 [| c4 [| c5 [| c6 s]]]]]]];
    simpl in L; try discriminate.
  unfold stxS in *. cbn [String.prefix] in P.
  destruct (Ascii.ascii_dec "s" c0) as [<- | N0]; [| discriminate].
  destruct (Ascii.ascii_dec "t" c1) as [<- | N1]; [| discriminate].
  destruct (Ascii.ascii_dec "x" c2) as [<- | N2]; [| discriminate].
  unfold at_ in A. simpl in A. injection A as <-. reflexivity.
Qed.

Lemma stxClass_isLeft (stxType : string) :
  String.length stxType = 2%nat ->
  isLeft stxType
    (if String.eqb stxType "2a" || String.eqb stxType "2c"
        || String.eqb stxType "2d" then "2" else stxType) = true.
Proof.
  intros L. unfold isLeft.
  destruct (String.eqb_spec stxType "2a") as [-> | _]; [reflexivity |].
  destruct (String.eqb_spec stxType "2c") as [-> | _]; [reflexivity |].
  destruct (String.eqb_spec stxType "2d") as [-> | _]; [reflexivity |].
  simpl. clear. induction stxType as [| a s IH]; cbn [String.prefix];
    [reflexivity |].
  destruct (Ascii.ascii_dec a a); [exact IH | congruence].
Qed.


Lemma of_line_constructed (line : Line) (al : BlastAlignment.t) :
  line_in_range line ->
  BlastAlignment.of_line line = OK al ->
  constructed line al.
Proof.
  intros (Rts & Rte & Rtl & Rrs & Rre & Rrl) H.
  unfold is_size_t, size_t_bits in *.
  of_line_inv H.
  assert (L6 : String.length famId = 6%nat) by lia.
  assert (Lsz : String.length (l_targetSeq line)
                = String.length (l_refSeq line)) by lia.
  assert (Lpos : (0 < String.length (l_targetSeq line))%nat).
  { destruct (l_targetSeq line); simpl in *; [discriminate | lia]. }
  pose proof (count_identical_bounds (l_targetSeq line) (l_refSeq line)) as B.
  pose proof (count_identical_full (l_targetSeq line) (l_refSeq line) Lsz) as F.
  unfold BlastAlignment.size in *.
  constructor; simpl; unfold famId_of; rewrite ?Efam; simpl fst;
    unfold size_sub, wrap, size_t_bits;
    destruct (Z.ltb_spec (l_targetStart line) (l_targetEnd line))
      as [Hlt | Hge];
    rewrite ?Z.mod_small by lia;
    try lia; try reflexivity; try exact F;
    try (now apply famId_parts); try (apply stxClass_isLeft; lia).
Qed.

(** X1: a line that the constructor accepts, its six numbers being [size_t]
    values, gives a hit whose target range is the smaller coordinate less
    one to the larger one and whose strand says whether the start was the
    smaller; the reference range is the start less one to the end; both
    ranges are not empty; names, lengths and sequences are copied; the
    alignment length is the common length of the two sequences; the
    identical count is at most the length and equals it exactly when the
    sequences are equal; the hit is neither frameshifted nor reported; the
    family code is [stx], the subunit letter and a type of two characters;
    the class is [2] for the types 2a, 2c and 2d and the type itself
    otherwise, and the superclass is its first character. *)
Theorem of_line_post (line : Line) (al : BlastAlignment.t) :
  line_in_range line ->
  BlastAlignment.of_line line = OK al ->
  constructed line al.
Proof. exact (of_line_constructed line al). Qed.

Lemma of_line_post_witness :
  line_in_range gapped_line
  /\ BlastAlignment.targetStart (hit_of gapped_line) + 1 = 1001
  /\ BlastAlignment.targetEnd (hit_of gapped_line) = 1015.
Proof.
  assert (R : line_in_range gapped_line).
  { unfold line_in_range, is_size_t. vm_compute. repeat split; discriminate. }
  split; [exact R |].
  pose proof (of_line_post gapped_line (hit_of gapped_line) R eq_refl) as C.
  split; [exact (c_targetStart _ _ C) | exact (c_targetEnd _ _ C)].
Defined.

Lemma QC_ASSERT_bind {B : Type} (what : string) (b : bool)
  (k : unit -> result B) :
  b = true -> bind (QC_ASSERT what b) k = k tt.
Proof. now intros ->. Qed.

Lemma qc_OK_iff (al : BlastAlignment.t) :
  BlastAlignment.qc true al = OK tt <->
  (BlastAlignment.length al <> 0
   /\ BlastAlignment.nident al <> 0
   /\ BlastAlignment.nident al <= BlastAlignment.length al
   /\ BlastAlignment.targetStart al < BlastAlignment.targetEnd al
   /\ BlastAlignment.targetEnd al <= BlastAlignment.targetLen al
   /\ BlastAlignment.refStart al < BlastAlignment.refEnd al
   /\ BlastAlignment.refEnd al <= BlastAlignment.refLen al
   /\ (BlastAlignment.frameshift al = false ->
       BlastAlignment.nident al
       <= size_sub (BlastAlignment.refEnd al) (BlastAlignment.refStart al)
       /\ size_sub (BlastAlignment.refEnd al) (BlastAlignment.refStart al)
          <= BlastAlignment.length al)
   /\ BlastAlignment.targetName al <> ""
   /\ contains_class (BlastAlignment.stxClass al) = true
   /\ isLeft (BlastAlignment.stxType al) (BlastAlignment.stxClass al) = true
   /\ (BlastAlignment.subunit al = "A"%char
       \/ BlastAlignment.subunit al = "B"%char)
   /\ BlastAlignment.refAccession al <> ""
   /\ BlastAlignment.targetSeq al <> ""
   /\ BlastAlignment.refSeq al <> ""
   /\ String.length (BlastAlignment.targetSeq al)
      = String.length (BlastAlignment.refSeq al)
   /\ (BlastAlignment.frameshift al = false ->
       BlastAlignment.length al
       = BlastAlignment.size (BlastAlignment.targetSeq al))
   /\ String.length (BlastAlignment.stxType al) = 2%nat).
Proof.
  unfold BlastAlignment.qc. simpl negb. cbv iota.
  split.
  - intros H.
    repeat match type of H with
           | bind (QC_ASSERT _ _) _ = OK _ =>
               let Hq := fresh "Hq" in
               apply bind_OK in H as [? [Hq H]]; apply QC_ASSERT_OK in Hq
           | bind _ _ = OK _ =>
               let Hq := fresh "Hf" in
               apply bind_OK in H as [? [Hq H]]
           end.
    apply QC_ASSERT_OK in H.
    repeat match goal with
           | E : negb _ = true |- _ => apply negb_true_iff in E
           end.
    repeat match goal with
           | E : (_ =? _) = false |- _ => apply Z.eqb_neq in E
           | E : (_ =? _) = true |- _ => apply Z.eqb_eq in E
           | E : (_ <=? _) = true |- _ => apply Z.leb_le in E
           | E : (_ <? _) = true |- _ => apply Z.ltb_lt in E
           | E : String.eqb _ _ = false |- _ => apply String.eqb_neq in E
           end.
    unfold BlastAlignment.size in *.
    repeat match goal with |- _ /\ _ => split end; try assumption; try lia.
    + intros F. rewrite F in Hf. simpl in Hf.
      apply bind_OK in Hf as [? [Ka Kb]]. apply QC_ASSERT_OK in Ka, Kb.
      apply Z.leb_le in Ka. apply Z.leb_le in Kb. lia.
    + match goal with
      | E : (Ascii.eqb _ _ || Ascii.eqb _ _) = true |- _ =>
          apply orb_prop in E as [E | E]; apply Ascii.eqb_eq in E; auto
      end.
    + intros F. rewrite F in *. simpl in *.
      match goal with
      | E : (_ =? _) = true |- _ => apply Z.eqb_eq in E; exact E
      end.
  - intros (H1 & H2 & H3 & H4 & H5 & H6 & H7 & H8 & H9 & H10 & H11 & H12
            & H13 & H14 & H15 & H16 & H17 & H18).
    apply Z.eqb_neq in H1, H2. apply Z.leb_le in H3, H5, H7.
    apply Z.ltb_lt in H4, H6. apply String.eqb_neq in H9, H13, H14, H15.
    assert (Es : (BlastAlignment.size (BlastAlignment.targetSeq al)
                  =? BlastAlignment.size (BlastAlignment.refSeq al)) = true).
    { apply Z.eqb_eq. unfold BlastAlignment.size. lia. }
    assert (E2 : (BlastAlignment.size (BlastAlignment.stxType al) =? 2) = true).
    { apply Z.eqb_eq. unfold BlastAlignment.size. lia. }
    assert (E12 : Ascii.eqb (BlastAlignment.subunit al) "A"
                  || Ascii.eqb (BlastAlignment.subunit al) "B" = true).
    { destruct H12 as [-> | ->]; reflexivity. }
    rewrite H1, H2, H3, H4, H5, H6, H7, H9, H10, H11, H13, H14, H15, Es, E2,
            E12.
    destruct (BlastAlignment.frameshift al); simpl; [reflexivity |].
    destruct (H8 eq_refl) as [Ka Kb]. apply Z.leb_le in Ka, Kb.
    rewrite Ka, Kb. simpl. rewrite (H17 eq_refl), Z.eqb_refl. reflexivity.
Qed.

(** X2: of the checks of [BlastAlignment::qc], a hit fresh from the
    constructor can fail only these: the identical count is not zero, the
    target end is within the contig, the reference end is within the
    reference, the identical count is at most the reference span and the
    reference span at most the alignment length, the contig name and the
    reference accession are not empty, the class is one of the known
    classes and the subunit is A or B.  The other checks hold by
    construction. *)
Theorem qc_after_of_line (line : Line) (al : BlastAlignment.t) :
  line_in_range line ->
  BlastAlignment.of_line line = OK al ->
  (BlastAlignment.qc true al = OK tt <-> qc_residue al).
Proof.
  intros R H. pose proof (of_line_constructed line al R H) as C.
  destruct R as (Rts & Rte & Rtl & Rrs & Rre & Rrl).
  unfold is_size_t, size_t_bits in *.
  pose proof (c_ref_range _ _ C) as Hr. pose proof (c_refEnd _ _ C) as He.
  assert (Hsub : size_sub (BlastAlignment.refEnd al) (BlastAlignment.refStart al)
                 = BlastAlignment.refEnd al - BlastAlignment.refStart al).
  { unfold size_sub, wrap, size_t_bits. apply Z.mod_small. lia. }
  rewrite qc_OK_iff. unfold qc_residue. rewrite Hsub.
  pose proof (c_length_pos _ _ C) as Lp. pose proof (c_nident _ _ C) as Ln.
  pose proof (c_target_range _ _ C) as Lt. pose proof (c_isLeft _ _ C) as Li.
  pose proof (c_stxType _ _ C) as L2. pose proof (c_same_size _ _ C) as Hss.
  pose proof (c_length _ _ C) as Hl. unfold BlastAlignment.size in Hl.
  rewrite (c_targetSeq _ _ C), (c_refSeq _ _ C).
  assert (Ht : l_targetSeq line <> "").
  { intros E. rewrite E in Hl. simpl in Hl. lia. }
  assert (Hrs : l_refSeq line <> "").
  { intros E. rewrite E in Hss. rewrite Hss in Hl. simpl in Hl. lia. }
  split.
  - intros (H1 & H2 & H3 & H4 & H5 & H6 & H7 & H8 & H9 & H10 & H11 & H12
            & H13 & _).
    destruct (H8 (c_frameshift _ _ C)) as [Ka Kb].
    repeat split; assumption.
  - intros (H2 & H5 & H7 & Ka & Kb & H9 & H10 & H12 & H13).
    repeat match goal with |- _ /\ _ => split end;
      try assumption; try lia; auto.
Qed.

Lemma qc_after_of_line_witness :
  BlastAlignment.qc true (hit_of gapped_line) = OK tt
  <-> qc_residue (hit_of gapped_line).
Proof.
  apply (qc_after_of_line gapped_line).
  - unfold line_in_range, is_size_t. vm_compute. repeat split; discriminate.
  - reflexivity.
Defined.

Lemma find_char_spec (s : string) (c : ascii) :
  match BlastAlignment.find_char s c with
  | Some m =>
      String.get m s = Some c
      /\ forall p, (p < m)%nat -> String.get p s <> Some c
  | None => forall p, String.get p s <> Some c
  end.
Proof.
  unfold BlastAlignment.find_char.
  induction s as [| a s IH].
  - simpl. intros p. destruct p; discriminate.
  - cbn [String.index String.prefix].
    destruct (Ascii.ascii_dec c a) as [<- | N].
    + replace (String.prefix "" s) with true by (now destruct s).
      split; [reflexivity | intros p Hp; lia].
    + destruct (String.index 0 (String c "") s) as [m |].
      * destruct IH as [Hm Hmin]. split; [exact Hm |].
        intros [| p] Hp; simpl; [congruence | apply Hmin; lia].
      * intros [| p]; simpl; [congruence | apply IH].
Qed.

Lemma get_Some_lt (s : string) (i : nat) (c : ascii) :
  String.get i s = Some c -> (i < String.length s)%nat.
Proof.
  revert i. induction s as [| a s IH]; intros [| i] H; simpl in *;
    try discriminate; [lia |].
  apply IH in H. lia.
Qed.

(** X3: the constructor sets [stopCodonPresent] exactly when the aligned
    target sequence (of a length that is a [size_t]) has a [*] before its
    last column; a [*] in the last column alone does not count. *)
Theorem of_line_stopCodon (line : Line) (al : BlastAlignment.t) :
  BlastAlignment.size (l_targetSeq line) < 2 ^ size_t_bits ->
  BlastAlignment.of_line line = OK al ->
  (BlastAlignment.stopCodon al = true
   <-> exists i, String.get i (l_targetSeq line) = Some "*"%char
                 /\ (S i < String.length (l_targetSeq line))%nat).
Proof.
  intros R H. of_line_inv H. simpl.
  pose proof (find_char_spec (l_targetSeq line) "*") as F.
  unfold BlastAlignment.size, size_t_bits in *.
  destruct (BlastAlignment.find_char (l_targetSeq line) "*") as [m |].
  - destruct F as [Hm Hmin]. pose proof (get_Some_lt _ _ _ Hm) as Hlt.
    unfold size_add, wrap, size_t_bits. rewrite Z.mod_small by lia.
    split.
    + intros E. apply Z.ltb_lt in E. exists m. split; [exact Hm | lia].
    + intros [i [Hi Hlen]]. apply Z.ltb_lt.
      destruct (Nat.lt_ge_cases i m) as [Him | Him]; [| lia].
      now apply Hmin in Him.
  - split; [discriminate |]. intros [i [Hi _]]. now apply F in Hi.
Qed.

Lemma of_line_stopCodon_witness :
  BlastAlignment.stopCodon (hit_of stop_line) = true
  /\ BlastAlignment.stopCodon (hit_of stop_last_line) = false.
Proof.
  split.
  - apply (of_line_stopCodon stop_line (hit_of stop_line));
      [vm_compute; reflexivity | vm_compute; reflexivity |].
    exists 2%nat. split; [reflexivity | simpl; lia].
  - destruct (BlastAlignment.stopCodon (hit_of stop_last_line)) eqn:E;
      [| reflexivity].
    apply (of_line_stopCodon stop_last_line (hit_of stop_last_line)) in E;
      [| vm_compute; reflexivity | vm_compute; reflexivity].
    destruct E as [i [Hi Hlt]]. simpl in Hlt.
    do 4 (destruct i as [| i]; [discriminate Hi |]). lia.
Defined.

(** X4: the row of a single hit shows the contig of its line, the smaller of
    the line's two target coordinates as start, the larger as stop, and
    [+] or [-] as the start was the smaller or not: the 1-based
    coordinates of the line come back unchanged, in order. *)
Theorem single_row_coordinates (line : Line) (al : BlastAlignment.t)
  (input_name : string) (verboseP : bool) :
  line_in_range line ->
  BlastAlignment.of_line line = OK al ->
  let row := BlastAlignment.saveTsvOut input_name verboseP al in
  let shift := if String.eqb input_name "" then O else 1%nat in
  nth shift row (Str "") = Str (l_targetName line)
  /\ nth (4 + shift) row (Str "")
     = Num (Z.min (l_targetStart line) (l_targetEnd line))
  /\ nth (5 + shift) row (Str "")
     = Num (Z.max (l_targetStart line) (l_targetEnd line))
  /\ nth (6 + shift) row (Str "")
     = Chr (if l_targetStart line <? l_targetEnd line
            then "+"%char else "-"%char).
Proof.
  intros R H. pose proof (of_line_constructed line al R H) as C.
  destruct R as (Rts & Rte & _). unfold is_size_t, size_t_bits in *.
  pose proof (c_target_range _ _ C) as Hr.
  pose proof (c_targetStart _ _ C) as Hs.
  cbv zeta. unfold BlastAlignment.saveTsvOut.
  rewrite (c_targetName _ _ C), (c_targetEnd _ _ C), (c_targetStrand _ _ C).
  assert (E : size_add (BlastAlignment.targetStart al) 1
              = Z.min (l_targetStart line) (l_targetEnd line)).
  { unfold size_add, wrap, size_t_bits. rewrite Z.mod_small by lia. exact Hs. }
  rewrite E.
  destruct (String.eqb input_name ""); simpl; repeat split; reflexivity.
Qed.

Lemma single_row_coordinates_witness :
  let row := BlastAlignment.saveTsvOut "" false (hit_of gapped_line) in
  nth 4 row (Str "") = Num 1001 /\ nth 5 row (Str "") = Num 1015.
Proof.
  assert (R : line_in_range gapped_line).
  { unfold line_in_range, is_size_t. vm_compute. repeat split; discriminate. }
  pose proof (single_row_coordinates gapped_line (hit_of gapped_line) ""
                false R eq_refl) as P.
  cbv zeta in P. destruct P as (_ & P4 & P5 & _).
  split; [exact P4 | exact P5].
Defined.

(** ** The merger of the frame shifts *)

Lemma merged_from_refl (a : BlastAlignment.t) : merged_from a a.
Proof. constructor; auto; lia. Qed.

Lemma merged_from_mark (a : BlastAlignment.t) :
  merged_from a (BlastAlignment.mark_reported a).
Proof. constructor; simpl; auto; lia. Qed.

Lemma mark_reported_twice (a : BlastAlignment.t) :
  BlastAlignment.mark_reported (BlastAlignment.mark_reported a)
  = BlastAlignment.mark_reported a.
Proof. reflexivity. Qed.

Lemma merged_from_trans (a b c : BlastAlignment.t) :
  merged_from a b -> merged_from b c -> merged_from a c.
Proof.
  intros Hab Hbc. pose proof Hab as []. pose proof Hbc as [].
  constructor; try congruence; try lia; auto.
  intros F.
  assert (Fb : BlastAlignment.frameshift b = false).
  { destruct (BlastAlignment.frameshift b) eqn:E; [| reflexivity].
    rewrite (m_frameshift _ _ Hbc E) in F. discriminate. }
  destruct (m_untouched _ _ Hbc F) as [Ec | Ec],
           (m_untouched _ _ Hab Fb) as [Eb | Eb]; rewrite Ec, Eb; auto.
Qed.

Lemma merge_merged_from (al prev merged : BlastAlignment.t) :
  BlastAlignment.merge al prev = OK merged ->
  merged_from al merged
  /\ BlastAlignment.frameshift merged = true
  /\ BlastAlignment.targetStart merged = BlastAlignment.targetStart prev
  /\ BlastAlignment.reported merged = BlastAlignment.reported al.
Proof.
  unfold BlastAlignment.merge. intros H.
  do 5 (apply bind_OK in H as [? [_ H]]).
  apply bind_OK in H as [? [Hlt H]]. apply ASSERT_OK, Z.ltb_lt in Hlt.
  injection H as <-. split; [| repeat split].
  constructor; simpl; auto; try lia; try discriminate.
  intros ->. now destruct (BlastAlignment.stopCodon prev).
Qed.

Lemma absorb_heap (qc_on : bool) (h h1 : Heap) (prev al : ptr) :
  absorb qc_on h prev al = OK h1 ->
  exists merged,
    BlastAlignment.merge (h al) (h prev) = OK merged
    /\ h1 = set_reported (store h al merged) prev.
Proof.
  unfold absorb. intros H.
  apply bind_OK in H as [merged [Hm H]].
  apply bind_OK in H as [? [_ H]]. injection H as <-. eauto.
Qed.

Lemma absorb_merged_from (qc_on : bool) (h h1 : Heap) (prev al : ptr) :
  absorb qc_on h prev al = OK h1 ->
  (forall p, merged_from (h p) (h1 p))
  /\ (forall p, p <> al -> p <> prev -> h1 p = h p).
Proof.
  intros H. apply absorb_heap in H as [merged [Hm ->]].
  destruct (merge_merged_from _ _ _ Hm) as (M & _).
  split.
  - intros p. unfold set_reported.
    destruct (Nat.eq_dec p prev) as [-> | Np].
    + rewrite store_same.
      apply (merged_from_trans _ (store h al merged prev));
        [| apply merged_from_mark].
      destruct (Nat.eq_dec prev al) as [-> | Na].
      * now rewrite store_same.
      * rewrite store_other by exact Na. apply merged_from_refl.
    + rewrite store_other by exact Np.
      destruct (Nat.eq_dec p al) as [-> | Na].
      * now rewrite store_same.
      * rewrite store_other by exact Na. apply merged_from_refl.
  - intros p Na Np. unfold set_reported.
    now rewrite !store_other.
Qed.

Lemma frameshift_step_merged_from (qc_on : bool) (h h1 : Heap)
  (prev : option ptr) (al : ptr) :
  frameshift_step qc_on h prev al = OK h1 ->
  (forall p, merged_from (h p) (h1 p))
  /\ (forall p, p <> al -> Some p <> prev -> h1 p = h p).
Proof.
  unfold frameshift_step. intros H.
  destruct prev as [prev |].
  - destruct (frameshift_pair h prev al).
    + destruct (absorb_merged_from _ _ _ _ _ H) as [M U].
      split; [exact M |]. intros p Na Np. apply U; congruence.
    + injection H as <-. split; [intros p; apply merged_from_refl | auto].
  - injection H as <-. split; [intros p; apply merged_from_refl | auto].
Qed.

Lemma frameshift_loop_merged_from (qc_on : bool) (als : list ptr) :
  forall (h h' : Heap) (prev : option ptr),
    frameshift_loop qc_on h prev als = OK h' ->
    (forall p, merged_from (h p) (h' p))
    /\ (forall p, ~ In p als -> Some p <> prev -> h' p = h p).
Proof.
  induction als as [| al rest IH]; intros h h' prev H; simpl in H.
  - injection H as <-. split; [intros p; apply merged_from_refl | auto].
  - apply bind_OK in H as [h1 [Hstep H]].
    destruct (frameshift_step_merged_from _ _ _ _ _ Hstep) as [M1 U1].
    destruct (IH _ _ _ H) as [M2 U2].
    split.
    + intros p. exact (merged_from_trans _ _ _ (M1 p) (M2 p)).
    + intros p Hin Hp. simpl in Hin.
      rewrite U2; [apply U1 | |]; intuition congruence.
Qed.

Lemma strict_weak_frameshiftLess : strict_weak BlastAlignment.frameshiftLess.
Proof.
  unfold BlastAlignment.frameshiftLess.
  repeat (apply strict_weak_part;
          [first [ exact strict_total_bool | exact strict_total_string
                 | exact strict_total_char | exact strict_total_Z ] |]).
  apply strict_weak_false.
Qed.

Lemma find_frameshifts_kept (qc_on : bool) (h h' : Heap)
  (blastAls sorted : list ptr) :
  find_frameshifts qc_on h blastAls = OK (h', sorted) ->
  Permutation sorted blastAls
  /\ StronglySorted (may_precede (merger_order h)) sorted
  /\ (forall p, merged_from (h p) (h' p))
  /\ (forall p, ~ In p blastAls -> h' p = h p).
Proof.
  unfold find_frameshifts. intros H.
  apply bind_OK in H as [? [_ H]].
  apply bind_OK in H as [h1 [Hloop H]]. injection H as <- <-.
  assert (W : strict_weak (merger_order h))
    by (apply (strict_weak_on h), strict_weak_frameshiftLess).
  pose proof (sort_permutation (merger_order h) blastAls) as P.
  destruct (frameshift_loop_merged_from _ _ _ _ _ Hloop) as [M U].
  split; [exact P |]. split; [exact (sort_sorted _ W blastAls) |].
  split; [exact M |].
  intros p Hp. apply U; [| discriminate].
  intros Hin. apply Hp. now apply (Permutation_in p P).
Qed.

(** X5: when the merger of the frame shifts succeeds it hands on the hits it
    was given, each once, in the order of [frameshiftLess]; of every hit
    the contig, strand, reference, lengths, sequences, type, subunit and
    target end are as before, the target start has not grown, the flags
    reported, frameshifted and stop codon have not been lowered, and a hit
    that is not frameshifted afterwards is as before but for the reported
    flag; hits outside the vector are untouched. *)
Theorem find_frameshifts_keeps (qc_on : bool) (h h' : Heap)
  (blastAls sorted : list ptr) :
  find_frameshifts qc_on h blastAls = OK (h', sorted) ->
  Permutation sorted blastAls
  /\ StronglySorted (may_precede (merger_order h)) sorted
  /\ (forall p, merged_from (h p) (h' p))
  /\ (forall p, ~ In p blastAls -> h' p = h p).
Proof. exact (find_frameshifts_kept qc_on h h' blastAls sorted). Qed.

Lemma find_frameshifts_keeps_witness :
  match find_frameshifts true (heap_of fragment_hits)
          (pointers fragment_hits) with
  | OK (h', sorted) =>
      Permutation sorted (pointers fragment_hits)
      /\ BlastAlignment.targetEnd (h' 1%nat)
         = BlastAlignment.targetEnd (heap_of fragment_hits 1%nat)
  | Err _ => False
  end.
Proof.
  destruct (find_frameshifts true (heap_of fragment_hits)
              (pointers fragment_hits)) as [[h' sorted] | e] eqn:E.
  - destruct (find_frameshifts_keeps _ _ _ _ _ E) as (P & _ & M & _).
    split; [exact P | exact (m_targetEnd _ _ (M 1%nat))].
  - vm_compute in E. discriminate.
Defined.

Lemma frameshift_loop_absorbed (qc_on : bool) (als : list ptr) :
  forall (h h' : Heap) (prev : option ptr),
    frameshift_loop qc_on h prev als = OK h' ->
    forall p,
      BlastAlignment.reported (h p) = false ->
      BlastAlignment.reported (h' p) = true ->
      exists q,
        In q als
        /\ BlastAlignment.frameshift (h' q) = true
        /\ BlastAlignment.targetName (h' q) = BlastAlignment.targetName (h p)
        /\ BlastAlignment.targetStrand (h' q)
           = BlastAlignment.targetStrand (h p)
        /\ BlastAlignment.refAccession (h' q)
           = BlastAlignment.refAccession (h p)
        /\ BlastAlignment.targetStart (h' q)
           <= BlastAlignment.targetStart (h p).
Proof.
  induction als as [| al rest IH]; intros h h' prev H p R0 R1; simpl in H.
  - injection H as <-. congruence.
  - apply bind_OK in H as [h1 [Hstep H]].
    destruct (frameshift_step_merged_from _ _ _ _ _ Hstep) as [M1 _].
    destruct (frameshift_loop_merged_from _ _ _ _ _ H) as [M2 _].
    destruct (BlastAlignment.reported (h1 p)) eqn:R.
    + (* the flag of [p] was raised by this step *)
      unfold frameshift_step in Hstep.
      destruct prev as [prev |]; [| injection Hstep as <-; congruence].
      destruct (frameshift_pair h prev al) eqn:G;
        [| injection Hstep as <-; congruence].
      apply absorb_heap in Hstep as [merged [Hm ->]].
      destruct (merge_merged_from _ _ _ Hm) as (Mm & Fm & Sm & Rm).
      assert (Hlt : BlastAlignment.targetStart (h prev)
                    < BlastAlignment.targetStart (h al)).
      { unfold frameshift_pair in G.
        repeat (apply andb_prop in G as [G ?]). now apply Z.ltb_lt. }
      assert (Na : al <> prev) by (intros ->; lia).
      assert (Hp : p = prev).
      { destruct (Nat.eq_dec p prev) as [-> | Np]; [reflexivity |].
        unfold set_reported in R. rewrite store_other in R by exact Np.
        destruct (Nat.eq_dec p al) as [-> | Npa].
        - rewrite store_same in R. congruence.
        - rewrite store_other in R by exact Npa. congruence. }
      subst p. exists al.
      assert (E1 : set_reported (store h al merged) prev al = merged).
      { unfold set_reported. rewrite store_other by exact Na.
        apply store_same. }
      pose proof (M2 al) as M2a. rewrite E1 in M2a.
      unfold frameshift_pair in G.
      apply andb_prop in G as [G _]. apply andb_prop in G as [G _].
      apply andb_prop in G as [G _]. apply andb_prop in G as [G Gacc].
      apply andb_prop in G as [Gname Gstrand].
      apply String.eqb_eq in Gname, Gacc. apply Bool.eqb_prop in Gstrand.
      split; [now left |].
      split; [exact (m_frameshift _ _ M2a Fm) |].
      split; [rewrite (m_targetName _ _ M2a), (m_targetName _ _ Mm);
              exact Gname |].
      split; [rewrite (m_targetStrand _ _ M2a), (m_targetStrand _ _ Mm);
              exact Gstrand |].
      split; [rewrite (m_refAccession _ _ M2a), (m_refAccession _ _ Mm);
              exact Gacc |].
      pose proof (m_targetStart _ _ M2a). lia.
    + destruct (IH _ _ _ H p R R1) as (q & Hq & F & N & S & A & T).
      exists q. pose proof (M1 p) as M1p.
      split; [now right |]. split; [exact F |].
      split; [now rewrite N, (m_targetName _ _ M1p) |].
      split; [now rewrite S, (m_targetStrand _ _ M1p) |].
      split; [now rewrite A, (m_refAccession _ _ M1p) |].
      pose proof (m_targetStart _ _ M1p). lia.
Qed.

(** X6: a hit that the merger marks reported has been absorbed: a hit of the
    vector that is frameshifted afterwards lies on the same contig and
    strand, has the same reference accession and starts no later. *)
Theorem absorbed_hits_are_covered (qc_on : bool) (h h' : Heap)
  (blastAls sorted : list ptr) (p : ptr) :
  find_frameshifts qc_on h blastAls = OK (h', sorted) ->
  BlastAlignment.reported (h p) = false ->
  BlastAlignment.reported (h' p) = true ->
  exists q,
    In q blastAls
    /\ BlastAlignment.frameshift (h' q) = true
    /\ BlastAlignment.targetName (h' q) = BlastAlignment.targetName (h p)
    /\ BlastAlignment.targetStrand (h' q) = BlastAlignment.targetStrand (h p)
    /\ BlastAlignment.refAccession (h' q) = BlastAlignment.refAccession (h p)
    /\ BlastAlignment.targetStart (h' q) <= BlastAlignment.targetStart (h p).
Proof.
  unfold find_frameshifts. intros H R0 R1.
  apply bind_OK in H as [? [_ H]].
  apply bind_OK in H as [h1 [Hloop H]]. injection H as <- <-.
  destruct (frameshift_loop_absorbed _ _ _ _ _ Hloop p R0 R1)
    as (q & Hq & K).
  exists q. split; [| exact K].
  apply (Permutation_in q (sort_permutation _ blastAls) Hq).
Qed.

Lemma absorbed_hits_are_covered_witness :
  match find_frameshifts true (heap_of fragment_hits)
          (pointers fragment_hits) with
  | OK (h', _) =>
      exists q, In q (pointers fragment_hits)
                /\ BlastAlignment.frameshift (h' q) = true
  | Err _ => False
  end.
Proof.
  destruct (find_frameshifts true (heap_of fragment_hits)
              (pointers fragment_hits)) as [[h' sorted] | e] eqn:E.
  - assert (R1 : BlastAlignment.reported (h' 0%nat) = true).
    { pose proof (f_equal (fun r => match r with
                                    | OK (hh, _) =>
                                        BlastAlignment.reported (hh 0%nat)
                                    | Err _ => false
                                    end) E) as L.
      vm_compute in L. symmetry. exact L. }
    destruct (absorbed_hits_are_covered _ _ _ _ _ 0%nat E eq_refl R1)
      as (q & Hq & F & _).
    exists q. split; assumption.
  - vm_compute in E. discriminate.
Defined.

Lemma merge_guarded (h : Heap) (prev al : ptr) :
  frameshift_pair h prev al = true ->
  match BlastAlignment.merge (h al) (h prev) with
  | OK _ =>
      BlastAlignment.targetLen (h al) = BlastAlignment.targetLen (h prev)
      /\ BlastAlignment.refLen (h al) = BlastAlignment.refLen (h prev)
  | Err e =>
      (BlastAlignment.targetLen (h al) <> BlastAlignment.targetLen (h prev)
       /\ e = ASSERT_failed "targetLen == prev. targetLen")
      \/ (BlastAlignment.targetLen (h al) = BlastAlignment.targetLen (h prev)
          /\ BlastAlignment.refLen (h al) <> BlastAlignment.refLen (h prev)
          /\ e = ASSERT_failed "refLen == prev. refLen")
  end.
Proof.
  intros G. unfold frameshift_pair in G.
  apply andb_prop in G as [G _]. apply andb_prop in G as [G _].
  apply andb_prop in G as [G Glt]. apply andb_prop in G as [G Gacc].
  apply andb_prop in G as [Gname Gstrand].
  unfold BlastAlignment.merge. rewrite Gname, Gacc, Gstrand, Glt. simpl.
  destruct (Z.eqb_spec (BlastAlignment.targetLen (h al))
                       (BlastAlignment.targetLen (h prev))) as [E1 | N1];
    simpl; [| left; split; [exact N1 | reflexivity]].
  destruct (Z.eqb_spec (BlastAlignment.refLen (h al))
                       (BlastAlignment.refLen (h prev))) as [E2 | N2];
    simpl; [split; assumption |].
  right. repeat split; assumption.
Qed.

(** X7: under the guard of the merger, [merge] can fail in two ways only: the
    two hits disagree on the length of the contig, or agree on it and
    disagree on the length of the reference; the assertions on contig,
    strand, reference accession and order of the starts cannot fail
    there, and [merge] succeeds exactly when both lengths agree. *)
Theorem merge_under_guard (h : Heap) (prev al : ptr) :
  frameshift_pair h prev al = true ->
  match BlastAlignment.merge (h al) (h prev) with
  | OK _ =>
      BlastAlignment.targetLen (h al) = BlastAlignment.targetLen (h prev)
      /\ BlastAlignment.refLen (h al) = BlastAlignment.refLen (h prev)
  | Err e =>
      (BlastAlignment.targetLen (h al) <> BlastAlignment.targetLen (h prev)
       /\ e = ASSERT_failed "targetLen == prev. targetLen")
      \/ (BlastAlignment.targetLen (h al) = BlastAlignment.targetLen (h prev)
          /\ BlastAlignment.refLen (h al) <> BlastAlignment.refLen (h prev)
          /\ e = ASSERT_failed "refLen == prev. refLen")
  end.
Proof. exact (merge_guarded h prev al). Qed.

Lemma merge_under_guard_witness :
  BlastAlignment.targetLen (heap_of fragment_hits 1%nat)
  = BlastAlignment.targetLen (heap_of fragment_hits 0%nat)
  /\ BlastAlignment.refLen (heap_of fragment_hits 1%nat)
     = BlastAlignment.refLen (heap_of fragment_hits 0%nat).
Proof.
  pose proof (merge_under_guard (heap_of fragment_hits) 0%nat 1%nat eq_refl)
    as P.
  destruct (BlastAlignment.merge (heap_of fragment_hits 1%nat)
              (heap_of fragment_hits 0%nat)) as [m | e] eqn:E.
  - exact P.
  - vm_compute in E. discriminate.
Defined.

(** ** What the filter keeps and what it drops *)

Lemma asserts_ok_group (h : Heap) (al prev : ptr) :
  asserts_ok h al prev = true ->
  BlastAlignment.reported (h prev) = false
  /\ BlastAlignment.targetName (h al) = BlastAlignment.targetName (h prev)
  /\ BlastAlignment.targetStrand (h al) = BlastAlignment.targetStrand (h prev)
  /\ BlastAlignment.stxClass (h al) = BlastAlignment.stxClass (h prev)
  /\ BlastAlignment.subunit (h al) = BlastAlignment.subunit (h prev).
Proof.
  unfold asserts_ok. intros H.
  apply andb_prop in H as [H H5]. apply andb_prop in H as [H H4].
  apply andb_prop in H as [H H3]. apply andb_prop in H as [H1 H2].
  apply negb_true_iff in H1. apply String.eqb_eq in H2, H4.
  apply Bool.eqb_prop in H3. apply Ascii.eqb_eq in H5. auto.
Qed.

Lemma dominated_in_true (h : Heap) (al : ptr) (w : list ptr) :
  dominated_in h al w = OK true ->
  exists prev, In prev w /\ dominated_by h al prev.
Proof.
  induction w as [| x w IH]; simpl; [discriminate |]. intros H.
  apply bind_OK in H as [? [H1 H]]. apply ASSERT_OK in H1.
  apply bind_OK in H as [? [H2 H]]. apply ASSERT_OK in H2.
  apply bind_OK in H as [? [H3 H]]. apply ASSERT_OK in H3.
  apply bind_OK in H as [? [H4 H]]. apply ASSERT_OK in H4.
  apply bind_OK in H as [? [H5 H]]. apply ASSERT_OK in H5.
  destruct (dominated h al x) eqn:D.
  - exists x. split; [now left |].
    apply String.eqb_eq in H2, H4. apply Bool.eqb_prop in H3.
    apply Ascii.eqb_eq in H5. unfold dominated_by. auto.
  - destruct (IH H) as [prev [Hin Hd]]. exists prev. split; [now right | auto].
Qed.

Lemma dominated_in_false (h : Heap) (al : ptr) (w : list ptr) :
  dominated_in h al w = OK false ->
  forall prev, In prev w -> dominated h al prev = false.
Proof.
  induction w as [| x w IH]; intros H prev Hin; [destruct Hin |].
  apply dominated_in_cons in H as [Hx H].
  destruct Hin as [<- | Hin]; [| now apply IH].
  unfold passes in Hx. apply andb_prop in Hx as [_ Hx].
  now apply negb_true_iff in Hx.
Qed.

Lemma dominated_by_trans (h : Heap) (a b c : ptr) :
  dominated_by h a b -> dominated_by h b c -> dominated_by h a c.
Proof.
  unfold dominated_by, dominated, BlastAlignment.insideEq.
  intros (N1 & S1 & C1 & U1 & D1) (N2 & S2 & C2 & U2 & D2).
  repeat split; try congruence.
  apply andb_prop in D1 as [I1 G1]. apply andb_prop in I1 as [I1 J1].
  apply andb_prop in D2 as [I2 G2]. apply andb_prop in I2 as [I2 J2].
  apply Z.leb_le in I1, J1, G1, I2, J2, G2.
  apply andb_true_intro. split; [apply andb_true_intro; split |];
    apply Z.leb_le; lia.
Qed.

Lemma kept_or_dominated_more (h : Heap) (kept more : list ptr) (x : ptr) :
  kept_or_dominated h kept x -> kept_or_dominated h (kept ++ more) x.
Proof.
  intros [H | [q [Hq D]]]; [left | right; exists q; split; [| exact D]];
    apply in_or_app; now left.
Qed.

(** Behind a reported hit the sorted vector holds reported hits only. *)
Lemma reported_last (h : Heap) (al x : ptr) :
  may_precede (filter_order h) al x ->
  BlastAlignment.reported (h al) = true ->
  BlastAlignment.reported (h x) = true.
Proof.
  unfold may_precede, filter_order, BlastAlignment.sameTypeLess, LESS_PART.
  intros H R. rewrite R in H.
  destruct (BlastAlignment.reported (h x)); [reflexivity |].
  simpl in H. discriminate.
Qed.

Lemma survivors_complete (h : Heap) (rest : list ptr) :
  forall (w kept good : list ptr),
    survivors h w rest = OK good ->
    StronglySorted (may_precede (filter_order h)) rest ->
    (forall x, In x w -> kept_or_dominated h kept x) ->
    forall x, In x rest -> BlastAlignment.reported (h x) = false ->
              kept_or_dominated h (kept ++ good) x.
Proof.
  induction rest as [| al rest IH]; intros w kept good Hrun Hsorted Hw x Hx Rx;
    [destruct Hx |].
  simpl in Hrun. apply StronglySorted_inv in Hsorted as [Hsorted Hal].
  rewrite Forall_forall in Hal.
  destruct (BlastAlignment.reported (h al)) eqn:Ral.
  - destruct Hx as [<- | Hx]; [congruence |].
    rewrite (reported_last h al x (Hal x Hx) Ral) in Rx. discriminate.
  - apply bind_OK in Hrun as [suppress [Hdom Hrun]].
    apply bind_OK in Hrun as [good' [Hrest Hrun]]. injection Hrun as <-.
    assert (Hw1 : forall y, In y (drop_until (overlaps_head h al) w) ->
                            kept_or_dominated h kept y).
    { intros y Hy. apply Hw.
      apply (sublist_In _ _ y (sublist_drop_until _ w) Hy). }
    destruct suppress.
    + assert (Kal : kept_or_dominated h kept al).
      { destruct (dominated_in_true _ _ _ Hdom) as [prev [Hin D]].
        destruct (Hw1 prev Hin) as [Hk | [q [Hq Dq]]].
        - right. exists prev. auto.
        - right. exists q. split; [exact Hq |].
          exact (dominated_by_trans h al prev q D Dq). }
      destruct Hx as [<- | Hx]; [now apply kept_or_dominated_more |].
      apply (IH _ kept good' Hrest Hsorted); [| exact Hx | exact Rx].
      intros y Hy. apply in_app_or in Hy as [Hy | [<- | []]]; auto.
    + assert (E : (kept ++ al :: good' = (kept ++ [al]) ++ good')%list)
        by now rewrite <- app_assoc.
      rewrite E.
      destruct Hx as [<- | Hx].
      * apply kept_or_dominated_more. left. apply in_or_app. right. now left.
      * apply (IH _ (kept ++ [al])%list good' Hrest Hsorted);
          [| exact Hx | exact Rx].
        intros y Hy. apply in_app_or in Hy as [Hy | [<- | []]].
        -- apply kept_or_dominated_more. now apply Hw1.
        -- left. apply in_or_app. right. now left.
Qed.

(** X8: the filter loses no unreported hit without cause: every unreported
    hit of its input is kept, or a kept hit of the same contig, strand,
    class and subunit contains it and is at least as close to its
    reference. *)
Theorem good_hits_complete (h : Heap) (blastAls goodBlastAls : list ptr)
  (p : ptr) :
  good_hits h blastAls = OK goodBlastAls ->
  In p blastAls ->
  BlastAlignment.reported (h p) = false ->
  In p goodBlastAls
  \/ exists q, In q goodBlastAls /\ dominated_by h p q.
Proof.
  rewrite good_hits_survivors. intros H Hp Rp.
  assert (W : strict_weak (filter_order h))
    by (apply (strict_weak_on h), strict_weak_sameTypeLess).
  apply (survivors_complete h _ [] [] goodBlastAls H
           (sort_sorted (filter_order h) W blastAls)).
  - intros x [].
  - apply (Permutation_in p (Permutation_sym (sort_permutation _ blastAls)) Hp).
  - exact Rp.
Qed.

Lemma good_hits_complete_witness :
  In 1%nat [0%nat]
  \/ exists q, In q [0%nat] /\ dominated_by (heap_of contained_hits) 1%nat q.
Proof.
  apply (good_hits_complete (heap_of contained_hits) [0; 1]%nat [0%nat] 1%nat).
  - vm_compute. reflexivity.
  - right. now left.
  - reflexivity.
Defined.

(** A hit that has left the window cannot hold a later hit. *)
Lemma outside_window_not_dominated (h : Heap) (al y : ptr) :
  overlaps_head h al y = false ->
  BlastAlignment.targetStart (h al) < BlastAlignment.targetEnd (h al) ->
  ~ dominated_by h al y.
Proof.
  unfold overlaps_head, dominated_by, dominated, BlastAlignment.insideEq.
  intros O Hlt (N & S & C & U & D).
  rewrite N, S, C, U, String.eqb_refl, Bool.eqb_reflx, String.eqb_refl,
          Ascii.eqb_refl in O.
  simpl in O. apply Z.ltb_ge in O.
  apply andb_prop in D as [D _]. apply andb_prop in D as [_ D].
  apply Z.leb_le in D. lia.
Qed.

Lemma survivors_antichain (h : Heap) (rest : list ptr) :
  forall (w seen good : list ptr),
    survivors h w rest = OK good ->
    StronglySorted (may_precede (filter_order h)) (seen ++ rest) ->
    NoDup rest ->
    Forall (fun y => BlastAlignment.reported (h y) = false) seen ->
    (forall y, In y seen ->
               In y w
               \/ forall a, In a rest ->
                            BlastAlignment.reported (h a) = false ->
                            overlaps_head h a y = false) ->
    forall before e after,
      rest = (before ++ e :: after)%list ->
      In e good ->
      BlastAlignment.targetStart (h e) < BlastAlignment.targetEnd (h e) ->
      forall y, In y (seen ++ before) -> ~ dominated_by h e y.
Proof.
  induction rest as [| al rest IH];
    intros w seen good Hrun Hsorted Hnd Hseen Hinv before e after Hsplit He
           Hlt y Hy.
  - destruct before; discriminate.
  - simpl in Hrun.
    destruct (BlastAlignment.reported (h al)) eqn:Ral;
      [injection Hrun as <-; destruct He |].
    apply bind_OK in Hrun as [suppress [Hdom Hrun]].
    apply bind_OK in Hrun as [good' [Hrest Hrun]]. injection Hrun as <-.
    destruct (survivors_sound h rest _ _ Hrest) as [Hsub Hunrep].
    apply NoDup_cons_iff in Hnd as [Hnotin Hnd].
    destruct (drop_until_split (overlaps_head h al) w) as [D [HD HDf]].
    remember (drop_until (overlaps_head h al) w) as w1 eqn:Hw1.
    rewrite Forall_forall in HDf, Hseen.
    destruct (StronglySorted_app_inv _ _ _ Hsorted) as [Hsr Hcross].
    pose proof (StronglySorted_inv Hsr) as [_ Hal].
    rewrite Forall_forall in Hal.
    (* a seen hit outside the window cannot overlap [al] *)
    assert (Hout : forall z, In z seen -> ~ In z w1 ->
                             overlaps_head h al z = false).
    { intros z Hz Hnz. destruct (Hinv z Hz) as [Hw | Hr].
      - rewrite HD in Hw. apply in_app_or in Hw as [Hw | Hw];
          [now apply HDf | contradiction].
      - apply Hr; [now left | exact Ral]. }
    destruct before as [| b before]; simpl in Hsplit;
      injection Hsplit as <- Hsplit.
    + (* [e] is [al] itself *)
      rewrite app_nil_r in Hy.
      destruct suppress.
      * exfalso. apply Hnotin. now apply (sublist_In good' rest).
      * destruct (in_dec Nat.eq_dec y w1) as [Hin | Hnin].
        -- intros (_ & _ & _ & _ & Dy).
           rewrite (dominated_in_false _ _ _ Hdom y Hin) in Dy. discriminate.
        -- apply outside_window_not_dominated; [now apply Hout | exact Hlt].
    + (* [e] stands behind [al] *)
      assert (Her : In e rest).
      { rewrite Hsplit. apply in_or_app. right. now left. }
      assert (He' : In e good').
      { destruct suppress; [exact He |].
        destruct He as [<- | He]; [contradiction | exact He]. }
      apply (IH (w1 ++ [al])%list (seen ++ [al])%list good' Hrest)
        with (before := before) (e := e) (after := after); auto.
      * now rewrite <- app_assoc.
      * apply Forall_app. split; [now apply Forall_forall |].
        now constructor.
      * intros z Hz. apply in_app_or in Hz as [Hz | [<- | []]].
        -- destruct (in_dec Nat.eq_dec z w1) as [Hin | Hnin].
           ++ left. apply in_or_app. now left.
           ++ right. intros a Ha Ra.
              apply (head_later_false h z al a).
              ** apply Hcross; [exact Hz | now left].
              ** now apply Hal.
              ** now apply Hseen.
              ** exact Ra.
              ** now apply Hout.
        -- left. apply in_or_app. right. now left.
      * rewrite <- app_assoc. exact Hy.
Qed.

(** X9: a kept hit with a range that is not empty is not suppressible by any
    hit that precedes it in the sorted vector: no earlier hit of its
    contig, strand, class and subunit contains it with a difference that is
    not larger. *)
Theorem good_hits_antichain (h : Heap) (blastAls goodBlastAls : list ptr)
  (before after : list ptr) (al y : ptr) :
  good_hits h blastAls = OK goodBlastAls ->
  NoDup blastAls ->
  sort (filter_order h) blastAls = (before ++ al :: after)%list ->
  In al goodBlastAls ->
  BlastAlignment.targetStart (h al) < BlastAlignment.targetEnd (h al) ->
  In y before ->
  ~ dominated_by h al y.
Proof.
  rewrite good_hits_survivors. intros H Hnd Hsplit Hal Hlt Hy.
  assert (W : strict_weak (filter_order h))
    by (apply (strict_weak_on h), strict_weak_sameTypeLess).
  apply (survivors_antichain h _ [] [] goodBlastAls H
           (sort_sorted (filter_order h) W blastAls))
    with (before := before) (after := after);
    [| constructor | intros z [] | exact Hsplit | exact Hal | exact Hlt
     | exact Hy ].
  apply (Permutation_NoDup
           (Permutation_sym (sort_permutation (filter_order h) blastAls))
           Hnd).
Qed.

Lemma good_hits_antichain_witness :
  ~ dominated_by (heap_of overlapping_hits) 1%nat 0%nat.
Proof.
  apply (good_hits_antichain (heap_of overlapping_hits) [0; 1]%nat
           [0; 1]%nat [0%nat] [] 1%nat 0%nat).
  - vm_compute. reflexivity.
  - repeat constructor; simpl; intuition discriminate.
  - vm_compute. reflexivity.
  - right. now left.
  - vm_compute. reflexivity.
  - now left.
Defined.

(** ** The marks of the assembler *)

Lemma raised_refl (a : BlastAlignment.t) : raised a a.
Proof. now left. Qed.

Lemma raised_trans (a b c : BlastAlignment.t) :
  raised a b -> raised b c -> raised a c.
Proof.
  unfold raised. intros [-> | ->] [-> | ->]; auto.
Qed.

Lemma raised_reported (a b : BlastAlignment.t) :
  raised a b -> BlastAlignment.reported a = true ->
  BlastAlignment.reported b = true.
Proof. intros [-> | ->]; auto. Qed.

Lemma evolves_refl (h : Heap) : evolves h h.
Proof. intros p. apply raised_refl. Qed.

Lemma evolves_trans (h1 h2 h3 : Heap) :
  evolves h1 h2 -> evolves h2 h3 -> evolves h1 h3.
Proof. intros H12 H23 p. exact (raised_trans _ _ _ (H12 p) (H23 p)). Qed.

Lemma evolves_set_reported (h : Heap) (p : ptr) : evolves h (set_reported h p).
Proof.
  intros q. destruct (set_reported_cases h p q) as [-> | [_ ->]];
    [now left | now right].
Qed.

Lemma evolves_reported (h h' : Heap) (p : ptr) :
  evolves h h' -> BlastAlignment.reported (h p) = true ->
  BlastAlignment.reported (h' p) = true.
Proof. intros E. apply raised_reported, E. Qed.

Lemma evolves_unreported (h h' : Heap) (p : ptr) :
  evolves h h' -> BlastAlignment.reported (h' p) = false ->
  BlastAlignment.reported (h p) = false.
Proof.
  intros E R. destruct (BlastAlignment.reported (h p)) eqn:R0; [| reflexivity].
  rewrite (evolves_reported h h' p E R0) in R. discriminate.
Qed.

Lemma set_reported_same (h : Heap) (p : ptr) :
  BlastAlignment.reported (set_reported h p p) = true.
Proof. unfold set_reported. now rewrite store_same. Qed.

Lemma set_reported_other (h : Heap) (p q : ptr) :
  q <> p -> set_reported h p q = h q.
Proof. intros N. unfold set_reported. now apply store_other. Qed.

Lemma advance_start_bounds (cond : ptr -> bool) (v : list ptr) (n : nat) :
  forall start,
    (start <= advance_start cond v n start <= start + n)%nat.
Proof.
  induction n as [| n IH]; intros start; simpl; [lia |].
  destruct (cond (elem v start)); [lia |].
  specialize (IH (S start)). lia.
Qed.

Lemma elem_In (v : list ptr) (i : nat) :
  (i < List.length v)%nat -> In (elem v i) v.
Proof. intros H. unfold elem. now apply nth_In. Qed.

Lemma assembly_marks_start (h0 : Heap) (v : list ptr) (ops : list Operon.t) :
  assembly_marks h0 v (mkAssembly h0 ops []).
Proof.
  constructor; simpl; [apply evolves_refl | reflexivity | constructor].
Qed.

Lemma try_pair_marks (strong : bool) (h0 : Heap) (v : list ptr)
  (alA alB : ptr) (st : Assembly) :
  In alA v -> In alB v ->
  assembly_marks h0 v st ->
  assembly_marks h0 v (after_pair strong alA alB st).
Proof.
  intros HA HB [He Ho Ha]. unfold after_pair. cbv zeta.
  remember (st_heap st) as h eqn:Hh.
  remember (if BlastAlignment.targetStrand (h alA) then alA else alB)
    as al1 eqn:H1.
  remember (if BlastAlignment.targetStrand (h alA) then alB else alA)
    as al2 eqn:H2.
  assert (I1 : In al1 v) by (subst al1; now destruct BlastAlignment.targetStrand).
  assert (I2 : In al2 v) by (subst al2; now destruct BlastAlignment.targetStrand).
  destruct (within_gap strong (h al1) (h al2));
    [| constructor; rewrite <- ?Hh; assumption].
  destruct (negb strong || identity_ok h (Operon.paired al1 al2));
    [| constructor; rewrite <- ?Hh; assumption].
  assert (E12 : evolves h (set_reported (set_reported h al1) al2)).
  { apply (evolves_trans _ (set_reported h al1));
      apply evolves_set_reported. }
  constructor; simpl.
  - exact (evolves_trans _ _ _ He E12).
  - intros p Hp. rewrite !set_reported_other; [now apply Ho | |];
      intros ->; contradiction.
  - apply Forall_app. split.
    + rewrite Forall_forall in Ha |- *. intros e Hin.
      destruct (Ha e Hin) as (p1 & p2 & Ep & J1 & J2 & R1 & R2 & E0 & E1).
      exists p1, p2. repeat split; try assumption.
      * now apply (evolves_reported h).
      * now apply (evolves_reported h).
      * exact (evolves_trans _ _ _ E1 E12).
    + constructor; [| constructor]. exists al1, al2. simpl.
      repeat split; try assumption.
      * apply (evolves_reported (set_reported h al1));
          [apply evolves_set_reported | apply set_reported_same].
      * apply set_reported_same.
Qed.

Lemma pair_scan_marks {logPtr : bool} {input_name : string}
  (sameType strong : bool) (h0 : Heap) (v : list ptr)
  (alB : ptr) (n : nat) :
  forall (j : nat) (st st' : Assembly),
    pair_scan logPtr input_name sameType strong v alB n j st = OK st' ->
    (j + n <= List.length v)%nat ->
    In alB v ->
    assembly_marks h0 v st ->
    assembly_marks h0 v st'.
Proof.
  induction n as [| n IH]; intros j st st' Hscan Hj HB Hm; simpl in Hscan.
  - now injection Hscan as <-.
  - destruct (BlastAlignment.reported (st_heap st (elem v j))).
    + apply (IH _ _ _ Hscan); [lia | exact HB | exact Hm].
    + do 4 (apply bind_OK in Hscan as [? [_ Hscan]]).
      destruct (Ascii.eqb (BlastAlignment.subunit (st_heap st (elem v j)))
                          (BlastAlignment.subunit (st_heap st alB))).
      * now injection Hscan as <-.
      * apply bind_OK in Hscan as [? [_ Hscan]]. pair_returns Hscan.
        apply (IH _ _ _ Hscan); [lia | exact HB |].
        apply try_pair_marks; [apply elem_In; lia | exact HB | exact Hm].
Qed.

Lemma pair_loop_marks {logPtr : bool} {input_name : string}
  (sameType strong : bool) (h0 : Heap) (v : list ptr)
  (n : nat) :
  forall (i start : nat) (st st' : Assembly),
    pair_loop logPtr input_name sameType strong v n i start st = OK st' ->
    (i + n = List.length v)%nat ->
    (start <= i)%nat ->
    assembly_marks h0 v st ->
    assembly_marks h0 v st'.
Proof.
  induction n as [| n IH]; intros i start st st' Hloop Hi Hs Hm;
    simpl in Hloop.
  - now injection Hloop as <-.
  - destruct (BlastAlignment.reported (st_heap st (elem v i)));
      [apply (IH _ _ _ _ Hloop); [lia | lia | exact Hm] |].
    destruct (negb (Ascii.eqb (BlastAlignment.subunit (st_heap st (elem v i)))
                              "B"));
      [apply (IH _ _ _ _ Hloop); [lia | lia | exact Hm] |].
    apply bind_OK in Hloop as [st1 [Hscan Hloop]].
    pose proof (advance_start_bounds
                  (same_locus sameType (st_heap st) (elem v i)) v
                  (i - start) start) as B.
    apply (IH _ _ _ _ Hloop); [lia | lia |].
    apply (pair_scan_marks _ _ _ _ _ _ _ _ _ Hscan);
      [lia | apply elem_In; lia | exact Hm].
Qed.

Lemma covered_by_some_false (h : Heap) (al : ptr) (ops : list Operon.t) :
  covered_by_some h al ops = OK false ->
  forall op, In op ops -> Operon.hasAl2 op = true /\ covered h al op = false.
Proof.
  induction ops as [| o ops IH]; simpl; intros H op Hin; [destruct Hin |].
  apply bind_OK in H as [? [Ho H]]. apply ASSERT_OK in Ho.
  destruct (covered h al o) eqn:C; [discriminate |].
  destruct Hin as [<- | Hin]; [split; assumption | now apply IH].
Qed.

Lemma covered_by_some_true (h : Heap) (al : ptr) (ops : list Operon.t) :
  covered_by_some h al ops = OK true ->
  exists op, In op ops /\ covered h al op = true.
Proof.
  induction ops as [| o ops IH]; simpl; intros H; [discriminate |].
  apply bind_OK in H as [? [_ H]].
  destruct (covered h al o) eqn:C.
  - exists o. split; [now left | exact C].
  - destruct (IH H) as [op [Hin Hc]]. exists op. split; [now right | exact Hc].
Qed.

Lemma covered_evolves (h h' : Heap) (al : ptr) (op : Operon.t) :
  evolves h h' -> covered h' al op = covered h al op.
Proof.
  intros E. unfold covered, Operon.first, Operon.second.
  destruct (E al) as [-> | ->], (E (Operon.al1 op)) as [-> | ->];
    destruct (Operon.al2 op) as [p2 |];
    try (destruct (E p2) as [-> | ->]); reflexivity.
Qed.

Lemma suppress_covered_post (ops : list Operon.t) (als : list ptr) :
  forall (h h' : Heap),
    suppress_covered h ops als = OK h' ->
    evolves h h'
    /\ (forall p, ~ In p als -> h' p = h p)
    /\ (forall al, In al als ->
                   BlastAlignment.reported (h' al) = false ->
                   forall op, In op ops ->
                              Operon.hasAl2 op = true
                              /\ covered h' al op = false)
    /\ (forall p, BlastAlignment.reported (h p) = false ->
                  BlastAlignment.reported (h' p) = true ->
                  exists op, In op ops /\ covered h' p op = true).
Proof.
  induction als as [| al als IH]; intros h h' H; simpl in H.
  - injection H as <-. split; [apply evolves_refl |].
    split; [reflexivity |]. split; [intros al [] |]. congruence.
  - destruct (BlastAlignment.reported (h al)) eqn:R.
    + destruct (IH _ _ H) as (E & U & C & M).
      split; [exact E |]. split; [intros p Hp; apply U; simpl in Hp; tauto |].
      split; [| exact M].
      intros x [<- | Hx] Rx; [| now apply C].
      rewrite (evolves_reported _ _ _ E R) in Rx. discriminate.
    + apply bind_OK in H as [c [Hc H]].
      destruct (IH _ _ H) as (E & U & C & M).
      assert (E1 : evolves h (if c then set_reported h al else h)).
      { destruct c; [apply evolves_set_reported | apply evolves_refl]. }
      pose proof (evolves_trans _ _ _ E1 E) as E2.
      split; [exact E2 |].
      split.
      { intros p Hp. simpl in Hp. rewrite U by tauto.
        destruct c; [apply set_reported_other; intros ->; tauto | reflexivity]. }
      split.
      { intros x [<- | Hx] Rx; [| now apply C].
        destruct c.
        - rewrite (evolves_reported _ _ _ E (set_reported_same h al)) in Rx.
          discriminate.
        - intros op Hop. rewrite (covered_evolves _ _ _ _ E2).
          now apply (covered_by_some_false _ _ _ Hc). }
      intros p R0 R1.
      destruct (BlastAlignment.reported ((if c then set_reported h al else h) p))
        eqn:Rm.
      * destruct c; [| congruence].
        destruct (Nat.eq_dec p al) as [-> | N];
          [| rewrite set_reported_other in Rm by exact N; congruence].
        destruct (covered_by_some_true _ _ _ Hc) as [op [Hop Hcov]].
        exists op. split; [exact Hop |].
        now rewrite (covered_evolves _ _ _ _ E2).
      * now apply M.
Qed.

Lemma goodBlasts2operons_marked {logPtr : bool} {input_name : string}
  (h : Heap) (v : list ptr)
  (operons : list Operon.t) (sameType strong : bool) (st : Assembly) :
  goodBlasts2operons logPtr input_name h v operons sameType strong = OK st ->
  assembly_marks h v st.
Proof.
  unfold goodBlasts2operons. intros H.
  apply bind_OK in H as [? [_ H]].
  apply bind_OK in H as [st1 [Hloop H]].
  apply bind_OK in H as [h' [Hsup H]]. injection H as <-.
  assert (Hm : assembly_marks h v st1).
  { apply (pair_loop_marks _ _ _ _ _ _ _ _ _ Hloop); [lia | lia |].
    apply assembly_marks_start. }
  destruct Hm as [He Ho Ha].
  destruct (suppress_covered_post _ _ _ _ Hsup) as (E & U & _).
  constructor; simpl.
  - exact (evolves_trans _ _ _ He E).
  - intros p Hp. rewrite U by exact Hp. now apply Ho.
  - rewrite Forall_forall in Ha |- *. intros e Hin.
    destruct (Ha e Hin) as (p1 & p2 & Ep & J1 & J2 & R1 & R2 & E0 & E1).
    exists p1, p2. repeat split; try assumption.
    + now apply (evolves_reported (st_heap st1)).
    + now apply (evolves_reported (st_heap st1)).
    + exact (evolves_trans _ _ _ E1 E).
Qed.

(** X10: a call of [goodBlasts2operons] changes nothing of any hit but that it
    raises [reported]; it touches no hit outside its vector; and both hits
    of every operon it accepts are hits of the vector and are reported at
    its end. *)
Theorem goodBlasts2operons_marks {logPtr : bool} {input_name : string}
  (h : Heap) (goodBlastAls : list ptr)
  (operons : list Operon.t) (sameType strong : bool) (st : Assembly) :
  goodBlasts2operons logPtr input_name h goodBlastAls operons sameType strong
  = OK st ->
  (forall p, st_heap st p = h p
             \/ st_heap st p = BlastAlignment.mark_reported (h p))
  /\ (forall p, ~ In p goodBlastAls -> st_heap st p = h p)
  /\ (forall e, In e (st_accepted st) ->
        exists p1 p2,
          acc_operon e = Operon.paired p1 p2
          /\ In p1 goodBlastAls /\ In p2 goodBlastAls
          /\ BlastAlignment.reported (st_heap st p1) = true
          /\ BlastAlignment.reported (st_heap st p2) = true).
Proof.
  intros H. destruct (goodBlasts2operons_marked _ _ _ _ _ _ H) as [He Ho Ha].
  split; [exact He |]. split; [exact Ho |].
  intros e Hin. rewrite Forall_forall in Ha.
  destruct (Ha e Hin) as (p1 & p2 & Ep & J1 & J2 & R1 & R2 & _).
  exists p1, p2. auto.
Qed.

Lemma goodBlasts2operons_marks_witness :
  match goodBlasts2operons false "" (stage_heap complete_lines)
          (stage_hits complete_lines) [] true true with
  | OK st =>
      forall p, ~ In p (stage_hits complete_lines) ->
                st_heap st p = stage_heap complete_lines p
  | Err _ => False
  end.
Proof.
  destruct (goodBlasts2operons false "" (stage_heap complete_lines)
              (stage_hits complete_lines) [] true true) as [st | e] eqn:E.
  - exact (proj1 (proj2 (goodBlasts2operons_marks _ _ _ _ _ _ E))).
  - vm_compute in E. discriminate.
Defined.

Lemma try_pair_explained (strong : bool) (h0 : Heap) (alA alB : ptr)
  (st : Assembly) :
  marks_explained h0 st -> marks_explained h0 (after_pair strong alA alB st).
Proof.
  intros Hm. unfold after_pair. cbv zeta.
  remember (st_heap st) as h eqn:Hh.
  remember (if BlastAlignment.targetStrand (h alA) then alA else alB)
    as al1 eqn:H1.
  remember (if BlastAlignment.targetStrand (h alA) then alB else alA)
    as al2 eqn:H2.
  destruct (within_gap strong (h al1) (h al2)); [| exact Hm].
  destruct (negb strong || identity_ok h (Operon.paired al1 al2));
    [| exact Hm].
  intros p R0 R1. simpl in *.
  destruct (Nat.eq_dec p al2) as [-> | N2].
  - eexists. split; [apply in_or_app; right; left; reflexivity |].
    simpl. now right.
  - rewrite set_reported_other in R1 by exact N2.
    destruct (Nat.eq_dec p al1) as [-> | N1].
    + eexists. split; [apply in_or_app; right; left; reflexivity |].
      simpl. now left.
    + rewrite set_reported_other in R1 by exact N1.
      rewrite Hh in R1. destruct (Hm p R0 R1) as [e [Hin He]].
      exists e. split; [apply in_or_app; now left | exact He].
Qed.

Lemma pair_scan_explained {logPtr : bool} {input_name : string}
  (sameType strong : bool) (h0 : Heap) (v : list ptr)
  (alB : ptr) (n : nat) :
  forall (j : nat) (st st' : Assembly),
    pair_scan logPtr input_name sameType strong v alB n j st = OK st' ->
    marks_explained h0 st -> marks_explained h0 st'.
Proof.
  induction n as [| n IH]; intros j st st' Hscan Hm; simpl in Hscan.
  - now injection Hscan as <-.
  - destruct (BlastAlignment.reported (st_heap st (elem v j))).
    + now apply (IH _ _ _ Hscan).
    + do 4 (apply bind_OK in Hscan as [? [_ Hscan]]).
      destruct (Ascii.eqb (BlastAlignment.subunit (st_heap st (elem v j)))
                          (BlastAlignment.subunit (st_heap st alB))).
      * now injection Hscan as <-.
      * apply bind_OK in Hscan as [? [_ Hscan]]. pair_returns Hscan.
        apply (IH _ _ _ Hscan). now apply try_pair_explained.
Qed.

Lemma pair_loop_explained {logPtr : bool} {input_name : string}
  (sameType strong : bool) (h0 : Heap) (v : list ptr)
  (n : nat) :
  forall (i start : nat) (st st' : Assembly),
    pair_loop logPtr input_name sameType strong v n i start st = OK st' ->
    marks_explained h0 st -> marks_explained h0 st'.
Proof.
  induction n as [| n IH]; intros i start st st' Hloop Hm; simpl in Hloop.
  - now injection Hloop as <-.
  - destruct (BlastAlignment.reported (st_heap st (elem v i)));
      [now apply (IH _ _ _ _ Hloop) |].
    destruct (negb (Ascii.eqb (BlastAlignment.subunit (st_heap st (elem v i)))
                              "B"));
      [now apply (IH _ _ _ _ Hloop) |].
    apply bind_OK in Hloop as [st1 [Hscan Hloop]].
    apply (IH _ _ _ _ Hloop).
    now apply (pair_scan_explained _ _ _ _ _ _ _ _ _ Hscan).
Qed.

Lemma goodBlasts2operons_suppressed {logPtr : bool} {input_name : string}
  (h : Heap) (goodBlastAls : list ptr)
  (operons : list Operon.t) (sameType strong : bool) (st : Assembly) :
  goodBlasts2operons logPtr input_name h goodBlastAls operons sameType strong
  = OK st ->
  (forall al op,
      In al goodBlastAls ->
      BlastAlignment.reported (st_heap st al) = false ->
      In op (st_operons st) ->
      Operon.hasAl2 op = true /\ covered (st_heap st) al op = false)
  /\ (forall p,
        BlastAlignment.reported (h p) = false ->
        BlastAlignment.reported (st_heap st p) = true ->
        (exists e, In e (st_accepted st)
                   /\ (Operon.al1 (acc_operon e) = p
                       \/ Operon.al2 (acc_operon e) = Some p))
        \/ exists op, In op (st_operons st)
                      /\ covered (st_heap st) p op = true).
Proof.
  unfold goodBlasts2operons. intros H.
  apply bind_OK in H as [? [_ H]].
  apply bind_OK in H as [st1 [Hloop H]].
  apply bind_OK in H as [h' [Hsup H]]. injection H as <-. simpl.
  destruct (suppress_covered_post _ _ _ _ Hsup) as (E & U & C & M).
  split; [intros al op Hal Ral Hop; now apply C |].
  intros p R0 R1.
  destruct (BlastAlignment.reported (st_heap st1 p)) eqn:R.
  - left. apply (pair_loop_explained _ _ h _ _ _ _ _ _ Hloop); auto.
    intros q Q0 Q1. simpl in Q1. congruence.
  - right. now apply M.
Qed.

Lemma goodBlasts2operons_pairs {logPtr : bool} {input_name : string}
  (h : Heap) (goodBlastAls : list ptr)
  (operons : list Operon.t) (sameType strong : bool) (st : Assembly) :
  goodBlasts2operons logPtr input_name h goodBlastAls operons sameType strong
  = OK st ->
  Forall (fun op => Operon.hasAl2 op = true) operons ->
  Forall (fun op => Operon.hasAl2 op = true) (st_operons st).
Proof.
  intros H F.
  destruct (goodBlasts2operons_inv _ _ _ _ _ _ H) as [Hok _ Hst].
  rewrite Hst. apply Forall_app. split; [exact F |].
  apply Forall_forall. intros op Hop.
  apply in_map_iff in Hop as [e [<- He]].
  destruct (in_split _ _ He) as (l1 & l2 & Hsplit).
  exact (proj1 (Hok l1 e l2 Hsplit)).
Qed.

(** X11: after a call of [goodBlasts2operons], for every hit of the vector
    that is still unreported, every operon of the list is a pair and does
    not cover the hit (same contig and strand, inside the operon widened by
    the slack); every hit whose flag the call has raised is a hit of an
    operon accepted in the call or is covered by an operon of the list;
    and when the operons given to the call are pairs, so are all the
    operons of the list. *)
Theorem goodBlasts2operons_suppresses {logPtr : bool} {input_name : string}
  (h : Heap) (goodBlastAls : list ptr)
  (operons : list Operon.t) (sameType strong : bool) (st : Assembly) :
  goodBlasts2operons logPtr input_name h goodBlastAls operons sameType strong
  = OK st ->
  (forall al op,
      In al goodBlastAls ->
      BlastAlignment.reported (st_heap st al) = false ->
      In op (st_operons st) ->
      Operon.hasAl2 op = true /\ covered (st_heap st) al op = false)
  /\ (forall p,
        BlastAlignment.reported (h p) = false ->
        BlastAlignment.reported (st_heap st p) = true ->
        (exists e, In e (st_accepted st)
                   /\ (Operon.al1 (acc_operon e) = p
                       \/ Operon.al2 (acc_operon e) = Some p))
        \/ exists op, In op (st_operons st)
                      /\ covered (st_heap st) p op = true)
  /\ (Forall (fun op => Operon.hasAl2 op = true) operons ->
      Forall (fun op => Operon.hasAl2 op = true) (st_operons st)).
Proof.
  intros H.
  destruct (goodBlasts2operons_suppressed h goodBlastAls operons sameType
              strong st H) as [C M].
  split; [exact C |]. split; [exact M |].
  exact (goodBlasts2operons_pairs _ _ _ _ _ _ H).
Qed.

(** After the first pass on the complete pair and the B hit of another
    contig, that hit is unreported and the operon of the pair does not
    cover it. *)
Lemma goodBlasts2operons_suppresses_witness :
  match goodBlasts2operons false "" (stage_heap mixed_lines)
          (stage_hits mixed_lines) [] true true with
  | OK st =>
      BlastAlignment.reported (st_heap st 2%nat) = false
      /\ st_operons st = [Operon.paired 0 1]
      /\ covered (st_heap st) 2%nat (Operon.paired 0 1) = false
  | Err _ => False
  end.
Proof.
  destruct (goodBlasts2operons false "" (stage_heap mixed_lines)
              (stage_hits mixed_lines) [] true true) as [st | e] eqn:E;
    [| vm_compute in E; discriminate].
  assert (R : BlastAlignment.reported (st_heap st 2%nat) = false).
  { pose proof (f_equal (fun r => match r with
                                  | OK s => BlastAlignment.reported
                                              (st_heap s 2%nat)
                                  | Err _ => true
                                  end) E) as R.
    vm_compute in R. symmetry. exact R. }
  assert (O : st_operons st = [Operon.paired 0 1]).
  { pose proof (f_equal (fun r => match r with
                                  | OK s => st_operons s
                                  | Err _ => []
                                  end) E) as O.
    vm_compute in O. symmetry. exact O. }
  split; [exact R |]. split; [exact O |].
  refine (proj2 (proj1 (goodBlasts2operons_suppresses _ _ _ _ _ _ E)
                   2%nat (Operon.paired 0 1) _ R _)).
  - vm_compute. right. right. now left.
  - rewrite O. now left.
Defined.

Lemma raised_fields (a b : BlastAlignment.t) :
  raised a b ->
  BlastAlignment.targetName b = BlastAlignment.targetName a
  /\ BlastAlignment.targetStrand b = BlastAlignment.targetStrand a
  /\ BlastAlignment.targetStart b = BlastAlignment.targetStart a
  /\ BlastAlignment.targetEnd b = BlastAlignment.targetEnd a
  /\ BlastAlignment.subunit b = BlastAlignment.subunit a
  /\ BlastAlignment.stxType b = BlastAlignment.stxType a
  /\ BlastAlignment.stxClass b = BlastAlignment.stxClass a
  /\ BlastAlignment.refAccession b = BlastAlignment.refAccession a.
Proof. intros [-> | ->]; repeat split. Qed.

(** X12: an operon accepted by the assembler whose two hits pass their own
    checks has its first hit ending no later than its second begins, and
    passes [Operon::qc] exactly when it ends strictly before: the only
    check of the operon that can fail is the one on abutting hits. *)
Theorem accepted_operon_qc {logPtr : bool} {input_name : string}
  (h : Heap) (goodBlastAls : list ptr)
  (operons : list Operon.t) (sameType strong : bool) (st : Assembly)
  (e : Acceptance) :
  goodBlasts2operons logPtr input_name h goodBlastAls operons sameType strong
  = OK st ->
  In e (st_accepted st) ->
  let op := acc_operon e in
  let h' := st_heap st in
  BlastAlignment.qc true (Operon.first h' op) = OK tt ->
  BlastAlignment.qc true (Operon.second h' op) = OK tt ->
  BlastAlignment.targetEnd (Operon.first h' op)
  <= BlastAlignment.targetStart (Operon.second h' op)
  /\ Operon.qc true h' op
     = if BlastAlignment.targetEnd (Operon.first h' op)
          <? BlastAlignment.targetStart (Operon.second h' op)
       then OK tt
       else Err (QC_ASSERT_failed "al1->targetEnd < al2->targetStart").
Proof.
  intros H Hin. cbv zeta. intros Q1 Q2.
  destruct (goodBlasts2operons_inv _ _ _ _ _ _ H) as [Hok _ _].
  destruct (goodBlasts2operons_marked _ _ _ _ _ _ H) as [_ _ Ha].
  rewrite Forall_forall in Ha.
  destruct (Ha e Hin) as (p1 & p2 & Ep & _ & _ & R1 & R2 & _ & Ev).
  destruct (in_split _ _ Hin) as (l1 & l2 & Hsplit).
  pose proof (Hok l1 e l2 Hsplit) as K. unfold accepted_ok in K.
  cbv zeta in K. rewrite Ep in *.
  unfold Operon.getA, Operon.getB, Operon.first, Operon.second,
    Operon.paired in *. simpl in *.
  destruct K as (_ & Kn & Ks & Kle & KA & KB & _).
  destruct (raised_fields _ _ (Ev p1)) as (N1 & S1 & T1 & E1 & U1 & _).
  destruct (raised_fields _ _ (Ev p2)) as (N2 & S2 & T2 & E2 & U2 & _).
  split; [rewrite E1, T2; exact Kle |].
  unfold Operon.qc, Operon.first, Operon.second. simpl.
  rewrite Q1, Q2, R1, R2. simpl.
  rewrite N1, N2, Kn, String.eqb_refl. simpl.
  rewrite S1, S2, Ks, Bool.eqb_reflx. simpl.
  destruct (BlastAlignment.targetEnd (st_heap st p1)
            <? BlastAlignment.targetStart (st_heap st p2)); simpl;
    [| reflexivity].
  rewrite U1, U2.
  destruct (BlastAlignment.targetStrand (acc_heap e p1));
    rewrite KA, KB; reflexivity.
Qed.

Lemma accepted_operon_qc_witness :
  exists st e,
    goodBlasts2operons false "" (stage_heap abutting_lines)
      (stage_hits abutting_lines) [] true true = OK st
    /\ In e (st_accepted st)
    /\ Operon.qc true (st_heap st) (acc_operon e)
       = Err (QC_ASSERT_failed "al1->targetEnd < al2->targetStart").
Proof.
  pose (F := fun r : result Assembly =>
               match r with
               | OK s =>
                   match st_accepted s with
                   | e :: _ =>
                       Some (BlastAlignment.qc true
                               (Operon.first (st_heap s) (acc_operon e)),
                             BlastAlignment.qc true
                               (Operon.second (st_heap s) (acc_operon e)),
                             BlastAlignment.targetEnd
                               (Operon.first (st_heap s) (acc_operon e))
                             <? BlastAlignment.targetStart
                                  (Operon.second (st_heap s) (acc_operon e)))
                   | [] => None
                   end
               | Err _ => None
               end).
  assert (L : F (goodBlasts2operons false "" (stage_heap abutting_lines)
                   (stage_hits abutting_lines) [] true true)
              = Some (OK tt, OK tt, false)) by (vm_compute; reflexivity).
  destruct (goodBlasts2operons false "" (stage_heap abutting_lines)
              (stage_hits abutting_lines) [] true true) as [st | err] eqn:E;
    [| discriminate L].
  unfold F in L.
  destruct (st_accepted st) as [| e l] eqn:Ea; [discriminate L |].
  injection L as Q1 Q2 Q3.
  assert (Hin : In e (st_accepted st)) by (rewrite Ea; now left).
  exists st, e. split; [reflexivity |]. split; [exact Hin |].
  destruct (accepted_operon_qc _ _ _ _ _ _ e E Hin Q1 Q2) as [_ P].
  rewrite P, Q3. reflexivity.
Defined.

(** ** The resolver *)

Lemma existsb_false {A : Type} (f : A -> bool) (l : list A) :
  existsb f l = false -> forall x, In x l -> f x = false.
Proof.
  induction l as [| y l IH]; simpl; intros H x Hin; [destruct Hin |].
  apply orb_false_elim in H as [Hy H].
  destruct Hin as [<- | Hin]; [exact Hy | now apply IH].
Qed.

Lemma resolve_kept (qc_on : bool) (input_name : string) (h : Heap)
  (operons : list Operon.t) :
  forall (acc good : list Operon.t),
    resolve qc_on input_name h operons acc = OK good ->
    exists kept,
      good = (acc ++ kept)%list
      /\ sublist kept operons
      /\ (forall op, In op operons ->
            Operon.qc qc_on h op = OK tt
            /\ exists row, Operon.saveTsvOut h input_name true op = OK row)
      /\ (forall op, In op operons ->
            In op good
            \/ exists g, In g good /\ inside_better h op g = true)
      /\ (forall before op after,
            kept = (before ++ op :: after)%list ->
            forall g, In g (acc ++ before) -> inside_better h op g = false).
Proof.
  induction operons as [| o operons IH]; intros acc good H; simpl in H.
  - injection H as <-. exists []. rewrite app_nil_r.
    split; [reflexivity |]. split; [constructor |].
    split; [intros op [] |]. split; [intros op [] |].
    intros [| b before] op after E; discriminate.
  - apply bind_OK in H as [row [Hrow H]].
    apply bind_OK in H as [[] [Hqc H]].
    change (fun goodOp : Operon.t =>
              String.eqb (BlastAlignment.targetName (Operon.first h o))
                         (BlastAlignment.targetName (Operon.first h goodOp))
              && Operon.insideEq h o goodOp
              && PrimFloat.leb (Operon.getIdentity h o)
                               (Operon.getIdentity h goodOp))
      with (inside_better h o) in H.
    destruct (existsb (inside_better h o) acc) eqn:F.
    + destruct (IH _ _ H) as (kept & -> & Hsub & Hchk & Hcov & Hanti).
      exists kept. split; [reflexivity |].
      split; [now apply sublist_skip |].
      split; [intros op [<- | Hin]; [split; [exact Hqc | eauto] | now apply Hchk]
             |].
      split; [| exact Hanti].
      intros op [<- | Hin]; [| now apply Hcov].
      apply existsb_exists in F as [g [Hg Hb]].
      right. exists g. split; [apply in_or_app; now left | exact Hb].
    + destruct (IH _ _ H) as (kept & -> & Hsub & Hchk & Hcov & Hanti).
      exists (o :: kept). split; [now rewrite <- app_assoc |].
      split; [now apply sublist_keep |].
      split; [intros op [<- | Hin]; [split; [exact Hqc | eauto] | now apply Hchk]
             |].
      split.
      * intros op [<- | Hin]; [| now apply Hcov].
        left. apply in_or_app. left. apply in_or_app. right. now left.
      * intros [| b before] op after E; simpl in E; injection E as <- E.
        -- rewrite app_nil_r. intros g Hg.
           now apply (existsb_false _ _ F).
        -- intros g Hg. apply (Hanti before op after E).
           rewrite <- app_assoc. exact Hg.
Qed.

(** X13: when the resolver succeeds, the operons it keeps are a subsequence
    of the operons it was given; every operon given passed [Operon::qc]
    and could be rendered for the log; every operon given is kept, or
    lies on the contig of a kept operon, inside it widened by the slack,
    being not more identical; no kept operon stands in that relation to
    an operon kept before it; and the first operon given is always kept. *)
Theorem resolve_post (qc_on : bool) (input_name : string) (h : Heap)
  (operons goodOperons : list Operon.t) :
  resolve qc_on input_name h operons [] = OK goodOperons ->
  sublist goodOperons operons
  /\ (forall op, In op operons ->
        Operon.qc qc_on h op = OK tt
        /\ exists row, Operon.saveTsvOut h input_name true op = OK row)
  /\ (forall op, In op operons ->
        In op goodOperons
        \/ exists g, In g goodOperons /\ inside_better h op g = true)
  /\ (forall before op after,
        goodOperons = (before ++ op :: after)%list ->
        forall g, In g before -> inside_better h op g = false)
  /\ (forall op rest, operons = op :: rest ->
                      exists rest', goodOperons = op :: rest').
Proof.
  intros H. destruct (resolve_kept _ _ _ _ _ _ H)
    as (kept & -> & Hsub & Hchk & Hcov & Hanti).
  simpl in *.
  split; [exact Hsub |]. split; [exact Hchk |]. split; [exact Hcov |].
  split; [exact Hanti |].
  intros op rest ->. simpl in H.
  apply bind_OK in H as [row [_ H]]. apply bind_OK in H as [[] [_ H]].
  simpl in H.
  destruct (resolve_kept _ _ _ _ _ _ H) as (kept' & E & _).
  exists kept'. exact E.
Qed.

(** ** The hits that are reported alone *)

Lemma single_covers_evolves (h h' : Heap) (al1 al2 : ptr) :
  evolves h h' -> single_covers h' al1 al2 = single_covers h al1 al2.
Proof.
  intros E. unfold single_covers.
  destruct (E al1) as [-> | ->], (E al2) as [-> | ->]; reflexivity.
Qed.

Lemma mark_covered_post (al1 : ptr) (later : list ptr) :
  forall (h : Heap),
    evolves h (mark_covered h al1 later)
    /\ (forall p, ~ In p later -> mark_covered h al1 later p = h p)
    /\ (forall p,
          BlastAlignment.reported (h p) = false ->
          BlastAlignment.reported (mark_covered h al1 later p) = true ->
          In p later /\ single_covers h al1 p = true).
Proof.
  induction later as [| al2 rest IH]; intros h; simpl.
  - split; [apply evolves_refl |]. split; [reflexivity |]. congruence.
  - destruct (String.eqb (BlastAlignment.targetName (h al2))
                         (BlastAlignment.targetName (h al1))
              && Bool.eqb (BlastAlignment.targetStrand (h al2))
                          (BlastAlignment.targetStrand (h al1))) eqn:G; simpl.
    + remember (if negb (BlastAlignment.reported (h al2))
                   && BlastAlignment.insideEq (h al2) (h al1)
                   && (match at_ (BlastAlignment.stxType (h al2)) 0,
                             at_ (BlastAlignment.stxType (h al1)) 0 with
                       | Some c2, Some c1 => Ascii.eqb c2 c1
                       | _, _ => false
                       end
                       || (BlastAlignment.getDiff (h al1)
                           <=? BlastAlignment.getDiff (h al2)))
                then set_reported h al2 else h) as h1 eqn:Hh1.
      destruct (IH h1) as (E & U & M).
      assert (E1 : evolves h h1).
      { subst h1. destruct (_ && _ && _);
          [apply evolves_set_reported | apply evolves_refl]. }
      split; [exact (evolves_trans _ _ _ E1 E) |].
      split.
      { intros p Hp. rewrite U by tauto. subst h1.
        destruct (_ && _ && _); [| reflexivity].
        apply set_reported_other. intros ->. tauto. }
      intros p R0 R1.
      destruct (BlastAlignment.reported (h1 p)) eqn:Rm.
      * subst h1.
        destruct (negb (BlastAlignment.reported (h al2))
                  && BlastAlignment.insideEq (h al2) (h al1)
                  && _) eqn:C; [| congruence].
        destruct (Nat.eq_dec p al2) as [-> | N];
          [| rewrite set_reported_other in Rm by exact N; congruence].
        split; [now left |].
        unfold single_covers. rewrite G. simpl.
        apply andb_prop in C as [C C3]. apply andb_prop in C as [_ C2].
        now rewrite C2, C3.
      * destruct (M p Rm R1) as [Hin Hc].
        split; [now right |].
        now rewrite <- (single_covers_evolves h h1 al1 p E1).
    + split; [apply evolves_refl |]. split; [reflexivity |]. congruence.
Qed.

Lemma single_hits_kept (als : list ptr) :
  forall (h h' : Heap) (ops ops' : list Operon.t),
    single_hits h als ops = (h', ops') ->
    exists singles,
      ops' = (ops ++ map Operon.single singles)%list
      /\ sublist singles als
      /\ Forall (fun p => BlastAlignment.reported (h p) = false) singles
      /\ evolves h h'
      /\ (forall p, ~ In p als -> h' p = h p)
      /\ (forall p, In p als ->
                    BlastAlignment.reported (h' p) = true \/ In p singles)
      /\ (forall p,
            BlastAlignment.reported (h p) = false ->
            BlastAlignment.reported (h' p) = true ->
            exists s, In s singles /\ single_covers h s p = true).
Proof.
  induction als as [| al1 rest IH]; intros h h' ops ops' H; simpl in H.
  - injection H as <- <-. exists []. simpl. rewrite app_nil_r.
    split; [reflexivity |]. split; [constructor |]. split; [constructor |].
    split; [apply evolves_refl |]. split; [reflexivity |].
    split; [intros p [] | congruence].
  - destruct (BlastAlignment.reported (h al1)) eqn:R.
    + destruct (IH _ _ _ _ H) as (singles & -> & Hsub & Hun & E & U & A & M).
      exists singles. split; [reflexivity |].
      split; [now apply sublist_skip |]. split; [exact Hun |].
      split; [exact E |].
      split; [intros p Hp; apply U; simpl in Hp; tauto |].
      split; [| exact M].
      intros p [<- | Hp]; [left; now apply (evolves_reported h) | now apply A].
    + destruct (mark_covered_post al1 rest h) as (E1 & U1 & M1).
      destruct (IH _ _ _ _ H) as (singles & -> & Hsub & Hun & E & U & A & M).
      exists (al1 :: singles). split; [now rewrite <- app_assoc |].
      split; [now apply sublist_keep |].
      split.
      { constructor; [exact R |]. rewrite Forall_forall in Hun |- *.
        intros p Hp. apply (evolves_unreported _ _ _ E1). now apply Hun. }
      split; [exact (evolves_trans _ _ _ E1 E) |].
      split.
      { intros p Hp. simpl in Hp. rewrite U by tauto. apply U1. tauto. }
      split.
      { intros p [<- | Hp]; [right; now left |].
        destruct (A p Hp) as [Hr | Hs]; [now left | right; now right]. }
      intros p R0 R1.
      destruct (BlastAlignment.reported (mark_covered h al1 rest p)) eqn:Rm.
      * destruct (M1 p R0 Rm) as [_ Hc]. exists al1. split; [now left | exact Hc].
      * destruct (M p Rm R1) as [s [Hs Hc]]. exists s.
        split; [now right |].
        now rewrite <- (single_covers_evolves h _ s p E1).
Qed.

(** X14: the last pass appends single-hit operons, in the order of the vector,
    for hits that were unreported when the pass began; afterwards every
    hit of the vector is reported or has its single operon; a hit whose
    flag the pass has raised lies on the contig and strand of a hit with a
    single operon, inside it, being of the same class letter or not closer
    to its reference; and the pass changes nothing else of any hit. *)
Theorem single_hits_accounts (h h' : Heap) (goodBlastAls : list ptr)
  (goodOperons goodOperons' : list Operon.t) :
  single_hits h goodBlastAls goodOperons = (h', goodOperons') ->
  exists singles,
    goodOperons' = (goodOperons ++ map Operon.single singles)%list
    /\ sublist singles goodBlastAls
    /\ Forall (fun p => BlastAlignment.reported (h p) = false) singles
    /\ (forall p, In p goodBlastAls ->
                  BlastAlignment.reported (h' p) = true \/ In p singles)
    /\ (forall p,
          BlastAlignment.reported (h p) = false ->
          BlastAlignment.reported (h' p) = true ->
          exists s, In s singles /\ single_covers h s p = true)
    /\ (forall p, h' p = h p \/ h' p = BlastAlignment.mark_reported (h p)).
Proof.
  intros H.
  destruct (single_hits_kept _ _ _ _ _ H)
    as (singles & E & Hsub & Hun & Ev & _ & A & M).
  exists singles. repeat split; assumption.
Qed.

(** ** Runs of the whole program *)

Lemma final_operons_stages {logPtr : bool} (qc_on : bool) (input_name : string)
  (lines : list Line) (h4 : Heap) (ops : list Operon.t) :
  final_operons logPtr qc_on input_name lines = OK (h4, ops) ->
  stages logPtr qc_on input_name lines h4 ops.
Proof.
  unfold final_operons, hit_stage. intros H.
  apply bind_OK in H as [[h1 good] [Hstage H]].
  apply bind_OK in Hstage as [als [Hread Hstage]].
  apply bind_OK in Hstage as [[h1' blastAls] [Hmerge Hstage]].
  apply bind_OK in Hstage as [good' [Hfilter Hstage]].
  injection Hstage as <- <-.
  apply bind_OK in H as [st1 [H1 H]].
  apply bind_OK in H as [st2 [H2 H]].
  apply bind_OK in H as [st3 [H3 H]].
  apply bind_OK in H as [goodOperons [Hres H]].
  destruct (single_hits _ _ _) as [h4' goodOperons'] eqn:Hs.
  injection H as <- <-.
  exact (mk_stages _ _ _ _ _ _ als h1' blastAls good' st1 st2 st3 goodOperons
           goodOperons' Hread Hmerge Hfilter H1 H2 H3 Hres Hs eq_refl).
Qed.

Lemma of_line_flags (line : Line) (al : BlastAlignment.t) :
  BlastAlignment.of_line line = OK al ->
  BlastAlignment.reported al = false /\ BlastAlignment.frameshift al = false.
Proof. intros H. of_line_inv H. split; reflexivity. Qed.

Lemma read_hits_checked (qc_on : bool) (lines : list Line) :
  forall als,
    read_hits qc_on lines = OK als ->
    Forall2 (fun line al =>
               BlastAlignment.of_line line = OK al
               /\ BlastAlignment.qc qc_on al = OK tt) lines als.
Proof.
  induction lines as [| line lines IH]; intros als H; simpl in H.
  - injection H as <-. constructor.
  - apply bind_OK in H as [al [Hal H]].
    apply bind_OK in H as [[] [Hqc H]].
    apply bind_OK in H as [als' [Hals H]]. injection H as <-.
    constructor; [split; assumption | now apply IH].
Qed.

Lemma operon_reported_evolves (h h' : Heap) (op : Operon.t) :
  evolves h h' -> operon_reported h op -> operon_reported h' op.
Proof.
  intros E (p1 & p2 & -> & R1 & R2). exists p1, p2.
  split; [reflexivity |]. split; now apply (evolves_reported h).
Qed.

Lemma goodBlasts2operons_reported {logPtr : bool} {input_name : string}
  (h : Heap) (v : list ptr)
  (operons : list Operon.t) (sameType strong : bool) (st : Assembly) :
  goodBlasts2operons logPtr input_name h v operons sameType strong = OK st ->
  Forall (operon_reported h) operons ->
  evolves h (st_heap st)
  /\ Forall (operon_reported (st_heap st)) (st_operons st).
Proof.
  intros H F.
  destruct (goodBlasts2operons_marked _ _ _ _ _ _ H) as [He _ Ha].
  destruct (goodBlasts2operons_inv _ _ _ _ _ _ H) as [_ _ Hops].
  split; [exact He |]. rewrite Hops. apply Forall_app. split.
  - rewrite Forall_forall in F |- *. intros op Hop.
    apply (operon_reported_evolves h _ _ He). now apply F.
  - rewrite Forall_forall in Ha |- *. intros op Hop.
    apply in_map_iff in Hop as [e [<- He']].
    destruct (Ha e He') as (p1 & p2 & Ep & _ & _ & R1 & R2 & _).
    exists p1, p2. auto.
Qed.

(** What the stages of a run leave: the operons of the three passes are
    paired and their hits reported; the hits that are reported alone were
    not reported when the last pass began. *)
Lemma stages_operons {logPtr : bool}
  (qc_on : bool) (input_name : string) (lines : list Line)
  (h4 : Heap) (ops : list Operon.t) :
  stages logPtr qc_on input_name lines h4 ops ->
  exists (h3 : Heap) (goodOperons : list Operon.t) (singles : list ptr),
    Permutation ops (goodOperons ++ map Operon.single singles)
    /\ Forall (operon_reported h3) goodOperons
    /\ Forall (fun p => BlastAlignment.reported (h3 p) = false) singles
    /\ evolves h3 h4.
Proof.
  intros [als h1 blastAls good st1 st2 st3 goodOperons goodOperons'
            Hread Hmerge Hfilter H1 H2 H3 Hres Hs ->].
  destruct (goodBlasts2operons_reported _ _ _ _ _ _ H1 (Forall_nil _))
    as [E1 F1].
  destruct (goodBlasts2operons_reported _ _ _ _ _ _ H2 F1) as [E2 F2].
  destruct (goodBlasts2operons_reported _ _ _ _ _ _ H3 F2) as [E3 F3].
  destruct (resolve_kept _ _ _ _ _ _ Hres) as (kept & Ek & Hsub & _).
  simpl in Ek. subst kept.
  destruct (single_hits_kept _ _ _ _ _ Hs)
    as (singles & -> & _ & Hun & E4 & _).
  exists (st_heap st3), goodOperons, singles.
  split; [apply sort_permutation |].
  split; [| split; assumption].
  rewrite Forall_forall in F3 |- *. intros op Hop. apply F3.
  apply (Permutation_in op (sort_permutation (Operon.lt (st_heap st3)) _)).
  now apply (sublist_In _ _ op Hsub).
Qed.

(** X15: in the final list of operons the hit of a single-hit operon is not a
    hit of any paired operon. *)
Theorem no_hit_reported_twice {logPtr : bool}
  (qc_on : bool) (input_name : string)
  (lines : list Line) (h : Heap) (ops : list Operon.t)
  (op1 op2 : Operon.t) :
  final_operons logPtr qc_on input_name lines = OK (h, ops) ->
  In op1 ops -> In op2 ops ->
  Operon.al2 op1 = None ->
  Operon.hasAl2 op2 = true ->
  Operon.al1 op1 <> Operon.al1 op2
  /\ Some (Operon.al1 op1) <> Operon.al2 op2.
Proof.
  intros H I1 I2 N1 P2.
  destruct (stages_operons _ _ _ _ _ (final_operons_stages _ _ _ _ _ H))
    as (h3 & goodOperons & singles & Hperm & Frep & Fun & _).
  rewrite Forall_forall in Frep, Fun.
  apply (Permutation_in _ Hperm) in I1, I2.
  apply in_app_or in I1 as [I1 | I1].
  { destruct (Frep op1 I1) as (p1 & p2 & -> & _). discriminate. }
  apply in_app_or in I2 as [I2 | I2].
  2:{ apply in_map_iff in I2 as [p [<- _]]. discriminate. }
  apply in_map_iff in I1 as [p [<- Hp]].
  destruct (Frep op2 I2) as (p1 & p2 & -> & R1 & R2).
  pose proof (Fun p Hp) as Rp. simpl.
  split; [intros -> | intros E; injection E as ->]; congruence.
Qed.

Lemma inside_better_evolves (h h' : Heap) (op g : Operon.t) :
  evolves h h' -> inside_better h' op g = inside_better h op g.
Proof.
  intros E.
  unfold inside_better, Operon.insideEq, Operon.getIdentity, Operon.first,
    Operon.second.
  destruct (E (Operon.al1 op)) as [-> | ->],
           (E (Operon.al1 g)) as [-> | ->];
    destruct (Operon.al2 op) as [p2 |], (Operon.al2 g) as [q2 |];
    try (destruct (E p2) as [-> | ->]);
    try (destruct (E q2) as [-> | ->]); reflexivity.
Qed.

Lemma goodBlasts2operons_appends {logPtr : bool} {input_name : string}
  (h : Heap) (v : list ptr)
  (operons : list Operon.t) (sameType strong : bool) (st : Assembly) :
  goodBlasts2operons logPtr input_name h v operons sameType strong = OK st ->
  forall op, In op operons -> In op (st_operons st).
Proof.
  intros H op Hop.
  destruct (goodBlasts2operons_inv _ _ _ _ _ _ H) as [_ _ Hops].
  rewrite Hops. apply in_or_app. now left.
Qed.

(** A hit whose flag a call of [goodBlasts2operons] has raised is a hit of
    an operon of the vector, or lies in the widened range of one. *)
Lemma goodBlasts2operons_explains {logPtr : bool} {input_name : string}
  (h : Heap) (v : list ptr)
  (operons : list Operon.t) (sameType strong : bool) (st : Assembly)
  (p : ptr) :
  goodBlasts2operons logPtr input_name h v operons sameType strong = OK st ->
  BlastAlignment.reported (h p) = false ->
  BlastAlignment.reported (st_heap st p) = true ->
  exists op, In op (st_operons st)
             /\ (Operon.al1 op = p \/ Operon.al2 op = Some p
                 \/ covered (st_heap st) p op = true).
Proof.
  intros H R0 R1.
  destruct (proj2 (goodBlasts2operons_suppressed _ _ _ _ _ _ H) p R0 R1)
    as [[e [He Hp]] | [op [Hop Hc]]].
  - exists (acc_operon e).
    destruct (goodBlasts2operons_inv _ _ _ _ _ _ H) as [_ _ Hops].
    split; [| tauto].
    rewrite Hops. apply in_or_app. right. now apply in_map.
  - exists op. auto.
Qed.

(** X16: every hit that passes the filter is accounted for in the final list:
    it has its own single-hit operon, or it is a hit of, or covered by, a
    paired operon that is reported or lies inside a reported operon that
    is not less identical, or a hit with a single-hit operon covers it. *)
Theorem good_hits_accounted {logPtr : bool} (qc_on : bool) (input_name : string)
  (lines : list Line) (h1 h : Heap) (goodBlastAls : list ptr)
  (ops : list Operon.t) :
  hit_stage qc_on lines = OK (h1, goodBlastAls) ->
  final_operons logPtr qc_on input_name lines = OK (h, ops) ->
  exists operons,
    (forall op, In op operons ->
       Operon.hasAl2 op = true
       /\ (In op ops
           \/ exists g, In g ops /\ inside_better h op g = true))
    /\ (forall p, In p goodBlastAls ->
          In (Operon.single p) ops
          \/ (exists op, In op operons
                         /\ (Operon.al1 op = p \/ Operon.al2 op = Some p
                             \/ covered h p op = true))
          \/ (exists s, In (Operon.single s) ops
                        /\ single_covers h s p = true)).
Proof.
  intros Hstage H.
  destruct (final_operons_stages _ _ _ _ _ H)
    as [als h1' blastAls good st1 st2 st3 goodOperons goodOperons'
          Hread Hmerge Hfilter H1 H2 H3 Hres Hs ->].
  assert (Eg : h1' = h1 /\ good = goodBlastAls).
  { unfold hit_stage in Hstage. rewrite Hread in Hstage. simpl in Hstage.
    rewrite Hmerge in Hstage. simpl in Hstage.
    rewrite Hfilter in Hstage. simpl in Hstage.
    injection Hstage as <- <-. auto. }
  destruct Eg as [-> ->].
  destruct (goodBlasts2operons_reported _ _ _ _ _ _ H1 (Forall_nil _))
    as [E1 F1].
  destruct (goodBlasts2operons_reported _ _ _ _ _ _ H2 F1) as [E2 F2].
  destruct (goodBlasts2operons_reported _ _ _ _ _ _ H3 F2) as [E3 F3].
  destruct (resolve_kept _ _ _ _ _ _ Hres) as (kept & Ek & _ & _ & Hcov & _).
  simpl in Ek. subst kept.
  destruct (single_hits_kept _ _ _ _ _ Hs)
    as (singles & -> & _ & Hun & E4 & _ & A & M).
  pose proof (sort_permutation (Operon.reportLess h)
                (goodOperons ++ map Operon.single singles)) as Pops.
  assert (Iops : forall op, In op (goodOperons ++ map Operon.single singles)
                            -> In op (sort (Operon.reportLess h)
                                        (goodOperons
                                         ++ map Operon.single singles))).
  { intros op Hop. exact (Permutation_in op (Permutation_sym Pops) Hop). }
  exists (st_operons st3). split.
  - intros op Hop. rewrite Forall_forall in F3.
    split; [destruct (F3 op Hop) as (p1 & p2 & -> & _); reflexivity |].
    assert (Hs3 : In op (sort (Operon.lt (st_heap st3)) (st_operons st3))).
    { exact (Permutation_in op
               (Permutation_sym (sort_permutation _ (st_operons st3))) Hop). }
    destruct (Hcov op Hs3) as [Hk | [g [Hg Hb]]].
    + left. apply Iops. apply in_or_app. now left.
    + right. exists g. split; [apply Iops; apply in_or_app; now left |].
      now rewrite (inside_better_evolves _ _ _ _ E4).
  - intros p Hp.
    assert (R0 : BlastAlignment.reported (h1 p) = false).
    { rewrite good_hits_survivors in Hfilter.
      destruct (survivors_sound _ _ _ _ Hfilter) as [_ Fu].
      rewrite Forall_forall in Fu. now apply Fu. }
    assert (Hp' : In p (sort (fun a b => BlastAlignment.reportLess
                                           (st_heap st3 a) (st_heap st3 b))
                          (sort (fun a b => BlastAlignment.less
                                              (st_heap st1 a) (st_heap st1 b))
                             goodBlastAls))).
    { apply (Permutation_in p (Permutation_sym (sort_permutation _ _))).
      exact (Permutation_in p (Permutation_sym (sort_permutation _ _)) Hp). }
    destruct (A p Hp') as [R4 | Hsingle].
    2:{ left. apply Iops. apply in_or_app. right. now apply in_map. }
    right.
    destruct (BlastAlignment.reported (st_heap st3 p)) eqn:R3.
    + left.
      assert (K : exists op, In op (st_operons st3)
                  /\ (Operon.al1 op = p \/ Operon.al2 op = Some p
                      \/ covered (st_heap st3) p op = true)).
      { destruct (BlastAlignment.reported (st_heap st2 p)) eqn:R2.
        - assert (K2 : exists op, In op (st_operons st2)
                       /\ (Operon.al1 op = p \/ Operon.al2 op = Some p
                           \/ covered (st_heap st2) p op = true)).
          { destruct (BlastAlignment.reported (st_heap st1 p)) eqn:R1.
            - destruct (goodBlasts2operons_explains _ _ _ _ _ _ p H1 R0 R1)
                as (op & Hop & Hc).
              exists op.
              split; [exact (goodBlasts2operons_appends _ _ _ _ _ _ H2 op Hop) |].
              now rewrite (covered_evolves _ _ _ _ E2).
            - exact (goodBlasts2operons_explains _ _ _ _ _ _ p H2 R1 R2). }
          destruct K2 as (op & Hop & Hc). exists op.
          split; [exact (goodBlasts2operons_appends _ _ _ _ _ _ H3 op Hop) |].
          now rewrite (covered_evolves _ _ _ _ E3).
        - exact (goodBlasts2operons_explains _ _ _ _ _ _ p H3 R2 R3). }
      destruct K as (op & Hop & Hc). exists op. split; [exact Hop |].
      now rewrite (covered_evolves _ _ _ _ E4).
    + right. destruct (M p R3 R4) as (s & Hs' & Hc). exists s.
      split; [apply Iops; apply in_or_app; right; now apply in_map |].
      now rewrite (single_covers_evolves _ _ _ _ E4).
Qed.

(** ** The width of the rows *)

Lemma hit_row_width (input_name : string) (verboseP : bool)
  (al : BlastAlignment.t) :
  BlastAlignment.subunit al = "A"%char \/ BlastAlignment.subunit al = "B"%char ->
  List.length (BlastAlignment.saveTsvOut input_name verboseP al)
  = List.length (header input_name).
Proof.
  intros S. unfold BlastAlignment.saveTsvOut, header.
  rewrite !length_app.
  destruct S as [-> | ->]; destruct (String.eqb input_name ""); reflexivity.
Qed.

Lemma operon_row_width (h : Heap) (input_name : string) (verboseP : bool)
  (op : Operon.t) (row : Row) :
  Operon.saveTsvOut h input_name verboseP op = OK row ->
  Operon.hasAl2 op = true
  \/ BlastAlignment.subunit (Operon.first h op) = "A"%char
  \/ BlastAlignment.subunit (Operon.first h op) = "B"%char ->
  List.length row = List.length (header input_name).
Proof.
  unfold Operon.saveTsvOut, Operon.hasAl2. intros H S.
  destruct (Operon.al2 op) as [p2 |].
  - apply bind_OK in H as [stxType [_ H]]. injection H as <-.
    unfold header. rewrite !length_app.
    destruct (String.eqb input_name ""); reflexivity.
  - injection H as <-. apply hit_row_width.
    destruct S as [S | S]; [discriminate | exact S].
Qed.

Lemma report_rows (input_name : string) (h : Heap) (ops : list Operon.t) :
  forall rows,
    report input_name h ops = OK rows ->
    Forall2 (fun op row => Operon.saveTsvOut h input_name false op = OK row)
            ops rows.
Proof.
  induction ops as [| op ops IH]; intros rows H; simpl in H.
  - injection H as <-. constructor.
  - apply bind_OK in H as [row [Hrow H]].
    apply bind_OK in H as [rows' [Hrows H]]. injection H as <-.
    constructor; [exact Hrow | now apply IH].
Qed.

Lemma qc_subunit (al : BlastAlignment.t) :
  BlastAlignment.qc true al = OK tt ->
  BlastAlignment.subunit al = "A"%char \/ BlastAlignment.subunit al = "B"%char.
Proof. intros H. apply qc_OK_iff in H. tauto. Qed.

Lemma Forall2_nth {A B : Type} (P : A -> B -> Prop) (l1 : list A)
  (l2 : list B) (d : B) :
  Forall2 P l1 l2 ->
  forall n, (n < List.length l2)%nat -> exists a, In a l1 /\ P a (nth n l2 d).
Proof.
  induction 1 as [| a b l1 l2 Hab _ IH]; intros n Hn; simpl in Hn; [lia |].
  destruct n as [| n]; simpl.
  - exists a. split; [now left | exact Hab].
  - destruct (IH n) as [a' [Ha' Hp]]; [lia |]. exists a'. split; [now right | exact Hp].
Qed.

(** The hits that a checked run reports alone have subunit A or B. *)
Lemma stages_single_subunit {logPtr : bool}
  (input_name : string) (lines : list Line)
  (h4 : Heap) (ops : list Operon.t) (op : Operon.t) :
  stages logPtr true input_name lines h4 ops ->
  In op ops ->
  Operon.hasAl2 op = true
  \/ BlastAlignment.subunit (Operon.first h4 op) = "A"%char
  \/ BlastAlignment.subunit (Operon.first h4 op) = "B"%char.
Proof.
  intros [als h1 blastAls good st1 st2 st3 goodOperons goodOperons'
            Hread Hmerge Hfilter H1 H2 H3 Hres Hs ->] Hop.
  destruct (goodBlasts2operons_reported _ _ _ _ _ _ H1 (Forall_nil _))
    as [E1 F1].
  destruct (goodBlasts2operons_reported _ _ _ _ _ _ H2 F1) as [E2 F2].
  destruct (goodBlasts2operons_reported _ _ _ _ _ _ H3 F2) as [E3 F3].
  destruct (resolve_kept _ _ _ _ _ _ Hres) as (kept & Ek & Hsub & _).
  simpl in Ek. subst kept.
  destruct (single_hits_kept _ _ _ _ _ Hs)
    as (singles & -> & Hss & _ & E4 & _).
  apply (Permutation_in op (sort_permutation _ _)) in Hop.
  apply in_app_or in Hop as [Hop | Hop].
  - left. rewrite Forall_forall in F3.
    assert (Hin : In op (st_operons st3)).
    { apply (Permutation_in op (sort_permutation (Operon.lt (st_heap st3)) _)).
      now apply (sublist_In _ _ op Hsub). }
    destruct (F3 op Hin) as (p1 & p2 & -> & _). reflexivity.
  - right. apply in_map_iff in Hop as [p [<- Hp]].
    unfold Operon.first. simpl.
    (* [p] is one of the hits that were read *)
    apply (sublist_In _ _ p Hss) in Hp.
    apply (Permutation_in p (sort_permutation _ _)) in Hp.
    apply (Permutation_in p (sort_permutation _ _)) in Hp.
    rewrite good_hits_survivors in Hfilter.
    destruct (survivors_sound _ _ _ _ Hfilter) as [Hgs _].
    apply (sublist_In _ _ p Hgs) in Hp.
    apply (Permutation_in p (sort_permutation _ _)) in Hp.
    destruct (find_frameshifts_kept _ _ _ _ _ Hmerge) as (Pm & _ & Mm & _).
    apply (Permutation_in p Pm) in Hp.
    unfold pointers in Hp. apply in_seq in Hp.
    (* its subunit has not changed since *)
    destruct (raised_fields _ _ (E4 p)) as (_ & _ & _ & _ & U4 & _).
    destruct (raised_fields _ _ (E3 p)) as (_ & _ & _ & _ & U3 & _).
    destruct (raised_fields _ _ (E2 p)) as (_ & _ & _ & _ & U2 & _).
    destruct (raised_fields _ _ (E1 p)) as (_ & _ & _ & _ & U1 & _).
    rewrite U4, U3, U2, U1, (m_subunit _ _ (Mm p)).
    unfold heap_of.
    pose proof (read_hits_checked _ _ _ Hread) as Fc.
    destruct (Forall2_nth _ _ _ no_hit Fc p) as [line [_ [_ Hqc]]]; [lia |].
    now apply qc_subunit.
Qed.

Lemma Forall2_Forall_r {A B : Type} (P : A -> B -> Prop) (Q : B -> Prop)
  (l1 : list A) (l2 : list B) :
  Forall2 P l1 l2 ->
  (forall a b, In a l1 -> P a b -> Q b) ->
  Forall Q l2.
Proof.
  induction 1 as [| a b l1 l2 Hab _ IH]; intros H; constructor.
  - apply (H a b); [now left | exact Hab].
  - apply IH. intros a' b' Ha'. apply H. now right.
Qed.

(** X17: with the checks on, every row of a report has as many columns as the
    header written in front of it, with or without the column of the
    name. *)
Theorem rows_match_header {logPtr : bool}
  (input_name : string) (lines : list Line)
  (rows : list Row) :
  shellBody logPtr true input_name lines = OK rows ->
  Forall (fun row => List.length row = List.length (header input_name)) rows.
Proof.
  unfold shellBody. intros H.
  apply bind_OK in H as [[h ops] [Hfin H]]. simpl in H.
  pose proof (final_operons_stages _ _ _ _ _ Hfin) as Hst.
  apply (Forall2_Forall_r _ _ _ _ (report_rows _ _ _ _ H)).
  intros op row Hop Hrow.
  apply (operon_row_width _ _ _ _ _ Hrow).
  exact (stages_single_subunit _ _ _ _ _ Hst Hop).
Qed.

Lemma rows_match_header_witness :
  Forall (fun row => List.length row = List.length (header ""))
         [[ Str "contig1"; Str "stx1"; Str "PARTIAL_CONTIG_END"; Str "";
            Num 11; Num 70; Chr "+"%char;
            Str ""; Str ""; Str "";
            Str "WP_000002"; Dbl 100%float; Dbl 100%float ]].
Proof.
  apply (rows_match_header (logPtr := false) "" lone_B_lines).
  vm_compute. reflexivity.
Defined.

Lemma one_hit_filter (h : Heap) (p : ptr) :
  BlastAlignment.reported (h p) = false -> good_hits h [p] = OK [p].
Proof.
  intros R. unfold good_hits. simpl. unfold elem. simpl. now rewrite R.
Qed.

Lemma one_hit_pass {logPtr : bool} {input_name : string}
  (h : Heap) (p : ptr) (sameType strong : bool) :
  BlastAlignment.reported (h p) = false ->
  implb sameType strong = true ->
  goodBlasts2operons logPtr input_name h [p] [] sameType strong
  = OK (mkAssembly h [] []).
Proof.
  intros R I. unfold goodBlasts2operons. rewrite I. simpl.
  unfold elem. simpl. rewrite R.
  destruct (Ascii.eqb (BlastAlignment.subunit (h p)) "B"); simpl;
    now rewrite R.
Qed.

Lemma one_hit_single (h : Heap) (p : ptr) :
  BlastAlignment.reported (h p) = false ->
  single_hits h [p] [] = (h, [Operon.single p]).
Proof. intros R. simpl. now rewrite R. Qed.

(** X18: an input of one line that the constructor and [qc] accept is reported
    as one row, that of its hit alone. *)
Theorem single_line_report {logPtr : bool} (qc_on : bool) (input_name : string)
  (line : Line) (al : BlastAlignment.t) :
  BlastAlignment.of_line line = OK al ->
  BlastAlignment.qc qc_on al = OK tt ->
  shellBody logPtr qc_on input_name [line]
  = OK [BlastAlignment.saveTsvOut input_name false al].
Proof.
  intros Hal Hqc. destruct (of_line_flags _ _ Hal) as [R _].
  unfold shellBody, final_operons, hit_stage. simpl read_hits.
  rewrite Hal. simpl. rewrite Hqc. simpl.
  remember (heap_of [al]) as h eqn:Hh.
  assert (Rh : BlastAlignment.reported (h 0%nat) = false) by now subst h.
  unfold find_frameshifts. simpl.
  rewrite (one_hit_filter h 0%nat Rh). simpl.
  rewrite (one_hit_pass h 0%nat true true Rh eq_refl). simpl.
  rewrite (one_hit_pass h 0%nat false true Rh eq_refl). simpl.
  rewrite (one_hit_pass h 0%nat false false Rh eq_refl). simpl.
  rewrite Rh. simpl. now subst h.
Qed.

Lemma single_line_report_witness :
  shellBody false true "" [gapped_line]
  = OK [BlastAlignment.saveTsvOut "" false (hit_of gapped_line)].
Proof.
  apply single_line_report; vm_compute; reflexivity.
Defined.

(** ** The comparators *)

Lemma strict_weak_less : strict_weak BlastAlignment.less.
Proof.
  unfold BlastAlignment.less.
  repeat (apply strict_weak_part;
          [first [ exact strict_total_bool | exact strict_total_string
                 | exact strict_total_char | exact strict_total_Z ] |]).
  apply strict_weak_false.
Qed.

Lemma strict_weak_hit_reportLess : strict_weak BlastAlignment.reportLess.
Proof.
  unfold BlastAlignment.reportLess.
  apply strict_weak_part; [exact strict_total_bool |].
  apply strict_weak_part; [exact strict_total_string |].
  apply strict_weak_part; [exact strict_total_bool |].
  apply strict_weak_part_flip; [exact strict_total_Z |].
  apply strict_weak_part; [exact strict_total_Z |].
  apply strict_weak_part; [exact strict_total_Z |].
  apply strict_weak_part; [exact strict_total_string |].
  apply strict_weak_false.
Qed.

(** X19: the four comparators of the hits ([frameshiftLess], [sameTypeLess],
    [less], [reportLess]) are strict weak orders, as the sort requires;
    [sameTypeLess] is [less] on hits of one class with the same reported
    flag; and two hits that [frameshiftLess] orders in neither direction
    agree on contig, strand, reference accession, target start and target
    end. *)
Theorem hit_comparators :
  strict_weak BlastAlignment.frameshiftLess
  /\ strict_weak BlastAlignment.sameTypeLess
  /\ strict_weak BlastAlignment.less
  /\ strict_weak BlastAlignment.reportLess
  /\ (forall a b,
        BlastAlignment.reported a = BlastAlignment.reported b ->
        BlastAlignment.stxClass a = BlastAlignment.stxClass b ->
        BlastAlignment.sameTypeLess a b = BlastAlignment.less a b)
  /\ (forall a b,
        BlastAlignment.frameshiftLess a b = false ->
        BlastAlignment.frameshiftLess b a = false ->
        BlastAlignment.targetName a = BlastAlignment.targetName b
        /\ BlastAlignment.targetStrand a = BlastAlignment.targetStrand b
        /\ BlastAlignment.refAccession a = BlastAlignment.refAccession b
        /\ BlastAlignment.targetStart a = BlastAlignment.targetStart b
        /\ BlastAlignment.targetEnd a = BlastAlignment.targetEnd b).
Proof.
  split; [exact strict_weak_frameshiftLess |].
  split; [exact strict_weak_sameTypeLess |].
  split; [exact strict_weak_less |].
  split; [exact strict_weak_hit_reportLess |].
  split.
  - intros a b R C.
    unfold BlastAlignment.sameTypeLess, BlastAlignment.less.
    rewrite R, LESS_PART_eq by exact strict_total_bool.
    unfold LESS_PART at 3. rewrite C.
    now rewrite (st_irrefl _ strict_total_string).
  - unfold BlastAlignment.frameshiftLess. intros a b H1 H2.
    destruct (LESS_PART_tie String.ltb _ _ _ _ strict_total_string H1 H2)
      as (K1 & H1a & H2a).
    destruct (LESS_PART_tie bool_lt _ _ _ _ strict_total_bool H1a H2a)
      as (K2 & H1b & H2b).
    destruct (LESS_PART_tie String.ltb _ _ _ _ strict_total_string H1b H2b)
      as (K3 & H1c & H2c).
    destruct (LESS_PART_tie Z.ltb _ _ _ _ strict_total_Z H1c H2c)
      as (K4 & H1d & H2d).
    destruct (LESS_PART_tie Z.ltb _ _ _ _ strict_total_Z H1d H2d)
      as (K5 & _ & _).
    auto.
Qed.

(** ** The status of a hit and the orientation of its contig *)

(** X20: the truncation tests and the status of a hit that lies within its
    contig, of subunit A or B, do not depend on the strand on which the
    contig was read: the hit as found on the reverse complement of its
    contig is truncated, or has its partner truncated, exactly when the
    hit is, and has the same status. *)
Theorem status_reverse_complement (al : BlastAlignment.t) (verboseP : bool) :
  0 <= BlastAlignment.targetStart al ->
  BlastAlignment.targetStart al <= BlastAlignment.targetEnd al ->
  BlastAlignment.targetEnd al <= BlastAlignment.targetLen al ->
  BlastAlignment.targetLen al < 2 ^ size_t_bits ->
  BlastAlignment.subunit al = "A"%char \/ BlastAlignment.subunit al = "B"%char ->
  BlastAlignment.truncated (reverse_complement al)
  = BlastAlignment.truncated al
  /\ BlastAlignment.otherTruncated (reverse_complement al)
     = BlastAlignment.otherTruncated al
  /\ BlastAlignment.status verboseP (reverse_complement al)
     = BlastAlignment.status verboseP al.
Proof.
  intros H0 H1 H2 H3 S. unfold size_t_bits in H3.
  assert (E1 : size_sub (BlastAlignment.targetLen al)
                 (BlastAlignment.targetLen al - BlastAlignment.targetStart al)
               = BlastAlignment.targetStart al).
  { unfold size_sub, wrap, size_t_bits. rewrite Z.mod_small by lia. lia. }
  assert (E2 : size_sub (BlastAlignment.targetLen al)
                 (BlastAlignment.targetEnd al)
               = BlastAlignment.targetLen al - BlastAlignment.targetEnd al).
  { unfold size_sub, wrap, size_t_bits. rewrite Z.mod_small by lia. lia. }
  assert (T : BlastAlignment.truncated (reverse_complement al)
              = BlastAlignment.truncated al).
  { unfold BlastAlignment.truncated, reverse_complement. simpl.
    rewrite E1, E2.
    destruct (BlastAlignment.targetStrand al),
             (BlastAlignment.targetStart al <=? 3),
             (BlastAlignment.targetLen al - BlastAlignment.targetEnd al <=? 3),
             (BlastAlignment.refStart al =? 0),
             (size_add (BlastAlignment.refEnd al) 1
              <? BlastAlignment.refLen al); reflexivity. }
  assert (O : BlastAlignment.otherTruncated (reverse_complement al)
              = BlastAlignment.otherTruncated al).
  { unfold BlastAlignment.otherTruncated, reverse_complement. simpl.
    rewrite E1, E2.
    destruct S as [-> | ->];
      destruct (BlastAlignment.targetStrand al),
               (BlastAlignment.targetStart al
                <=? BlastAlignment.missed_max),
               (BlastAlignment.targetLen al - BlastAlignment.targetEnd al
                <=? BlastAlignment.missed_max); reflexivity. }
  split; [exact T |]. split; [exact O |].
  unfold BlastAlignment.status. rewrite T, O. reflexivity.
Qed.

Lemma status_reverse_complement_witness :
  BlastAlignment.status false (reverse_complement (hit_of gapped_line))
  = BlastAlignment.status false (hit_of gapped_line).
Proof.
  apply (status_reverse_complement (hit_of gapped_line) false);
    try (vm_compute; discriminate); try (vm_compute; reflexivity).
  left. reflexivity.
Defined.

(** ** The number of differences *)

(** X21: for a hit that passes [qc], with [refLen + length] a [size_t],
    [getDiff] is the number of reference residues left out at both ends
    plus the number of columns that are not identical, with no
    wrap-around; it is zero exactly when the hit covers its whole
    reference and every column is identical. *)
Theorem getDiff_zero (al : BlastAlignment.t) :
  BlastAlignment.qc true al = OK tt ->
  0 <= BlastAlignment.refStart al ->
  0 <= BlastAlignment.nident al ->
  BlastAlignment.refLen al + BlastAlignment.length al < 2 ^ size_t_bits ->
  BlastAlignment.getDiff al
  = BlastAlignment.refStart al
    + (BlastAlignment.refLen al - BlastAlignment.refEnd al)
    + (BlastAlignment.length al - BlastAlignment.nident al)
  /\ (BlastAlignment.getDiff al = 0
      <-> BlastAlignment.refStart al = 0
          /\ BlastAlignment.refEnd al = BlastAlignment.refLen al
          /\ BlastAlignment.nident al = BlastAlignment.length al).
Proof.
  intros Hqc H0 Hn Hmax. apply qc_OK_iff in Hqc.
  destruct Hqc as (_ & _ & Hnl & _ & _ & Hse & Hel & _).
  unfold size_t_bits in Hmax.
  assert (E : BlastAlignment.getDiff al
              = BlastAlignment.refStart al
                + (BlastAlignment.refLen al - BlastAlignment.refEnd al)
                + (BlastAlignment.length al - BlastAlignment.nident al)).
  { unfold BlastAlignment.getDiff, size_add, size_sub, wrap, size_t_bits.
    rewrite (Z.mod_small (BlastAlignment.refLen al - BlastAlignment.refEnd al))
      by lia.
    rewrite (Z.mod_small (BlastAlignment.length al - BlastAlignment.nident al))
      by lia.
    rewrite (Z.mod_small (BlastAlignment.refStart al + _)) by lia.
    apply Z.mod_small. lia. }
  split; [exact E |]. rewrite E. lia.
Qed.

Lemma getDiff_zero_witness :
  BlastAlignment.getDiff (hit_of gapped_line) = 0 + (319 - 5) + (5 - 2).
Proof.
  refine (proj1 (getDiff_zero (hit_of gapped_line) _ _ _ _));
    vm_compute; try reflexivity; discriminate.
Defined.

(** ** Failures of the type resolution *)

Lemma bind_Err {A B : Type} (r : result A) (k : A -> result B) (e : error) :
  bind r k = Err e -> r = Err e \/ exists a, r = OK a /\ k a = Err e.
Proof.
  destruct r as [a | e']; simpl; [eauto |].
  intros H. injection H as ->. now left.
Qed.

Lemma refMap_columns_error (targetSeq : string) (rest : string) :
  forall i e,
    BlastAlignment.refMap_columns targetSeq i rest = Err e -> frame_error e.
Proof.
  induction rest as [| r rest IH]; intros i e H; simpl in H; [discriminate |].
  apply bind_Err in H as [H | [s [_ H]]]; [now apply (IH (S i)) |].
  destruct (Ascii.eqb r "-"); [discriminate |].
  destruct (at_ targetSeq i); [discriminate |].
  injection H as <-. right. right. eauto.
Qed.

Lemma string_of_size_error (n : Z) (c : ascii) (e : error) :
  string_of_size n c = Err e -> frame_error e.
Proof.
  unfold string_of_size. destruct (n <=? string_max_size); [discriminate |].
  intros H. injection H as <-. right. left. eauto.
Qed.

Lemma string_append_error (s t : string) (e : error) :
  string_append s t = Err e -> frame_error e.
Proof.
  unfold string_append. destruct (_ <=? string_max_size); [discriminate |].
  intros H. injection H as <-. right. left. eauto.
Qed.

Lemma refMap_error (al : BlastAlignment.t) (len : Z) (e : error) :
  BlastAlignment.refMap al len = Err e -> frame_error e.
Proof.
  unfold BlastAlignment.refMap. intros H.
  apply bind_Err in H as [H | [[] [_ H]]].
  - destruct (BlastAlignment.refLen al <=? len); [discriminate |].
    injection H as <-. now left.
  - apply bind_Err in H as [H | [s [_ H]]];
      [now apply string_of_size_error in H |].
    apply bind_Err in H as [H | [columns [_ H]]];
      [now apply refMap_columns_error in H |].
    apply bind_Err in H as [H | [s' [_ H]]];
      [now apply string_append_error in H |].
    apply bind_Err in H as [H | [tail [_ H]]];
      [now apply string_of_size_error in H |].
    now apply string_append_error in H.
Qed.

Lemma char_is_error (s : string) (i : nat) (c : ascii) :
  forall e, char_is s i c = Err e -> frame_error e.
Proof.
  intros e. unfold char_is. destruct (at_ s i); [discriminate |].
  intros H. injection H as <-. right. right. eauto.
Qed.

Lemma char_at_error (s : string) (i : nat) (e : error) :
  char_at s i = Err e -> frame_error e.
Proof.
  unfold char_at. destruct (at_ s i); [discriminate |].
  intros H. injection H as <-. right. right. eauto.
Qed.

Lemma and_then_error (a b : result bool) :
  (forall e', a = Err e' -> frame_error e') ->
  (forall e', b = Err e' -> frame_error e') ->
  forall e, and_then a b = Err e -> frame_error e.
Proof.
  intros Ha Hb e. unfold and_then. intros H.
  apply bind_Err in H as [H | [x [_ H]]]; [now apply Ha |].
  destruct x; [now apply Hb | discriminate].
Qed.

Lemma or_else_error (a b : result bool) :
  (forall e', a = Err e' -> frame_error e') ->
  (forall e', b = Err e' -> frame_error e') ->
  forall e, or_else a b = Err e -> frame_error e.
Proof.
  intros Ha Hb e. unfold or_else. intros H.
  apply bind_Err in H as [H | [x [_ H]]]; [now apply Ha |].
  destruct x; [discriminate | now apply Hb].
Qed.

Ltac frame_errors :=
  repeat first
    [ apply and_then_error | apply or_else_error | apply char_is_error ].

Lemma getStxType_error (h : Heap) (verboseP : bool)
  (op : Operon.t) (e : error) :
  Operon.getStxType h verboseP op = Err e ->
  Operon.hasAl2 op = true
  /\ BlastAlignment.stxClass (Operon.first h op) = "2"
  /\ BlastAlignment.stxClass (Operon.second h op) = "2"
  /\ frame_error e.
Proof.
  unfold Operon.getStxType, Operon.hasAl2.
  destruct (Operon.al2 op) as [p2 |] eqn:E2; [| discriminate].
  destruct (String.eqb_spec (BlastAlignment.stxClass (Operon.first h op))
                            (BlastAlignment.stxClass (Operon.second h op)))
    as [Ec | Nc]; cbn [negb].
  2:{ destruct (String.eqb _ _); discriminate. }
  destruct (String.eqb_spec (BlastAlignment.stxClass (Operon.first h op)) "2")
    as [E | N]; cbn [negb]; [| discriminate].
  intros H. split; [reflexivity |]. split; [exact E |].
  split; [now rewrite <- Ec |].
  apply bind_Err in H as [H | [a [_ H]]]; [now apply refMap_error in H |].
  apply bind_Err in H as [H | [b [_ H]]]; [now apply refMap_error in H |].
  apply bind_Err in H as [H | [is2a [_ H]]].
  { revert H. frame_errors. }
  destruct is2a; [discriminate |].
  apply bind_Err in H as [H | [is2c [_ H]]].
  { revert H. frame_errors. }
  destruct is2c; [discriminate |].
  apply bind_Err in H as [H | [is2d [_ H]]].
  { revert H. frame_errors. }
  destruct is2d; [discriminate |].
  destruct verboseP; [| discriminate].
  apply bind_Err in H as [H | [a312 [_ H]]]; [now apply char_at_error in H |].
  apply bind_Err in H as [H | [a318 [_ H]]]; [now apply char_at_error in H |].
  apply bind_Err in H as [H | [b34 [_ H]]]; [now apply char_at_error in H |].
  discriminate.
Qed.
(** X22: [getStxType] can fail only for a paired operon whose two hits are
    both of class 2, and then only in reading the reference frame: the
    reference is longer than the frame (the check of [refMap]); a run of
    dashes or the projection would be longer than a string can be, as when
    [refEnd] lies beyond the frame and [len - refEnd] wraps; or a character
    is read outside its string, which the program does not check and where
    the model stops. *)
Theorem getStxType_fails_only_in_class2 (h : Heap) (verboseP : bool)
  (op : Operon.t) (e : error) :
  Operon.getStxType h verboseP op = Err e ->
  Operon.hasAl2 op = true
  /\ BlastAlignment.stxClass (Operon.first h op) = "2"
  /\ BlastAlignment.stxClass (Operon.second h op) = "2"
  /\ frame_error e.
Proof. exact (getStxType_error h verboseP op e). Qed.


(** ** The reference frame of an alignment without gaps *)

Lemma residues_le (r : string) : (residues r <= String.length r)%nat.
Proof.
  induction r as [| c r IH]; simpl; [lia |].
  destruct (Ascii.eqb c "-"); lia.
Qed.

Lemma substring_step (t : string) :
  forall i n x,
    String.get i t = Some x ->
    String.substring i (S n) t = String x (String.substring (S i) n t).
Proof.
  induction t as [| a t IH]; intros i n x H; [destruct i; discriminate |].
  destruct i as [| i]; simpl in H.
  - injection H as ->. simpl. destruct n; reflexivity.
  - simpl. rewrite (IH i n x H). reflexivity.
Qed.

Lemma substring_all (t : string) : String.substring 0 (String.length t) t = t.
Proof. induction t as [| a t IH]; simpl; [reflexivity | now rewrite IH]. Qed.

Lemma substring_none (t : string) : forall i, String.substring i 0 t = "".
Proof.
  induction t as [| a t IH]; intros [| i]; simpl; try reflexivity. apply IH.
Qed.

Lemma append_assoc_string (a b c : string) :
  (a ++ (b ++ c) = (a ++ b) ++ c)%string.
Proof. induction a as [| x a IH]; simpl; [reflexivity | now rewrite IH]. Qed.

Lemma refMap_columns_ungapped (t : string) (r : string) :
  forall i,
    residues r = String.length r ->
    (i + String.length r <= String.length t)%nat ->
    BlastAlignment.refMap_columns t i r
    = OK (String.substring i (String.length r) t).
Proof.
  induction r as [| c r IH]; intros i Hres Hlen; simpl in *.
  - now rewrite substring_none.
  - pose proof (residues_le r) as Hle.
    destruct (Ascii.eqb c "-"); [lia |].
    rewrite (IH (S i)) by lia. simpl.
    destruct (get_Some_of_lt t i) as [x Hx]; [lia |].
    unfold at_. rewrite Hx. now rewrite (substring_step t i _ x Hx).
Qed.

(** X23: for an alignment with no gap in the reference sequence, the two
    sequences being of one length, [refLen <= len], [refEnd <= len] and the
    projection not longer than a string can be, [refMap] is the aligned
    target sequence with [refStart] dashes in front and [len - refEnd]
    dashes behind. *)
Theorem refMap_ungapped (al : BlastAlignment.t) (len : Z) :
  residues (BlastAlignment.refSeq al)
  = String.length (BlastAlignment.refSeq al) ->
  String.length (BlastAlignment.targetSeq al)
  = String.length (BlastAlignment.refSeq al) ->
  BlastAlignment.refLen al <= len ->
  0 <= BlastAlignment.refStart al ->
  BlastAlignment.refEnd al <= len ->
  BlastAlignment.refStart al + BlastAlignment.size (BlastAlignment.targetSeq al)
  + (len - BlastAlignment.refEnd al) <= string_max_size ->
  BlastAlignment.refMap al len
  = OK (string_of_count (Z.to_nat (BlastAlignment.refStart al)) "-"%char
        ++ BlastAlignment.targetSeq al
        ++ string_of_count
             (Z.to_nat (len - BlastAlignment.refEnd al)) "-"%char)%string.
Proof.
  intros Hres Hsz Hlen Hstart Hend Hfit. unfold BlastAlignment.size in Hfit.
  unfold BlastAlignment.refMap.
  destruct (Z.leb_spec (BlastAlignment.refLen al) len); [| lia].
  cbn [bind QC_ASSERT].
  assert (Hsub : size_sub len (BlastAlignment.refEnd al)
                 = len - BlastAlignment.refEnd al).
  { unfold size_sub, wrap. apply Z.mod_small.
    unfold string_max_size in Hfit. change size_t_bits with 64. lia. }
  rewrite string_of_size_OK by lia. cbn [bind].
  rewrite refMap_columns_ungapped by (try assumption; lia). cbn [bind].
  rewrite <- Hsz, substring_all.
  rewrite string_append_OK by (rewrite length_string_of_count; lia).
  cbn [bind]. rewrite Hsub, string_of_size_OK by lia. cbn [bind].
  rewrite string_append_OK
    by (rewrite !length_append, !length_string_of_count; lia).
  now rewrite <- append_assoc_string.
Qed.

Lemma refMap_ungapped_witness :
  BlastAlignment.refMap hit_2a_B 90
  = OK (string_of_count 34 "-"%char ++ "DA"
        ++ string_of_count 54 "-"%char)%string.
Proof.
  apply (refMap_ungapped hit_2a_B 90);
    [ reflexivity | reflexivity | vm_compute; discriminate
    | vm_compute; discriminate | vm_compute; discriminate
    | vm_compute; discriminate ].
Defined.


(** ** The assertions of the assembler *)

Lemma StronglySorted_elem (R : ptr -> ptr -> Prop) (v : list ptr) :
  StronglySorted R v ->
  forall i j, (i < j)%nat -> (j < List.length v)%nat ->
              R (elem v i) (elem v j).
Proof.
  induction 1 as [| x v Hs IH Hx]; intros i j Hij Hj; simpl in Hj; [lia |].
  destruct j as [| j]; [lia |]. unfold elem in *.
  destruct i as [| i]; simpl.
  - rewrite Forall_forall in Hx. apply Hx. apply nth_In. lia.
  - apply IH; lia.
Qed.

Lemma advance_start_found (cond : ptr -> bool) (v : list ptr) (n : nat) :
  forall start,
    (advance_start cond v n start < start + n)%nat ->
    cond (elem v (advance_start cond v n start)) = true.
Proof.
  induction n as [| n IH]; intros start H; simpl in *; [lia |].
  destruct (cond (elem v start)) eqn:C; [exact C |].
  apply IH. lia.
Qed.

Lemma same_locus_evolves (sameType : bool) (h h' : Heap) (alB x : ptr) :
  evolves h h' -> same_locus sameType h' alB x = same_locus sameType h alB x.
Proof.
  intros E. unfold same_locus.
  destruct (E alB) as [-> | ->], (E x) as [-> | ->]; reflexivity.
Qed.

(** In the sorted vector, a hit between two hits of one locus is of that
    locus. *)
Lemma same_locus_between (sameType : bool) (h : Heap) (x y z : ptr) :
  may_precede (pass_order sameType h) x y ->
  may_precede (pass_order sameType h) y z ->
  (sameType = true ->
   BlastAlignment.reported (h x) = false
   /\ BlastAlignment.reported (h y) = false
   /\ BlastAlignment.reported (h z) = false) ->
  same_locus sameType h z x = true ->
  same_locus sameType h z y = true.
Proof.
  unfold may_precede, pass_order, same_locus. intros H1 H2 R L.
  apply andb_prop in L as [L Lc]. apply andb_prop in L as [Ln Ls].
  apply String.eqb_eq in Ln. apply Bool.eqb_prop in Ls.
  destruct sameType; simpl in *.
  - destruct (R eq_refl) as (Rx & Ry & Rz).
    apply String.eqb_eq in Lc.
    unfold BlastAlignment.sameTypeLess in H1, H2.
    destruct (LESS_PART_between bool_lt _ _ _ _ _ strict_total_bool
                (eq_trans Rx (eq_sym Rz)) H1 H2) as (_ & H1a & H2a).
    destruct (LESS_PART_between String.ltb _ _ _ _ _ strict_total_string
                Ln H1a H2a) as (K2 & H1b & H2b).
    destruct (LESS_PART_between bool_lt _ _ _ _ _ strict_total_bool
                Ls H1b H2b) as (K3 & H1c & H2c).
    destruct (LESS_PART_between String.ltb _ _ _ _ _ strict_total_string
                Lc H1c H2c) as (K4 & _ & _).
    rewrite K2, K3, K4, Ln, Ls, Lc, !String.eqb_refl, Bool.eqb_reflx.
    reflexivity.
  - unfold BlastAlignment.less in H1, H2.
    destruct (LESS_PART_between String.ltb _ _ _ _ _ strict_total_string
                Ln H1 H2) as (K2 & H1b & H2b).
    destruct (LESS_PART_between bool_lt _ _ _ _ _ strict_total_bool
                Ls H1b H2b) as (K3 & _ & _).
    rewrite K2, K3, Ln, Ls, String.eqb_refl, Bool.eqb_reflx. reflexivity.
Qed.

Lemma operon_saveTsvOut_error (h : Heap) (input_name : string)
  (verboseP : bool) (op : Operon.t) (e : error) :
  Operon.saveTsvOut h input_name verboseP op = Err e -> frame_error e.
Proof.
  unfold Operon.saveTsvOut. destruct (Operon.al2 op) eqn:E2; [| discriminate].
  intros H. apply bind_Err in H as [H | [s [_ H]]]; [| discriminate].
  exact (proj2 (proj2 (proj2 (getStxType_error _ _ _ _ H)))).
Qed.

Lemma try_pair_error (logPtr : bool) (input_name : string) (strong : bool)
  (alA alB : ptr) (st : Assembly) (e : error) :
  try_pair logPtr input_name strong alA alB st = Err e ->
  logPtr = true /\ frame_error e.
Proof.
  unfold try_pair. cbv zeta.
  destruct (within_gap strong _ _); [| discriminate].
  intros H. apply bind_Err in H as [H | [[] [_ H]]].
  - destruct logPtr; [| discriminate]. split; [reflexivity |].
    apply bind_Err in H as [H | [row [_ H]]]; [| discriminate].
    now apply operon_saveTsvOut_error in H.
  - destruct (negb strong || identity_ok _ _); discriminate.
Qed.

Lemma try_pair_evolves (strong : bool) (alA alB : ptr) (st : Assembly) :
  evolves (st_heap st) (st_heap (after_pair strong alA alB st)).
Proof.
  unfold after_pair. cbv zeta.
  destruct (within_gap strong _ _); [| apply evolves_refl].
  destruct (negb strong || identity_ok _ _); [| apply evolves_refl].
  simpl. eapply evolves_trans; apply evolves_set_reported.
Qed.

Lemma pair_scan_total {logPtr : bool} {input_name : string}
  (sameType strong : bool) (h0 : Heap) (v : list ptr)
  (alB : ptr) (n : nat) :
  forall (j : nat) (st : Assembly),
    evolves h0 (st_heap st) ->
    BlastAlignment.subunit (h0 alB) = "B"%char ->
    (forall k, (j <= k < j + n)%nat ->
               same_locus sameType h0 alB (elem v k) = true
               /\ subunit_AB (h0 (elem v k))) ->
    unfailing logPtr
      (pair_scan logPtr input_name sameType strong v alB n j st).
Proof.
  induction n as [| n IH]; intros j st E HB Hw; simpl; [exact I |].
  destruct (BlastAlignment.reported (st_heap st (elem v j)));
    [apply IH; auto; intros k Hk; apply Hw; lia |].
  destruct (Hw j) as [L S]; [lia |].
  unfold same_locus in L.
  apply andb_prop in L as [L Lc]. apply andb_prop in L as [Ln Ls].
  apply String.eqb_eq in Ln. apply Bool.eqb_prop in Ls.
  destruct (raised_fields _ _ (E (elem v j)))
    as (N1 & S1 & _ & _ & U1 & _ & C1 & _).
  destruct (raised_fields _ _ (E alB)) as (N2 & S2 & _ & _ & U2 & _ & C2 & _).
  rewrite N1, N2, S1, S2, U1, U2, C1, C2, HB.
  rewrite Ln, Ls, String.eqb_refl, Bool.eqb_reflx. simpl.
  assert (Hc : implb sameType
                 (String.eqb (BlastAlignment.stxClass (h0 (elem v j)))
                             (BlastAlignment.stxClass (h0 alB))) = true).
  { destruct sameType; simpl in *; [exact Lc | reflexivity]. }
  rewrite Hc. simpl.
  destruct S as [-> | ->]; simpl; [| exact I].
  destruct (try_pair logPtr input_name strong (elem v j) alB st)
    as [s | e] eqn:T; cbn [bind]; [| exact (try_pair_error _ _ _ _ _ _ _ T)].
  apply try_pair_OK in T. subst s.
  apply IH; [| exact HB | intros k Hk; apply Hw; lia].
  exact (evolves_trans _ _ _ E (try_pair_evolves _ _ _ _)).
Qed.

Lemma pair_scan_evolves {logPtr : bool} {input_name : string}
  (sameType strong : bool) (v : list ptr)
  (alB : ptr) (n : nat) :
  forall (j : nat) (st st' : Assembly),
    pair_scan logPtr input_name sameType strong v alB n j st = OK st' ->
    evolves (st_heap st) (st_heap st').
Proof.
  induction n as [| n IH]; intros j st st' Hscan; simpl in Hscan.
  - injection Hscan as <-. apply evolves_refl.
  - destruct (BlastAlignment.reported (st_heap st (elem v j)));
      [now apply (IH _ _ _ Hscan) |].
    do 4 (apply bind_OK in Hscan as [? [_ Hscan]]).
    destruct (Ascii.eqb _ _).
    + injection Hscan as <-. apply evolves_refl.
    + apply bind_OK in Hscan as [? [_ Hscan]]. pair_returns Hscan.
      exact (evolves_trans _ _ _ (try_pair_evolves _ _ _ _)
               (IH _ _ _ Hscan)).
Qed.

Lemma pair_loop_total {logPtr : bool} {input_name : string}
  (sameType strong : bool) (h0 : Heap) (v : list ptr)
  (n : nat) :
  StronglySorted (may_precede (pass_order sameType h0)) v ->
  (sameType = true ->
   Forall (fun p => BlastAlignment.reported (h0 p) = false) v) ->
  Forall (fun p => subunit_AB (h0 p)) v ->
  forall (i start : nat) (st : Assembly),
    (i + n = List.length v)%nat ->
    (start <= i)%nat ->
    evolves h0 (st_heap st) ->
    unfailing logPtr
      (pair_loop logPtr input_name sameType strong v n i start st).
Proof.
  intros Hsorted Hun Hsub. rewrite Forall_forall in Hsub.
  induction n as [| n IH]; intros i start st Hi Hs E; simpl; [exact I |].
  destruct (BlastAlignment.reported (st_heap st (elem v i)));
    [apply IH; auto; lia |].
  destruct (Ascii.eqb_spec (BlastAlignment.subunit (st_heap st (elem v i)))
                           "B") as [HB | HB]; simpl;
    [| apply IH; auto; lia].
  remember (advance_start (same_locus sameType (st_heap st) (elem v i)) v
              (i - start) start) as start' eqn:Hs'.
  pose proof (advance_start_bounds
                (same_locus sameType (st_heap st) (elem v i)) v
                (i - start) start) as B.
  rewrite <- Hs' in B.
  assert (T : unfailing logPtr
                (pair_scan logPtr input_name sameType strong v (elem v i)
                           (i - start') start' st)).
  { apply (pair_scan_total sameType strong h0 v (elem v i) (i - start')
             start' st E). 
  - destruct (raised_fields _ _ (E (elem v i))) as (_ & _ & _ & _ & U & _).
    now rewrite <- U.
  - intros k Hk. split; [| apply Hsub; apply elem_In; lia].
    assert (Hfound : same_locus sameType h0 (elem v i) (elem v start')
                     = true).
    { rewrite <- (same_locus_evolves _ _ _ _ _ E). rewrite Hs'.
      apply advance_start_found. rewrite <- Hs'. lia. }
    destruct (Nat.eq_dec k start') as [-> | Nk]; [exact Hfound |].
    apply (same_locus_between sameType h0 (elem v start') (elem v k)
             (elem v i)).
    + apply (StronglySorted_elem _ _ Hsorted); lia.
    + apply (StronglySorted_elem _ _ Hsorted); lia.
    + intros T. specialize (Hun T). rewrite Forall_forall in Hun.
      repeat split; apply Hun; apply elem_In; lia.
    + exact Hfound. }
  destruct (pair_scan logPtr input_name sameType strong v (elem v i)
                      (i - start') start' st) as [st1 | e] eqn:Hscan;
    cbn [bind]; [| exact T].
  apply IH; [lia | lia |].
  exact (evolves_trans _ _ _ E (pair_scan_evolves _ _ _ _ _ _ _ _ Hscan)).
Qed.

Lemma suppress_covered_total (ops : list Operon.t) (als : list ptr) :
  Forall (fun op => Operon.hasAl2 op = true) ops ->
  forall h, exists h', suppress_covered h ops als = OK h'.
Proof.
  intros F.
  assert (C : forall h al, exists c, covered_by_some h al ops = OK c).
  { intros h al. induction F as [| op ops Hop _ IH]; simpl; [eauto |].
    rewrite Hop. simpl. destruct (covered h al op); eauto. }
  induction als as [| al als IH]; intros h; simpl; [eauto |].
  destruct (BlastAlignment.reported (h al)); [apply IH |].
  destruct (C h al) as [c ->]. simpl. apply IH.
Qed.

Lemma goodBlasts2operons_returns {logPtr : bool} {input_name : string}
  (h : Heap) (goodBlastAls : list ptr)
  (operons : list Operon.t) (sameType strong : bool) :
  implb sameType strong = true ->
  StronglySorted (may_precede (pass_order sameType h)) goodBlastAls ->
  (sameType = true ->
   Forall (fun p => BlastAlignment.reported (h p) = false) goodBlastAls) ->
  Forall (fun p => subunit_AB (h p)) goodBlastAls ->
  Forall (fun op => Operon.hasAl2 op = true) operons ->
  unfailing logPtr
    (goodBlasts2operons logPtr input_name h goodBlastAls operons
                        sameType strong).
Proof.
  intros I Hsorted Hun Hsub Hops. unfold goodBlasts2operons.
  rewrite I. simpl.
  pose proof (pair_loop_total (logPtr := logPtr) (input_name := input_name)
                sameType strong h goodBlastAls
                (List.length goodBlastAls) Hsorted Hun Hsub 0%nat 0%nat
                (mkAssembly h operons [])) as T.
  destruct (pair_loop logPtr input_name sameType strong goodBlastAls
              (List.length goodBlastAls) 0 0 (mkAssembly h operons []))
    as [st1 | e] eqn:Hloop; cbn [bind];
    [clear T | apply T; [lia | lia | apply evolves_refl]].
  assert (F : Forall (fun op => Operon.hasAl2 op = true) (st_operons st1)).
  { assert (Hinv : assembly_inv strong operons st1).
    { apply (pair_loop_inv _ _ _ _ _ _ _ _ _ Hloop).
      constructor; simpl;
        [apply each_after_nil | constructor | now rewrite app_nil_r]. }
    destruct Hinv as [Hok _ Hst]. rewrite Hst. apply Forall_app.
    split; [exact Hops |].
    apply Forall_forall. intros op Hop.
    apply in_map_iff in Hop as [e [<- He]].
    destruct (in_split _ _ He) as (l1 & l2 & Hsplit).
    exact (proj1 (Hok l1 e l2 Hsplit)). }
  destruct (suppress_covered_total _ goodBlastAls F (st_heap st1))
    as [h' Hsup].
  rewrite Hsup. simpl. constructor.
Qed.

(** X24: on a vector sorted as the pass expects (unreported throughout in the
    pass of one type), with subunits A or B and paired operons in the
    list, no assertion of [goodBlasts2operons] fails.  Without a log stream
    the call returns; with one it can fail only while the row of a
    candidate operon is rendered for the log, in reading a reference
    frame. *)
Theorem goodBlasts2operons_total (logPtr : bool) (input_name : string)
  (h : Heap) (goodBlastAls : list ptr)
  (operons : list Operon.t) (sameType strong : bool) :
  implb sameType strong = true ->
  StronglySorted (may_precede (pass_order sameType h)) goodBlastAls ->
  (sameType = true ->
   Forall (fun p => BlastAlignment.reported (h p) = false) goodBlastAls) ->
  Forall (fun p => subunit_AB (h p)) goodBlastAls ->
  Forall (fun op => Operon.hasAl2 op = true) operons ->
  (logPtr = false ->
   exists st, goodBlasts2operons logPtr input_name h goodBlastAls operons
                                 sameType strong = OK st)
  /\ (forall e, goodBlasts2operons logPtr input_name h goodBlastAls operons
                                    sameType strong = Err e ->
                 logPtr = true /\ frame_error e).
Proof.
  intros I Hsorted Hun Hsub Hops.
  pose proof (goodBlasts2operons_returns
                (logPtr := logPtr) (input_name := input_name)
                h goodBlastAls operons sameType strong I Hsorted Hun Hsub Hops)
    as T.
  destruct (goodBlasts2operons logPtr input_name h goodBlastAls operons
                               sameType strong) as [st | e'].
  - split; [eauto | discriminate].
  - destruct T as [-> F]. split; [discriminate |].
    intros e E. injection E as <-. now split.
Qed.

Lemma goodBlasts2operons_total_witness :
  exists st,
    goodBlasts2operons false "" (stage_heap complete_lines)
      (stage_hits complete_lines) [] true true = OK st.
Proof.
  assert (Ev : stage_hits complete_lines = [0; 1]%nat)
    by (vm_compute; reflexivity).
  refine (proj1 (goodBlasts2operons_total false "" _ _ [] true true
                   _ _ _ _ _) eq_refl); rewrite ?Ev.
  - reflexivity.
  - constructor; [constructor; [constructor | constructor] |].
    constructor; [| constructor]. vm_compute. reflexivity.
  - intros _. constructor; [| constructor; [| constructor]];
      vm_compute; reflexivity.
  - constructor; [| constructor; [| constructor]];
      [left | right]; vm_compute; reflexivity.
  - constructor.
Defined.


(** ** What the filter returns *)

Lemma sublist_NoDup {A : Type} (l1 l2 : list A) :
  sublist l1 l2 -> NoDup l2 -> NoDup l1.
Proof.
  induction 1 as [| x l1 l2 S IH | x l1 l2 S IH]; intros H.
  - constructor.
  - apply NoDup_cons_iff in H as [_ H]. now apply IH.
  - apply NoDup_cons_iff in H as [Hx H]. constructor; [| now apply IH].
    intros Hin. apply Hx. now apply (sublist_In l1 l2).
Qed.

(** X25: the hits that the filter keeps are a subsequence of its sorted input,
    all unreported, in the order of [sameTypeLess], and without
    repetition when the input has none. *)
Theorem good_hits_sound (h : Heap) (blastAls goodBlastAls : list ptr) :
  good_hits h blastAls = OK goodBlastAls ->
  sublist goodBlastAls (sort (filter_order h) blastAls)
  /\ Forall (fun p => In p blastAls /\ BlastAlignment.reported (h p) = false)
            goodBlastAls
  /\ StronglySorted (may_precede (filter_order h)) goodBlastAls
  /\ (NoDup blastAls -> NoDup goodBlastAls).
Proof.
  rewrite good_hits_survivors. intros H.
  destruct (survivors_sound _ _ _ _ H) as [Hsub Hun].
  assert (W : strict_weak (filter_order h))
    by (apply (strict_weak_on h), strict_weak_sameTypeLess).
  pose proof (sort_permutation (filter_order h) blastAls) as P.
  split; [exact Hsub |]. split; [| split].
  - rewrite Forall_forall in Hun |- *. intros p Hp.
    split; [| now apply Hun].
    apply (Permutation_in p P). now apply (sublist_In _ _ p Hsub).
  - exact (sublist_StronglySorted _ _ _ Hsub (sort_sorted _ W blastAls)).
  - intros Hnd. apply (sublist_NoDup _ _ Hsub).
    exact (Permutation_NoDup (Permutation_sym P) Hnd).
Qed.

Lemma good_hits_sound_witness :
  sublist [0%nat] (sort (filter_order (heap_of contained_hits)) [0; 1]%nat).
Proof.
  refine (proj1 (good_hits_sound (heap_of contained_hits) [0; 1]%nat
                   [0%nat] _)).
  vm_compute. reflexivity.
Defined.

(** ** Failures of the stage of the hits *)

Lemma QC_ASSERT_Err (what : string) (b : bool) (e : error) :
  QC_ASSERT what b = Err e -> e = QC_ASSERT_failed what.
Proof. destruct b; simpl; [discriminate | congruence]. Qed.

Lemma qc_error (qc_on : bool) (al : BlastAlignment.t) (e : error) :
  BlastAlignment.qc qc_on al = Err e ->
  qc_on = true /\ exists what, e = QC_ASSERT_failed what.
Proof.
  unfold BlastAlignment.qc. destruct qc_on; simpl negb; cbv iota;
    [| discriminate].
  intros H. split; [reflexivity |].
  repeat match type of H with
         | bind (QC_ASSERT _ _) _ = Err _ =>
             apply bind_Err in H as [H | [? [_ H]]];
             [apply QC_ASSERT_Err in H; eauto |]
         | bind (if _ then _ else _) _ = Err _ =>
             apply bind_Err in H as [H | [? [_ H]]];
             [destruct (negb _); [| discriminate] |]
         end.
  all: apply QC_ASSERT_Err in H; eauto.
Qed.

Lemma absorb_error (qc_on : bool) (h : Heap) (prev al : ptr) (e : error) :
  frameshift_pair h prev al = true ->
  absorb qc_on h prev al = Err e -> merger_error qc_on e.
Proof.
  intros G H. unfold absorb in H.
  apply bind_Err in H as [H | [merged [_ H]]].
  - pose proof (merge_guarded h prev al G) as M. rewrite H in M.
    destruct M as [[_ ->] | (_ & _ & ->)]; [now left | right; now left].
  - apply bind_Err in H as [H | [? [_ H]]]; [| discriminate].
    right. right. now apply qc_error in H.
Qed.

Lemma frameshift_loop_error (qc_on : bool) (als : list ptr) :
  forall (h : Heap) (prev : option ptr) (e : error),
    frameshift_loop qc_on h prev als = Err e -> merger_error qc_on e.
Proof.
  induction als as [| al rest IH]; intros h prev e H; simpl in H;
    [discriminate |].
  apply bind_Err in H as [H | [h1 [_ H]]]; [| now apply IH in H].
  unfold frameshift_step in H.
  destruct prev as [prev |]; [| discriminate].
  destruct (frameshift_pair h prev al) eqn:G; [| discriminate].
  now apply (absorb_error _ _ _ _ _ G).
Qed.

Lemma read_hits_unreported (qc_on : bool) (lines : list Line) :
  forall als,
    read_hits qc_on lines = OK als ->
    Forall (fun al => BlastAlignment.reported al = false) als.
Proof.
  intros als H. pose proof (read_hits_checked _ _ _ H) as F.
  clear H. induction F as [| line al lines als [Hal _] _ IH]; constructor.
  - exact (proj1 (of_line_flags _ _ Hal)).
  - exact IH.
Qed.

Lemma hit_stage_error (qc_on : bool) (lines : list Line)
  (als : list BlastAlignment.t) (e : error) :
  read_hits qc_on lines = OK als ->
  hit_stage qc_on lines = Err e ->
  merger_error qc_on e.
Proof.
  intros Hread H. unfold hit_stage in H. rewrite Hread in H. simpl in H.
  apply bind_Err in H as [H | [[h1 blastAls] [Hm H]]].
  - unfold find_frameshifts in H.
    apply bind_Err in H as [H | [[] [_ H]]].
    + (* the hits are fresh from the constructor: none is reported *)
      exfalso.
      assert (F : forallb (fun p => negb (BlastAlignment.reported
                                            (heap_of als p)))
                          (pointers als) = true).
      { apply forallb_forall. intros p Hp. unfold pointers in Hp.
        apply in_seq in Hp. unfold heap_of.
        pose proof (read_hits_unreported _ _ _ Hread) as U.
        rewrite Forall_forall in U. rewrite (U (nth p als no_hit)).
        - reflexivity.
        - apply nth_In. lia. }
      rewrite F, orb_true_r in H. discriminate.
    + apply bind_Err in H as [H | [h' [_ H]]]; [| discriminate].
      now apply frameshift_loop_error in H.
  - apply bind_Err in H as [H | [good [_ H]]]; [| discriminate].
    exfalso. rewrite good_hits_survivors in H.
    assert (W : strict_weak (filter_order h1))
      by (apply (strict_weak_on h1), strict_weak_sameTypeLess).
    destruct (survivors_total h1 (sort (filter_order h1) blastAls) []
                (sort_sorted (filter_order h1) W blastAls) (Forall_nil _))
      as [g Hg].
    congruence.
Qed.




(** ** Every pair within reach is tried *)

Lemma same_locus_iff (sameType : bool) (h : Heap) (alB x : ptr) :
  same_locus sameType h alB x = true <-> locus_eq sameType h x alB.
Proof.
  unfold same_locus, locus_eq. split.
  - intros L. apply andb_prop in L as [L Lc]. apply andb_prop in L as [Ln Ls].
    apply String.eqb_eq in Ln. apply Bool.eqb_prop in Ls.
    repeat split; try assumption.
    intros ->. simpl in Lc. now apply String.eqb_eq.
  - intros (Ln & Ls & Lc). rewrite Ln, Ls, String.eqb_refl, Bool.eqb_reflx.
    destruct sameType; simpl; [| reflexivity].
    rewrite (Lc eq_refl). apply String.eqb_refl.
Qed.

Lemma locus_eq_sym (sameType : bool) (h : Heap) (x y : ptr) :
  locus_eq sameType h x y -> locus_eq sameType h y x.
Proof. intros (N & S & C). repeat split; auto. intros T. now rewrite C. Qed.

Lemma locus_eq_trans (sameType : bool) (h : Heap) (x y z : ptr) :
  locus_eq sameType h x y -> locus_eq sameType h y z ->
  locus_eq sameType h x z.
Proof.
  intros (N1 & S1 & C1) (N2 & S2 & C2). repeat split; try congruence.
  intros T. now rewrite C1, C2.
Qed.

(** In the order of a pass the A hits of a locus stand before its B
    hits. *)
Lemma subunit_order (sameType : bool) (h : Heap) (x y : ptr) :
  may_precede (pass_order sameType h) x y ->
  locus_eq sameType h x y ->
  (sameType = true ->
   BlastAlignment.reported (h x) = BlastAlignment.reported (h y)) ->
  char_lt (BlastAlignment.subunit (h y)) (BlastAlignment.subunit (h x))
  = false.
Proof.
  unfold may_precede, pass_order. intros H (N & S & C) R.
  destruct (char_lt (BlastAlignment.subunit (h y))
                    (BlastAlignment.subunit (h x))) eqn:E; [| reflexivity].
  destruct sameType.
  - unfold BlastAlignment.sameTypeLess in H.
    rewrite (R eq_refl), N, S, (C eq_refl) in H.
    rewrite !LESS_PART_eq in H
      by first [exact strict_total_bool | exact strict_total_string].
    unfold LESS_PART in H. rewrite E in H. discriminate.
  - unfold BlastAlignment.less in H. rewrite N, S in H.
    rewrite !LESS_PART_eq in H
      by first [exact strict_total_bool | exact strict_total_string].
    unfold LESS_PART in H. rewrite E in H. discriminate.
Qed.

Lemma advance_start_skipped (cond : ptr -> bool) (v : list ptr) (n : nat) :
  forall start k,
    (start <= k < advance_start cond v n start)%nat ->
    cond (elem v k) = false.
Proof.
  induction n as [| n IH]; intros start k H; simpl in *; [lia |].
  destruct (cond (elem v start)) eqn:C; [lia |].
  destruct (Nat.eq_dec k start) as [-> | N]; [exact C |].
  apply (IH (S start)). lia.
Qed.

Lemma acceptable_evolves (strong : bool) (h h' : Heap) (a b : ptr) :
  evolves h h' -> acceptable strong h' a b = acceptable strong h a b.
Proof.
  intros E.
  unfold acceptable, pair_of, identity_ok, Operon.getIdentity, Operon.first,
    Operon.second.
  destruct (E a) as [-> | ->]; simpl;
    destruct (BlastAlignment.targetStrand (h a)); simpl;
    destruct (E b) as [Eb | Eb]; rewrite ?Eb;
    try (destruct (E a) as [Ea | Ea]; rewrite ?Ea); reflexivity.
Qed.

Lemma try_pair_accepts (strong : bool) (alA alB : ptr) (st : Assembly) :
  acceptable strong (st_heap st) alA alB = true ->
  BlastAlignment.reported (st_heap (after_pair strong alA alB st) alA) = true.
Proof.
  unfold acceptable, pair_of, after_pair. cbv zeta. intros H.
  apply andb_prop in H as [Hg Hi].
  destruct (BlastAlignment.targetStrand (st_heap st alA));
    unfold Operon.first, Operon.second, Operon.paired in *; simpl in *;
    rewrite Hg, Hi; simpl.
  - apply (evolves_reported (set_reported (st_heap st) alA));
      [apply evolves_set_reported | apply set_reported_same].
  - apply set_reported_same.
Qed.

Lemma pair_scan_reaches {logPtr : bool} {input_name : string}
  (sameType strong : bool) (h0 : Heap) (v : list ptr)
  (a b : ptr) (ja : nat) :
  elem v ja = a ->
  BlastAlignment.subunit (h0 a) = "A"%char ->
  BlastAlignment.subunit (h0 b) = "B"%char ->
  acceptable strong h0 a b = true ->
  forall (n j : nat) (st st' : Assembly),
    pair_scan logPtr input_name sameType strong v b n j st = OK st' ->
    (j <= ja < j + n)%nat ->
    (forall k, (j <= k < ja)%nat ->
               BlastAlignment.subunit (h0 (elem v k)) = "A"%char) ->
    evolves h0 (st_heap st) ->
    BlastAlignment.reported (st_heap st' a) = true.
Proof.
  intros Ha SA SB Acc.
  induction n as [| n IH]; intros j st st' Hscan Hj Hk E; [lia |].
  simpl in Hscan.
  assert (SAj : BlastAlignment.subunit (st_heap st (elem v j)) = "A"%char).
  { destruct (raised_fields _ _ (E (elem v j))) as (_ & _ & _ & _ & U & _).
    rewrite U. destruct (Nat.eq_dec j ja) as [-> | N];
      [now rewrite Ha | apply Hk; lia]. }
  assert (SBb : BlastAlignment.subunit (st_heap st b) = "B"%char).
  { destruct (raised_fields _ _ (E b)) as (_ & _ & _ & _ & U & _).
    now rewrite U. }
  destruct (BlastAlignment.reported (st_heap st (elem v j))) eqn:R.
  - destruct (Nat.eq_dec j ja) as [-> | N].
    + rewrite Ha in R.
      exact (evolves_reported _ _ _ (pair_scan_evolves _ _ _ _ _ _ _ _ Hscan)
               R).
    + apply (IH _ _ _ Hscan); [lia | intros k Hk'; apply Hk; lia | exact E].
  - do 4 (apply bind_OK in Hscan as [? [_ Hscan]]).
    rewrite SAj, SBb in Hscan. simpl in Hscan. pair_returns Hscan.
    destruct (Nat.eq_dec j ja) as [-> | N].
    + rewrite Ha in Hscan.
      apply (evolves_reported _ _ _
               (pair_scan_evolves _ _ _ _ _ _ _ _ Hscan)).
      apply try_pair_accepts. now rewrite (acceptable_evolves _ _ _ _ _ E).
    + apply (IH _ _ _ Hscan); [lia | intros k Hk'; apply Hk; lia |].
      exact (evolves_trans _ _ _ E (try_pair_evolves _ _ _ _)).
Qed.

Lemma try_pair_changes (strong : bool) (alA alB : ptr) (st : Assembly)
  (p : ptr) :
  BlastAlignment.reported (st_heap st p) = false ->
  BlastAlignment.reported (st_heap (after_pair strong alA alB st) p) = true ->
  p = alA \/ p = alB.
Proof.
  unfold after_pair. cbv zeta. intros R0 R1.
  destruct (within_gap strong _ _); [| congruence].
  destruct (negb strong || identity_ok _ _); [| congruence].
  simpl in R1.
  destruct (BlastAlignment.targetStrand (st_heap st alA));
    destruct (Nat.eq_dec p alA) as [-> | NA]; auto;
    destruct (Nat.eq_dec p alB) as [-> | NB]; auto;
    rewrite !set_reported_other in R1 by assumption; congruence.
Qed.

Lemma pair_scan_changes {logPtr : bool} {input_name : string}
  (sameType strong : bool) (v : list ptr) (alB : ptr)
  (n : nat) :
  forall (j : nat) (st st' : Assembly) (p : ptr),
    pair_scan logPtr input_name sameType strong v alB n j st = OK st' ->
    BlastAlignment.reported (st_heap st p) = false ->
    BlastAlignment.reported (st_heap st' p) = true ->
    p = alB \/ BlastAlignment.subunit (st_heap st p) = "A"%char.
Proof.
  induction n as [| n IH]; intros j st st' p Hscan R0 R1; simpl in Hscan.
  - injection Hscan as <-. congruence.
  - destruct (BlastAlignment.reported (st_heap st (elem v j)));
      [now apply (IH _ _ _ _ Hscan) |].
    do 4 (apply bind_OK in Hscan as [? [_ Hscan]]).
    destruct (Ascii.eqb _ _); [injection Hscan as <-; congruence |].
    apply bind_OK in Hscan as [? [HA Hscan]]. apply ASSERT_OK in HA.
    apply Ascii.eqb_eq in HA. pair_returns Hscan.
    destruct (BlastAlignment.reported
                (st_heap (after_pair strong (elem v j) alB st) p)) eqn:R2.
    + destruct (try_pair_changes _ _ _ _ _ R0 R2) as [-> | ->]; auto.
    + destruct (IH _ _ _ _ Hscan R2 R1) as [-> | S]; [now left |].
      right.
      destruct (raised_fields _ _ (try_pair_evolves strong (elem v j) alB st p))
        as (_ & _ & _ & _ & U & _).
      now rewrite <- U.
Qed.

Lemma pair_loop_evolves {logPtr : bool} {input_name : string}
  (sameType strong : bool) (v : list ptr) (n : nat) :
  forall (i start : nat) (st st' : Assembly),
    pair_loop logPtr input_name sameType strong v n i start st = OK st' ->
    evolves (st_heap st) (st_heap st').
Proof.
  induction n as [| n IH]; intros i start st st' Hloop; simpl in Hloop.
  - injection Hloop as <-. apply evolves_refl.
  - destruct (BlastAlignment.reported (st_heap st (elem v i)));
      [now apply (IH _ _ _ _ Hloop) |].
    destruct (negb _); [now apply (IH _ _ _ _ Hloop) |].
    apply bind_OK in Hloop as [st1 [Hscan Hloop]].
    exact (evolves_trans _ _ _ (pair_scan_evolves _ _ _ _ _ _ _ _ Hscan)
             (IH _ _ _ _ Hloop)).
Qed.

Section Reach.

Variables (logPtr : bool) (input_name : string).
Variables (sameType strong : bool) (h0 : Heap) (v : list ptr).
Variables (a b : ptr) (ja ib : nat).

Hypothesis v_sorted : StronglySorted (may_precede (pass_order sameType h0)) v.
Hypothesis v_nodup : NoDup v.
Hypothesis v_unreported :
  sameType = true ->
  Forall (fun p => BlastAlignment.reported (h0 p) = false) v.
Hypothesis v_subunits : Forall (fun p => subunit_AB (h0 p)) v.
Hypothesis at_ja : elem v ja = a.
Hypothesis at_ib : elem v ib = b.
Hypothesis ja_ib : (ja < ib < List.length v)%nat.
Hypothesis a_is_A : BlastAlignment.subunit (h0 a) = "A"%char.
Hypothesis b_is_B : BlastAlignment.subunit (h0 b) = "B"%char.
Hypothesis a_b_locus : locus_eq sameType h0 a b.
Hypothesis a_b_acceptable : acceptable strong h0 a b = true.

Lemma reported_eq (i j : nat) :
  (i < List.length v)%nat -> (j < List.length v)%nat ->
  sameType = true ->
  BlastAlignment.reported (h0 (elem v i))
  = BlastAlignment.reported (h0 (elem v j)).
Proof.
  intros Hi Hj T. specialize (v_unreported T).
  rewrite Forall_forall in v_unreported.
  rewrite !v_unreported; auto using elem_In.
Qed.

Lemma locus_between (i k m : nat) :
  (i <= k <= m)%nat -> (m < List.length v)%nat ->
  locus_eq sameType h0 (elem v i) (elem v m) ->
  locus_eq sameType h0 (elem v k) (elem v m).
Proof.
  intros Hk Hm L.
  destruct (Nat.eq_dec k i) as [-> | Ni]; [exact L |].
  destruct (Nat.eq_dec k m) as [-> | Nm];
    [repeat split; reflexivity |].
  apply same_locus_iff.
  apply (same_locus_between sameType h0 (elem v i) (elem v k) (elem v m)).
  - apply (StronglySorted_elem _ _ v_sorted); lia.
  - apply (StronglySorted_elem _ _ v_sorted); lia.
  - intros T. specialize (v_unreported T).
    rewrite Forall_forall in v_unreported.
    repeat split; apply v_unreported; apply elem_In; lia.
  - now apply same_locus_iff.
Qed.

Lemma pair_loop_reaches (n : nat) :
  forall (i start : nat) (st st' : Assembly),
    pair_loop logPtr input_name sameType strong v n i start st = OK st' ->
    (i + n = List.length v)%nat ->
    (start <= i)%nat ->
    (i <= ib)%nat ->
    evolves h0 (st_heap st) ->
    BlastAlignment.reported (st_heap st b) = false ->
    (forall k m, (k < start)%nat -> (i <= m < List.length v)%nat ->
                 ~ locus_eq sameType h0 (elem v k) (elem v m)) ->
    BlastAlignment.reported (st_heap st' a) = true.
Proof.
  induction n as [| n IH]; intros i start st st' Hloop Hi Hs Hib E Rb Hinv;
    [lia |].
  simpl in Hloop.
  destruct (Nat.eq_dec i ib) as [-> | Nib].
  - (* the turn of [b] *)
    rewrite at_ib, Rb in Hloop.
    destruct (raised_fields _ _ (E b)) as (_ & _ & _ & _ & Ub & _).
    rewrite Ub, b_is_B in Hloop. simpl in Hloop.
    apply bind_OK in Hloop as [st1 [Hscan Hloop]].
    apply (evolves_reported _ _ _ (pair_loop_evolves _ _ _ _ _ _ _ _ Hloop)).
    remember (advance_start (same_locus sameType (st_heap st) b) v
                (ib - start) start) as start' eqn:Hs'.
    pose proof (advance_start_bounds (same_locus sameType (st_heap st) b) v
                  (ib - start) start) as B.
    rewrite <- Hs' in B.
    assert (Hja : (start' <= ja)%nat).
    { destruct (Nat.le_gt_cases start' ja) as [H | H]; [exact H |].
      exfalso.
      destruct (Nat.lt_ge_cases ja start) as [Hlt | Hge].
      - apply (Hinv ja ib Hlt); [lia |]. now rewrite at_ja, at_ib.
      - pose proof (advance_start_skipped
                      (same_locus sameType (st_heap st) b) v (ib - start)
                      start ja) as K.
        rewrite <- Hs' in K. specialize (K (conj Hge H)).
        rewrite at_ja, (same_locus_evolves _ _ _ _ _ E) in K.
        apply (proj2 (same_locus_iff _ _ _ _)) in a_b_locus. congruence. }
    apply (pair_scan_reaches sameType strong h0 v a b ja at_ja a_is_A b_is_B
             a_b_acceptable _ _ _ _ Hscan); [lia | | exact E].
    intros k Hk.
    assert (Lk : locus_eq sameType h0 (elem v k) (elem v ja)).
    { apply (locus_eq_trans _ _ _ (elem v ib)).
      - apply (locus_between start' k ib); [lia | lia |].
        apply same_locus_iff.
        rewrite <- (same_locus_evolves _ _ _ _ _ E), at_ib, Hs'.
        apply advance_start_found. rewrite <- Hs'. lia.
      - rewrite at_ja, at_ib. now apply locus_eq_sym. }
    pose proof (subunit_order sameType h0 (elem v k) (elem v ja)
                  (StronglySorted_elem _ _ v_sorted k ja ltac:(lia)
                     ltac:(lia)) Lk
                  (reported_eq k ja ltac:(lia) ltac:(lia))) as O.
    rewrite at_ja, a_is_A in O.
    rewrite Forall_forall in v_subunits.
    destruct (v_subunits (elem v k)) as [S | S];
      [apply elem_In; lia | exact S |].
    rewrite S in O. discriminate.
  - (* an earlier turn *)
    assert (Hnb : elem v i <> b).
    { intros Eq. apply Nib. rewrite <- at_ib in Eq. unfold elem in Eq.
      apply (proj1 (NoDup_nth v 0%nat) v_nodup i ib); [lia | lia | exact Eq]. }
    assert (Hinv' : forall k m, (k < start)%nat ->
                                (S i <= m < List.length v)%nat ->
                                ~ locus_eq sameType h0 (elem v k) (elem v m)).
    { intros k m Hk Hm. apply Hinv; [exact Hk | lia]. }
    destruct (BlastAlignment.reported (st_heap st (elem v i)));
      [apply (IH _ _ _ _ Hloop); auto; lia |].
    destruct (negb _);
      [apply (IH _ _ _ _ Hloop); auto; lia |].
    apply bind_OK in Hloop as [st1 [Hscan Hloop]].
    remember (advance_start (same_locus sameType (st_heap st) (elem v i)) v
                (i - start) start) as start' eqn:Hs'.
    pose proof (advance_start_bounds
                  (same_locus sameType (st_heap st) (elem v i)) v
                  (i - start) start) as B.
    rewrite <- Hs' in B.
    apply (IH _ _ _ _ Hloop); [lia | lia | lia | | |].
    + exact (evolves_trans _ _ _ E (pair_scan_evolves _ _ _ _ _ _ _ _ Hscan)).
    + destruct (BlastAlignment.reported (st_heap st1 b)) eqn:R1;
        [| reflexivity].
      destruct (pair_scan_changes _ _ _ _ _ _ _ _ _ Hscan Rb R1) as [Eq | S].
      * congruence.
      * destruct (raised_fields _ _ (E b)) as (_ & _ & _ & _ & U & _).
        rewrite U, b_is_B in S. discriminate.
    + intros k m Hk Hm L.
      destruct (Nat.lt_ge_cases k start) as [Hlt | Hge];
        [apply (Hinv k m Hlt); [lia | exact L] |].
      pose proof (advance_start_skipped
                    (same_locus sameType (st_heap st) (elem v i)) v
                    (i - start) start k) as K.
      rewrite <- Hs' in K. specialize (K (conj Hge Hk)).
      rewrite (same_locus_evolves _ _ _ _ _ E) in K.
      assert (Li : locus_eq sameType h0 (elem v i) (elem v m)).
      { apply (locus_between k i m); [lia | lia | exact L]. }
      assert (Lki : locus_eq sameType h0 (elem v k) (elem v i)).
      { exact (locus_eq_trans _ _ _ _ _ L (locus_eq_sym _ _ _ _ Li)). }
      apply (proj2 (same_locus_iff _ _ _ _)) in Lki. congruence.
Qed.

End Reach.

(** X27: a pass of the assembler over a vector sorted as the pass expects,
    without repetition and with subunits A or B (unreported throughout in
    the pass of one type), misses no pair: an A hit of the vector that
    has on its contig and strand (and in its class, in the pass of one
    type) an unreported B hit with which it passes the guards of the pass
    is reported when the pass ends. *)
Theorem pairing_complete {logPtr : bool} {input_name : string}
  (h : Heap) (goodBlastAls : list ptr)
  (operons : list Operon.t) (sameType strong : bool) (st : Assembly)
  (a b : ptr) :
  goodBlasts2operons logPtr input_name h goodBlastAls operons sameType strong
  = OK st ->
  StronglySorted (may_precede (pass_order sameType h)) goodBlastAls ->
  NoDup goodBlastAls ->
  (sameType = true ->
   Forall (fun p => BlastAlignment.reported (h p) = false) goodBlastAls) ->
  Forall (fun p => subunit_AB (h p)) goodBlastAls ->
  In a goodBlastAls -> In b goodBlastAls ->
  BlastAlignment.subunit (h a) = "A"%char ->
  BlastAlignment.subunit (h b) = "B"%char ->
  locus_eq sameType h a b ->
  BlastAlignment.reported (h b) = false ->
  acceptable strong h a b = true ->
  BlastAlignment.reported (st_heap st a) = true.
Proof.
  intros H Hsorted Hnd Hun Hsub Ia Ib SA SB L Rb Acc.
  destruct (In_nth _ _ 0%nat Ia) as (ja & Hja & Ea).
  destruct (In_nth _ _ 0%nat Ib) as (ib & Hib & Eb).
  change (elem goodBlastAls ja = a) in Ea.
  change (elem goodBlastAls ib = b) in Eb.
  assert (Hlt : (ja < ib)%nat).
  { destruct (Nat.lt_trichotomy ja ib) as [Hlt | [Heq | Hgt]];
      [exact Hlt | |]; exfalso.
    - subst ib. rewrite Ea in Eb. subst b. rewrite SA in SB. discriminate.
    - assert (P1 : may_precede (pass_order sameType h) b a).
      { rewrite <- Ea, <- Eb. now apply (StronglySorted_elem _ _ Hsorted). }
      assert (P3 : sameType = true ->
                   BlastAlignment.reported (h b)
                   = BlastAlignment.reported (h a)).
      { intros T. specialize (Hun T). rewrite Forall_forall in Hun.
        now rewrite (Hun a Ia), (Hun b Ib). }
      pose proof (subunit_order sameType h b a P1
                    (locus_eq_sym _ _ _ _ L) P3) as O.
      rewrite SA, SB in O. vm_compute in O. discriminate. }
  unfold goodBlasts2operons in H.
  apply bind_OK in H as [? [_ H]].
  apply bind_OK in H as [st1 [Hloop H]].
  apply bind_OK in H as [h' [Hsup H]]. injection H as <-. simpl.
  destruct (suppress_covered_post _ _ _ _ Hsup) as (E & _).
  apply (evolves_reported _ _ _ E).
  apply (pair_loop_reaches logPtr input_name sameType strong h goodBlastAls
           a b ja ib Hsorted Hnd Hun Hsub Ea Eb (conj Hlt Hib) SA SB L Acc
           _ _ _ _ _ Hloop); simpl; try lia.
  - apply evolves_refl.
  - exact Rb.
Qed.

Lemma pairing_complete_witness :
  match goodBlasts2operons false "" (stage_heap complete_lines)
          (stage_hits complete_lines) [] true true with
  | OK st => BlastAlignment.reported (st_heap st 0%nat) = true
  | Err _ => False
  end.
Proof.
  assert (Ev : stage_hits complete_lines = [0; 1]%nat)
    by (vm_compute; reflexivity).
  destruct (goodBlasts2operons false "" (stage_heap complete_lines)
              (stage_hits complete_lines) [] true true) as [st | e] eqn:E;
    [| vm_compute in E; discriminate].
  apply (pairing_complete _ _ _ _ _ _ 0%nat 1%nat E); rewrite ?Ev.
  - constructor; [constructor; [constructor | constructor] |].
    constructor; [| constructor]. vm_compute. reflexivity.
  - repeat constructor; simpl; intuition discriminate.
  - intros _. constructor; [| constructor; [| constructor]];
      vm_compute; reflexivity.
  - constructor; [| constructor; [| constructor]];
      [left | right]; vm_compute; reflexivity.
  - now left.
  - right. now left.
  - vm_compute. reflexivity.
  - vm_compute. reflexivity.
  - repeat split; vm_compute; reflexivity.
  - vm_compute. reflexivity.
  - vm_compute. reflexivity.
Defined.


(** ** Failures of a checked run *)

Lemma qc_mark_reported (qc_on : bool) (a : BlastAlignment.t) :
  BlastAlignment.qc qc_on (BlastAlignment.mark_reported a)
  = BlastAlignment.qc qc_on a.
Proof. reflexivity. Qed.

Lemma qc_raised (qc_on : bool) (a b : BlastAlignment.t) :
  raised a b -> BlastAlignment.qc qc_on b = BlastAlignment.qc qc_on a.
Proof. intros [-> | ->]; [reflexivity | apply qc_mark_reported]. Qed.

Lemma less_raised (a a' b b' : BlastAlignment.t) :
  raised a a' -> raised b b' ->
  BlastAlignment.less a' b' = BlastAlignment.less a b.
Proof. intros [-> | ->] [-> | ->]; reflexivity. Qed.

Lemma absorb_checked (h h1 : Heap) (prev al : ptr) :
  absorb true h prev al = OK h1 ->
  forall p, BlastAlignment.qc true (h p) = OK tt ->
            BlastAlignment.qc true (h1 p) = OK tt.
Proof.
  unfold absorb. intros H p Hp.
  apply bind_OK in H as [merged [_ H]].
  apply bind_OK in H as [[] [Hqc H]]. injection H as <-.
  rewrite store_same in Hqc.
  destruct (set_reported_cases (store h al merged) prev p) as [-> | [_ ->]];
    rewrite ?qc_mark_reported;
    (destruct (Nat.eq_dec p al) as [-> | N];
     [now rewrite store_same | now rewrite store_other]).
Qed.

Lemma frameshift_loop_checked (als : list ptr) :
  forall (h h' : Heap) (prev : option ptr),
    frameshift_loop true h prev als = OK h' ->
    forall p, BlastAlignment.qc true (h p) = OK tt ->
              BlastAlignment.qc true (h' p) = OK tt.
Proof.
  induction als as [| al rest IH]; intros h h' prev H p Hp; simpl in H.
  - now injection H as <-.
  - apply bind_OK in H as [h1 [Hstep H]].
    apply (IH _ _ _ H). unfold frameshift_step in Hstep.
    destruct prev as [prev |]; [| now injection Hstep as <-].
    destruct (frameshift_pair h prev al); [| now injection Hstep as <-].
    now apply (absorb_checked _ _ _ _ Hstep).
Qed.

(** What the stage of the hits leaves to the assembler in a run with the
    checks on. *)
Lemma hit_stage_checked (lines : list Line) (h1 : Heap) (good : list ptr) :
  hit_stage true lines = OK (h1, good) ->
  NoDup good
  /\ StronglySorted (may_precede (pass_order true h1)) good
  /\ Forall (fun p => BlastAlignment.reported (h1 p) = false) good
  /\ Forall (fun p => BlastAlignment.qc true (h1 p) = OK tt) good.
Proof.
  unfold hit_stage. intros H.
  apply bind_OK in H as [als [Hread H]].
  apply bind_OK in H as [[h1' blastAls] [Hmerge H]].
  apply bind_OK in H as [good' [Hfilter H]]. injection H as -> ->.
  destruct (find_frameshifts_kept _ _ _ _ _ Hmerge) as (Pm & _ & _ & _).
  rewrite good_hits_survivors in Hfilter.
  destruct (survivors_sound _ _ _ _ Hfilter) as [Hsub Hun].
  assert (W : strict_weak (filter_order h1))
    by (apply (strict_weak_on h1), strict_weak_sameTypeLess).
  pose proof (sort_permutation (filter_order h1) blastAls) as P.
  assert (Hin : forall p, In p good -> In p (pointers als)).
  { intros p Hp. apply (Permutation_in p Pm), (Permutation_in p P).
    now apply (sublist_In _ _ p Hsub). }
  split.
  { apply (sublist_NoDup _ _ Hsub).
    apply (Permutation_NoDup (Permutation_sym P)).
    apply (Permutation_NoDup (Permutation_sym Pm)). apply seq_NoDup. }
  split.
  { exact (sublist_StronglySorted _ _ _ Hsub (sort_sorted _ W blastAls)). }
  split; [exact Hun |].
  apply Forall_forall. intros p Hp. apply Hin in Hp.
  unfold pointers in Hp. apply in_seq in Hp.
  unfold find_frameshifts in Hmerge.
  apply bind_OK in Hmerge as [? [_ Hmerge]].
  apply bind_OK in Hmerge as [h' [Hloop Hmerge]]. injection Hmerge as <- _.
  apply (frameshift_loop_checked _ _ _ _ Hloop). unfold heap_of.
  pose proof (read_hits_checked _ _ _ Hread) as Fc.
  destruct (Forall2_nth _ _ _ no_hit Fc p) as [line [_ [_ Hqc]]]; [lia |].
  exact Hqc.
Qed.

Lemma sound_operon_evolves (h h' : Heap) (op : Operon.t) :
  evolves h h' -> sound_operon h op -> sound_operon h' op.
Proof.
  intros E (p1 & p2 & -> & Q1 & Q2 & R1 & R2 & N & S & U).
  exists p1, p2.
  destruct (raised_fields _ _ (E p1)) as (N1 & S1 & _ & _ & U1 & _).
  destruct (raised_fields _ _ (E p2)) as (N2 & S2 & _ & _ & U2 & _).
  rewrite (qc_raised _ _ _ (E p1)), (qc_raised _ _ _ (E p2)).
  rewrite N1, N2, S1, S2, U1, U2.
  repeat split; try assumption; now apply (evolves_reported h).
Qed.

Lemma goodBlasts2operons_sound {logPtr : bool} {input_name : string}
  (h : Heap) (v : list ptr)
  (operons : list Operon.t) (sameType strong : bool) (st : Assembly) :
  goodBlasts2operons logPtr input_name h v operons sameType strong = OK st ->
  Forall (sound_operon h) operons ->
  Forall (fun p => BlastAlignment.qc true (h p) = OK tt) v ->
  Forall (sound_operon (st_heap st)) (st_operons st).
Proof.
  intros H F Q.
  destruct (goodBlasts2operons_marked _ _ _ _ _ _ H) as [He _ Ha].
  destruct (goodBlasts2operons_inv _ _ _ _ _ _ H) as [Hok _ Hops].
  rewrite Forall_forall in F, Q, Ha.
  rewrite Hops. apply Forall_forall. intros op Hop.
  apply in_app_or in Hop as [Hop | Hop].
  - apply (sound_operon_evolves h _ _ He). now apply F.
  - apply in_map_iff in Hop as [e [<- He']].
    destruct (Ha e He') as (p1 & p2 & Ep & J1 & J2 & R1 & R2 & E0 & E1).
    destruct (in_split _ _ He') as (l1 & l2 & Hsplit).
    pose proof (Hok l1 e l2 Hsplit) as K. unfold accepted_ok in K.
    cbv zeta in K. rewrite Ep in K.
    unfold Operon.getA, Operon.getB, Operon.first, Operon.second,
      Operon.paired in K. simpl in K.
    destruct K as (_ & Kn & Ks & _ & KA & KB & _).
    destruct (raised_fields _ _ (E1 p1)) as (N1 & S1 & _ & _ & U1 & _).
    destruct (raised_fields _ _ (E1 p2)) as (N2 & S2 & _ & _ & U2 & _).
    exists p1, p2. rewrite Ep.
    rewrite (qc_raised _ _ _ (He p1)), (qc_raised _ _ _ (He p2)).
    rewrite N1, N2, S1, S2, U1, U2.
    repeat split; auto.
    destruct (BlastAlignment.targetStrand (acc_heap e p1));
      rewrite KA, KB; discriminate.
Qed.

Lemma sound_operon_qc (h : Heap) (op : Operon.t) (e : error) :
  sound_operon h op -> Operon.qc true h op = Err e -> e = abutting_error.
Proof.
  intros (p1 & p2 & -> & Q1 & Q2 & R1 & R2 & N & S & U).
  unfold Operon.qc, Operon.first, Operon.second. simpl.
  rewrite Q1, Q2, R1, R2, N, S, String.eqb_refl, Bool.eqb_reflx. simpl.
  destruct (_ <? _); simpl; [| intros H; now injection H as <-].
  apply Ascii.eqb_neq in U. rewrite U. discriminate.
Qed.


Lemma resolve_error (input_name : string) (h : Heap)
  (operons : list Operon.t) :
  Forall (sound_operon h) operons ->
  forall (acc : list Operon.t) (e : error),
    resolve true input_name h operons acc = Err e ->
    e = abutting_error \/ frame_error e.
Proof.
  induction 1 as [| op operons Hop _ IH]; intros acc e H; simpl in H;
    [discriminate |].
  apply bind_Err in H as [H | [row [_ H]]];
    [right; now apply operon_saveTsvOut_error in H |].
  apply bind_Err in H as [H | [[] [_ H]]];
    [left; now apply (sound_operon_qc h op) | now apply IH in H].
Qed.

Lemma getStxType_report (h : Heap) (op : Operon.t) (s : string) :
  Operon.getStxType h true op = OK s ->
  exists s', Operon.getStxType h false op = OK s'.
Proof.
  unfold Operon.getStxType.
  destruct (Operon.al2 op); [| eauto].
  destruct (negb (String.eqb _ _)); [destruct (String.eqb _ _); eauto |].
  destruct (negb (String.eqb _ _)); [eauto |].
  intros H.
  apply bind_OK in H as [a [Ha H]]. rewrite Ha. cbn [bind].
  apply bind_OK in H as [b [Hb H]]. rewrite Hb. cbn [bind].
  apply bind_OK in H as [is2a [H2a H]]. rewrite H2a. cbn [bind].
  destruct is2a; [eauto |].
  apply bind_OK in H as [is2c [H2c H]]. rewrite H2c. cbn [bind].
  destruct is2c; [eauto |].
  apply bind_OK in H as [is2d [H2d H]]. rewrite H2d. cbn [bind].
  destruct is2d; eauto.
Qed.

Lemma operon_saveTsvOut_report (h : Heap) (input_name : string)
  (op : Operon.t) (row : Row) :
  Operon.saveTsvOut h input_name true op = OK row ->
  exists row', Operon.saveTsvOut h input_name false op = OK row'.
Proof.
  unfold Operon.saveTsvOut. destruct (Operon.al2 op); [| eauto].
  intros H. apply bind_OK in H as [s [Hs _]].
  destruct (getStxType_report _ _ _ Hs) as [s' ->]. cbn [bind]. eauto.
Qed.

Lemma operon_saveTsvOut_evolves (h h' : Heap) (input_name : string)
  (verboseP : bool) (op : Operon.t) :
  evolves h h' ->
  Operon.saveTsvOut h' input_name verboseP op
  = Operon.saveTsvOut h input_name verboseP op.
Proof.
  intros E.
  unfold Operon.saveTsvOut, Operon.getStxType, Operon.operonType,
    Operon.novel, Operon.partial, Operon.getIdentity, Operon.getA,
    Operon.getB, Operon.first, Operon.second.
  destruct (E (Operon.al1 op)) as [-> | ->];
    destruct (Operon.al2 op) as [p2 |];
    try (destruct (E p2) as [-> | ->]);
    cbn [BlastAlignment.targetStrand BlastAlignment.mark_reported];
    destruct (BlastAlignment.targetStrand (h (Operon.al1 op)));
    reflexivity.
Qed.

Lemma report_total (input_name : string) (h : Heap) (ops : list Operon.t) :
  Forall (fun op => exists row,
                      Operon.saveTsvOut h input_name false op = OK row) ops ->
  exists rows, report input_name h ops = OK rows.
Proof.
  induction 1 as [| op ops [row Hrow] _ [rows IH]]; simpl; [eauto |].
  rewrite Hrow, IH. simpl. eauto.
Qed.

Lemma StronglySorted_weaken {A : Type} (R R' : A -> A -> Prop) (l : list A) :
  (forall a b, R a b -> R' a b) -> StronglySorted R l -> StronglySorted R' l.
Proof.
  intros HR. induction 1 as [| x l Hs IH Hx]; constructor; [exact IH |].
  rewrite Forall_forall in Hx |- *. auto.
Qed.

Lemma sound_operon_paired (h : Heap) (ops : list Operon.t) :
  Forall (sound_operon h) ops ->
  Forall (fun op => Operon.hasAl2 op = true) ops.
Proof.
  intros F. rewrite Forall_forall in F |- *. intros op Hop.
  destruct (F op Hop) as (p1 & p2 & -> & _). reflexivity.
Qed.

(** In a run with the checks on, nothing between the merger and the
    resolver fails, and once the resolver has passed the report is
    written. *)
Lemma merged_hit_error_apart (e : error) :
  merged_hit_error e -> e <> abutting_error /\ ~ frame_error e.
Proof.
  intros [al [Hf H]]. unfold BlastAlignment.qc in H. simpl negb in H.
  cbv iota in H. rewrite Hf in H. simpl negb in H. cbv iota in H.
  assert (A : forall what,
             what <> "al1->targetEnd < al2->targetStart" ->
             what <> "refLen <= len" ->
             QC_ASSERT_failed what <> abutting_error
             /\ ~ frame_error (QC_ASSERT_failed what)).
  { intros what N1 N2. split; [unfold abutting_error; congruence |].
    intros [F | [[w F] | [w F]]]; congruence. }
  repeat match type of H with
         | bind (QC_ASSERT _ _) _ = Err _ =>
             apply bind_Err in H as [H | [? [_ H]]];
             [apply QC_ASSERT_Err in H; subst e; apply A; discriminate |]
         | bind (OK tt) _ = Err _ => cbn [bind] in H
         end.
  apply QC_ASSERT_Err in H. subst e. apply A; discriminate.
Qed.

Lemma abutting_error_apart : ~ frame_error abutting_error.
Proof. intros [F | [[w F] | [w F]]]; discriminate. Qed.

Lemma merge_frameshift (al prev merged : BlastAlignment.t) :
  BlastAlignment.merge al prev = OK merged ->
  BlastAlignment.frameshift merged = true.
Proof.
  unfold BlastAlignment.merge. intros H.
  do 6 (apply bind_OK in H as [? [_ H]]). now injection H as <-.
Qed.

Lemma absorb_failure (h : Heap) (prev al : ptr) (e : error) :
  frameshift_pair h prev al = true ->
  absorb true h prev al = Err e -> run_error e.
Proof.
  intros G H. unfold absorb in H.
  apply bind_Err in H as [H | [merged [Hm H]]].
  - pose proof (merge_guarded h prev al G) as M. rewrite H in M.
    destruct M as [[_ ->] | (_ & _ & ->)]; [now left | right; now left].
  - apply bind_Err in H as [H | [? [_ H]]]; [| discriminate].
    right. right. left. exists (store h al merged al). split; [| exact H].
    rewrite store_same. exact (merge_frameshift _ _ _ Hm).
Qed.

Lemma frameshift_loop_failure (als : list ptr) :
  forall (h : Heap) (prev : option ptr) (e : error),
    frameshift_loop true h prev als = Err e -> run_error e.
Proof.
  induction als as [| al rest IH]; intros h prev e H; simpl in H;
    [discriminate |].
  apply bind_Err in H as [H | [h1 [_ H]]]; [| now apply IH in H].
  unfold frameshift_step in H.
  destruct prev as [prev |]; [| discriminate].
  destruct (frameshift_pair h prev al) eqn:G; [| discriminate].
  now apply (absorb_failure _ _ _ _ G).
Qed.

Lemma ASSERT_Err (what : string) (b : bool) (e : error) :
  ASSERT what b = Err e -> e = ASSERT_failed what.
Proof. destruct b; simpl; [discriminate | congruence]. Qed.

Lemma hit_stage_failure (lines : list Line) (als : list BlastAlignment.t)
  (e : error) :
  read_hits true lines = OK als ->
  hit_stage true lines = Err e ->
  run_error e.
Proof.
  intros Hread H.
  pose proof (hit_stage_error _ _ _ _ Hread H) as M.
  unfold hit_stage in H. rewrite Hread in H. simpl in H.
  apply bind_Err in H as [H | [[h1 blastAls] [Hm H]]].
  - unfold find_frameshifts in H.
    apply bind_Err in H as [H | [[] [_ H]]].
    + apply ASSERT_Err in H. subst e.
      destruct M as [M | [M | [_ [what M]]]]; discriminate.
    + apply bind_Err in H as [H | [h' [_ H]]]; [| discriminate].
      now apply frameshift_loop_failure in H.
  - apply bind_Err in H as [H | [good [Hg H]]]; [| discriminate].
    (* the filter does not fail *)
    exfalso. rewrite good_hits_survivors in H.
    assert (W : strict_weak (filter_order h1))
      by (apply (strict_weak_on h1), strict_weak_sameTypeLess).
    destruct (survivors_total h1 (sort (filter_order h1) blastAls) []
                (sort_sorted (filter_order h1) W blastAls) (Forall_nil _))
      as [g Hg'].
    congruence.
Qed.

(** A pass of the assembler that fails has failed in the log. *)
Lemma pass_failure {A : Type} (logPtr : bool) (r : result A) (e : error) :
  unfailing logPtr r -> r = Err e -> run_error e.
Proof. intros U ->. destruct U as [_ F]. do 4 right. exact F. Qed.

Lemma checked_run_errors (logPtr : bool) (input_name : string)
  (lines : list Line) (e : error) :
  shellBody logPtr true input_name lines = Err e ->
  read_hits true lines = Err e \/ run_error e.
Proof.
  unfold shellBody. intros H.
  apply bind_Err in H as [H | [[h4 ops] [Hfin H]]].
  - (* [final_operons] fails *)
    unfold final_operons in H.
    apply bind_Err in H as [H | [[h1 good] [Hstage H]]].
    { (* the stage of the hits *)
      destruct (read_hits true lines) as [als | e'] eqn:Hread.
      - right. exact (hit_stage_failure _ _ _ Hread H).
      - left. unfold hit_stage in H. rewrite Hread in H. simpl in H.
        injection H as ->. reflexivity. }
    right.
    destruct (hit_stage_checked _ _ _ Hstage) as (Hnd & Hsorted & Hun & Hqc).
    (* the first pass *)
    assert (T1 : unfailing logPtr
                   (goodBlasts2operons logPtr input_name h1 good []
                                       true true)).
    { apply goodBlasts2operons_returns;
        [ reflexivity | exact Hsorted | intros _; exact Hun
        | apply (Forall_impl _ (fun p => qc_subunit (h1 p)) Hqc)
        | constructor ]. }
    apply bind_Err in H as [H | [st1 [H1 H]]];
      [exact (pass_failure _ _ _ T1 H) | clear T1].
    destruct (goodBlasts2operons_marked _ _ _ _ _ _ H1) as [E1 _ _].
    pose proof (goodBlasts2operons_sound _ _ _ _ _ _ H1 (Forall_nil _) Hqc)
      as F1.
    (* the second pass *)
    remember (sort (fun a b => BlastAlignment.less (st_heap st1 a)
                                                   (st_heap st1 b)) good)
      as v2 eqn:Hv2.
    assert (W2 : strict_weak (pass_order false (st_heap st1)))
      by (apply (strict_weak_on (st_heap st1)), strict_weak_less).
    assert (S2 : StronglySorted (may_precede (pass_order false (st_heap st1)))
                                v2).
    { subst v2. exact (sort_sorted _ W2 good). }
    assert (P2 : Permutation v2 good).
    { subst v2. apply sort_permutation. }
    assert (Q2 : Forall (fun p => BlastAlignment.qc true (st_heap st1 p)
                                  = OK tt) v2).
    { apply (Permutation_Forall (Permutation_sym P2)).
      rewrite Forall_forall in Hqc |- *. intros p Hp.
      rewrite (qc_raised _ _ _ (E1 p)). now apply Hqc. }
    assert (T2 : unfailing logPtr
                   (goodBlasts2operons logPtr input_name (st_heap st1) v2
                                       (st_operons st1) false true)).
    { apply goodBlasts2operons_returns;
        [ reflexivity | exact S2 | discriminate
        | apply (Forall_impl _ (fun p => qc_subunit (st_heap st1 p)) Q2)
        | exact (sound_operon_paired _ _ F1) ]. }
    apply bind_Err in H as [H | [st2 [H2 H]]];
      [exact (pass_failure _ _ _ T2 H) | clear T2].
    destruct (goodBlasts2operons_marked _ _ _ _ _ _ H2) as [E2 _ _].
    pose proof (goodBlasts2operons_sound _ _ _ _ _ _ H2 F1 Q2) as F2.
    (* the third pass *)
    assert (Q3 : Forall (fun p => BlastAlignment.qc true (st_heap st2 p)
                                  = OK tt) v2).
    { rewrite Forall_forall in Q2 |- *. intros p Hp.
      rewrite (qc_raised _ _ _ (E2 p)). now apply Q2. }
    assert (T3 : unfailing logPtr
                   (goodBlasts2operons logPtr input_name (st_heap st2) v2
                                       (st_operons st2) false false)).
    { apply goodBlasts2operons_returns;
        [ reflexivity | | discriminate
        | apply (Forall_impl _ (fun p => qc_subunit (st_heap st2 p)) Q3)
        | exact (sound_operon_paired _ _ F2) ].
      apply (StronglySorted_weaken
               (may_precede (pass_order false (st_heap st1))));
        [| exact S2].
      intros x y. unfold may_precede, pass_order.
      now rewrite (less_raised _ _ _ _ (E2 y) (E2 x)). }
    apply bind_Err in H as [H | [st3 [H3 H]]];
      [exact (pass_failure _ _ _ T3 H) | clear T3].
    pose proof (goodBlasts2operons_sound _ _ _ _ _ _ H3 F2 Q3) as F3.
    (* the resolver *)
    apply bind_Err in H as [H | [goodOperons [_ H]]].
    + do 3 right.
      refine (resolve_error _ _ _ _ _ _ H).
      exact (Permutation_Forall
               (Permutation_sym (sort_permutation (Operon.lt (st_heap st3))
                                   (st_operons st3))) F3).
    + destruct (single_hits _ _ _). discriminate.
  - (* the report *)
    simpl in H. exfalso.
    destruct (final_operons_stages _ _ _ _ _ Hfin)
      as [als h1 blastAls good st1 st2 st3 goodOperons goodOperons'
            Hread Hmerge Hfilter H1 H2 H3 Hres Hs ->].
    destruct (resolve_kept _ _ _ _ _ _ Hres) as (kept & Ek & Hsub & Hchk & _).
    simpl in Ek. subst kept.
    destruct (single_hits_kept _ _ _ _ _ Hs)
      as (singles & -> & _ & _ & E4 & _).
    destruct (report_total input_name h4
                (sort (Operon.reportLess h4)
                   (goodOperons ++ map Operon.single singles)))
      as [rows Hrows]; [| congruence].
    apply (Permutation_Forall
             (Permutation_sym (sort_permutation (Operon.reportLess h4) _))).
    apply Forall_app. split; apply Forall_forall; intros op Hop.
    + rewrite (operon_saveTsvOut_evolves _ _ _ _ _ E4).
      destruct (Hchk op) as [_ [row Hrow]];
        [now apply (sublist_In _ _ op Hsub) |].
      exact (operon_saveTsvOut_report _ _ _ _ Hrow).
    + apply in_map_iff in Hop as [p [<- _]]. eexists. reflexivity.
Qed.

(** Of the two operons of the twin A hits the resolver keeps the first and
    drops the second, which lies inside it. *)
Lemma resolve_post_witness :
  resolve true "" (st_heap (first_pass twin_A_lines))
          [Operon.paired 0 2; Operon.paired 1 2] []
  = OK [Operon.paired 0 2]
  /\ inside_better (st_heap (first_pass twin_A_lines))
                   (Operon.paired 1 2) (Operon.paired 0 2) = true.
Proof.
  assert (E : resolve true "" (st_heap (first_pass twin_A_lines))
                [Operon.paired 0 2; Operon.paired 1 2] []
              = OK [Operon.paired 0 2])
    by (vm_compute; reflexivity).
  split; [exact E |].
  destruct (resolve_post _ _ _ _ _ E) as (_ & _ & Hcov & _).
  destruct (Hcov (Operon.paired 1 2)) as [[K | []] | [g [[<- | []] Hg]]];
    [right; now left | discriminate K | exact Hg].
Defined.

Lemma single_hits_accounts_witness :
  exists singles,
    snd (single_hits (stage_heap lone_B_lines) (stage_hits lone_B_lines) [])
    = ([] ++ map Operon.single singles)%list
    /\ sublist singles (stage_hits lone_B_lines).
Proof.
  destruct (single_hits_accounts (stage_heap lone_B_lines)
              (fst (single_hits (stage_heap lone_B_lines)
                      (stage_hits lone_B_lines) []))
              (stage_hits lone_B_lines) []
              (snd (single_hits (stage_heap lone_B_lines)
                      (stage_hits lone_B_lines) []))
              (surjective_pairing _))
    as (singles & E & Hsub & _).
  exists singles. split; assumption.
Defined.

Lemma no_hit_reported_twice_witness :
  exists h ops,
    final_operons false true "" mixed_lines = OK (h, ops)
    /\ ops = [Operon.paired 0 1; Operon.single 2]
    /\ Operon.al1 (Operon.single 2) <> Operon.al1 (Operon.paired 0 1).
Proof.
  assert (L : match final_operons false true "" mixed_lines with
              | OK (_, ops) => ops
              | Err _ => []
              end = [Operon.paired 0 1; Operon.single 2])
    by (vm_compute; reflexivity).
  destruct (final_operons false true "" mixed_lines) as [[h ops] | e] eqn:E;
    [| discriminate L].
  exists h, ops. split; [reflexivity |]. split; [exact L |].
  refine (proj1 (no_hit_reported_twice _ _ _ _ _ (Operon.single 2)
                   (Operon.paired 0 1) E _ _ eq_refl eq_refl));
    rewrite L; simpl; auto.
Defined.

Lemma good_hits_accounted_witness :
  match hit_stage true mixed_lines, final_operons false true "" mixed_lines with
  | OK (_, goodBlastAls), OK (h, ops) =>
      exists operons,
        forall p, In p goodBlastAls ->
          In (Operon.single p) ops
          \/ (exists op, In op operons
                         /\ (Operon.al1 op = p \/ Operon.al2 op = Some p
                             \/ covered h p op = true))
          \/ (exists s, In (Operon.single s) ops
                        /\ single_covers h s p = true)
  | _, _ => False
  end.
Proof.
  destruct (hit_stage true mixed_lines) as [[h1 good] | e] eqn:Es;
    [| vm_compute in Es; discriminate].
  destruct (final_operons false true "" mixed_lines) as [[h ops] | e] eqn:E;
    [| vm_compute in E; discriminate].
  destruct (good_hits_accounted _ _ _ _ _ _ _ Es E) as (operons & _ & K).
  exists operons. exact K.
Defined.

(** The pair of class 2 with the long reference is accepted by the first
    pass, and its type cannot be resolved. *)
Lemma getStxType_fails_only_in_class2_witness :
  st_operons (first_pass long_A_lines) = [Operon.paired 0 1]
  /\ Operon.getStxType (st_heap (first_pass long_A_lines)) false
                       (Operon.paired 0 1)
     = Err (QC_ASSERT_failed "refLen <= len")
  /\ BlastAlignment.stxClass
       (Operon.first (st_heap (first_pass long_A_lines)) (Operon.paired 0 1))
     = "2"
  /\ frame_error (QC_ASSERT_failed "refLen <= len").
Proof.
  assert (E : Operon.getStxType (st_heap (first_pass long_A_lines)) false
                (Operon.paired 0 1)
              = Err (QC_ASSERT_failed "refLen <= len"))
    by (vm_compute; reflexivity).
  split; [vm_compute; reflexivity |]. split; [exact E |].
  destruct (getStxType_fails_only_in_class2 _ _ _ _ E) as (_ & C & _ & F).
  split; assumption.
Defined.

(** X28: with the checks on, a run ends without a report for one of these
    causes only: a line is rejected by the constructor or by [qc]; [merge]
    fails by one of its two length assertions; [qc] fails on a hit that the
    merger has made; [Operon::qc] fails on an operon whose hits abut; or a
    reference frame cannot be read for the row of an operon (the check of
    [refMap], a string longer than a string can be, or a character read
    outside its string: that read the program does not check, and the
    model stops where the program's behaviour is undefined).  The last
    three causes exclude one another. *)
Theorem checked_run_failures (logPtr : bool) (input_name : string)
  (lines : list Line) (e : error) :
  shellBody logPtr true input_name lines = Err e ->
  (read_hits true lines = Err e
   \/ e = ASSERT_failed "targetLen == prev. targetLen"
   \/ e = ASSERT_failed "refLen == prev. refLen"
   \/ merged_hit_error e
   \/ e = abutting_error
   \/ frame_error e)
  /\ (merged_hit_error e -> e <> abutting_error /\ ~ frame_error e)
  /\ (e = abutting_error -> ~ frame_error e).
Proof.
  intros H. split; [exact (checked_run_errors logPtr input_name lines e H) |].
  split; [exact (merged_hit_error_apart e) |].
  intros ->. exact abutting_error_apart.
Qed.

Lemma checked_run_failures_witness :
  (read_hits true abutting_lines = Err abutting_error
   \/ abutting_error = ASSERT_failed "targetLen == prev. targetLen"
   \/ abutting_error = ASSERT_failed "refLen == prev. refLen"
   \/ merged_hit_error abutting_error
   \/ abutting_error = abutting_error
   \/ frame_error abutting_error)
  /\ (merged_hit_error abutting_error ->
      abutting_error <> abutting_error /\ ~ frame_error abutting_error)
  /\ (abutting_error = abutting_error -> ~ frame_error abutting_error).
Proof.
  apply (checked_run_failures false "" abutting_lines). vm_compute.
  reflexivity.
Defined.


Lemma SFltb_key (x y : spec_float) :
  x <> S754_nan -> y <> S754_nan ->
  (SFltb x y = true <-> lex_lt (sf_key x) (sf_key y)).
Proof.
  intros Hx Hy. unfold SFltb, SFcompare, lex_lt.
  destruct x as [sx | sx | | sx mx ex], y as [sy | sy | | sy my ey];
    try congruence; simpl;
    try (destruct sx); try (destruct sy); simpl;
    try (split; [discriminate | lia]);
    try (split; [reflexivity | lia]);
    try (split; [lia | reflexivity]).
  - change (PosDef.Pos.compare_cont Eq mx my) with (Pos.compare mx my).
    destruct (Z.compare_spec ex ey); [| split; [discriminate | lia]
                                      | split; [lia | lia]].
    + destruct (Pos.compare_spec mx my); simpl; split;
        try discriminate; try lia; try reflexivity.
  - change (PosDef.Pos.compare_cont Eq mx my) with (Pos.compare mx my).
    destruct (Z.compare_spec ex ey); [| split; [lia | lia]
                                      | split; [discriminate | lia]].
    + destruct (Pos.compare_spec mx my); simpl; split;
        try discriminate; try lia; try reflexivity.
Qed.

Lemma is_number_not_nan (x : float) : is_number x -> Prim2SF x <> S754_nan.
Proof.
  unfold is_number. rewrite eqb_spec. intros H E. rewrite E in H.
  discriminate.
Qed.

Lemma SFltb_false_key (x y : spec_float) :
  x <> S754_nan -> y <> S754_nan ->
  (SFltb x y = false <-> ~ lex_lt (sf_key x) (sf_key y)).
Proof.
  intros Hx Hy. rewrite <- (SFltb_key x y Hx Hy).
  destruct (SFltb x y); split; congruence.
Qed.

Lemma float_ltb_within : strict_weak_within is_number PrimFloat.ltb.
Proof.
  constructor.
  - intros a b Da Db. rewrite !ltb_spec.
    apply is_number_not_nan in Da, Db.
    rewrite (SFltb_key _ _ Da Db), (SFltb_false_key _ _ Db Da).
    unfold lex_lt. lia.
  - intros a b c Da Db Dc. rewrite !ltb_spec.
    apply is_number_not_nan in Da, Db, Dc.
    rewrite (SFltb_false_key _ _ Db Da), (SFltb_false_key _ _ Dc Db),
            (SFltb_false_key _ _ Dc Da).
    unfold lex_lt. lia.
Qed.

Lemma strict_total_within {A K : Type} (D : A -> Prop) (lt : K -> K -> bool)
  (k : A -> K) :
  strict_total lt -> strict_weak_within D (fun a b => lt (k a) (k b)).
Proof.
  intros T. constructor.
  - intros a b _ _. apply (strict_total_asym lt T).
  - intros a b c _ _ _ H1 H2.
    destruct (lt (k c) (k a)) eqn:E; [| reflexivity].
    destruct (lt (k a) (k b)) eqn:E2.
    + rewrite (st_trans lt T _ _ _ E E2) in H2. discriminate.
    + rewrite (st_total lt T _ _ E2 H1) in E. congruence.
Qed.

Lemma strict_weak_within_flip {A : Type} (D : A -> Prop)
  (less : A -> A -> bool) :
  strict_weak_within D less -> strict_weak_within D (fun a b => less b a).
Proof.
  intros [Ha Ht]. constructor.
  - intros a b Da Db. now apply Ha.
  - intros a b c Da Db Dc H1 H2. now apply (Ht c b a).
Qed.

Lemma strict_weak_within_on {A B : Type} (D : B -> Prop) (f : A -> B)
  (less : B -> B -> bool) :
  strict_weak_within D less ->
  strict_weak_within (fun a => D (f a)) (fun a b => less (f a) (f b)).
Proof.
  intros [Ha Ht]. constructor.
  - intros a b. apply Ha.
  - intros a b c. apply Ht.
Qed.

Lemma strict_weak_within_false {A : Type} (D : A -> Prop) :
  strict_weak_within D (fun _ _ : A => false).
Proof. constructor; reflexivity. Qed.

(** A part in front of a strict weak order, its keys compared by a strict
    weak order, gives a strict weak order. *)
Lemma strict_weak_within_part {A : Type} (D : A -> Prop)
  (key next : A -> A -> bool) :
  strict_weak_within D key ->
  strict_weak_within D next ->
  strict_weak_within D
    (fun a b => if key a b then true else if key b a then false else next a b).
Proof.
  intros [Ka Kt] [Na Nt]. constructor.
  - intros a b Da Db H.
    destruct (key a b) eqn:E1.
    + now rewrite (Ka a b Da Db E1).
    + destruct (key b a) eqn:E2; [discriminate |]. now apply Na.
  - intros a b c Da Db Dc H1 H2.
    destruct (key b a) eqn:Eba; [discriminate |].
    destruct (key c b) eqn:Ecb; [discriminate |].
    rewrite (Kt a b c Da Db Dc Eba Ecb).
    destruct (key a b) eqn:Eab, (key b c) eqn:Ebc.
    + destruct (key a c) eqn:Eac; [reflexivity |].
      now rewrite (Kt b c a Db Dc Da Ecb Eac) in Eab.
    + destruct (key a c) eqn:Eac; [reflexivity |].
      now rewrite (Kt b c a Db Dc Da Ecb Eac) in Eab.
    + destruct (key a c) eqn:Eac; [reflexivity |].
      now rewrite (Kt c a b Dc Da Db Eac Eba) in Ebc.
    + destruct (key a c) eqn:Eac.
      * now rewrite (Kt c b a Dc Db Da Ebc Eab) in Eac.
      * now apply (Nt a b c).
Qed.


Lemma operon_lt_weak (h : Heap) :
  strict_weak_within (identity_is_number h) (Operon.lt h).
Proof.
  unfold Operon.lt, LESS_PART.
  apply strict_weak_within_part;
    [apply (strict_total_within _ String.ltb), strict_total_string |].
  apply strict_weak_within_part.
  { apply strict_weak_within_flip.
    exact (strict_weak_within_on is_number (Operon.getIdentity h)
             PrimFloat.ltb float_ltb_within). }
  apply strict_weak_within_part;
    [apply (strict_total_within _ bool_lt), strict_total_bool |].
  apply strict_weak_within_part;
    [apply (strict_total_within _ String.ltb), strict_total_string |].
  apply strict_weak_within_part;
    [apply (strict_total_within _ bool_lt), strict_total_bool |].
  apply strict_weak_within_part;
    [apply (strict_total_within _ String.ltb), strict_total_string |].
  apply strict_weak_within_false.
Qed.

Lemma SFleb_key (x y : spec_float) :
  x <> S754_nan -> y <> S754_nan ->
  (SFleb y x = true <-> ~ lex_lt (sf_key x) (sf_key y)).
Proof.
  intros Hx Hy. unfold SFleb, SFcompare, lex_lt.
  destruct x as [sx | sx | | sx mx ex], y as [sy | sy | | sy my ey];
    try congruence; simpl;
    try (destruct sx); try (destruct sy); simpl;
    try (split; [discriminate | lia]);
    try (split; [reflexivity | lia]);
    try (split; [lia | reflexivity]).
  - change (PosDef.Pos.compare_cont Eq my mx) with (Pos.compare my mx).
    destruct (Z.compare_spec ey ex); [| split; [discriminate | lia]
                                      | split; [lia | lia]].
    + destruct (Pos.compare_spec my mx); simpl; split;
        try discriminate; try lia; try reflexivity.
  - change (PosDef.Pos.compare_cont Eq my mx) with (Pos.compare my mx).
    destruct (Z.compare_spec ey ex); [| split; [lia | lia]
                                      | split; [discriminate | lia]].
    + destruct (Pos.compare_spec my mx); simpl; split;
        try discriminate; try lia; try reflexivity.
Qed.

(** On numbers, [! (x < y)] is [y <= x]. *)
Lemma float_not_ltb (x y : float) :
  is_number x -> is_number y ->
  PrimFloat.ltb x y = false -> PrimFloat.leb y x = true.
Proof.
  intros Dx Dy. rewrite ltb_spec, leb_spec.
  apply is_number_not_nan in Dx, Dy.
  rewrite (SFltb_false_key _ _ Dx Dy). now apply SFleb_key.
Qed.

Section SortingWithin.

Context {A : Type} (D : A -> Prop) (less : A -> A -> bool).
Hypothesis less_weak : strict_weak_within D less.

Lemma sort_insert_within (x : A) (l : list A) :
  D x -> Forall D l -> Forall D (sort_insert less x l).
Proof.
  intros Dx F. induction F as [| y l Dy F IH]; simpl;
    [now constructor |].
  destruct (less y x); constructor; auto.
Qed.

Lemma sort_within (l : list A) : Forall D l -> Forall D (sort less l).
Proof.
  induction 1 as [| x l Dx F IH]; simpl; [constructor |].
  now apply sort_insert_within.
Qed.

Lemma sort_insert_sorted_within (x : A) (l : list A) :
  D x -> Forall D l ->
  StronglySorted (may_precede less) l ->
  StronglySorted (may_precede less) (sort_insert less x l).
Proof.
  intros Dx F S. induction S as [| y l Hs IH Hy]; simpl.
  - constructor; constructor.
  - apply Forall_cons_iff in F as [Dy F].
    destruct (less y x) eqn:E.
    + constructor; [now apply IH |].
      apply Forall_sort_insert; [| exact Hy].
      now apply (sww_asym D less less_weak).
    + constructor; [now constructor |].
      constructor; [exact E |].
      rewrite Forall_forall in Hy, F |- *. intros z Hz.
      exact (sww_le_trans D less less_weak x y z Dx Dy (F z Hz) E (Hy z Hz)).
Qed.

Lemma sort_sorted_within (l : list A) :
  Forall D l -> StronglySorted (may_precede less) (sort less l).
Proof.
  induction 1 as [| x l Dx F IH]; simpl; [constructor |].
  apply sort_insert_sorted_within; [exact Dx | now apply sort_within | exact IH].
Qed.

End SortingWithin.

(** X29: on operons whose identity is a number, [Operon::operator<] is a
    strict weak order, so the sort leaves them ordered; and of two operons
    of one contig the one that the order lets come first is not less
    identical, so the identity test of the resolver holds of every
    operon visited earlier on the same contig. *)
Theorem operon_order (h : Heap) :
  strict_weak_within (identity_is_number h) (Operon.lt h)
  /\ (forall operons,
        Forall (identity_is_number h) operons ->
        StronglySorted (may_precede (Operon.lt h))
                       (sort (Operon.lt h) operons))
  /\ (forall g op,
        identity_is_number h g -> identity_is_number h op ->
        may_precede (Operon.lt h) g op ->
        BlastAlignment.targetName (Operon.first h g)
        = BlastAlignment.targetName (Operon.first h op) ->
        PrimFloat.leb (Operon.getIdentity h op) (Operon.getIdentity h g)
        = true).
Proof.
  split; [exact (operon_lt_weak h) |].
  split; [exact (sort_sorted_within _ _ (operon_lt_weak h)) |].
  intros g op Dg Dop H N. unfold may_precede, Operon.lt in H.
  rewrite N, LESS_PART_eq in H by exact strict_total_string.
  unfold LESS_PART in H.
  destruct (PrimFloat.ltb (Operon.getIdentity h g) (Operon.getIdentity h op))
    eqn:E; [discriminate |].
  now apply float_not_ltb.
Qed.
